(** * Incremental bookmark synchronisation: model and verification

    A shallow embedding of [ChromeBookmarkRepository] (the incremental
    reconciliation engine between a Raindrop collection tree and the
    browser's bookmark tree) and of the URL normaliser exercised by the
    [normalizeUrl] test suite.

    JavaScript [Map]s and plain objects used as dictionaries are finite
    maps ([gmap]); the browser's bookmark store and [chrome.storage.local]
    are fields of an explicit heap that every asynchronous call threads
    through; a rejected promise or a thrown exception is the [Throw]
    completion, which keeps every mutation made before it. *)

From Stdlib Require Import Ascii.
From stdpp Require Import gmap strings list fin_maps pretty.

Local Open Scope string_scope.
Local Open Scope list_scope.

(** ** Source-side data *)

(** [generated.Collection], as far as the engine reads it: [_id] and [title]. *)
Record Collection := mkCollection {
  coll_id : Z;
  coll_title : string
}.

(** [utils.tree.TreeNode<Collection | null>]: a payload and ordered children. *)
#[warnings="-register-all"]
Inductive TreeNode :=
  mkTreeNode (data : option Collection) (children : list TreeNode).

Definition data (t : TreeNode) : option Collection :=
  match t with mkTreeNode d _ => d end.

Definition children (t : TreeNode) : list TreeNode :=
  match t with mkTreeNode _ cs => cs end.

(** A raindrop as returned by [raindrop.getAllRaindrops]: [_id], [link],
    [title], [lastUpdate], [cover] (the empty string stands for a missing
    cover, which [rd.cover || undefined] maps to [undefined]). *)
Record Raindrop := mkRaindrop {
  rd_id : Z;
  rd_link : string;
  rd_title : string;
  rd_lastUpdate : string;
  rd_cover : string
}.

(** [client.Raindrop], reduced to the one call the engine makes.
    [None] is a rejected request. *)
Record RaindropClient := mkClient {
  getAllRaindrops : Z → option (list Raindrop)
}.

(** ** Persisted state *)

Record BookmarkState := mkBookmarkState {
  bs_url : string;
  bs_title : string;
  bs_collectionId : Z;
  bs_raindropId : Z;
  bs_lastModified : option string;
  bs_cover : option string
}.

(** A JavaScript [Date]: a time value in milliseconds, or the invalid date. *)
Inductive Date :=
  | TimeValue (ms : Z)
  | InvalidDate.

(** The text produced by [Date.prototype.toISOString], kept as the time value
    it denotes: ECMAScript fixes [Date.parse(d.toISOString())] to the time
    value of [d] for every valid [d]. *)
Inductive ISOString :=
  | ISO (ms : Z).

Record SyncState := mkSyncState {
  bookmarks : gmap string BookmarkState;
  collectionFolders : gmap Z string;
  lastSync : Date
}.

(** The object stored under the key ['syncState']: two plain objects with
    string keys and the ISO text of [lastSync]. *)
Record StoredSyncState := mkStored {
  stored_bookmarks : gmap string BookmarkState;
  stored_collectionFolders : gmap string string;
  stored_lastSync : ISOString
}.

(** ** Destination-side data *)

(** [chrome.bookmarks.BookmarkTreeNode] as handed out by the API. *)
Record BookmarkTreeNode := mkNode {
  id : string;
  parentId : option string;
  title : string;
  url : option string
}.

(** What the store keeps per id. *)
Record Bookmark := mkBookmark {
  bm_parentId : option string;
  bm_title : string;
  bm_url : option string
}.

Definition node_of (i : string) (b : Bookmark) : BookmarkTreeNode :=
  {| id := i; parentId := bm_parentId b; title := bm_title b; url := bm_url b |}.

Record Stats := mkStats {
  added : nat;
  updated : nat;
  deleted : nat;
  unchanged : nat
}.

(** ** The heap *)

(** Everything mutable that a run can reach: the bookmark store with its id
    counter, [chrome.storage.local] (with a count of [set] calls), the clock,
    the repository's [this.syncState], and the three objects a run allocates
    and mutates in place ([newBookmarks], [collectionFolders], [stats]).

    [nodes_at_write] is a ghost field, which no operation reads: the
    bookmark store as it stood when [chrome.storage.local.set] was last
    called.  It records when, among the calls that change the bookmarks, the
    state was written. *)
Record Heap := mkHeap {
  nodes : gmap string Bookmark;
  nextId : N;
  storage : option StoredSyncState;
  storage_writes : nat;
  clock : Z;
  this_syncState : option SyncState;
  newBookmarks : gmap string BookmarkState;
  newCollectionFolders : gmap Z string;
  stats : Stats;
  nodes_at_write : option (gmap string Bookmark)
}.

Definition set_nodes (f : gmap string Bookmark → gmap string Bookmark) (h : Heap) : Heap :=
  mkHeap (f (nodes h)) (nextId h) (storage h) (storage_writes h) (clock h)
         (this_syncState h) (newBookmarks h) (newCollectionFolders h) (stats h)
         (nodes_at_write h).

Definition set_nextId (n : N) (h : Heap) : Heap :=
  mkHeap (nodes h) n (storage h) (storage_writes h) (clock h)
         (this_syncState h) (newBookmarks h) (newCollectionFolders h) (stats h)
         (nodes_at_write h).

Definition set_storage (s : option StoredSyncState) (h : Heap) : Heap :=
  mkHeap (nodes h) (nextId h) s (S (storage_writes h)) (clock h)
         (this_syncState h) (newBookmarks h) (newCollectionFolders h) (stats h)
         (Some (nodes h)).

Definition set_this_syncState (s : option SyncState) (h : Heap) : Heap :=
  mkHeap (nodes h) (nextId h) (storage h) (storage_writes h) (clock h)
         s (newBookmarks h) (newCollectionFolders h) (stats h)
         (nodes_at_write h).

Definition set_newBookmarks (m : gmap string BookmarkState) (h : Heap) : Heap :=
  mkHeap (nodes h) (nextId h) (storage h) (storage_writes h) (clock h)
         (this_syncState h) m (newCollectionFolders h) (stats h) (nodes_at_write h).

Definition set_newCollectionFolders (m : gmap Z string) (h : Heap) : Heap :=
  mkHeap (nodes h) (nextId h) (storage h) (storage_writes h) (clock h)
         (this_syncState h) (newBookmarks h) m (stats h) (nodes_at_write h).

Definition set_stats (s : Stats) (h : Heap) : Heap :=
  mkHeap (nodes h) (nextId h) (storage h) (storage_writes h) (clock h)
         (this_syncState h) (newBookmarks h) (newCollectionFolders h) s
         (nodes_at_write h).

(** ** Completions and the run monad *)

Inductive Completion (A : Type) :=
  | Return (a : A)
  | Throw.
Arguments Return {A} a.
Arguments Throw {A}.

Definition M (A : Type) : Type := Heap → Heap * Completion A.

Definition ret {A} (a : A) : M A := λ h, (h, Return a).

Definition throw {A} : M A := λ h, (h, Throw).

Definition bind {A B} (m : M A) (k : A → M B) : M B :=
  λ h, match m h with
       | (h', Return a) => k a h'
       | (h', Throw) => (h', Throw)
       end.

Notation "'let*' x ':=' m 'in' k" := (bind m (λ x, k))
  (at level 10, x pattern, m at level 100, k at level 200).

(** [try { m } catch { handler }]: the handler runs on the heap as the
    failing statement left it. *)
Definition try_catch {A} (m : M A) (handler : M A) : M A :=
  λ h, match m h with
       | (h', Return a) => (h', Return a)
       | (h', Throw) => handler h'
       end.

(** [for (const x of l) body(x)]: sequential, stops at the first throw. *)
Definition for_of {A} (body : A → M unit) : list A → M unit :=
  fix go (l : list A) : M unit :=
    match l with
    | [] => ret tt
    | x :: l' => let* _ := body x in go l'
    end.

Definition modify (f : Heap → Heap) : M unit := λ h, (f h, Return tt).

(** ** JavaScript truthiness *)

(** A string is truthy when it is not empty; [undefined] is falsy. *)
Definition truthy (s : string) : bool := negb (bool_decide (s = "")).

Definition truthy_opt (o : option string) : bool :=
  match o with Some s => truthy s | None => false end.

(** ** The bookmark store ([chrome.bookmarks]), as an in-memory store

    Ids are the decimal numerals of a counter.  A call is rejected when an id
    it names is not in the store, when the parent of a creation or move is
    not a folder, when a bookmark is created with the empty URL (the one
    invalid URL the store knows), or when a removal targets a folder that
    still has children. *)

Definition is_folder (h : Heap) (i : string) : bool :=
  match nodes h !! i with
  | Some b => match bm_url b with None => true | Some _ => false end
  | None => false
  end.

Definition chrome_bookmarks_create (parent : string) (t : string) (u : option string)
  : M BookmarkTreeNode :=
  λ h, if is_folder h parent && negb (bool_decide (u = Some "")) then
         let i := pretty (nextId h) in
         let b := {| bm_parentId := Some parent; bm_title := t; bm_url := u |} in
         (set_nextId (nextId h + 1)%N (set_nodes (insert i b) h), Return (node_of i b))
       else (h, Throw).

Definition chrome_bookmarks_getSubTree (i : string) : M (list BookmarkTreeNode) :=
  λ h, match nodes h !! i with
       | Some b => (h, Return [node_of i b])
       | None => (h, Throw)
       end.

Definition search_nodes (P : Bookmark → bool) (m : gmap string Bookmark)
  : list BookmarkTreeNode :=
  (λ kv, node_of kv.1 kv.2) <$> filter (λ kv, P kv.2 = true) (map_to_list m).

Definition chrome_bookmarks_getChildren (i : string) : M (list BookmarkTreeNode) :=
  λ h, if is_folder h i then
         (h, Return (search_nodes (λ b, bool_decide (bm_parentId b = Some i)) (nodes h)))
       else (h, Throw).

Definition chrome_bookmarks_search (u : string) : M (list BookmarkTreeNode) :=
  λ h, (h, Return (search_nodes (λ b, bool_decide (bm_url b = Some u)) (nodes h))).

Definition chrome_bookmarks_update (i : string) (t : string) : M unit :=
  λ h, match nodes h !! i with
       | Some b =>
           (set_nodes (insert i {| bm_parentId := bm_parentId b; bm_title := t;
                                   bm_url := bm_url b |}) h, Return tt)
       | None => (h, Throw)
       end.

Definition chrome_bookmarks_move (i : string) (parent : string) : M unit :=
  λ h, match nodes h !! i with
       | Some b =>
           if is_folder h parent then
             (set_nodes (insert i {| bm_parentId := Some parent; bm_title := bm_title b;
                                     bm_url := bm_url b |}) h, Return tt)
           else (h, Throw)
       | None => (h, Throw)
       end.

Definition has_children (h : Heap) (i : string) : bool :=
  match search_nodes (λ b, bool_decide (bm_parentId b = Some i)) (nodes h) with
  | [] => false
  | _ :: _ => true
  end.

Definition chrome_bookmarks_remove (i : string) : M unit :=
  λ h, match nodes h !! i with
       | Some b =>
           if has_children h i then (h, Throw)
           else (set_nodes (delete i) h, Return tt)
       | None => (h, Throw)
       end.

(** ** [chrome.storage.local], key ['syncState'] *)

Definition chrome_storage_local_get : M (option StoredSyncState) :=
  λ h, (h, Return (storage h)).

Definition chrome_storage_local_set (s : StoredSyncState) : M unit :=
  modify (set_storage (Some s)).

(** ** Number-to-string and [parseInt]

    Collection ids are JavaScript Numbers with an integer value, modelled by
    that integer.  Every integer of magnitude at most
    [Number.MAX_SAFE_INTEGER] is a Number; beyond it the Numbers are the
    integers with 53 significant bits, and an integer stands for the Number
    nearest to it (an integer of magnitude [2^1024] or more, for an
    infinity).

    [Number::toString] (ECMA-262, radix 10) of a safe integer is its decimal
    numeral with a leading ["-"] when negative, which is [pretty] on [Z].
    For a larger Number [x] it takes integers [n], [k], [s] with
    [10^(k-1) ≤ s < 10^k], such that [s × 10^(n-k)] reads back as [x] and
    [k] is as small as possible (the closest such [s], the even one on a
    tie), and writes the digits of [s] followed by [n - k] zeros when
    [n ≤ 21], and in exponent form, ["d.ddde+N"], when [n > 21].

    [parseInt] without a radix skips leading white space, reads an optional
    sign, switches to radix 16 after a [0x] or [0X] prefix, and reads the
    longest run of digits; with no digit the result is [NaN], here [None]. *)

Definition MAX_SAFE_INTEGER : Z := (2 ^ 53 - 1)%Z.

Definition safe_integer (n : Z) : Prop :=
  (- MAX_SAFE_INTEGER ≤ n ≤ MAX_SAFE_INTEGER)%Z.

(** The Number nearest to a positive integer: 53 significant bits, ties to
    the even significand. *)
Definition nearest_Number (x : Z) : Z :=
  let e := (Z.log2 x - 52)%Z in
  if (e <=? 0)%Z then x
  else
    let u := (2 ^ e)%Z in
    let q := (x / u)%Z in
    let r := (x mod u)%Z in
    if (2 * r <? u)%Z then (q * u)%Z
    else if (u <? 2 * r)%Z then ((q + 1) * u)%Z
    else if Z.even q then (q * u)%Z else ((q + 1) * u)%Z.

(** The number of decimal digits of a positive integer. *)
Definition decimal_digits (x : Z) : Z := Z.of_nat (String.length (pretty x)).

(** The [s] of [k] digits for the Number [x] of [n] digits, if there is
    one, with the [n] that goes with it: rounding up to [10^k] gives the
    one digit [1] of a number with one more digit. *)
Definition digits_with (x n : Z) (k : Z) : option (Z * Z) :=
  let p := (10 ^ (n - k))%Z in
  let lo := (x / p)%Z in
  let hi := (lo + 1)%Z in
  let ok_lo := bool_decide (nearest_Number (lo * p) = x) in
  let ok_hi := bool_decide (nearest_Number (hi * p) = x) in
  let pick (s : Z) := if bool_decide (s = 10 ^ k)%Z then ((10 ^ (k - 1))%Z, (n + 1)%Z)
                      else (s, n) in
  match ok_lo, ok_hi with
  | true, true =>
      let below := (x - lo * p)%Z in
      let above := (hi * p - x)%Z in
      Some (pick (if (below <? above)%Z then lo
                  else if (above <? below)%Z then hi
                  else if Z.even lo then lo else hi))
  | true, false => Some (pick lo)
  | false, true => Some (pick hi)
  | false, false => None
  end.

(** The shortest [s], and its [n]: a Number needs at most 17 digits. *)
Definition shortest_digits (x : Z) : Z * Z :=
  let n := decimal_digits x in
  default (x, n) (list_find (λ o : option (Z * Z), is_Some o)
                            (digits_with x n <$> (Z.of_nat <$> seq 1 17))
                  ≫= snd).

Definition Number_toString (z : Z) : string :=
  if bool_decide (safe_integer z) then pretty z
  else
    let x := nearest_Number (Z.abs z) in
    (if (z <? 0)%Z then "-" else "")
    +:+ (if (2 ^ 1024 <=? x)%Z then "Infinity"
         else
           let '(s, n) := shortest_digits x in
           let k := decimal_digits s in
           if (n <=? 21)%Z then
             pretty s +:+ String.concat "" (replicate (Z.to_nat (n - k)) "0")
           else
             match pretty s with
             | String d rest =>
                 String d (if (k =? 1)%Z then "" else "." +:+ rest)
                 +:+ "e+" +:+ pretty (n - 1)%Z
             | EmptyString => ""
             end).

Definition is_white_space (a : ascii) : bool :=
  let n := N_of_ascii a in
  bool_decide (n = 9 ∨ n = 10 ∨ n = 11 ∨ n = 12 ∨ n = 13 ∨ n = 32)%N.

Fixpoint skip_white_space (s : string) : string :=
  match s with
  | String a s' => if is_white_space a then skip_white_space s' else s
  | EmptyString => s
  end.

Definition digit_value (a : ascii) : option N :=
  let n := N_of_ascii a in
  if bool_decide (48 ≤ n ≤ 57)%N then Some (n - 48)%N
  else if bool_decide (97 ≤ n ≤ 122)%N then Some (n - 87)%N
  else if bool_decide (65 ≤ n ≤ 90)%N then Some (n - 55)%N
  else None.

Definition radix_digit (radix : N) (a : ascii) : option N :=
  match digit_value a with
  | Some d => if bool_decide (d < radix)%N then Some d else None
  | None => None
  end.

Fixpoint parse_digits (radix : N) (s : string) (acc : N) : N :=
  match s with
  | String a s' =>
      match radix_digit radix a with
      | Some d => parse_digits radix s' (acc * radix + d)%N
      | None => acc
      end
  | EmptyString => acc
  end.

Definition parse_number (radix : N) (s : string) : option N :=
  match s with
  | String a _ =>
      match radix_digit radix a with
      | Some _ => Some (parse_digits radix s 0)
      | None => None
      end
  | EmptyString => None
  end.

Definition strip_sign (s : string) : Z * string :=
  match s with
  | String "-"%char s' => ((-1)%Z, s')
  | String "+"%char s' => (1%Z, s')
  | _ => (1%Z, s)
  end.

Definition strip_hex_prefix (s : string) : N * string :=
  match s with
  | String "0"%char (String "x"%char s') => (16%N, s')
  | String "0"%char (String "X"%char s') => (16%N, s')
  | _ => (10%N, s)
  end.

(** The result is a Number: the one nearest to the integer that was read. *)
Definition parseInt (s : string) : option Z :=
  let '(sign, s1) := strip_sign (skip_white_space s) in
  let '(radix, s2) := strip_hex_prefix s1 in
  (λ n, sign * nearest_Number (Z.of_N n))%Z <$> parse_number radix s2.

(** ** Dates *)

(** [Date.prototype.toISOString]: a [RangeError] on the invalid date. *)
Definition Date_toISOString (d : Date) : M ISOString :=
  match d with
  | TimeValue ms => ret (ISO ms)
  | InvalidDate => throw
  end.

(** [new Date(isoText)]. *)
Definition Date_of_ISOString (s : ISOString) : Date :=
  match s with ISO ms => TimeValue ms end.

(** [new Date()]. *)
Definition Date_now : M Date := λ h, (h, Return (TimeValue (clock h))).

(** ** The repository *)

Definition findFolderById (i : string) : M (option BookmarkTreeNode) :=
  let* subtree := chrome_bookmarks_getSubTree i in
  ret (head subtree).

Definition getFolderById (i : string) : M BookmarkTreeNode :=
  let* folder := findFolderById i in
  match folder with
  | Some f => ret f
  | None => throw
  end.

(** [new Map(Object.entries(o).map(([k, v]) => [parseInt(k), v]))]; an entry
    whose key parses to [NaN] can be reached by no integer id and is left
    out. *)
Definition parse_keys (o : gmap string string) : gmap Z string :=
  list_to_map (omap (λ kv, (λ k, (k, kv.2)) <$> parseInt kv.1) (map_to_list o)).

Definition loadSyncState : M (option SyncState) :=
  let* result := chrome_storage_local_get in
  match result with
  | Some s =>
      ret (Some {| bookmarks := stored_bookmarks s;
                   collectionFolders := parse_keys (stored_collectionFolders s);
                   lastSync := Date_of_ISOString (stored_lastSync s) |})
  | None => ret None
  end.

(** [Object.fromEntries] of a [Map<number, string>] turns each key into its
    string. *)
Definition saveSyncState (state : SyncState) : M unit :=
  let* iso := Date_toISOString (lastSync state) in
  let* _ := chrome_storage_local_set
              {| stored_bookmarks := bookmarks state;
                 stored_collectionFolders := kmap Number_toString (collectionFolders state);
                 stored_lastSync := iso |} in
  modify (set_this_syncState (Some state)).

(** [stats.added++] and its siblings. *)
Definition incr_added (s : Stats) : Stats :=
  mkStats (S (added s)) (updated s) (deleted s) (unchanged s).

Definition incr_updated (s : Stats) : Stats :=
  mkStats (added s) (S (updated s)) (deleted s) (unchanged s).

Definition incr_deleted (s : Stats) : Stats :=
  mkStats (added s) (updated s) (S (deleted s)) (unchanged s).

Definition incr_unchanged (s : Stats) : Stats :=
  mkStats (added s) (updated s) (deleted s) (S (unchanged s)).

Definition stats_added_incr : M unit :=
  modify (λ h, set_stats (incr_added (stats h)) h).

Definition stats_updated_incr : M unit :=
  modify (λ h, set_stats (incr_updated (stats h)) h).

Definition stats_deleted_incr : M unit :=
  modify (λ h, set_stats (incr_deleted (stats h)) h).

Definition stats_unchanged_incr : M unit :=
  modify (λ h, set_stats (incr_unchanged (stats h)) h).

Definition newBookmarks_set (k : string) (v : BookmarkState) : M unit :=
  modify (λ h, set_newBookmarks (<[k:=v]> (newBookmarks h)) h).

Definition collectionFolders_set (k : Z) (v : string) : M unit :=
  modify (λ h, set_newCollectionFolders (<[k:=v]> (newCollectionFolders h)) h).

Definition collectionFolders_get (k : Z) : M (option string) :=
  λ h, (h, Return (newCollectionFolders h !! k)).

Definition newBookmarks_has (k : string) : M bool :=
  λ h, (h, Return (bool_decide (is_Some (newBookmarks h !! k)))).

Definition raindrop_getAllRaindrops (c : RaindropClient) (collectionId : Z)
  : M (list Raindrop) :=
  match getAllRaindrops c collectionId with
  | Some l => ret l
  | None => throw
  end.

Definition UNSORTED_ID : Z := (-1)%Z.

(** [tree.data?._id ?? -1] *)
Definition collectionId_of (d : option Collection) : Z :=
  match d with Some c => coll_id c | None => (-1)%Z end.

(** [tree.data?.title], with [undefined] read as the empty string: the code
    only tests it for truthiness and, when truthy, uses it as the title. *)
Definition title_of (d : option Collection) : string :=
  match d with Some c => coll_title c | None => "" end.

Definition bookmarkState_of (collectionId : Z) (rd : Raindrop) : BookmarkState :=
  {| bs_url := rd_link rd;
     bs_title := rd_title rd;
     bs_collectionId := collectionId;
     bs_raindropId := rd_id rd;
     bs_lastModified := Some (rd_lastUpdate rd);
     bs_cover := if truthy (rd_cover rd) then Some (rd_cover rd) else None |}.

(** Lines 219-242 of the repository: find or create the folder of a
    collection node, and record it. *)
Definition resolveFolder (parentFolder : BookmarkTreeNode) (d : option Collection)
  : M BookmarkTreeNode :=
  let collectionId := collectionId_of d in
  if truthy (title_of d) then
    let* existingFolderId := collectionFolders_get collectionId in
    let* folder :=
      (if truthy_opt existingFolderId then
         try_catch (getFolderById (default "" existingFolderId))
                   (chrome_bookmarks_create (id parentFolder) (title_of d) None)
       else chrome_bookmarks_create (id parentFolder) (title_of d) None) in
    let* _ := collectionFolders_set collectionId (id folder) in
    ret folder
  else ret parentFolder.

(** Lines 270-279: the update branch's loop over the search results. *)
Definition updateResult (folder : BookmarkTreeNode) (collectionId : Z)
    (previous : BookmarkState) (rd : Raindrop) (bm : BookmarkTreeNode) : M unit :=
  if truthy_opt (parentId bm) then
    let* _ := chrome_bookmarks_update (id bm) (rd_title rd) in
    if bool_decide (bs_collectionId previous ≠ collectionId) then
      chrome_bookmarks_move (id bm) (id folder)
    else ret tt
  else ret tt.

(** Lines 248-284: the body of the loop over a collection's raindrops. *)
Definition processRaindrop (folder : BookmarkTreeNode) (collectionId : Z)
    (previousBookmarks : gmap string BookmarkState) (rd : Raindrop) : M unit :=
  let* _ := newBookmarks_set (rd_link rd) (bookmarkState_of collectionId rd) in
  match previousBookmarks !! rd_link rd with
  | None =>
      let* _ := chrome_bookmarks_create (id folder) (rd_title rd) (Some (rd_link rd)) in
      stats_added_incr
  | Some previous =>
      if bool_decide (bs_title previous ≠ rd_title rd)
         || bool_decide (bs_collectionId previous ≠ collectionId) then
        let* results := chrome_bookmarks_search (rd_link rd) in
        let* _ := for_of (updateResult folder collectionId previous rd) results in
        stats_updated_incr
      else stats_unchanged_incr
  end.

Fixpoint processCollectionForIncremental (raindropClient : RaindropClient)
    (previousBookmarks : gmap string BookmarkState)
    (parentFolder : BookmarkTreeNode) (tree : TreeNode) {struct tree} : M unit :=
  match tree with
  | mkTreeNode d cs =>
      let collectionId := collectionId_of d in
      let* folder := resolveFolder parentFolder d in
      let* raindrops := raindrop_getAllRaindrops raindropClient collectionId in
      let* _ := for_of (processRaindrop folder collectionId previousBookmarks) raindrops in
      for_of (processCollectionForIncremental raindropClient previousBookmarks folder) cs
  end.

(** The title of the folder of the unsorted collection, as the literal of
    lines 323, 329 and 336 has it, byte for byte. *)
Definition UNSORTED_TITLE : string := "ðŸ“¥ Unsorted".

(** Lines 347-378: the body of the loop over the unsorted raindrops. *)
Definition processUnsortedRaindrop (unsortedFolder : BookmarkTreeNode)
    (previousBookmarks : gmap string BookmarkState) (rd : Raindrop) : M unit :=
  let* seen := newBookmarks_has (rd_link rd) in
  if seen then ret tt
  else
    let* _ := newBookmarks_set (rd_link rd) (bookmarkState_of UNSORTED_ID rd) in
    match previousBookmarks !! rd_link rd with
    | None =>
        let* _ := chrome_bookmarks_create (id unsortedFolder) (rd_title rd)
                                          (Some (rd_link rd)) in
        stats_added_incr
    | Some previous =>
        if bool_decide (bs_title previous ≠ rd_title rd) then
          let* results := chrome_bookmarks_search (rd_link rd) in
          let* _ := for_of (λ bm, chrome_bookmarks_update (id bm) (rd_title rd)) results in
          stats_updated_incr
        else stats_unchanged_incr
    end.

Definition syncUnsortedCollection (baseFolder : BookmarkTreeNode)
    (raindropClient : RaindropClient)
    (previousBookmarks : gmap string BookmarkState) : M unit :=
  let* existingFolderId := collectionFolders_get UNSORTED_ID in
  let* unsortedFolder :=
    (if truthy_opt existingFolderId then
       try_catch (getFolderById (default "" existingFolderId))
                 (chrome_bookmarks_create (id baseFolder) UNSORTED_TITLE None)
     else
       let* children := chrome_bookmarks_getChildren (id baseFolder) in
       match List.find (λ c, bool_decide (title c = UNSORTED_TITLE)
                             && negb (truthy_opt (url c))) children with
       | Some existing => ret existing
       | None => chrome_bookmarks_create (id baseFolder) UNSORTED_TITLE None
       end) in
  let* _ := collectionFolders_set UNSORTED_ID (id unsortedFolder) in
  try_catch
    (let* raindrops := raindrop_getAllRaindrops raindropClient UNSORTED_ID in
     for_of (processUnsortedRaindrop unsortedFolder previousBookmarks) raindrops)
    (ret tt).

(** The stub of lines 387-390. *)
Definition isInSyncFolder (folderId syncFolderId : string) : bool := true.

(** Lines 182-187: remove the search results of one stale URL. *)
Definition deleteResult (baseFolder : BookmarkTreeNode) (bm : BookmarkTreeNode) : M unit :=
  if truthy_opt (parentId bm)
     && isInSyncFolder (default "" (parentId bm)) (id baseFolder) then
    let* _ := chrome_bookmarks_remove (id bm) in
    stats_deleted_incr
  else ret tt.

(** Lines 177-192: the body of the deletion loop. *)
Definition deleteStale (baseFolder : BookmarkTreeNode) (u : string) : M unit :=
  let* present := newBookmarks_has u in
  if present then ret tt
  else
    try_catch
      (let* results := chrome_bookmarks_search u in
       for_of (deleteResult baseFolder) results)
      (ret tt).

Record Opts := mkOpts {
  baseFolder : BookmarkTreeNode;
  tree : TreeNode;
  raindropClient : RaindropClient;
  includeUnsorted : option bool
}.

Definition get_newBookmarks : M (gmap string BookmarkState) :=
  λ h, (h, Return (newBookmarks h)).

Definition get_newCollectionFolders : M (gmap Z string) :=
  λ h, (h, Return (newCollectionFolders h)).

Definition get_stats : M Stats := λ h, (h, Return (stats h)).

(** The deletion loop iterates over the keys of [previousBookmarks]; the
    model visits them in the order of [map_to_list].  Two different keys
    lead to searches for different URLs, hence to disjoint sets of
    bookmarks. *)
Definition incrementalSync (opts : Opts) : M Stats :=
  let* _ := modify (set_stats (mkStats 0 0 0 0)) in
  let* previousState := loadSyncState in
  let previousBookmarks := default ∅ (bookmarks <$> previousState) in
  let* _ := modify (set_newBookmarks ∅) in
  let* _ := modify (set_newCollectionFolders ∅) in
  let* _ := processCollectionForIncremental (raindropClient opts) previousBookmarks
              (baseFolder opts) (tree opts) in
  let* _ := (if bool_decide (includeUnsorted opts ≠ Some false) then
               syncUnsortedCollection (baseFolder opts) (raindropClient opts)
                                      previousBookmarks
             else ret tt) in
  let* _ := for_of (deleteStale (baseFolder opts)) (map_to_list previousBookmarks).*1 in
  let* newB := get_newBookmarks in
  let* newF := get_newCollectionFolders in
  let* now := Date_now in
  let* _ := saveSyncState {| bookmarks := newB; collectionFolders := newF; lastSync := now |} in
  get_stats.

(** ** Queries on the persisted state (lines 458-505) *)

(** [getRaindropIdForUrl]: [bookmark?.raindropId ?? null]. *)
Definition getRaindropIdForUrl (u : string) : M (option Z) :=
  let* state := loadSyncState in
  match state with
  | None => ret None
  | Some st => ret (bs_raindropId <$> bookmarks st !! u)
  end.

(** [getCoverForUrl]: [bookmark?.cover ?? null]. *)
Definition getCoverForUrl (u : string) : M (option string) :=
  let* state := loadSyncState in
  match state with
  | None => ret None
  | Some st => ret (bookmarks st !! u ≫= bs_cover)
  end.

(** A JavaScript [Map] is iterated in insertion order, which the finite maps
    of this model do not record.  The two queries that iterate over a loaded
    map take the order in which a map lists its entries as a parameter,
    [Map_entries]; what is proved about them assumes no more of it than
    that it lists every entry once. *)
Definition MapOrder : Type :=
  ∀ K (EqK : EqDecision K) (CountK : Countable K) V, gmap K V → list (K * V).

Section iteration.
Context (Map_entries : MapOrder).

(** [getCollectionIdForFolder]: the first collection, in the order of the
    loaded map, that is recorded with the folder. *)
Definition getCollectionIdForFolder (folderId : string) : M (option Z) :=
  let* state := loadSyncState in
  match state with
  | None => ret None
  | Some st =>
      ret (fst <$> List.find (λ kv : Z * string, bool_decide (kv.2 = folderId))
                             (Map_entries _ _ _ _ (collectionFolders st)))
  end.

(** [getAllBookmarksWithCovers]:
    [Array.from(state.bookmarks.values()).filter(b => b.cover)]. *)
Definition getAllBookmarksWithCovers : M (list BookmarkState) :=
  let* state := loadSyncState in
  match state with
  | None => ret []
  | Some st =>
      ret (filter (λ b, truthy_opt (bs_cover b) = true)
                  (Map_entries _ _ _ _ (bookmarks st)).*2)
  end.

End iteration.

(** The order of [map_to_list], to run the queries with. *)
Definition in_stored_order : MapOrder := λ K EqK CountK V m, map_to_list m.

(** ** Browser change listeners (lines 404-456) *)

(** The payloads of the four bookmark events. *)
Record BookmarkRemoveInfo := mkRemoveInfo {
  ri_index : Z;
  ri_node : BookmarkTreeNode;
  ri_parentId : string
}.

Record BookmarkChangeInfo := mkChangeInfo {
  ci_title : string;
  ci_url : option string
}.

Record BookmarkMoveInfo := mkMoveInfo {
  mi_index : Z;
  mi_oldIndex : Z;
  mi_oldParentId : string;
  mi_parentId : string
}.

(** [BrowserBookmarkChange] (lines 509-513). *)
Inductive BrowserBookmarkChange :=
  | change_created (bookmark : BookmarkTreeNode)
  | change_removed (i : string) (removeInfo : BookmarkRemoveInfo)
  | change_changed (i : string) (changeInfo : BookmarkChangeInfo)
  | change_moved (i : string) (moveInfo : BookmarkMoveInfo).

(** What the browser fires, with the arguments it hands to a listener. *)
Inductive BookmarkEvent :=
  | fired_onCreated (i : string) (bookmark : BookmarkTreeNode)
  | fired_onRemoved (i : string) (removeInfo : BookmarkRemoveInfo)
  | fired_onChanged (i : string) (changeInfo : BookmarkChangeInfo)
  | fired_onMoved (i : string) (moveInfo : BookmarkMoveInfo).

Inductive EventKind := onCreated | onRemoved | onChanged | onMoved.

#[global] Instance EventKind_eq_dec : EqDecision EventKind.
Proof. solve_decision. Defined.

Definition kind_of (e : BookmarkEvent) : EventKind :=
  match e with
  | fired_onCreated _ _ => onCreated
  | fired_onRemoved _ _ => onRemoved
  | fired_onChanged _ _ => onChanged
  | fired_onMoved _ _ => onMoved
  end.

Section listeners.
(** The callbacks handed to [startBrowserChangeListener] are opaque; a call
    of one is recorded, with its argument, in the order the calls happen. *)
Context {Callback : Type}.

(** A listener function of lines 412-428: a function object, known by the
    number of its allocation, that closes over [callback]. *)
Record Listener := mkListener {
  function_id : nat;
  captured : Callback
}.

(** The four events with their registered listeners, the counter of
    function objects, the two fields of the repository (a cleanup function
    of lines 437-440 is the event and the listener it closes over), and the
    calls of callbacks so far. *)
Record Browser := mkBrowser {
  registered : EventKind → list Listener;
  next_function : nat;
  this_browserChangeListeners : list (EventKind * Listener);
  this_onBrowserChange : option Callback;
  called : list (Callback * BrowserBookmarkChange)
}.

(** [event.addListener(f)]. *)
Definition addListener (k : EventKind) (l : Listener) (b : Browser) : Browser :=
  mkBrowser (λ k', if decide (k' = k) then registered b k' ++ [l] else registered b k')
            (next_function b) (this_browserChangeListeners b) (this_onBrowserChange b)
            (called b).

(** [event.removeListener(f)]: by the identity of the function. *)
Definition removeListener (k : EventKind) (l : Listener) (b : Browser) : Browser :=
  mkBrowser (λ k', if decide (k' = k)
                   then filter (λ l', function_id l' ≠ function_id l) (registered b k')
                   else registered b k')
            (next_function b) (this_browserChangeListeners b) (this_onBrowserChange b)
            (called b).

(** A function expression evaluated: a new function object. *)
Definition new_function (callback : Callback) (b : Browser) : Listener * Browser :=
  (mkListener (next_function b) callback,
   mkBrowser (registered b) (S (next_function b)) (this_browserChangeListeners b)
             (this_onBrowserChange b) (called b)).

Definition startBrowserChangeListener (callback : Callback) (b : Browser) : Browser :=
  let b := mkBrowser (registered b) (next_function b) (this_browserChangeListeners b)
                     (Some callback) (called b) in
  let '(onCreated_f, b) := new_function callback b in
  let '(onRemoved_f, b) := new_function callback b in
  let '(onChanged_f, b) := new_function callback b in
  let '(onMoved_f, b) := new_function callback b in
  let b := addListener onCreated onCreated_f b in
  let b := addListener onRemoved onRemoved_f b in
  let b := addListener onChanged onChanged_f b in
  let b := addListener onMoved onMoved_f b in
  mkBrowser (registered b) (next_function b)
            [(onCreated, onCreated_f); (onRemoved, onRemoved_f);
             (onChanged, onChanged_f); (onMoved, onMoved_f)]
            (this_onBrowserChange b) (called b).

Definition stopBrowserChangeListener (b : Browser) : Browser :=
  let b := foldl (λ b cleanup, removeListener cleanup.1 cleanup.2 b) b
                 (this_browserChangeListeners b) in
  mkBrowser (registered b) (next_function b) [] None (called b).

(** What a listener of lines 412-428 passes on: everything but the creation
    of a node without a URL, a folder. *)
Definition change_of (e : BookmarkEvent) : option BrowserBookmarkChange :=
  match e with
  | fired_onCreated i bookmark =>
      if truthy_opt (url bookmark) then Some (change_created bookmark) else None
  | fired_onRemoved i removeInfo => Some (change_removed i removeInfo)
  | fired_onChanged i changeInfo => Some (change_changed i changeInfo)
  | fired_onMoved i moveInfo => Some (change_moved i moveInfo)
  end.

(** The browser fires an event: the listeners registered for it run, in the
    order of their registration. *)
Definition run_listener (e : BookmarkEvent) (b : Browser) (l : Listener) : Browser :=
  match change_of e with
  | Some change =>
      mkBrowser (registered b) (next_function b) (this_browserChangeListeners b)
                (this_onBrowserChange b) (called b ++ [(captured l, change)])
  | None => b
  end.

Definition fire (b : Browser) (e : BookmarkEvent) : Browser :=
  foldl (run_listener e) b (registered b (kind_of e)).

Definition fire_all (events : list BookmarkEvent) (b : Browser) : Browser :=
  foldl fire b events.

End listeners.

Arguments Listener : clear implicits.
Arguments Browser : clear implicits.

(** ** URL normalisation *)

(** Modelled from the spec: [normalizeUrl] lives in the module [./string],
    which is not among the sources; only its test suite is.  Section 4.2
    gives the contract: trim leading and trailing white space, strip exactly
    one trailing slash, then escape every backslash and then every forward
    slash with a single backslash.  Strings are byte strings; white space is
    the ASCII white space that [String.prototype.trim] removes. *)

Fixpoint trim_end (s : string) : string :=
  match s with
  | EmptyString => EmptyString
  | String a s' =>
      match trim_end s' with
      | EmptyString => if is_white_space a then EmptyString else String a EmptyString
      | t => String a t
      end
  end.

Definition trim (s : string) : string := trim_end (skip_white_space s).

Fixpoint strip_trailing_slash (s : string) : string :=
  match s with
  | EmptyString => EmptyString
  | String a EmptyString => if bool_decide (a = "/"%char) then EmptyString else s
  | String a s' => String a (strip_trailing_slash s')
  end.

Fixpoint escape_char (c : ascii) (s : string) : string :=
  match s with
  | EmptyString => EmptyString
  | String a s' =>
      if bool_decide (a = c) then String "\"%char (String a (escape_char c s'))
      else String a (escape_char c s')
  end.

Definition normalizeUrl (s : string) : string :=
  escape_char "/"%char (escape_char "\"%char (strip_trailing_slash (trim s))).

(** ** Specifications of runs *)

(** [triple P m Q E]: started on a heap satisfying [P], [m] either returns
    [a] on a heap satisfying [Q a] or throws on a heap satisfying [E]. *)
Definition triple {A} (P : Heap → Prop) (m : M A) (Q : A → Heap → Prop)
    (E : Heap → Prop) : Prop :=
  ∀ h, P h →
    match m h with
    | (h', Return a) => Q a h'
    | (h', Throw) => E h'
    end.

(** The raindrops the tree walk meets, in the order it meets them, each with
    the payload of the collection node it is listed under. *)
Fixpoint items_of (c : RaindropClient) (t : TreeNode)
  : list (option Collection * Raindrop) :=
  match t with
  | mkTreeNode d cs =>
      ((λ rd, (d, rd)) <$> default [] (getAllRaindrops c (collectionId_of d)))
      ++ flat_map (items_of c) cs
  end.

(** Every listing request of the walk is answered. *)
Fixpoint fetches_ok (c : RaindropClient) (t : TreeNode) : bool :=
  match t with
  | mkTreeNode d cs =>
      bool_decide (is_Some (getAllRaindrops c (collectionId_of d)))
      && forallb (fetches_ok c) cs
  end.

(** The ids in the store were issued by the counter, and no stored URL is
    empty. *)
Definition wf (h : Heap) : Prop :=
  (∀ i, is_Some (nodes h !! i) → ∃ k : N, (k < nextId h)%N ∧ i = pretty k)
  ∧ (∀ i b, nodes h !! i = Some b → bm_url b ≠ Some "").

(** [keeps U h h']: every node of [h] whose URL is not in [U] (folders have
    none) is in [h'] as it was. *)
Definition keeps (U : string → Prop) (h h' : Heap) : Prop :=
  ∀ i b, nodes h !! i = Some b → (∀ u, bm_url b = Some u → ¬ U u) →
         nodes h' !! i = Some b.

(** Storage, clock and the repository's cached state are as they were. *)
Definition static (h h' : Heap) : Prop :=
  storage h' = storage h ∧ storage_writes h' = storage_writes h
  ∧ clock h' = clock h ∧ this_syncState h' = this_syncState h.

(** The objects of the run are as they were. *)
Definition locals_same (h h' : Heap) : Prop :=
  newBookmarks h' = newBookmarks h
  ∧ newCollectionFolders h' = newCollectionFolders h
  ∧ stats h' = stats h.

(** A step that keeps the store well formed and touches only bookmarks
    whose URL is in [U]. *)
Definition safe (U : string → Prop) (h h' : Heap) : Prop :=
  static h h' ∧ (wf h → wf h' ∧ keeps U h h').

(** Every node of [h] is still in [h'], with the URL it had. *)
Definition same_urls (h h' : Heap) : Prop :=
  ∀ j b, nodes h !! j = Some b → ∃ b', nodes h' !! j = Some b' ∧ bm_url b' = bm_url b.

(** The search results [results] for the URL [u] are still in the store. *)
Definition live (u : string) (results : list BookmarkTreeNode) (h : Heap) : Prop :=
  Forall (λ bm, ∃ b, nodes h !! id bm = Some b ∧ bm_url b = Some u) results.

(** Every folder recorded for a collection is a folder of the store. *)
Definition folders_ok (h : Heap) : Prop :=
  ∀ cid i, newCollectionFolders h !! cid = Some i → is_folder h i = true.

(** ** The bookkeeping of a run, as pure functions of the listings *)

(** The branch an item of the tree walk takes. *)
Definition tally_item (previousBookmarks : gmap string BookmarkState)
    (x : option Collection * Raindrop) (s : Stats) : Stats :=
  match previousBookmarks !! rd_link x.2 with
  | None => incr_added s
  | Some previous =>
      if bool_decide (bs_title previous ≠ rd_title x.2)
         || bool_decide (bs_collectionId previous ≠ collectionId_of x.1)
      then incr_updated s else incr_unchanged s
  end.

Definition tally (previousBookmarks : gmap string BookmarkState)
    (l : list (option Collection * Raindrop)) (s : Stats) : Stats :=
  foldl (λ s x, tally_item previousBookmarks x s) s l.

Definition record_items (l : list (option Collection * Raindrop))
    (m : gmap string BookmarkState)
  : gmap string BookmarkState :=
  foldl (λ m x, <[rd_link x.2 := bookmarkState_of (collectionId_of x.1) x.2]> m) m l.

(** The same for one raindrop of the unsorted pass, which is skipped when
    its URL is already recorded. *)
Definition unsorted_item (previousBookmarks : gmap string BookmarkState)
    (ms : gmap string BookmarkState * Stats) (rd : Raindrop)
  : gmap string BookmarkState * Stats :=
  if bool_decide (is_Some (ms.1 !! rd_link rd)) then ms
  else (<[rd_link rd := bookmarkState_of UNSORTED_ID rd]> ms.1,
        match previousBookmarks !! rd_link rd with
        | None => incr_added ms.2
        | Some previous =>
            if bool_decide (bs_title previous ≠ rd_title rd)
            then incr_updated ms.2 else incr_unchanged ms.2
        end).

Definition unsorted_items (previousBookmarks : gmap string BookmarkState)
    (l : list Raindrop) (ms : gmap string BookmarkState * Stats)
  : gmap string BookmarkState * Stats :=
  foldl (unsorted_item previousBookmarks) ms l.

(** The URLs the previous state tracks. *)
Definition tracked (previousBookmarks : gmap string BookmarkState) (u : string) : Prop :=
  is_Some (previousBookmarks !! u).

(** The bookmarks of the state persisted by the last run, if any. *)
Definition previous_of (h : Heap) : gmap string BookmarkState :=
  match storage h with
  | Some s => stored_bookmarks s
  | None => ∅
  end.

(** What the unsorted pass gets to see. *)
Definition unsorted_listing (opts : Opts) : list Raindrop :=
  if bool_decide (includeUnsorted opts ≠ Some false)
  then default [] (getAllRaindrops (raindropClient opts) UNSORTED_ID)
  else [].

(** The bookmarks map and the statistics a complete run builds. *)
Definition run_books (opts : Opts) (previousBookmarks : gmap string BookmarkState)
  : gmap string BookmarkState * Stats :=
  unsorted_items previousBookmarks (unsorted_listing opts)
    (record_items (items_of (raindropClient opts) (tree opts)) ∅,
     tally previousBookmarks (items_of (raindropClient opts) (tree opts)) (mkStats 0 0 0 0)).

(** The conditions under which a run goes through: a well-formed store in
    which the destination root is a folder, every listing of the walk
    answered, and no raindrop with an empty link. *)
Definition run_ready (opts : Opts) (h : Heap) : Prop :=
  wf h
  ∧ is_folder h (id (baseFolder opts)) = true
  ∧ fetches_ok (raindropClient opts) (tree opts) = true
  ∧ Forall (λ x, rd_link x.2 ≠ "") (items_of (raindropClient opts) (tree opts))
  ∧ Forall (λ rd, rd_link rd ≠ "") (unsorted_listing opts).

(** [under m root fuel i]: the node [i] is [root] or has [root] among its
    first [fuel] ancestors: it lives in the subtree of [root]. *)
Fixpoint under (m : gmap string Bookmark) (root : string) (fuel : nat) (i : string) : bool :=
  bool_decide (i = root)
  || match fuel with
     | O => false
     | S n =>
         match m !! i with
         | Some b =>
             match bm_parentId b with
             | Some p => under m root n p
             | None => false
             end
         | None => false
         end
     end.

(** The links of a listing, and the unsorted links the walk has not met. *)
Definition links_of (l : list (option Collection * Raindrop)) : list string :=
  (λ x : option Collection * Raindrop, rd_link x.2) <$> l.

Definition new_unsorted_links (opts : Opts) : gset string :=
  list_to_set (rd_link <$> unsorted_listing opts)
  ∖ list_to_set (links_of (items_of (raindropClient opts) (tree opts))).

(** [respects R m]: whatever [m] does, and whether it returns or throws, the
    heap it leaves is [R]-related to the heap it started from. *)
Definition respects {A} (R : Heap → Heap → Prop) (m : M A) : Prop :=
  ∀ h h' r, m h = (h', r) → R h h'.

(** What the update branch of the tree walk makes of a stored bookmark. *)
Definition retitled (folder : BookmarkTreeNode) (cid : Z) (previous : BookmarkState)
    (rd : Raindrop) (b : Bookmark) : Bookmark :=
  {| bm_parentId := if bool_decide (bs_collectionId previous ≠ cid)
                    then Some (id folder) else bm_parentId b;
     bm_title := rd_title rd;
     bm_url := bm_url b |}.

(** The store can decide well-formedness of a concrete heap. *)
Definition wf_check (h : Heap) : bool :=
  bool_decide (map_Forall (λ i b, i ∈ ((λ k, pretty (N.of_nat k)) <$> seq 0 (N.to_nat (nextId h)))
                                  ∧ bm_url b ≠ Some "") (nodes h)).

(** ** The phases of a run *)

(** The heap once the run has allocated its three objects. *)
Definition init_run (h : Heap) : Heap :=
  set_newCollectionFolders ∅ (set_newBookmarks ∅ (set_stats (mkStats 0 0 0 0) h)).

(** The heap once the run has saved what it built. *)
Definition finish_run (h : Heap) : Heap :=
  set_this_syncState
    (Some {| bookmarks := newBookmarks h;
             collectionFolders := newCollectionFolders h;
             lastSync := TimeValue (clock h) |})
    (set_storage
       (Some {| stored_bookmarks := newBookmarks h;
                stored_collectionFolders := kmap Number_toString (newCollectionFolders h);
                stored_lastSync := ISO (clock h) |}) h).

(** Lines 164-174. *)
Definition unsorted_phase (opts : Opts) (previousBookmarks : gmap string BookmarkState)
  : M unit :=
  if bool_decide (includeUnsorted opts ≠ Some false)
  then syncUnsortedCollection (baseFolder opts) (raindropClient opts) previousBookmarks
  else ret tt.

(** ** What a run does to the bookmarks of one item *)

(** Every bookmark that carried the URL [u] in [h0] is in [h1] as it was. *)
Definition untouched (h0 : Heap) (u : string) (h1 : Heap) : Prop :=
  ∀ i b, nodes h0 !! i = Some b → bm_url b = Some u → nodes h1 !! i = Some b.

(** The item [rd], now listed under the collection node [d], has been
    brought up to date in [h1]: a folder is recorded for the collection, and
    every bookmark that carried the item's URL in [h0] and had a parent has
    the item's title and, if the collection changed, that folder as parent. *)
Definition settled (h0 : Heap) (d : option Collection) (rd : Raindrop)
    (previous : BookmarkState) (h1 : Heap) : Prop :=
  ∃ f, newCollectionFolders h1 !! collectionId_of d = Some f
       ∧ ∀ i b, nodes h0 !! i = Some b → bm_url b = Some (rd_link rd) →
                truthy_opt (bm_parentId b) = true →
                ∃ b', nodes h1 !! i = Some b'
                      ∧ bm_title b' = rd_title rd ∧ bm_url b' = bm_url b
                      ∧ (bs_collectionId previous ≠ collectionId_of d →
                         bm_parentId b' = Some f).

(** ** Clearing a folder (lines 392-402) *)

(** A [BookmarkTreeNode] as [getSubTree] hands it out: the node and, for a
    folder, its [children], each again such a node.  The nodes that
    [create], [search] and [getChildren] hand out carry no [children]. *)
#[warnings="-register-all"]
Inductive BookmarkSubTree :=
  mkSubTree (node : BookmarkTreeNode) (subtrees : option (list BookmarkSubTree)).

Definition node (t : BookmarkSubTree) : BookmarkTreeNode :=
  match t with mkSubTree n _ => n end.

Definition subtrees (t : BookmarkSubTree) : option (list BookmarkSubTree) :=
  match t with mkSubTree _ cs => cs end.

(** [chrome.bookmarks.removeTree]: the node goes with everything that has
    it among its ancestors; the call is rejected when the id is not in the
    store.  In a store of [n] nodes no ancestor is more than [n] steps
    away. *)
Definition chrome_bookmarks_removeTree (i : string) : M unit :=
  λ h, match nodes h !! i with
       | Some _ =>
           (set_nodes (filter (λ kv, under (nodes h) i (size (nodes h)) kv.1 = false)) h,
            Return tt)
       | None => (h, Throw)
       end.

(** [await Promise.all(promises)] over calls that have all been issued
    before the [await]: every call takes effect, in the order issued,
    whether or not another one is rejected, and the whole is rejected when
    one of them is. *)
Definition Promise_all {A} (call : A → M unit) : list A → M unit :=
  fix go (l : list A) : M unit :=
    match l with
    | [] => ret tt
    | x :: l' =>
        λ h, let '(h1, r1) := call x h in
             let '(h2, r2) := go l' h1 in
             (h2, match r1 with Throw => Throw | Return _ => r2 end)
    end.

(** [folder.children ?? []]: the children are those of the node passed in,
    as they were when it was read. *)
Definition clearAllBookmarksInFolder (folder : BookmarkSubTree) : M unit :=
  Promise_all (λ child, chrome_bookmarks_removeTree (id (node child)))
              (default [] (subtrees folder)).

(** ** Shapes of the store *)

(** Every parent a node names is a folder of the store: no bookmark with a
    URL has children, and no parent is missing. *)
Definition parents_are_folders (h : Heap) : Prop :=
  ∀ j b p, nodes h !! j = Some b → bm_parentId b = Some p → is_folder h p = true.

(** A run only ever removes nodes from [h]: what is in [h'] was in [h]. *)
Definition only_removes (h h' : Heap) : Prop :=
  ∀ j b, nodes h' !! j = Some b → nodes h !! j = Some b.

(** [parents_are_folders] on a concrete heap. *)
Definition parents_check (h : Heap) : bool :=
  bool_decide (map_Forall (λ _ b, default true (is_folder h <$> bm_parentId b) = true)
                          (nodes h)).

(** [below m root j]: following parents from [j] leads to [root]. *)
Inductive below (m : gmap string Bookmark) (root : string) : string → Prop :=
  | below_root : below m root root
  | below_child j b p :
      m !! j = Some b → bm_parentId b = Some p → below m root p → below m root j.

(** The shape of the store that the deletion pass relies on. *)
Definition shaped (h : Heap) : Prop := wf h ∧ parents_are_folders h.

(** ** The state a run builds *)

(** What holds of every entry of a bookmarks map that a run has built: it
    is filed under its own URL, and its cover is not the empty string. *)
Definition entries_sound (m : gmap string BookmarkState) : Prop :=
  ∀ u b, m !! u = Some b → bs_url b = u ∧ bs_cover b ≠ Some "".

(** The listings a run has handled: created, updated or found unchanged. *)
Definition handled (s : Stats) : nat := added s + updated s + unchanged s.

(** ** Listeners *)

(** The calls that firing [e] adds: one for each listener registered for
    its kind, unless the listeners let the event pass. *)
Definition calls_for {Callback} (b : Browser Callback) (e : BookmarkEvent)
  : list (Callback * BrowserBookmarkChange) :=
  match change_of e with
  | Some change => (λ l, (captured l, change)) <$> registered b (kind_of e)
  | None => []
  end.

(** ** A current snapshot of a folder, on a concrete heap *)

(** The [n]-th ancestor of [j], if the chain of parents is that long. *)
Fixpoint ancestor (m : gmap string Bookmark) (n : nat) (j : string) : option string :=
  match n with
  | O => Some j
  | S n' =>
      match m !! j with
      | Some b =>
          match bm_parentId b with
          | Some p => ancestor m n' p
          | None => None
          end
      | None => None
      end
  end.

(** The children that [folder] lists are, each once, the nodes of [h] whose
    parent is the folder, and the folder, whose chain of parents ends within
    [n] steps, is under none of them. *)
Definition snapshot_check (folder : BookmarkSubTree) (h : Heap) (n : nat) : bool :=
  let ids := id ∘ node <$> default [] (subtrees folder) in
  bool_decide (NoDup ids)
  && bool_decide (list_to_set ids
                  = dom (filter (λ kv, bm_parentId kv.2 = Some (id (node folder)))
                                (nodes h)))
  && bool_decide (ancestor (nodes h) (S n) (id (node folder)) = None)
  && forallb (λ j, negb (under (nodes h) j n (id (node folder)))) ids.

(** ** The collections of a tree *)

(** The payloads of the nodes of a tree, in the order of the walk. *)
Fixpoint payloads (t : TreeNode) : list (option Collection) :=
  match t with
  | mkTreeNode d cs => d :: flat_map payloads cs
  end.

(** [issued_since h0 h]: the store of [h] is well formed, and every folder
    that [h] has recorded for a collection got its id after [h0]. *)
Definition issued_since (h0 h : Heap) : Prop :=
  wf h ∧ (nextId h0 ≤ nextId h)%N
  ∧ ∀ cid f, newCollectionFolders h !! cid = Some f →
             ∃ k, (nextId h0 ≤ k < nextId h)%N ∧ f = pretty k.

(** What [a] has recorded for a collection is still recorded in [b]. *)
Definition stays_recorded (a b : Heap) : Prop :=
  ∀ cid, is_Some (newCollectionFolders a !! cid) → is_Some (newCollectionFolders b !! cid).

(** The folders recorded for the collections other than the unsorted one
    are in [b] what they were in [a]. *)
Definition same_titled_folders (a b : Heap) : Prop :=
  ∀ cid, cid ≠ UNSORTED_ID → newCollectionFolders b !! cid = newCollectionFolders a !! cid.

(** ** When the state is written *)

(** No call of [chrome.storage.local.set] was made between [a] and [b]
    that the ghost field would show: the record of the last write is as it
    was. *)
Definition unwritten (a b : Heap) : Prop := nodes_at_write b = nodes_at_write a.

(** The collection ids that [b] has a folder for are those of [a] and the
    ids in [ids]. *)
Definition records_within (ids : list Z) (a b : Heap) : Prop :=
  ∀ k, is_Some (newCollectionFolders b !! k) →
       is_Some (newCollectionFolders a !! k) ∨ k ∈ ids.

(** ** The bookmarks of a store *)

(** The URL and the title of every node that has a URL, each node once. *)
Definition bookmarks_of (m : gmap string Bookmark) : list (string * string) :=
  omap (λ kv : string * Bookmark, (λ u, (u, bm_title kv.2)) <$> bm_url kv.2)
       (map_to_list m).

Definition bookmarks_in (h : Heap) : list (string * string) := bookmarks_of (nodes h).

Definition link_and_title (rd : Raindrop) : string * string := (rd_link rd, rd_title rd).

(** The raindrops of a listing that the unsorted pass does not skip: those
    whose link is not in [seen] and was not listed before them. *)
Fixpoint first_listings (seen : gset string) (us : list Raindrop) : list Raindrop :=
  match us with
  | [] => []
  | rd :: us' =>
      if bool_decide (rd_link rd ∈ seen) then first_listings seen us'
      else rd :: first_listings ({[rd_link rd]} ∪ seen) us'
  end.

(** The raindrops that a run handles: those of the walk, one for each
    listing, and those of the unsorted listing that the unsorted pass does
    not skip. *)
Definition handled_raindrops (opts : Opts) : list Raindrop :=
  (items_of (raindropClient opts) (tree opts)).*2
  ++ first_listings (list_to_set (links_of (items_of (raindropClient opts) (tree opts))))
                    (unsorted_listing opts).

(** ** Creating the bookmarks of a tree (lines 85-126) *)

(** [collection.data?.title || 'No Title'] *)
Definition folder_title (d : option Collection) : string :=
  if truthy (title_of d) then title_of d else "No Title".

(** A call of [createBookmarksRecursively] has two parts: up to the first
    [Promise.all] it lists the collection and creates a bookmark for each
    raindrop (lines 95-107); after it, it creates a folder for each child
    (lines 110-125).  Each folder is created with a callback, which starts a
    call for the child, and neither the creation nor that call is awaited:
    the second [Promise.all] holds promises that are resolved already.

    A call that a callback has started is [Started]; its base folder is the
    callback's argument, which is missing when the creation was rejected.
    A call whose first part is done is [Created].  The requests of a part
    are issued in one go and the browser serves requests in the order
    issued, so that a part takes effect as a whole; in which order the
    parts of different calls follow one another is up to the arrival of the
    listings. *)
Inductive Task :=
  | Started (baseFolder : option BookmarkTreeNode) (tree : TreeNode)
  | Created (baseFolder : BookmarkTreeNode) (tree : TreeNode).

(** Lines 95-107. *)
Definition createBookmarks (c : RaindropClient) (baseFolder : BookmarkTreeNode)
    (tree : TreeNode) : M unit :=
  let collectionId := collectionId_of (data tree) in
  let* raindrops := raindrop_getAllRaindrops c collectionId in
  Promise_all (λ rd, let* _ := chrome_bookmarks_create (id baseFolder) (rd_title rd)
                                                       (Some (rd_link rd)) in
                     ret tt)
              raindrops.

(** Lines 112-123, for one child: the creation and what its callback
    starts. *)
Definition createFolder (baseFolder : BookmarkTreeNode) (collection : TreeNode)
  : M Task :=
  λ h, match chrome_bookmarks_create (id baseFolder) (folder_title (data collection))
                                     None h with
       | (h', Return result) => (h', Return (Started (Some result) collection))
       | (h', Throw) => (h', Return (Started None collection))
       end.

Definition for_each {A B} (f : A → M B) : list A → M (list B) :=
  fix go (l : list A) : M (list B) :=
    match l with
    | [] => ret []
    | x :: l' => let* y := f x in let* ys := go l' in ret (y :: ys)
    end.

(** Lines 110-125. *)
Definition createFolders (baseFolder : BookmarkTreeNode) (tree : TreeNode)
  : M (list Task) :=
  for_each (createFolder baseFolder) (children tree).

(** The call as its caller awaits it; it returns the calls it has started,
    which go on after it has returned. *)
Definition createBookmarksRecursively (opts : Opts) : M (list Task) :=
  let* _ := createBookmarks (raindropClient opts) (baseFolder opts) (tree opts) in
  createFolders (baseFolder opts) (tree opts).

(** A pending call goes on with its next part.  A rejection in a call that
    a callback has started is nobody's to handle: the call ends, with what
    it has done so far.  A call without a base folder fails at
    [opts.baseFolder.id] before it creates anything. *)
Definition run_task (c : RaindropClient) (t : Task) (h : Heap) : Heap * list Task :=
  match t with
  | Started None tree => (h, [])
  | Started (Some baseFolder) tree =>
      match createBookmarks c baseFolder tree h with
      | (h', Return _) => (h', [Created baseFolder tree])
      | (h', Throw) => (h', [])
      end
  | Created baseFolder tree =>
      match createFolders baseFolder tree h with
      | (h', Return started) => (h', started)
      | (h', Throw) => (h', [])
      end
  end.

(** One turn of the event loop: of the pending calls, the one at position
    [k] (counted round) goes on. *)
Definition turn (c : RaindropClient) (k : nat) (pending : list Task) (h : Heap)
  : Heap * list Task :=
  match pending !! (k mod length pending) with
  | Some t =>
      let '(h', started) := run_task c t h in
      (h', take (k mod length pending) pending
           ++ drop (S (k mod length pending)) pending ++ started)
  | None => (h, pending)
  end.

(** The turns of a schedule, one after the other. *)
Fixpoint turns (c : RaindropClient) (schedule : list nat) (pending : list Task)
    (h : Heap) : Heap * list Task :=
  match schedule with
  | [] => (h, pending)
  | k :: schedule' =>
      let '(h', pending') := turn c k pending h in
      turns c schedule' pending' h'
  end.

(** ** What the calls for a tree are to build *)

(** Nothing of [h] is changed or removed in [h']. *)
Definition grows (h h' : Heap) : Prop :=
  ∀ i b, nodes h !! i = Some b → nodes h' !! i = Some b.

(** Whatever a part of a call does, it adds to a well-formed store. *)
Definition adds (h h' : Heap) : Prop := wf h → wf h' ∧ grows h h' ∧ static h h'.

Definition all {A} (P : A → Prop) : list A → Prop :=
  fix go (l : list A) : Prop :=
    match l with
    | [] => True
    | x :: l' => P x ∧ go l'
    end.

(** The collections of a tree, its root included. *)
Fixpoint tree_size (t : TreeNode) : nat :=
  match t with
  | mkTreeNode _ cs => S (sum_list (tree_size <$> cs))
  end.

(** [placed c m f t]: in the store [m], the folder [f] holds a bookmark for
    every raindrop that the collection of [t] lists, with its title and its
    link, and for every child of [t] a folder with the child's title in
    which the same holds for the child. *)
Fixpoint placed (c : RaindropClient) (m : gmap string Bookmark) (f : string)
    (t : TreeNode) {struct t} : Prop :=
  match t with
  | mkTreeNode d cs =>
      Forall (λ rd, ∃ i, m !! i = Some (mkBookmark (Some f) (rd_title rd)
                                                    (Some (rd_link rd))))
             (default [] (getAllRaindrops c (collectionId_of d)))
      ∧ all (λ child, ∃ i, m !! i = Some (mkBookmark (Some f) (folder_title (data child))
                                                      None)
                           ∧ placed c m i child) cs
  end.

(** The listings of [t] are answered and hold no empty link. *)
Definition listings_ok (c : RaindropClient) (t : TreeNode) : Prop :=
  fetches_ok c t = true ∧ Forall (λ x, rd_link x.2 ≠ "") (items_of c t).

(** A pending call that can go on: its base folder is there, and the
    listings it is going to ask for are in order. *)
Definition task_ready (c : RaindropClient) (h : Heap) (t : Task) : Prop :=
  match t with
  | Started (Some f) t => is_folder h (id f) = true ∧ listings_ok c t
  | Started None _ => False
  | Created f t => is_folder h (id f) = true ∧ Forall (listings_ok c) (children t)
  end.

(** What a pending call is still to build, in the store [m]. *)
Definition task_placed (c : RaindropClient) (m : gmap string Bookmark) (t : Task) : Prop :=
  match t with
  | Started (Some f) t => placed c m (id f) t
  | Started None _ => True
  | Created f t =>
      all (λ child, ∃ i, m !! i = Some (mkBookmark (Some (id f))
                                                   (folder_title (data child)) None)
                         ∧ placed c m i child) (children t)
  end.

(** The number of nodes a pending call is still to create, and the number
    of turns it and the calls it starts still take. *)
Definition todo (c : RaindropClient) (t : Task) : nat :=
  match t with
  | Started _ t => length (items_of c t) + (tree_size t - 1)
  | Created _ t => length (flat_map (items_of c) (children t)) + (tree_size t - 1)
  end.

Definition work (t : Task) : nat :=
  match t with
  | Started _ t => 2 * tree_size t
  | Created _ t => 2 * tree_size t - 1
  end.

(** The listings of a concrete tree are in order. *)
Definition listings_check (c : RaindropClient) (t : TreeNode) : bool :=
  fetches_ok c t
  && bool_decide (Forall (λ x : option Collection * Raindrop, rd_link x.2 ≠ "")
                         (items_of c t)).

(** ** Concrete destinations and sources used by the examples below *)

Module Fixtures.

Definition url_a : string := "http://a.com/".

Definition no_stats : Stats := mkStats 0 0 0 0.

(** A store with the bookmark root ["0"] and the managed folder ["1"]. *)
Definition base_nodes : gmap string Bookmark :=
  {[ "0" := mkBookmark None "" None;
     "1" := mkBookmark (Some "0") "Raindrop" None ]}.

Definition base : BookmarkTreeNode := mkNode "1" (Some "0") "Raindrop" None.

Definition heap_of (ns : gmap string Bookmark) (next : N)
    (st : option StoredSyncState) : Heap :=
  {| nodes := ns; nextId := next; storage := st; storage_writes := 0;
     clock := 1000; this_syncState := None;
     newBookmarks := ∅; newCollectionFolders := ∅; stats := no_stats;
     nodes_at_write := None |}.

Definition rd (i : Z) (link t : string) : Raindrop :=
  mkRaindrop i link t "2024-01-01T00:00:00.000Z" "".

Definition client_of (l : list (Z * list Raindrop)) : RaindropClient :=
  mkClient (λ cid, Some (default [] ((list_to_map l : gmap Z (list Raindrop)) !! cid))).

(** One bookmark with [url_a], titled ["A"], kept by the user in a folder
    ["2"] that is a sibling of the managed folder, and a previous state
    that tracks [url_a] under collection 7. *)
Definition outside_nodes : gmap string Bookmark :=
  <["2" := mkBookmark (Some "0") "Mine" None]>
    (<["3" := mkBookmark (Some "2") "A" (Some url_a)]> base_nodes).

Definition tracks_a (cid : Z) (cf : gmap string string) : StoredSyncState :=
  {| stored_bookmarks := {[ url_a := mkBookmarkState url_a "A" cid 100 None None ]};
     stored_collectionFolders := cf;
     stored_lastSync := ISO 0 |}.

(** C1: the source no longer lists [url_a]. *)
Definition stale_heap : Heap := heap_of outside_nodes 4 (Some (tracks_a 7 ∅)).

Definition stale_opts : Opts :=
  mkOpts base (mkTreeNode None []) (client_of []) (Some false).

(** C2: collection 7 was given the folder ["2"] by the previous run, and
    the folder is still there, under the managed folder. *)
Definition reading_nodes : gmap string Bookmark :=
  <["2" := mkBookmark (Some "1") "Reading" None]> base_nodes.

Definition reading_heap : Heap :=
  heap_of reading_nodes 3
    (Some {| stored_bookmarks := ∅;
             stored_collectionFolders := {[ "7" := "2" ]};
             stored_lastSync := ISO 0 |}).

Definition reading_opts : Opts :=
  mkOpts base (mkTreeNode None [mkTreeNode (Some (mkCollection 7 "Reading")) []])
         (client_of []) (Some false).

(** C3: two collections list the same URL. *)
Definition twice_opts : Opts :=
  mkOpts base
         (mkTreeNode None [mkTreeNode (Some (mkCollection 1 "A")) [];
                           mkTreeNode (Some (mkCollection 2 "B")) []])
         (client_of [(1%Z, [rd 11 url_a "A"]); (2%Z, [rd 12 url_a "A"])])
         (Some false).

Definition empty_heap : Heap := heap_of base_nodes 2 None.

(** C5: [url_a] was synced under collection 7 into the folder ["2"] and is
    now listed at the untitled root of the source tree. *)
Definition moved_nodes : gmap string Bookmark :=
  <["2" := mkBookmark (Some "1") "Old" None]>
    (<["3" := mkBookmark (Some "2") "A" (Some url_a)]> base_nodes).

Definition moved_heap : Heap := heap_of moved_nodes 4 (Some (tracks_a 7 {[ "7" := "2" ]})).

Definition moved_to_root_opts : Opts :=
  mkOpts base (mkTreeNode None []) (client_of [((-1)%Z, [rd 100 url_a "A"])]) None.

(** C5, second scene: the same bookmark, now listed by two collections. *)
Definition moved_twice_opts : Opts := twice_opts.

(** C5, one listing: the same bookmark, now listed once, by collection 1. *)
Definition moved_once_opts : Opts :=
  mkOpts base (mkTreeNode None [mkTreeNode (Some (mkCollection 1 "A")) []])
         (client_of [(1%Z, [rd 11 url_a "A"])]) None.

(** C6: the same bookmark, now listed only by the unsorted bucket, under a
    source tree whose root is a titled collection. *)
Definition moved_to_unsorted_opts : Opts :=
  mkOpts base (mkTreeNode (Some (mkCollection 9 "Root")) [])
         (client_of [((-1)%Z, [rd 100 url_a "A"])]) None.

(** C10: nothing persisted yet; collection 1 and the unsorted bucket each
    hold a raindrop, and the two raindrops share their link. *)
Definition shared_link_opts : Opts :=
  mkOpts base (mkTreeNode (Some (mkCollection 1 "A")) [])
         (client_of [(1%Z, [rd 11 url_a "A"]); ((-1)%Z, [rd 12 url_a "B"])]) None.

End Fixtures.

Module Scenes.
Import Fixtures.

Definition url_b : string := "http://b.com/".

(** A raindrop with a cover. *)
Definition rd_b : Raindrop :=
  mkRaindrop 21 url_b "B" "2024-01-02T00:00:00.000Z" "http://b.com/cover.png".

(** One collection, "Reading", that lists a raindrop without a cover and
    one with a cover; the unsorted collection is empty. *)
Definition reading_list_opts : Opts :=
  mkOpts base (mkTreeNode None [mkTreeNode (Some (mkCollection 7 "Reading")) []])
         (client_of [(7%Z, [rd 11 url_a "A"; rd_b])]) None.

(** A client whose request for the unsorted listing is rejected. *)
Definition no_unsorted_client : RaindropClient :=
  mkClient (λ cid, if bool_decide (cid = UNSORTED_ID) then None else Some []).

Definition no_unsorted_opts : Opts :=
  mkOpts base (mkTreeNode (Some (mkCollection 9 "Root")) []) no_unsorted_client None.

(** The managed folder of [moved_heap] as [getSubTree] hands it out: it holds
    the folder ["2"], which holds the bookmark ["3"]. *)
Definition managed_subtree : BookmarkSubTree :=
  mkSubTree base
    (Some [mkSubTree (mkNode "2" (Some "1") "Old" None)
             (Some [mkSubTree (mkNode "3" (Some "2") "A" (Some url_a)) None])]).

(** A browser on which no listener is registered. *)
Definition quiet_browser : Browser string := mkBrowser (λ _, []) 0 [] None [].

(** A folder is created, then a bookmark in it, which is renamed and then
    removed. *)
Definition some_events : list BookmarkEvent :=
  [fired_onCreated "5" (mkNode "5" (Some "1") "News" None);
   fired_onCreated "6" (mkNode "6" (Some "5") "A" (Some url_a));
   fired_onChanged "6" (mkChangeInfo "A2" None);
   fired_onRemoved "6" (mkRemoveInfo 0 (mkNode "6" (Some "5") "A2" (Some url_a)) "5")].

(** A raindrop whose link is empty between two that are in order. *)
Definition broken_list_opts : Opts :=
  mkOpts base (mkTreeNode None [mkTreeNode (Some (mkCollection 7 "Reading")) []])
         (client_of [((-1)%Z, [rd 11 url_a "A"; rd 12 "" "Nothing"; rd_b])]) None.

(** A store whose managed folder holds the folder ["2"] of the unsorted
    collection, left there by an earlier run, and in it the bookmark ["3"]. *)
Definition unsorted_nodes : gmap string Bookmark :=
  <["2" := mkBookmark (Some "1") UNSORTED_TITLE None]>
    (<["3" := mkBookmark (Some "2") "A" (Some url_a)]> base_nodes).

Definition unsorted_heap : Heap := heap_of unsorted_nodes 4 None.

(** Collection 1 lists the same link twice, with the same title. *)
Definition listed_twice_opts : Opts :=
  mkOpts base (mkTreeNode None [mkTreeNode (Some (mkCollection 1 "A")) []])
         (client_of [(1%Z, [rd 11 url_a "A"; rd 12 url_a "A"])]) None.

End Scenes.

(** * Proof rules *)

Lemma TreeNode_induction (P : TreeNode → Prop) :
  (∀ d cs, Forall P cs → P (mkTreeNode d cs)) → ∀ t, P t.
Proof.
  intros step. fix IH 1. intros [d cs]. apply step.
  induction cs as [|c cs IHcs]; constructor; [apply IH | exact IHcs].
Qed.

Section rules.
Context {A B : Type}.
Implicit Types (P : Heap → Prop) (E : Heap → Prop).

Lemma triple_ret P (a : A) (Q : A → Heap → Prop) E :
  (∀ h, P h → Q a h) → triple P (ret a) Q E.
Proof. intros HQ h HP. simpl. auto. Qed.

Lemma triple_throw P (Q : A → Heap → Prop) E :
  (∀ h, P h → E h) → triple P (@throw A) Q E.
Proof. intros HE h HP. simpl. auto. Qed.

Lemma triple_bind P (m : M A) (k : A → M B) R (Q : B → Heap → Prop) E :
  triple P m R E → (∀ a, triple (R a) (k a) Q E) → triple P (bind m k) Q E.
Proof.
  intros Hm Hk h HP. unfold bind. specialize (Hm h HP).
  destruct (m h) as [h' [a|]]; [by apply Hk | done].
Qed.

Lemma triple_bind_ret P (a : A) (k : A → M B) (Q : B → Heap → Prop) E :
  triple P (k a) Q E → triple P (bind (ret a) k) Q E.
Proof. intros Hk h HP. by apply Hk. Qed.

Lemma triple_bind_throw P (k : A → M B) (Q : B → Heap → Prop) E :
  (∀ h, P h → E h) → triple P (bind throw k) Q E.
Proof. intros HE h HP. by apply HE. Qed.

Lemma triple_conseq P P' (m : M A) (Q Q' : A → Heap → Prop) E E' :
  triple P' m Q' E' →
  (∀ h, P h → P' h) → (∀ a h, Q' a h → Q a h) → (∀ h, E' h → E h) →
  triple P m Q E.
Proof.
  intros Hm HP HQ HE h Hh. specialize (Hm h (HP h Hh)).
  destruct (m h) as [h' [a|]]; auto.
Qed.

Lemma triple_try_catch P (m handler : M A) (Q : A → Heap → Prop) E1 E :
  triple P m Q E1 → triple E1 handler Q E → triple P (try_catch m handler) Q E.
Proof.
  intros Hm Hh h HP. unfold try_catch. specialize (Hm h HP).
  destruct (m h) as [h' [a|]]; [done | by apply Hh].
Qed.

Lemma triple_read P (f : Heap → A) (Q : A → Heap → Prop) E :
  (∀ h, P h → Q (f h) h) → triple P (λ h, (h, Return (f h))) Q E.
Proof. intros HQ h HP. simpl. auto. Qed.

Lemma triple_exists {X} (P : X → Heap → Prop) (m : M A) (Q : A → Heap → Prop) E :
  (∀ x, triple (P x) m Q E) → triple (λ h, ∃ x, P x h) m Q E.
Proof. intros Hm h [x HP]. by apply (Hm x). Qed.

Lemma triple_pure (φ : Prop) P (m : M A) (Q : A → Heap → Prop) E :
  (φ → triple P m Q E) → triple (λ h, φ ∧ P h) m Q E.
Proof. intros Hm h [Hφ HP]. by apply Hm. Qed.
End rules.

Lemma triple_modify P (f : Heap → Heap) (Q : unit → Heap → Prop) E :
  (∀ h, P h → Q tt (f h)) → triple P (modify f) Q E.
Proof. intros HQ h HP. simpl. auto. Qed.

(** A loop carries an invariant indexed by the elements already handled. *)
Lemma triple_for_of {A} (J : list A → Heap → Prop) (body : A → M unit) E (l : list A) :
  (∀ pre x post, l = pre ++ x :: post →
     triple (J pre) (body x) (λ _, J (pre ++ [x])) E) →
  triple (J []) (for_of body l) (λ _, J l) E.
Proof.
  intros Hbody.
  cut (∀ post pre, l = pre ++ post →
         triple (J pre) (for_of body post) (λ _, J l) E).
  { intros H. by apply (H l []). }
  induction post as [|x post IH]; intros pre Hl.
  - rewrite app_nil_r in Hl. subst pre. by apply triple_ret.
  - simpl. eapply triple_bind.
    + by apply (Hbody pre x post).
    + intros []. apply IH. by rewrite <- app_assoc.
Qed.

Lemma triple_loop {A} (J : list A → Heap → Prop) P (body : A → M unit)
    (Q : unit → Heap → Prop) E (l : list A) :
  (∀ h, P h → J [] h) →
  (∀ pre x post, l = pre ++ x :: post →
     triple (J pre) (body x) (λ _, J (pre ++ [x])) E) →
  (∀ h, J l h → Q tt h) →
  triple P (for_of body l) Q E.
Proof.
  intros HP Hbody HQ.
  eapply triple_conseq; [by apply (triple_for_of J) | done | by intros [] | done].
Qed.

Lemma items_of_unfold c d cs :
  items_of c (mkTreeNode d cs) =
  ((λ rd, (d, rd)) <$> default [] (getAllRaindrops c (collectionId_of d)))
  ++ flat_map (items_of c) cs.
Proof. done. Qed.

Lemma fetches_ok_child c d cs t :
  t ∈ cs → fetches_ok c t = false → fetches_ok c (mkTreeNode d cs) = false.
Proof.
  intros Hin Hf. simpl. apply andb_false_iff. right.
  apply not_true_iff_false. intros Hall.
  rewrite forallb_forall in Hall. rewrite Hall in Hf; [done|].
  by apply list_elem_of_In.
Qed.

Lemma items_of_child c d cs t x :
  t ∈ cs → x ∈ items_of c t → x ∈ items_of c (mkTreeNode d cs).
Proof.
  intros Hin Hx. rewrite items_of_unfold. apply elem_of_app. right.
  apply list_elem_of_In, in_flat_map. exists t.
  split; by apply list_elem_of_In.
Qed.

(** The rule of the tree walk.  [Inv] is indexed by the items handled so
    far; [F d f] is what is known of a collection node [d] and its resolved
    folder [f] while the node and its ancestors are still being walked. *)
Section walk_rule.
Context (Inv : list (option Collection * Raindrop) → Heap → Prop).
Context (F : option Collection → BookmarkTreeNode → Heap → Prop).
Context (E : Heap → Prop).
Context (c : RaindropClient) (prev : gmap string BookmarkState).

Hypothesis resolve_spec : ∀ qs l dp p d,
  triple (λ h, Inv l h ∧ Forall (λ q, F q.1 q.2 h) ((dp, p) :: qs))
         (resolveFolder p d)
         (λ f h, Inv l h ∧ Forall (λ q, F q.1 q.2 h) ((d, f) :: (dp, p) :: qs)) E.

Lemma walk_rule t :
  (∀ qs l d f rd, (d, rd) ∈ items_of c t →
     triple (λ h, Inv l h ∧ Forall (λ q, F q.1 q.2 h) ((d, f) :: qs))
            (processRaindrop f (collectionId_of d) prev rd)
            (λ _ h, Inv (l ++ [(d, rd)]) h ∧ Forall (λ q, F q.1 q.2 h) ((d, f) :: qs)) E) →
  (fetches_ok c t = false → ∀ l h, Inv l h → E h) →
  ∀ qs l dp p,
    triple (λ h, Inv l h ∧ Forall (λ q, F q.1 q.2 h) ((dp, p) :: qs))
           (processCollectionForIncremental c prev p t)
           (λ _ h, Inv (l ++ items_of c t) h ∧ Forall (λ q, F q.1 q.2 h) ((dp, p) :: qs)) E.
Proof.
  induction t as [d cs IH] using TreeNode_induction.
  intros item_spec fetch_spec qs l dp p. simpl processCollectionForIncremental.
  eapply triple_bind; [apply resolve_spec|]. intros f.
  rewrite items_of_unfold.
  unfold raindrop_getAllRaindrops.
  destruct (getAllRaindrops c (collectionId_of d)) as [rs|] eqn:Hrs; simpl default.
  - apply triple_bind_ret.
    apply triple_bind with
      (R := λ _ h, Inv (l ++ ((λ rd, (d, rd)) <$> rs)) h
                   ∧ Forall (λ q, F q.1 q.2 h) ((d, f) :: (dp, p) :: qs)).
    + apply (triple_loop
               (λ pre h, Inv (l ++ ((λ rd, (d, rd)) <$> pre)) h
                         ∧ Forall (λ q, F q.1 q.2 h) ((d, f) :: (dp, p) :: qs))).
      * intros h [HI HF]. simpl. by rewrite app_nil_r.
      * intros pre x post Hl.
        eapply triple_conseq; [apply (item_spec ((dp, p) :: qs)
          (l ++ ((λ rd, (d, rd)) <$> pre)) d f x) |..].
        -- rewrite items_of_unfold, Hrs. simpl. apply elem_of_app. left.
           apply list_elem_of_fmap. exists x. split; [done|]. rewrite Hl.
           apply elem_of_app. right. by left.
        -- done.
        -- intros _ h [HI HF]. split; [|done].
           by rewrite fmap_app, app_assoc.
        -- done.
      * intros h HJ. exact HJ.
    + intros []. simpl.
      apply (triple_loop
               (λ pre h, Inv (l ++ ((λ rd, (d, rd)) <$> rs)
                                ++ flat_map (items_of c) pre) h
                         ∧ Forall (λ q, F q.1 q.2 h) ((d, f) :: (dp, p) :: qs))).
      * intros h [HI HF]. simpl. by rewrite app_nil_r.
      * intros pre x post Hl.
        assert (x ∈ cs) as Hx.
        { rewrite Hl. apply elem_of_app. right. by left. }
        rewrite Forall_forall in IH.
        eapply triple_conseq; [apply (IH x Hx) with (qs := (dp, p) :: qs)
          (l := l ++ ((λ rd, (d, rd)) <$> rs) ++ flat_map (items_of c) pre)
          (dp := d) (p := f) |..].
        -- intros qs' l' d' f' rd' Hin. apply item_spec.
           by eapply items_of_child.
        -- intros Hf. apply fetch_spec. by eapply fetches_ok_child.
        -- done.
        -- intros _ h [HI HF]. split; [|done].
           rewrite flat_map_app. simpl. rewrite app_nil_r.
           by rewrite <- !app_assoc in HI.
        -- done.
      * intros h [HI HF]. split; [done |].
        by apply Forall_cons in HF as [_ HF].
  - apply triple_bind_throw.
    intros h [HI _]. apply fetch_spec with (l := l); [|done].
    simpl. by rewrite Hrs.
Qed.
End walk_rule.

(** * The store's primitives *)

Lemma pretty_N_nonempty (k : N) : pretty k ≠ "".
Proof.
  unfold pretty, pretty_N. case_decide; [done|].
  rewrite pretty_N_go_step by lia.
  assert (∀ x s, s ≠ "" → pretty_N_go x s ≠ "") as help.
  { intros x. induction (N.lt_wf_0 x) as [x _ IH]. intros s Hs.
    assert (x = 0 ∨ 0 < x)%N as [->|?] by lia; [by rewrite pretty_N_go_0|].
    rewrite pretty_N_go_step by done. apply IH; [|done].
    by apply N.div_lt. }
  by apply help.
Qed.

Lemma wf_fresh h : wf h → nodes h !! pretty (nextId h) = None.
Proof.
  intros [Hids _]. destruct (nodes h !! pretty (nextId h)) eqn:Hl; [|done].
  destruct (Hids (pretty (nextId h))) as (k & Hk & Heq); [by eexists|].
  apply (inj pretty) in Heq. lia.
Qed.

Lemma wf_id_nonempty h i : wf h → is_Some (nodes h !! i) → i ≠ "".
Proof.
  intros [Hids _] Hi. destruct (Hids i Hi) as (k & _ & ->).
  apply pretty_N_nonempty.
Qed.

Lemma is_folder_spec h i :
  is_folder h i = true ↔ ∃ b, nodes h !! i = Some b ∧ bm_url b = None.
Proof.
  unfold is_folder. split.
  - destruct (nodes h !! i) as [b|]; [|done].
    destruct (bm_url b) eqn:Hu; [done|]. eauto.
  - intros (b & -> & ->). done.
Qed.

Lemma keeps_folder U h h' i :
  keeps U h h' → is_folder h i = true → is_folder h' i = true.
Proof.
  rewrite !is_folder_spec. intros Hk (b & Hb & Hu). exists b. split; [|done].
  apply Hk; [done|]. intros u. by rewrite Hu.
Qed.

Lemma static_refl h : static h h.
Proof. done. Qed.

Lemma static_trans h1 h2 h3 : static h1 h2 → static h2 h3 → static h1 h3.
Proof. unfold static. intros (?&?&?&?) (?&?&?&?). repeat split; congruence. Qed.

Lemma keeps_refl U h : keeps U h h.
Proof. by intros i b Hb _. Qed.

Lemma keeps_trans U h1 h2 h3 : keeps U h1 h2 → keeps U h2 h3 → keeps U h1 h3.
Proof. intros H12 H23 i b Hb Hu. apply H23; [|done]. by apply H12. Qed.

Lemma keeps_mono (U V : string → Prop) h h' :
  (∀ u, U u → V u) → keeps U h h' → keeps V h h'.
Proof. intros HUV Hk i b Hb Hu. apply Hk; [done|]. intros u Hbu HU. eapply Hu; eauto. Qed.

Lemma safe_refl U h : safe U h h.
Proof. split; [done|]. intros Hwf. split; [done | apply keeps_refl]. Qed.

Lemma safe_trans U h1 h2 h3 : safe U h1 h2 → safe U h2 h3 → safe U h1 h3.
Proof.
  intros [Hs1 H1] [Hs2 H2]. split; [by eapply static_trans|].
  intros Hwf. destruct (H1 Hwf) as [Hwf2 Hk1]. destruct (H2 Hwf2) as [Hwf3 Hk2].
  split; [done | by eapply keeps_trans].
Qed.

Lemma safe_mono (U V : string → Prop) h h' :
  (∀ u, U u → V u) → safe U h h' → safe V h h'.
Proof.
  intros HUV [Hs H]. split; [done|]. intros Hwf. destruct (H Hwf) as [? ?].
  split; [done | by eapply keeps_mono].
Qed.

(** A step that only rewrites the objects of the run. *)
Lemma safe_locals U h h' :
  nodes h' = nodes h → nextId h' = nextId h → static h h' → safe U h h'.
Proof.
  intros Hn Hi Hs. split; [done|]. intros [Hids Hurl]. split.
  - split.
    + intros i. rewrite Hn, Hi. apply Hids.
    + intros i b. rewrite Hn. apply Hurl.
  - intros i b Hb _. by rewrite Hn.
Qed.

Lemma create_inv parent t u h h' r :
  chrome_bookmarks_create parent t u h = (h', r) →
  (r = Throw ∧ h' = h ∧ (is_folder h parent = false ∨ u = Some ""))
  ∨ (is_folder h parent = true ∧ u ≠ Some ""
     ∧ r = Return (node_of (pretty (nextId h)) (mkBookmark (Some parent) t u))
     ∧ h' = set_nextId (nextId h + 1)%N
              (set_nodes (insert (pretty (nextId h)) (mkBookmark (Some parent) t u)) h)).
Proof.
  unfold chrome_bookmarks_create. intros Hrun.
  destruct (is_folder h parent); simpl in Hrun.
  - case_bool_decide as Hu; simplify_eq/=; [left | right]; auto.
  - simplify_eq. left. auto.
Qed.

Lemma create_safe U parent t u h h' r :
  chrome_bookmarks_create parent t u h = (h', r) → safe U h h'.
Proof.
  intros [(-> & -> & _) | (Hf & Hu & -> & ->)]%create_inv; [apply safe_refl|].
  split; [done|]. intros Hwf. pose proof (wf_fresh h Hwf) as Hfresh.
  destruct Hwf as [Hids Hurl]. split; [split|]; simpl.
  - intros i [b Hb]. destruct (decide (i = pretty (nextId h))) as [->|Hne].
    + exists (nextId h). split; [lia | done].
    + rewrite lookup_insert_ne in Hb by done.
      destruct (Hids i) as (k & Hk & ->); [by eexists|]. exists k. split; [lia | done].
  - intros i b. destruct (decide (i = pretty (nextId h))) as [->|Hne].
    + rewrite lookup_insert_eq. intros [= <-]. done.
    + rewrite lookup_insert_ne by done. apply Hurl.
  - intros i b Hb _. simpl. rewrite lookup_insert_ne; [done|]. congruence.
Qed.

Lemma create_locals parent t u h h' r :
  chrome_bookmarks_create parent t u h = (h', r) → locals_same h h'.
Proof. by intros [(-> & -> & _) | (Hf & Hu & -> & ->)]%create_inv. Qed.

Lemma create_returns parent t u h :
  is_folder h parent = true → u ≠ Some "" →
  ∃ h' f, chrome_bookmarks_create parent t u h = (h', Return f)
          ∧ id f = pretty (nextId h)
          ∧ nodes h' !! id f = Some (mkBookmark (Some parent) t u).
Proof.
  intros Hf Hu. unfold chrome_bookmarks_create. rewrite Hf.
  rewrite bool_decide_eq_false_2 by done. simpl.
  eexists _, _. split; [done|]. split; [done|]. simpl. by rewrite lookup_insert_eq.
Qed.

Lemma search_nodes_spec (P : Bookmark → bool) (m : gmap string Bookmark) bm :
  bm ∈ search_nodes P m ↔
  ∃ b, m !! id bm = Some b ∧ P b = true ∧ bm = node_of (id bm) b.
Proof.
  unfold search_nodes. rewrite list_elem_of_fmap. split.
  - intros ([i b] & -> & Hin). apply list_elem_of_filter in Hin as [HP Hin].
    apply elem_of_map_to_list in Hin. simpl in *. eauto.
  - intros (b & Hb & HP & Hbm). exists (id bm, b). split; [done|].
    apply list_elem_of_filter. split; [done|]. by apply elem_of_map_to_list.
Qed.

Lemma search_nodes_NoDup (P : Bookmark → bool) (m : gmap string Bookmark) :
  NoDup (id <$> search_nodes P m).
Proof.
  unfold search_nodes. rewrite <- list_fmap_compose.
  assert (id ∘ (λ kv : string * Bookmark, node_of kv.1 kv.2) = fst) as -> by done.
  apply NoDup_fmap_fst.
  - intros i b1 b2 [_ H1%elem_of_map_to_list]%list_elem_of_filter
                   [_ H2%elem_of_map_to_list]%list_elem_of_filter. congruence.
  - apply NoDup_filter, NoDup_map_to_list.
Qed.

(** Rewriting the title or the parent of a stored node. *)
Lemma rewrite_safe (U : string → Prop) i b b' h :
  nodes h !! i = Some b → bm_url b' = bm_url b →
  (∀ u, bm_url b = Some u → U u) → is_Some (bm_url b) →
  safe U h (set_nodes (insert i b') h).
Proof.
  intros Hb Hu HU Hsome. split; [done|]. intros [Hids Hurl]. split; [split|]; simpl.
  - intros j Hj. apply Hids. apply lookup_insert_is_Some in Hj as [<-|[_ Hj]]; [by eexists | done].
  - intros j bj. destruct (decide (j = i)) as [->|Hne].
    + rewrite lookup_insert_eq. intros [= <-]. rewrite Hu. by eapply Hurl.
    + rewrite lookup_insert_ne by done. apply Hurl.
  - intros j bj Hj Hnot. simpl. rewrite lookup_insert_ne; [done|].
    intros <-. destruct Hsome as [u Hbu]. simplify_eq. by eapply Hnot, HU.
Qed.

Lemma delete_safe (U : string → Prop) i b h :
  nodes h !! i = Some b →
  (∀ u, bm_url b = Some u → U u) → is_Some (bm_url b) →
  safe U h (set_nodes (delete i) h).
Proof.
  intros Hb HU Hsome. split; [done|]. intros [Hids Hurl]. split; [split|]; simpl.
  - intros j [bj Hj]. apply Hids. apply lookup_delete_Some in Hj as [_ Hj]. by eexists.
  - intros j bj Hj. apply lookup_delete_Some in Hj as [_ Hj]. by eapply Hurl.
  - intros j bj Hj Hnot. simpl. rewrite lookup_delete_ne; [done|].
    intros <-. destruct Hsome as [u Hbu]. simplify_eq. by eapply Hnot, HU.
Qed.

Lemma update_inv i t h h' r :
  chrome_bookmarks_update i t h = (h', r) →
  (r = Throw ∧ h' = h ∧ nodes h !! i = None)
  ∨ (∃ b, nodes h !! i = Some b ∧ r = Return tt
          ∧ h' = set_nodes (insert i (mkBookmark (bm_parentId b) t (bm_url b))) h).
Proof.
  unfold chrome_bookmarks_update. destruct (nodes h !! i) as [b|] eqn:Hb; intros [= <- <-].
  - right. eauto.
  - left. auto.
Qed.

Lemma move_inv i parent h h' r :
  chrome_bookmarks_move i parent h = (h', r) →
  (r = Throw ∧ h' = h ∧ (nodes h !! i = None ∨ is_folder h parent = false))
  ∨ (∃ b, nodes h !! i = Some b ∧ is_folder h parent = true ∧ r = Return tt
          ∧ h' = set_nodes (insert i (mkBookmark (Some parent) (bm_title b) (bm_url b))) h).
Proof.
  unfold chrome_bookmarks_move. destruct (nodes h !! i) as [b|] eqn:Hb.
  - destruct (is_folder h parent) eqn:Hf; intros [= <- <-].
    + right. eauto.
    + left. auto.
  - intros [= <- <-]. left. auto.
Qed.

Lemma remove_inv i h h' r :
  chrome_bookmarks_remove i h = (h', r) →
  (r = Throw ∧ h' = h)
  ∨ (∃ b, nodes h !! i = Some b ∧ r = Return tt ∧ h' = set_nodes (delete i) h).
Proof.
  unfold chrome_bookmarks_remove. destruct (nodes h !! i) as [b|] eqn:Hb.
  - destruct (has_children h i); intros [= <- <-]; [left | right]; eauto.
  - intros [= <- <-]. left. auto.
Qed.

Lemma getFolderById_inv i h h' r :
  getFolderById i h = (h', r) →
  h' = h ∧ ((r = Throw ∧ nodes h !! i = None)
            ∨ (∃ b, nodes h !! i = Some b ∧ r = Return (node_of i b))).
Proof.
  unfold getFolderById, findFolderById, bind, chrome_bookmarks_getSubTree.
  destruct (nodes h !! i) as [b|] eqn:Hb; simpl; intros [= <- <-]; split; eauto.
Qed.

Lemma getChildren_inv i h h' r :
  chrome_bookmarks_getChildren i h = (h', r) →
  h' = h ∧ ((r = Throw ∧ is_folder h i = false)
            ∨ (is_folder h i = true
               ∧ r = Return (search_nodes (λ b, bool_decide (bm_parentId b = Some i))
                                          (nodes h)))).
Proof.
  unfold chrome_bookmarks_getChildren.
  destruct (is_folder h i); intros [= <- <-]; split; eauto.
Qed.

(** * The steps of the walk *)

Lemma same_urls_refl h : same_urls h h.
Proof. intros j b Hb. eauto. Qed.

Lemma same_urls_trans h1 h2 h3 : same_urls h1 h2 → same_urls h2 h3 → same_urls h1 h3.
Proof.
  intros H12 H23 j b Hb. destruct (H12 j b Hb) as (b2 & Hb2 & Hu2).
  destruct (H23 j b2 Hb2) as (b3 & Hb3 & Hu3). exists b3. split; congruence.
Qed.

Lemma same_urls_insert i b b' h :
  nodes h !! i = Some b → bm_url b' = bm_url b →
  same_urls h (set_nodes (insert i b') h).
Proof.
  intros Hb Hu j bj Hj. simpl. destruct (decide (j = i)) as [->|Hne].
  - rewrite lookup_insert_eq. exists b'. split; congruence.
  - rewrite lookup_insert_ne by done. eauto.
Qed.

Lemma same_urls_folder h h' i :
  same_urls h h' → is_folder h i = true → is_folder h' i = true.
Proof.
  rewrite !is_folder_spec. intros Hs (b & Hb & Hu).
  destruct (Hs i b Hb) as (b' & Hb' & Hu'). exists b'. split; congruence.
Qed.

Lemma live_same_urls u results h h' :
  same_urls h h' → live u results h → live u results h'.
Proof.
  intros Hs Hl. eapply Forall_impl; [exact Hl|]. intros bm (b & Hb & Hu).
  destruct (Hs _ _ Hb) as (b' & Hb' & Hu'). exists b'. split; congruence.
Qed.

Lemma search_live u h :
  live u (search_nodes (λ b, bool_decide (bm_url b = Some u)) (nodes h)) h.
Proof.
  apply Forall_forall. intros bm (b & Hb & HP & _)%search_nodes_spec.
  apply bool_decide_eq_true in HP. eauto.
Qed.

Lemma updateResult_spec (U : string → Prop) folder cid previous rd bm h h' r :
  updateResult folder cid previous rd bm h = (h', r) →
  (∃ b, nodes h !! id bm = Some b ∧ bm_url b = Some (rd_link rd)) →
  U (rd_link rd) →
  safe U h h' ∧ locals_same h h' ∧ same_urls h h' ∧ nextId h' = nextId h
  ∧ (is_folder h (id folder) = true → r = Return tt).
Proof.
  unfold updateResult. intros Hrun (b & Hb & Hu) HU.
  destruct (truthy_opt (parentId bm)).
  - unfold bind in Hrun.
    destruct (chrome_bookmarks_update (id bm) (rd_title rd) h) as [h1 r1] eqn:Hup.
    apply update_inv in Hup as [(-> & -> & Hn) | (b1 & Hb1 & -> & ->)]; [congruence|].
    assert (b1 = b) as -> by congruence. clear Hb1.
    assert (safe U h (set_nodes (insert (id bm)
              (mkBookmark (bm_parentId b) (rd_title rd) (bm_url b))) h)) as Hs1.
    { apply (rewrite_safe U _ b); [done | done | | by rewrite Hu].
      intros u. rewrite Hu. by intros [= <-]. }
    pose proof (same_urls_insert (id bm) b
      (mkBookmark (bm_parentId b) (rd_title rd) (bm_url b)) h Hb eq_refl) as Hsu1.
    case_bool_decide.
    + destruct (chrome_bookmarks_move _ _ _) as [h2 r2] eqn:Hmv in Hrun.
      simplify_eq.
      apply move_inv in Hmv as [(-> & -> & Hn) | (b2 & Hb2 & Hf & -> & ->)].
      * split; [exact Hs1|]. split; [done|]. split; [exact Hsu1|]. split; [done|].
        intros Hf. exfalso.
        destruct Hn as [Hn|Hn].
        -- simpl in Hn. by rewrite lookup_insert_eq in Hn.
        -- apply (same_urls_folder _ _ _ Hsu1) in Hf. congruence.
      * simpl in Hb2. rewrite lookup_insert_eq in Hb2. simplify_eq/=.
        split; [|split; [done|split; [|done]]].
        -- eapply safe_trans; [exact Hs1|].
           apply (rewrite_safe U _ (mkBookmark (bm_parentId b) (rd_title rd) (bm_url b)));
             simpl; [by rewrite lookup_insert_eq | done | | by rewrite Hu].
           intros u. rewrite Hu. by intros [= <-].
        -- eapply same_urls_trans; [exact Hsu1|].
           apply (same_urls_insert _ (mkBookmark (bm_parentId b) (rd_title rd) (bm_url b)));
             simpl; [by rewrite lookup_insert_eq | done].
    + unfold ret in Hrun. simplify_eq.
      split; [exact Hs1|]. split; [done|]. split; [exact Hsu1|]. done.
  - unfold ret in Hrun. simplify_eq. split; [apply safe_refl|]. split; [done|].
    split; [apply same_urls_refl | done].
Qed.

Lemma update_loop_spec (U : string → Prop) folder cid previous rd results h h' r :
  for_of (updateResult folder cid previous rd) results h = (h', r) →
  live (rd_link rd) results h → U (rd_link rd) →
  safe U h h' ∧ locals_same h h' ∧ same_urls h h' ∧ nextId h' = nextId h
  ∧ (is_folder h (id folder) = true → r = Return tt).
Proof.
  revert h. induction results as [|bm results IH]; intros h Hrun Hlive HU.
  - unfold for_of, ret in Hrun. simplify_eq. split; [apply safe_refl|]. split; [done|].
    split; [apply same_urls_refl | done].
  - simpl in Hrun. unfold bind in Hrun.
    destruct (updateResult folder cid previous rd bm h) as [h1 r1] eqn:Hstep.
    apply Forall_cons in Hlive as [Hbm Hlive].
    destruct (updateResult_spec U _ _ _ _ _ _ _ _ Hstep Hbm HU)
      as (Hs1 & Hl1 & Hu1 & Hn1 & Hr1).
    destruct r1 as [[]|].
    + destruct (IH h1 Hrun (live_same_urls _ _ _ _ Hu1 Hlive) HU)
        as (Hs2 & Hl2 & Hu2 & Hn2 & Hr2).
      split; [by eapply safe_trans|]. split.
      { destruct Hl1 as (?&?&?), Hl2 as (?&?&?). repeat split; congruence. }
      split; [by eapply same_urls_trans|]. split; [congruence|].
      intros Hf. apply Hr2. by eapply same_urls_folder.
    + simplify_eq. split; [done|]. split; [done|]. split; [done|]. split; [done|].
      intros Hf. by specialize (Hr1 Hf).
Qed.

Lemma processRaindrop_spec (U : string → Prop) previousBookmarks folder d rd h h' r :
  processRaindrop folder (collectionId_of d) previousBookmarks rd h = (h', r) →
  (tracked previousBookmarks (rd_link rd) → U (rd_link rd)) →
  safe U h h'
  ∧ newCollectionFolders h' = newCollectionFolders h
  ∧ newBookmarks h' = <[rd_link rd := bookmarkState_of (collectionId_of d) rd]> (newBookmarks h)
  ∧ (r = Return tt → stats h' = tally_item previousBookmarks (d, rd) (stats h))
  ∧ (is_folder h (id folder) = true → rd_link rd ≠ "" → r = Return tt).
Proof.
  unfold processRaindrop, tally_item, bind, newBookmarks_set, modify. simpl.
  set (cid := collectionId_of d). set (h1 := set_newBookmarks _ h).
  intros Hrun HU. revert Hrun.
  assert (safe U h h1) as Hs1 by by apply safe_locals.
  destruct (previousBookmarks !! rd_link rd) as [previous|] eqn:Hprev.
  - destruct (bool_decide (bs_title previous ≠ rd_title rd)
              || bool_decide (bs_collectionId previous ≠ cid)).
    + unfold chrome_bookmarks_search.
      set (results := search_nodes _ _).
      destruct (for_of (updateResult folder cid previous rd) results h1)
        as [h2 r2] eqn:Hloop.
      destruct (update_loop_spec U _ _ _ _ _ _ _ _ Hloop)
        as (Hs2 & (Hl1 & Hl2 & Hl3) & Hu2 & Hn2 & Hr2);
        [apply search_live | apply HU; by eexists|].
      destruct r2 as [[]|]; unfold stats_updated_incr, modify; intros [= <- <-]; simpl.
      * split.
        { eapply safe_trans; [exact Hs1|]. eapply safe_trans; [exact Hs2|].
          by apply safe_locals. }
        rewrite Hl1, Hl2, Hl3. done.
      * split; [eapply safe_trans; [exact Hs1 | exact Hs2]|]. rewrite Hl1, Hl2.
        split; [done|]. split; [done|]. split; [done|].
        intros Hf _. by apply Hr2.
    + unfold stats_unchanged_incr, modify. intros [= <- <-]. simpl.
      split; [|done]. by apply safe_locals.
  - destruct (chrome_bookmarks_create _ _ _ h1) as [h2 r2] eqn:Hc.
    pose proof (create_safe U _ _ _ _ _ _ Hc) as Hs2.
    pose proof (create_locals _ _ _ _ _ _ Hc) as (Hl1 & Hl2 & Hl3).
    destruct r2 as [f|]; unfold stats_added_incr, modify; intros [= <- <-]; simpl.
    + split.
      { eapply safe_trans; [exact Hs1|]. eapply safe_trans; [exact Hs2|].
        by apply safe_locals. }
      rewrite Hl1, Hl2, Hl3. done.
    + split; [eapply safe_trans; [exact Hs1 | exact Hs2]|]. rewrite Hl1, Hl2.
      split; [done|]. split; [done|]. split; [done|].
      intros Hf Hne.
      destruct (create_returns (id folder) (rd_title rd) (Some (rd_link rd)) h1)
        as (? & ? & Hc' & _); [done | congruence | congruence].
Qed.

Lemma folders_ok_keeps U h h' :
  keeps U h h' → newCollectionFolders h' = newCollectionFolders h →
  folders_ok h → folders_ok h'.
Proof.
  intros Hk Hcf Hok cid i. rewrite Hcf. intros Hi.
  eapply keeps_folder; [exact Hk|]. by eapply Hok.
Qed.

Lemma folders_ok_set U h h' cid i :
  keeps U h h' → newCollectionFolders h' = <[cid := i]> (newCollectionFolders h) →
  is_folder h' i = true → folders_ok h → folders_ok h'.
Proof.
  intros Hk Hcf Hi Hok cid' i'. rewrite Hcf.
  destruct (decide (cid = cid')) as [->|Hne].
  - rewrite lookup_insert_eq. by intros [= <-].
  - rewrite lookup_insert_ne by done. intros Hi'.
    eapply keeps_folder; [exact Hk|]. by eapply Hok.
Qed.

(** Creating the folder of a collection and recording it. *)
Lemma create_folder_spec U parent t cid h h' r :
  (let* folder := chrome_bookmarks_create parent t None in
   let* _ := collectionFolders_set cid (id folder) in
   ret folder) h = (h', r) →
  safe U h h' ∧ newBookmarks h' = newBookmarks h ∧ stats h' = stats h
  ∧ (∀ f, r = Return f →
       newCollectionFolders h' = <[cid := id f]> (newCollectionFolders h)
       ∧ is_folder h' (id f) = true)
  ∧ (is_folder h parent = true → ∃ f, r = Return f).
Proof.
  unfold bind, collectionFolders_set, modify, ret.
  destruct (chrome_bookmarks_create parent t None h) as [h1 r1] eqn:Hc.
  pose proof (create_safe U _ _ _ _ _ _ Hc) as Hs1.
  pose proof (create_locals _ _ _ _ _ _ Hc) as (Hl1 & Hl2 & Hl3).
  destruct r1 as [f|]; intros [= <- <-]; simpl.
  - split.
    { eapply safe_trans; [exact Hs1|]. by apply safe_locals. }
    split; [done|]. split; [done|]. split; [|eauto].
    intros f' [= <-]. rewrite Hl2. split; [done|].
    apply create_inv in Hc as [(? & _) | (_ & _ & [= ->] & ->)]; [done|].
    unfold is_folder. simpl. by rewrite lookup_insert_eq.
  - split; [done|]. split; [done|]. split; [done|]. split; [done|].
    intros Hf. destruct (create_returns parent t None h) as (? & ? & Hc' & _);
      [done | done | congruence].
Qed.

Lemma resolveFolder_spec U parentFolder d h h' r :
  resolveFolder parentFolder d h = (h', r) →
  safe U h h' ∧ newBookmarks h' = newBookmarks h ∧ stats h' = stats h
  ∧ (∀ f, r = Return f →
       if truthy (title_of d)
       then newCollectionFolders h' = <[collectionId_of d := id f]> (newCollectionFolders h)
            ∧ is_Some (nodes h' !! id f)
       else f = parentFolder ∧ newCollectionFolders h' = newCollectionFolders h)
  ∧ (wf h → is_folder h (id parentFolder) = true → folders_ok h →
     ∃ f, r = Return f ∧ is_folder h' (id f) = true ∧ folders_ok h').
Proof.
  unfold resolveFolder. destruct (truthy (title_of d)) eqn:Ht.
  - unfold bind at 1. unfold collectionFolders_get.
    destruct (newCollectionFolders h !! collectionId_of d) as [i|] eqn:Hcf; simpl.
    + destruct (truthy i) eqn:Hi.
      * unfold bind at 1, try_catch.
        destruct (getFolderById i h) as [h1 r1] eqn:Hg.
        apply getFolderById_inv in Hg as [-> [(-> & Hn) | (b & Hb & ->)]].
        -- intros Hrun.
           destruct (create_folder_spec U _ _ _ _ _ _ Hrun) as (Hs & Hnb & Hst & Hret & Htot).
           split; [done|]. split; [done|]. split; [done|]. split.
           { intros f Hf. destruct (Hret f Hf) as [Hcf' Hfo]. split; [done|].
             apply is_folder_spec in Hfo as (b & Hb & _). by eexists. }
           intros Hwf Hfp Hok. exfalso.
           specialize (Hok _ _ Hcf). apply is_folder_spec in Hok as (b & Hb & _).
           congruence.
        -- unfold collectionFolders_set, modify, ret. intros [= <- <-]. simpl.
           split; [by apply safe_locals|]. split; [done|]. split; [done|]. split.
           { intros f [= <-]. split; [done|]. simpl. by eexists. }
           intros Hwf Hfp Hok. eexists. split; [done|]. simpl.
           assert (is_folder h i = true) as Hfi by by eapply Hok.
           split; [exact Hfi|].
           intros cid' i'. simpl. rewrite insert_id by done. apply Hok.
      * intros Hrun.
        destruct (create_folder_spec U _ _ _ _ _ _ Hrun) as (Hs & Hnb & Hst & Hret & Htot).
        split; [done|]. split; [done|]. split; [done|]. split.
        { intros f Hf. destruct (Hret f Hf) as [Hcf' Hfo]. split; [done|].
          apply is_folder_spec in Hfo as (b & Hb & _). by eexists. }
        intros Hwf Hfp Hok. destruct (Htot Hfp) as [f ->]. exists f. split; [done|].
        destruct (Hret f eq_refl) as [Hcf' Hfo]. split; [done|].
        destruct Hs as [_ Hs]. destruct (Hs Hwf) as [_ Hk].
        by eapply folders_ok_set.
    + intros Hrun.
      destruct (create_folder_spec U _ _ _ _ _ _ Hrun) as (Hs & Hnb & Hst & Hret & Htot).
      split; [done|]. split; [done|]. split; [done|]. split.
      { intros f Hf. destruct (Hret f Hf) as [Hcf' Hfo]. split; [done|].
        apply is_folder_spec in Hfo as (b & Hb & _). by eexists. }
      intros Hwf Hfp Hok. destruct (Htot Hfp) as [f ->]. exists f. split; [done|].
      destruct (Hret f eq_refl) as [Hcf' Hfo]. split; [done|].
      destruct Hs as [_ Hs]. destruct (Hs Hwf) as [_ Hk].
      by eapply folders_ok_set.
  - unfold ret. intros [= <- <-]. split; [apply safe_refl|].
    split; [done|]. split; [done|]. split.
    { by intros f [= <-]. }
    intros Hwf Hfp Hok. eauto.
Qed.

(** * The tree walk as a whole *)

Lemma record_items_snoc l x m :
  record_items (l ++ [x]) m
  = <[rd_link x.2 := bookmarkState_of (collectionId_of x.1) x.2]> (record_items l m).
Proof. unfold record_items. by rewrite foldl_snoc. Qed.

Lemma tally_snoc previousBookmarks l x s :
  tally previousBookmarks (l ++ [x]) s
  = tally_item previousBookmarks x (tally previousBookmarks l s).
Proof. unfold tally. by rewrite foldl_snoc. Qed.

Lemma frames_keep U (qs : list (option Collection * BookmarkTreeNode)) h h' :
  keeps U h h' →
  Forall (λ q, is_folder h (id q.2) = true) qs →
  Forall (λ q, is_folder h' (id q.2) = true) qs.
Proof.
  intros Hk Hqs. eapply Forall_impl; [exact Hqs|].
  intros q Hq. by eapply keeps_folder.
Qed.

(** On a well-formed store, with the parent folder in place, every listing
    answered and no empty link, the walk returns; it records every item it
    meets, tallies the branch each one takes, and touches only bookmarks
    whose URL the previous state tracks. *)
Lemma walk_total c previousBookmarks parentFolder t h :
  wf h → folders_ok h → is_folder h (id parentFolder) = true →
  fetches_ok c t = true →
  Forall (λ x, rd_link x.2 ≠ "") (items_of c t) →
  ∃ h', processCollectionForIncremental c previousBookmarks parentFolder t h
          = (h', Return tt)
        ∧ wf h' ∧ folders_ok h' ∧ safe (tracked previousBookmarks) h h'
        ∧ newBookmarks h' = record_items (items_of c t) (newBookmarks h)
        ∧ stats h' = tally previousBookmarks (items_of c t) (stats h).
Proof.
  intros Hwf Hok Hfp Hfetch Hlinks.
  set (U := tracked previousBookmarks).
  pose (Inv := λ (l : list (option Collection * Raindrop)) (h1 : Heap),
          wf h1 ∧ folders_ok h1 ∧ safe U h h1
          ∧ newBookmarks h1 = record_items l (newBookmarks h)
          ∧ stats h1 = tally previousBookmarks l (stats h)).
  pose (F := λ (d : option Collection) (f : BookmarkTreeNode) (h1 : Heap),
          is_folder h1 (id f) = true).
  assert (triple (λ h1, Inv [] h1 ∧ Forall (λ q, F q.1 q.2 h1) [(None, parentFolder)])
            (processCollectionForIncremental c previousBookmarks parentFolder t)
            (λ _ h1, Inv ([] ++ items_of c t) h1
                     ∧ Forall (λ q, F q.1 q.2 h1) [(None, parentFolder)])
            (λ _, False)) as Htriple.
  { apply (walk_rule Inv F (λ _, False)).
    - intros qs l dp p d h1 [(Hwf1 & Hok1 & Hs1 & Hnb1 & Hst1) Hfr].
      destruct (resolveFolder p d h1) as [h2 r] eqn:Hrun.
      destruct (resolveFolder_spec U _ _ _ _ _ Hrun) as (Hs & Hnb & Hst & _ & Htot).
      apply Forall_cons in Hfr as Hfr'. destruct Hfr' as [Hp _]. simpl in Hp.
      destruct (Htot Hwf1 Hp Hok1) as (f & -> & Hf & Hok2).
      destruct Hs as [Hstat Hs]. destruct (Hs Hwf1) as [Hwf2 Hk].
      split.
      + split; [done|]. split; [done|]. split.
        { eapply safe_trans; [exact Hs1|]. split; [done|]. by intros _. }
        split; congruence.
      + apply Forall_cons. split; [done|]. by eapply frames_keep.
    - intros qs l d f rd Hin h1 [(Hwf1 & Hok1 & Hs1 & Hnb1 & Hst1) Hfr].
      destruct (processRaindrop f (collectionId_of d) previousBookmarks rd h1)
        as [h2 r] eqn:Hrun.
      destruct (processRaindrop_spec U _ _ d _ _ _ _ Hrun)
        as (Hs & Hcf & Hnb & Hst & Htot); [done|].
      apply Forall_cons in Hfr as Hfr'. destruct Hfr' as [Hf _]. simpl in Hf.
      rewrite Forall_forall in Hlinks.
      rewrite (Htot Hf (Hlinks _ Hin)) in *.
      destruct Hs as [Hstat Hs]. destruct (Hs Hwf1) as [Hwf2 Hk].
      split.
      + split; [done|]. split; [by eapply folders_ok_keeps|]. split.
        { eapply safe_trans; [exact Hs1|]. split; [done|]. by intros _. }
        rewrite record_items_snoc, tally_snoc, Hnb, Hst by done. simpl.
        by rewrite Hnb1, Hst1.
      + by eapply frames_keep.
    - intros Hf. congruence. }
  specialize (Htriple h).
  destruct (processCollectionForIncremental c previousBookmarks parentFolder t h)
    as [h' [[]|]].
  - destruct Htriple as [(Hwf' & Hok' & Hs' & Hnb' & Hst') _].
    + split; [|by apply Forall_singleton].
      split; [done|]. split; [done|]. split; [apply safe_refl | done].
    + exists h'. done.
  - exfalso. apply Htriple.
    split; [|by apply Forall_singleton].
    split; [done|]. split; [done|]. split; [apply safe_refl | done].
Qed.

(** * The unsorted pass *)

Lemma retitle_loop_spec (U : string → Prop) u t results h h' r :
  for_of (λ bm, chrome_bookmarks_update (id bm) t) results h = (h', r) →
  live u results h → U u →
  safe U h h' ∧ locals_same h h' ∧ same_urls h h' ∧ r = Return tt.
Proof.
  revert h. induction results as [|bm results IH]; intros h Hrun Hlive HU.
  - unfold for_of, ret in Hrun. simplify_eq. split; [apply safe_refl|]. split; [done|].
    split; [apply same_urls_refl | done].
  - simpl in Hrun. unfold bind in Hrun.
    destruct (chrome_bookmarks_update (id bm) t h) as [h1 r1] eqn:Hstep.
    apply Forall_cons in Hlive as [(b & Hb & Hu) Hlive].
    apply update_inv in Hstep as [(-> & -> & Hn) | (b1 & Hb1 & -> & ->)]; [congruence|].
    assert (b1 = b) as -> by congruence. clear Hb1.
    assert (safe U h (set_nodes (insert (id bm)
              (mkBookmark (bm_parentId b) t (bm_url b))) h)) as Hs1.
    { apply (rewrite_safe U _ b); [done | done | | by rewrite Hu].
      intros u'. rewrite Hu. by intros [= <-]. }
    pose proof (same_urls_insert (id bm) b
      (mkBookmark (bm_parentId b) t (bm_url b)) h Hb eq_refl) as Hsu1.
    destruct (IH _ Hrun (live_same_urls _ _ _ _ Hsu1 Hlive) HU)
      as (Hs2 & Hl2 & Hu2 & Hr2).
    split; [by eapply safe_trans|]. split; [done|].
    split; [by eapply same_urls_trans | done].
Qed.

Lemma processUnsortedRaindrop_spec (U : string → Prop) previousBookmarks unsortedFolder
    rd h h' r :
  processUnsortedRaindrop unsortedFolder previousBookmarks rd h = (h', r) →
  (newBookmarks h !! rd_link rd = None → tracked previousBookmarks (rd_link rd) →
   U (rd_link rd)) →
  safe U h h'
  ∧ newCollectionFolders h' = newCollectionFolders h
  ∧ (r = Return tt →
     (newBookmarks h', stats h')
     = unsorted_item previousBookmarks (newBookmarks h, stats h) rd)
  ∧ (is_folder h (id unsortedFolder) = true → rd_link rd ≠ "" → r = Return tt)
  ∧ (∀ v, is_Some (newBookmarks h !! v) → is_Some (newBookmarks h' !! v)).
Proof.
  unfold processUnsortedRaindrop, unsorted_item, bind, newBookmarks_has. simpl.
  intros Hrun HU. revert Hrun.
  case_bool_decide as Hseen.
  { unfold ret. intros [= <- <-]. split; [apply safe_refl | done]. }
  assert (newBookmarks h !! rd_link rd = None) as Hnone.
  { destruct (newBookmarks h !! rd_link rd) eqn:Hl; [|done]. destruct Hseen. by eexists. }
  specialize (HU Hnone).
  unfold newBookmarks_set, modify.
  set (h1 := set_newBookmarks _ h).
  assert (∀ v, is_Some (newBookmarks h !! v) → is_Some (newBookmarks h1 !! v)) as Hmono.
  { intros v Hv. simpl. rewrite lookup_insert_is_Some. destruct (decide (rd_link rd = v)); auto. }
  assert (safe U h h1) as Hs1 by by apply safe_locals.
  destruct (previousBookmarks !! rd_link rd) as [previous|] eqn:Hprev.
  - destruct (bool_decide (bs_title previous ≠ rd_title rd)).
    + unfold chrome_bookmarks_search.
      set (results := search_nodes _ _).
      destruct (for_of _ results h1) as [h2 r2] eqn:Hloop.
      destruct (retitle_loop_spec U (rd_link rd) _ _ _ _ _ Hloop)
        as (Hs2 & (Hl1 & Hl2 & Hl3) & Hu2 & ->);
        [apply search_live | apply HU; by eexists|].
      unfold stats_updated_incr, modify; intros [= <- <-]; simpl.
      split.
      { eapply safe_trans; [exact Hs1|]. eapply safe_trans; [exact Hs2|].
        by apply safe_locals. }
      rewrite Hl1, Hl2, Hl3. done.
    + unfold stats_unchanged_incr, modify. intros [= <- <-]. simpl.
      split; [|done]. by apply safe_locals.
  - destruct (chrome_bookmarks_create _ _ _ h1) as [h2 r2] eqn:Hc.
    pose proof (create_safe U _ _ _ _ _ _ Hc) as Hs2.
    pose proof (create_locals _ _ _ _ _ _ Hc) as (Hl1 & Hl2 & Hl3).
    destruct r2 as [f|]; unfold stats_added_incr, modify; intros [= <- <-]; simpl.
    + split.
      { eapply safe_trans; [exact Hs1|]. eapply safe_trans; [exact Hs2|].
        by apply safe_locals. }
      rewrite Hl1, Hl2, Hl3. done.
    + split; [eapply safe_trans; [exact Hs1 | exact Hs2]|]. rewrite Hl1, Hl2.
      split; [done|]. split; [done|]. split; [|done].
      intros Hf Hne.
      destruct (create_returns (id unsortedFolder) (rd_title rd) (Some (rd_link rd)) h1)
        as (? & ? & Hc' & _); [done | congruence | congruence].
Qed.

Lemma unsorted_items_snoc previousBookmarks l x ms :
  unsorted_items previousBookmarks (l ++ [x]) ms
  = unsorted_item previousBookmarks (unsorted_items previousBookmarks l ms) x.
Proof. unfold unsorted_items. by rewrite foldl_snoc. Qed.

Lemma unsorted_loop_total previousBookmarks unsortedFolder us h :
  wf h → folders_ok h → is_folder h (id unsortedFolder) = true →
  Forall (λ rd, rd_link rd ≠ "") us →
  ∃ h', for_of (processUnsortedRaindrop unsortedFolder previousBookmarks) us h
          = (h', Return tt)
        ∧ wf h' ∧ folders_ok h' ∧ safe (tracked previousBookmarks) h h'
        ∧ (newBookmarks h', stats h')
          = unsorted_items previousBookmarks us (newBookmarks h, stats h).
Proof.
  intros Hwf Hok Hf Hlinks.
  set (U := tracked previousBookmarks).
  pose (J := λ (l : list Raindrop) (h1 : Heap),
          wf h1 ∧ folders_ok h1 ∧ safe U h h1
          ∧ is_folder h1 (id unsortedFolder) = true
          ∧ (newBookmarks h1, stats h1)
            = unsorted_items previousBookmarks l (newBookmarks h, stats h)).
  assert (triple (J []) (for_of (processUnsortedRaindrop unsortedFolder previousBookmarks) us)
            (λ _, J us) (λ _, False)) as Htriple.
  { apply triple_for_of. intros pre x post Hus h1 (Hwf1 & Hok1 & Hs1 & Hf1 & Hb1).
    destruct (processUnsortedRaindrop unsortedFolder previousBookmarks x h1)
      as [h2 r] eqn:Hrun.
    destruct (processUnsortedRaindrop_spec U _ _ _ _ _ _ Hrun) as (Hs & Hcf & Hbk & Htot & _);
      [by intros _ ?|].
    rewrite Forall_forall in Hlinks.
    assert (x ∈ us) as Hx by (rewrite Hus; apply elem_of_app; right; by left).
    rewrite (Htot Hf1 (Hlinks _ Hx)) in *.
    destruct Hs as [Hstat Hs]. destruct (Hs Hwf1) as [Hwf2 Hk].
    split; [done|]. split; [by eapply folders_ok_keeps|]. split.
    { eapply safe_trans; [exact Hs1|]. split; [done|]. by intros _. }
    split; [by eapply keeps_folder|].
    rewrite unsorted_items_snoc, <- Hb1. by apply Hbk. }
  specialize (Htriple h).
  destruct (for_of _ us h) as [h' [[]|]].
  - destruct Htriple as (Hwf' & Hok' & Hs' & _ & Hb').
    + split; [done|]. split; [done|]. split; [apply safe_refl | done].
    + exists h'. done.
  - exfalso. apply Htriple.
    split; [done|]. split; [done|]. split; [apply safe_refl | done].
Qed.

(** Lines 313-339: the folder of the unsorted bucket is found or created. *)
Lemma unsorted_folder_total U baseFolder h :
  wf h → folders_ok h → is_folder h (id baseFolder) = true →
  ∃ h1 f,
    (if truthy_opt (newCollectionFolders h !! UNSORTED_ID) then
       try_catch (getFolderById (default "" (newCollectionFolders h !! UNSORTED_ID)))
                 (chrome_bookmarks_create (id baseFolder) UNSORTED_TITLE None)
     else
       let* children := chrome_bookmarks_getChildren (id baseFolder) in
       match List.find (λ c, bool_decide (title c = UNSORTED_TITLE)
                             && negb (truthy_opt (url c))) children with
       | Some existing => ret existing
       | None => chrome_bookmarks_create (id baseFolder) UNSORTED_TITLE None
       end) h = (h1, Return f)
    ∧ wf h1 ∧ safe U h h1 ∧ locals_same h h1 ∧ is_folder h1 (id f) = true
    ∧ (∀ i, newCollectionFolders h !! UNSORTED_ID = Some i → id f = i).
Proof.
  intros Hwf Hok Hbase.
  assert (newCollectionFolders h !! UNSORTED_ID = None →
          ∃ h1 f, chrome_bookmarks_create (id baseFolder) UNSORTED_TITLE None h
                  = (h1, Return f)
                  ∧ wf h1 ∧ safe U h h1 ∧ locals_same h h1 ∧ is_folder h1 (id f) = true
                  ∧ (∀ i, newCollectionFolders h !! UNSORTED_ID = Some i → id f = i))
    as Hcreate.
  { intros Hnone.
    destruct (create_returns (id baseFolder) UNSORTED_TITLE None h)
      as (h1 & f & Hc & Hid & Hf); [done | done|].
    exists h1, f. split; [done|].
    pose proof (create_safe U _ _ _ _ _ _ Hc) as Hs.
    split; [by apply Hs|]. split; [done|]. split; [by eapply create_locals|].
    split; [apply is_folder_spec; eauto|]. intros i. by rewrite Hnone. }
  assert (newCollectionFolders h !! UNSORTED_ID = None →
          ∃ h1 f,
            (let* children := chrome_bookmarks_getChildren (id baseFolder) in
             match List.find (λ c, bool_decide (title c = UNSORTED_TITLE)
                                   && negb (truthy_opt (url c))) children with
             | Some existing => ret existing
             | None => chrome_bookmarks_create (id baseFolder) UNSORTED_TITLE None
             end) h = (h1, Return f)
            ∧ wf h1 ∧ safe U h h1 ∧ locals_same h h1 ∧ is_folder h1 (id f) = true
            ∧ (∀ i, newCollectionFolders h !! UNSORTED_ID = Some i → id f = i))
    as Hlookup.
  { intros Hnone. unfold bind.
    destruct (chrome_bookmarks_getChildren (id baseFolder) h) as [h1 r1] eqn:Hg.
    apply getChildren_inv in Hg as [-> [(-> & Hn) | (_ & ->)]]; [congruence|].
    destruct (List.find _ _) as [existing|] eqn:Hfind; [|by apply Hcreate].
    apply find_some in Hfind as [Hin Hp].
    apply list_elem_of_In, search_nodes_spec in Hin as (b & Hb & _ & Heq).
    apply andb_true_iff in Hp as [_ Hu]. apply negb_true_iff in Hu.
    exists h, existing. split; [done|]. split; [done|].
    split; [apply safe_refl|]. split; [done|]. split; [|intros i; by rewrite Hnone].
    apply is_folder_spec. exists b. split; [done|].
    rewrite Heq in Hu. simpl in Hu. destruct (bm_url b) as [u|] eqn:Hbu; [|done].
    simpl in Hu. unfold truthy in Hu. apply negb_false_iff, bool_decide_eq_true in Hu.
    subst u. destruct Hwf as [_ Hurl]. by destruct (Hurl _ _ Hb). }
  destruct (newCollectionFolders h !! UNSORTED_ID) as [i|] eqn:Hcf; simpl;
    [|by apply Hlookup].
  assert (is_folder h i = true) as Hfi by by eapply Hok.
  assert (truthy i = true) as ->.
  { apply is_folder_spec in Hfi as (b & Hb & _).
    unfold truthy. apply negb_true_iff, bool_decide_eq_false.
    eapply wf_id_nonempty; [done | by eexists]. }
  unfold try_catch. destruct (getFolderById i h) as [h1 r1] eqn:Hg.
  apply getFolderById_inv in Hg as [-> [(-> & Hn) | (b & Hb & ->)]].
  { apply is_folder_spec in Hfi as (b & Hb & _). congruence. }
  exists h, (node_of i b). split; [done|]. split; [done|].
  split; [apply safe_refl|]. split; [done|]. split; [done|].
  by intros i' [= <-].
Qed.

Lemma syncUnsortedCollection_total c previousBookmarks baseFolder h :
  wf h → folders_ok h → is_folder h (id baseFolder) = true →
  Forall (λ rd, rd_link rd ≠ "") (default [] (getAllRaindrops c UNSORTED_ID)) →
  ∃ h', syncUnsortedCollection baseFolder c previousBookmarks h = (h', Return tt)
        ∧ wf h' ∧ safe (tracked previousBookmarks) h h'
        ∧ (newBookmarks h', stats h')
          = unsorted_items previousBookmarks (default [] (getAllRaindrops c UNSORTED_ID))
                           (newBookmarks h, stats h).
Proof.
  intros Hwf Hok Hbase Hlinks.
  set (U := tracked previousBookmarks).
  unfold syncUnsortedCollection.
  unfold bind at 1. unfold collectionFolders_get.
  unfold bind at 1.
  destruct (unsorted_folder_total U baseFolder h Hwf Hok Hbase)
    as (h1 & f & -> & Hwf1 & Hs1 & (Hnb1 & Hcf1 & Hst1) & Hf1 & _).
  unfold bind at 1. unfold collectionFolders_set, modify.
  set (h2 := set_newCollectionFolders _ h1).
  assert (wf h2) as Hwf2 by done.
  assert (is_folder h2 (id f) = true) as Hf2 by done.
  assert (folders_ok h2) as Hok2.
  { destruct Hs1 as [_ Hs1']. destruct (Hs1' Hwf) as [_ Hk1].
    apply (folders_ok_set U h1 h2 UNSORTED_ID (id f)); [by intros i b Hb _ | done | done |].
    by eapply folders_ok_keeps. }
  assert (safe U h h2) as Hs2.
  { eapply safe_trans; [exact Hs1|]. by apply safe_locals. }
  unfold try_catch, raindrop_getAllRaindrops.
  destruct (getAllRaindrops c UNSORTED_ID) as [us|] eqn:Hus; simpl in *.
  - unfold bind, ret.
    destruct (unsorted_loop_total previousBookmarks f us h2 Hwf2 Hok2 Hf2 Hlinks)
      as (h3 & -> & Hwf3 & Hok3 & Hs3 & Hb3).
    exists h3. split; [done|]. split; [done|].
    split; [by eapply safe_trans|]. rewrite Hb3. simpl. by rewrite Hnb1, Hst1.
  - unfold bind, throw, ret. exists h2. split; [done|]. split; [done|].
    split; [done|]. simpl. by rewrite Hnb1, Hst1.
Qed.

(** * The deletion pass *)

Lemma deleteResult_spec (U : string → Prop) u baseFolder bm h h' r :
  deleteResult baseFolder bm h = (h', r) →
  (∀ b, nodes h !! id bm = Some b → bm_url b = Some u) → U u →
  safe U h h' ∧ newBookmarks h' = newBookmarks h
  ∧ newCollectionFolders h' = newCollectionFolders h
  ∧ added (stats h') = added (stats h) ∧ updated (stats h') = updated (stats h)
  ∧ unchanged (stats h') = unchanged (stats h)
  ∧ (∀ j b, nodes h' !! j = Some b → nodes h !! j = Some b).
Proof.
  unfold deleteResult. intros Hrun Hlive HU.
  destruct (truthy_opt (parentId bm) && _).
  - unfold bind in Hrun.
    destruct (chrome_bookmarks_remove (id bm) h) as [h1 r1] eqn:Hrm.
    apply remove_inv in Hrm as [(-> & ->) | (b & Hb & -> & ->)].
    + simplify_eq. split; [apply safe_refl | done].
    + unfold stats_deleted_incr, modify in Hrun. simplify_eq. simpl.
      split.
      { eapply safe_trans; [|by apply safe_locals].
        apply (delete_safe U _ b); [done | | by rewrite (Hlive b Hb)].
        intros u'. rewrite (Hlive b Hb). by intros [= <-]. }
      repeat (split; [done|]).
      intros j bj Hj. by apply lookup_delete_Some in Hj as [_ Hj].
  - unfold ret in Hrun. simplify_eq. split; [apply safe_refl | done].
Qed.

Lemma delete_loop_spec (U : string → Prop) u baseFolder results h h' r :
  for_of (deleteResult baseFolder) results h = (h', r) →
  Forall (λ bm, ∀ b, nodes h !! id bm = Some b → bm_url b = Some u) results → U u →
  safe U h h' ∧ newBookmarks h' = newBookmarks h
  ∧ newCollectionFolders h' = newCollectionFolders h
  ∧ added (stats h') = added (stats h) ∧ updated (stats h') = updated (stats h)
  ∧ unchanged (stats h') = unchanged (stats h).
Proof.
  revert h. induction results as [|bm results IH]; intros h Hrun Hlive HU.
  - unfold for_of, ret in Hrun. simplify_eq. split; [apply safe_refl | done].
  - simpl in Hrun. unfold bind in Hrun.
    destruct (deleteResult baseFolder bm h) as [h1 r1] eqn:Hstep.
    apply Forall_cons in Hlive as [Hbm Hlive].
    destruct (deleteResult_spec U u _ _ _ _ _ Hstep Hbm HU)
      as (Hs1 & Hnb1 & Hcf1 & Ha1 & Hu1 & Hn1 & Hsub).
    destruct r1 as [[]|]; [|by simplify_eq].
    destruct (IH h1 Hrun) as (Hs2 & Hnb2 & Hcf2 & Ha2 & Hu2 & Hn2); [|done|].
    { eapply Forall_impl; [exact Hlive|]. intros bm' Hbm' b Hb. apply Hbm'. by apply Hsub. }
    split; [by eapply safe_trans|]. repeat split; congruence.
Qed.

Lemma deleteStale_spec (U : string → Prop) baseFolder u h h' r :
  deleteStale baseFolder u h = (h', r) → U u →
  r = Return tt ∧ safe U h h' ∧ newBookmarks h' = newBookmarks h
  ∧ newCollectionFolders h' = newCollectionFolders h
  ∧ added (stats h') = added (stats h) ∧ updated (stats h') = updated (stats h)
  ∧ unchanged (stats h') = unchanged (stats h)
  ∧ (is_Some (newBookmarks h !! u) → h' = h).
Proof.
  unfold deleteStale, bind, newBookmarks_has. simpl. intros Hrun HU.
  case_bool_decide as Hin.
  - unfold ret in Hrun. simplify_eq. split; [done|]. split; [apply safe_refl | done].
  - unfold try_catch, chrome_bookmarks_search in Hrun.
    set (results := search_nodes _ _) in Hrun.
    destruct (for_of (deleteResult baseFolder) results h) as [h1 r1] eqn:Hloop.
    destruct (delete_loop_spec U u _ _ _ _ _ Hloop) as (Hs & Hrest); [|done|].
    { apply Forall_forall. intros bm (b & Hb & HP & _)%search_nodes_spec b' Hb'.
      apply bool_decide_eq_true in HP. congruence. }
    destruct r1 as [[]|]; unfold ret in Hrun; simplify_eq;
      (split; [done|]); (split; [done|]); destruct Hrest as (?&?&?&?&?);
      repeat (split; [done|]); done.
Qed.

Lemma deletion_pass_spec (U : string → Prop) baseFolder us h h' r :
  for_of (deleteStale baseFolder) us h = (h', r) → Forall U us →
  r = Return tt ∧ safe U h h' ∧ newBookmarks h' = newBookmarks h
  ∧ newCollectionFolders h' = newCollectionFolders h
  ∧ added (stats h') = added (stats h) ∧ updated (stats h') = updated (stats h)
  ∧ unchanged (stats h') = unchanged (stats h)
  ∧ (Forall (λ u, is_Some (newBookmarks h !! u)) us → h' = h).
Proof.
  revert h. induction us as [|u us IH]; intros h Hrun HU.
  - unfold for_of, ret in Hrun. simplify_eq. split; [done|]. split; [apply safe_refl | done].
  - simpl in Hrun. unfold bind in Hrun.
    destruct (deleteStale baseFolder u h) as [h1 r1] eqn:Hstep.
    apply Forall_cons in HU as [Hu HU].
    destruct (deleteStale_spec U _ _ _ _ _ Hstep Hu)
      as (-> & Hs1 & Hnb1 & Hcf1 & Ha1 & Hu1 & Hn1 & Hid1).
    destruct (IH h1 Hrun HU) as (-> & Hs2 & Hnb2 & Hcf2 & Ha2 & Hu2 & Hn2 & Hid2).
    split; [done|]. split; [by eapply safe_trans|].
    split; [congruence|]. split; [congruence|]. split; [congruence|].
    split; [congruence|]. split; [congruence|].
    intros [Hin Hall]%Forall_cons. specialize (Hid1 Hin). subst h1. by apply Hid2.
Qed.

(** * A whole run *)

Lemma loadSyncState_previous h :
  ∃ st, loadSyncState h = (h, Return st)
        ∧ default ∅ (bookmarks <$> st) = previous_of h.
Proof.
  unfold loadSyncState, bind, chrome_storage_local_get, previous_of, ret.
  destruct (storage h); eauto.
Qed.

Lemma deleted_tally previousBookmarks l s :
  deleted (tally previousBookmarks l s) = deleted s.
Proof.
  induction l as [|x l IH] using rev_ind; [done|].
  rewrite tally_snoc. unfold tally_item. repeat case_match; simpl; done.
Qed.

Lemma deleted_unsorted_items previousBookmarks l ms :
  deleted (unsorted_items previousBookmarks l ms).2 = deleted ms.2.
Proof.
  induction l as [|x l IH] using rev_ind; [done|].
  rewrite unsorted_items_snoc. unfold unsorted_item. repeat case_match; simpl; done.
Qed.

(** A run that is ready goes through its three phases and saves. *)
Lemma run_phases opts h :
  run_ready opts h →
  ∃ h1 h2 h3,
    processCollectionForIncremental (raindropClient opts) (previous_of h)
      (baseFolder opts) (tree opts) (init_run h) = (h1, Return tt)
    ∧ unsorted_phase opts (previous_of h) h1 = (h2, Return tt)
    ∧ for_of (deleteStale (baseFolder opts)) (map_to_list (previous_of h)).*1 h2
      = (h3, Return tt)
    ∧ incrementalSync opts h = (finish_run h3, Return (stats h3))
    ∧ (wf h1 ∧ folders_ok h1 ∧ is_folder h1 (id (baseFolder opts)) = true
       ∧ safe (tracked (previous_of h)) (init_run h) h1
       ∧ newBookmarks h1
         = record_items (items_of (raindropClient opts) (tree opts)) ∅
       ∧ stats h1 = tally (previous_of h) (items_of (raindropClient opts) (tree opts))
                          (mkStats 0 0 0 0))
    ∧ (wf h2 ∧ safe (tracked (previous_of h)) h1 h2
       ∧ (newBookmarks h2, stats h2) = run_books opts (previous_of h))
    ∧ (wf h3 ∧ safe (tracked (previous_of h)) h2 h3
       ∧ newBookmarks h3 = newBookmarks h2
       ∧ newCollectionFolders h3 = newCollectionFolders h2
       ∧ added (stats h3) = added (stats h2) ∧ updated (stats h3) = updated (stats h2)
       ∧ unchanged (stats h3) = unchanged (stats h2)
       ∧ (Forall (λ u, is_Some (newBookmarks h2 !! u)) (map_to_list (previous_of h)).*1 →
          h3 = h2)).
Proof.
  intros (Hwf & Hbase & Hfetch & Hlinks & Hulinks).
  set (prev := previous_of h). set (U := tracked prev).
  set (h0 := init_run h).
  assert (wf h0) as Hwf0 by done.
  assert (folders_ok h0) as Hok0 by (by intros cid i).
  destruct (walk_total (raindropClient opts) prev (baseFolder opts) (tree opts) h0)
    as (h1 & Hwalk & Hwf1 & Hok1 & Hs1 & Hnb1 & Hst1); [done..|].
  pose proof Hs1 as [Hstat1 Hs1']. destruct (Hs1' Hwf0) as [_ Hk1].
  assert (is_folder h1 (id (baseFolder opts)) = true) as Hbase1
    by by eapply keeps_folder.
  assert (∃ h2, unsorted_phase opts prev h1 = (h2, Return tt)
                ∧ wf h2 ∧ safe U h1 h2
                ∧ (newBookmarks h2, stats h2)
                  = unsorted_items prev (unsorted_listing opts)
                                   (newBookmarks h1, stats h1))
    as (h2 & Hunsorted & Hwf2 & Hs2 & Hb2).
  { unfold unsorted_phase, unsorted_listing in *. case_bool_decide.
    - by apply syncUnsortedCollection_total.
    - exists h1. split; [done|]. split; [done|]. split; [apply safe_refl | done]. }
  destruct (for_of (deleteStale (baseFolder opts)) (map_to_list prev).*1 h2)
    as [h3 r3] eqn:Hdel.
  destruct (deletion_pass_spec U _ _ _ _ _ Hdel)
    as (-> & Hs3 & Hnb3 & Hcf3 & Ha3 & Hu3 & Hn3 & Hid3).
  { apply Forall_forall. intros u Hu. apply list_elem_of_fmap in Hu as ([u' st'] & -> & Hin).
    apply elem_of_map_to_list in Hin. by eexists. }
  pose proof Hs3 as [Hstat3 Hs3']. destruct (Hs3' Hwf2) as [Hwf3 Hk3].
  exists h1, h2, h3.
  split; [done|]. split; [done|]. split; [done|]. split.
  { unfold incrementalSync.
    unfold bind at 1. unfold modify at 1.
    unfold bind at 1.
    destruct (loadSyncState_previous (set_stats (mkStats 0 0 0 0) h)) as (st & -> & Hprev).
    rewrite Hprev. change (previous_of (set_stats (mkStats 0 0 0 0) h)) with prev.
    unfold bind at 1. unfold modify at 1.
    unfold bind at 1. unfold modify at 1.
    unfold bind at 1. fold (init_run h). fold h0. rewrite Hwalk.
    unfold bind at 1. fold (unsorted_phase opts prev). rewrite Hunsorted.
    unfold bind at 1. rewrite Hdel.
    reflexivity. }
  split.
  { split; [done|]. split; [done|]. split; [done|]. split; [done|]. done. }
  split.
  { split; [done|]. split; [done|]. rewrite Hb2, Hnb1, Hst1. done. }
  done.
Qed.

Lemma run_spec opts h :
  run_ready opts h →
  ∃ h', incrementalSync opts h = (h', Return (stats h'))
        ∧ wf h'
        ∧ keeps (tracked (previous_of h)) h h'
        ∧ newBookmarks h' = (run_books opts (previous_of h)).1
        ∧ added (stats h') = added (run_books opts (previous_of h)).2
        ∧ updated (stats h') = updated (run_books opts (previous_of h)).2
        ∧ unchanged (stats h') = unchanged (run_books opts (previous_of h)).2
        ∧ ((∀ u, tracked (previous_of h) u → is_Some (newBookmarks h' !! u)) →
           deleted (stats h') = 0)
        ∧ storage h' = Some {| stored_bookmarks := newBookmarks h';
                               stored_collectionFolders :=
                                 kmap Number_toString (newCollectionFolders h');
                               stored_lastSync := ISO (clock h) |}.
Proof.
  intros Hready. pose proof Hready as (Hwf & _).
  destruct (run_phases opts h Hready)
    as (h1 & h2 & h3 & _ & _ & _ & Hrun
        & (Hwf1 & _ & _ & Hs1 & _ & _)
        & (Hwf2 & Hs2 & Hbooks)
        & (Hwf3 & Hs3 & Hnb3 & Hcf3 & Ha3 & Hu3 & Hn3 & Hid3)).
  set (prev := previous_of h) in *.
  destruct Hs1 as [Hstat1 Hs1]. destruct (Hs1 Hwf) as [_ Hk1].
  destruct Hs2 as [Hstat2 Hs2]. destruct (Hs2 Hwf1) as [_ Hk2].
  destruct Hs3 as [Hstat3 Hs3]. destruct (Hs3 Hwf2) as [_ Hk3].
  apply (f_equal fst) in Hbooks as Hbooks1. apply (f_equal snd) in Hbooks as Hbooks2.
  simpl in Hbooks1, Hbooks2.
  exists (finish_run h3). split; [exact Hrun|]. simpl.
  split; [done|]. split.
  { eapply keeps_trans; [|exact Hk3]. eapply keeps_trans; [|exact Hk2].
    intros i b Hb Hu. apply Hk1; done. }
  split; [congruence|]. split; [congruence|]. split; [congruence|]. split; [congruence|].
  split.
  { intros Hall. rewrite Hid3.
    - rewrite Hbooks2. unfold run_books.
      rewrite deleted_unsorted_items. simpl. by rewrite deleted_tally.
    - apply Forall_forall. intros u Hu. rewrite <- Hnb3. apply Hall.
      apply list_elem_of_fmap in Hu as ([u' st'] & -> & Hin).
      apply elem_of_map_to_list in Hin. by eexists. }
  destruct Hstat1 as (_ & _ & Hc1 & _), Hstat2 as (_ & _ & Hc2 & _),
    Hstat3 as (_ & _ & Hc3 & _).
  rewrite Hc3, Hc2, Hc1. done.
Qed.

(** * Two runs in a row *)

Lemma record_items_lookup_ne l m u :
  u ∉ (λ x : option Collection * Raindrop, rd_link x.2) <$> l → record_items l m !! u = m !! u.
Proof.
  induction l as [|x l IH] using rev_ind; intros Hu; [done|].
  rewrite record_items_snoc. rewrite fmap_app in Hu.
  apply not_elem_of_app in Hu as [Hu1 Hu2].
  rewrite lookup_insert_ne; [by apply IH|].
  intros Heq. apply Hu2. simpl. rewrite Heq. by left.
Qed.

Lemma record_items_lookup l m x :
  NoDup ((λ x : option Collection * Raindrop, rd_link x.2) <$> l) → x ∈ l →
  record_items l m !! rd_link x.2 = Some (bookmarkState_of (collectionId_of x.1) x.2).
Proof.
  induction l as [|y l IH] using rev_ind; intros Hnd Hx; [by apply elem_of_nil in Hx|].
  rewrite record_items_snoc. rewrite fmap_app in Hnd.
  apply NoDup_app in Hnd as (Hnd1 & Hdisj & _).
  apply elem_of_app in Hx as [Hx|Hx].
  - rewrite lookup_insert_ne; [by apply IH|].
    intros Heq. apply (Hdisj (rd_link x.2)).
    + apply list_elem_of_fmap. by exists x.
    + simpl. rewrite Heq. by left.
  - apply list_elem_of_singleton in Hx as ->. by rewrite lookup_insert_eq.
Qed.

Lemma unsorted_item_keeps p ms rd u v :
  ms.1 !! u = Some v → (unsorted_item p ms rd).1 !! u = Some v.
Proof.
  intros Hu. unfold unsorted_item. case_bool_decide as Hin; [done|]. simpl.
  rewrite lookup_insert_ne; [done|]. intros <-. apply Hin. by eexists.
Qed.

Lemma unsorted_items_keeps p l ms u v :
  ms.1 !! u = Some v → (unsorted_items p l ms).1 !! u = Some v.
Proof.
  induction l as [|x l IH] using rev_ind; intros Hu; [done|].
  rewrite unsorted_items_snoc. by apply unsorted_item_keeps, IH.
Qed.

(** The bookmarks map a run builds does not depend on the previous state. *)
Lemma unsorted_items_map p p' l m s s' :
  (unsorted_items p l (m, s)).1 = (unsorted_items p' l (m, s')).1.
Proof.
  induction l as [|x l IH] using rev_ind; [done|].
  rewrite !unsorted_items_snoc. unfold unsorted_item. rewrite IH.
  by case_bool_decide.
Qed.

Lemma run_books_map opts p p' : (run_books opts p).1 = (run_books opts p').1.
Proof. unfold run_books. apply unsorted_items_map. Qed.

(** The map that the walk builds holds, for the link of each item, the
    state of an item with that link. *)
Lemma record_items_lookup_some l m x :
  x ∈ l →
  ∃ y, y ∈ l ∧ rd_link y.2 = rd_link x.2
       ∧ record_items l m !! rd_link x.2
         = Some (bookmarkState_of (collectionId_of y.1) y.2).
Proof.
  induction l as [|z l IH] using rev_ind; intros Hx; [by apply elem_of_nil in Hx|].
  rewrite record_items_snoc.
  destruct (decide (rd_link z.2 = rd_link x.2)) as [Heq|Hne].
  - exists z. split; [apply elem_of_app; right; by left|]. split; [done|].
    by rewrite <- Heq, lookup_insert_eq.
  - apply elem_of_app in Hx as [Hx|Hx%list_elem_of_singleton]; [|by subst].
    destruct (IH Hx) as (y & Hy & Hlink & Hlook).
    exists y. split; [apply elem_of_app; by left|]. split; [done|].
    by rewrite lookup_insert_ne.
Qed.

(** Against a map that holds, for each item of the walk, a state with the
    item's title and collection, every item is unchanged. *)
Lemma tally_rerun (N : gmap string BookmarkState) l s :
  (∀ x, x ∈ l → ∃ st, N !! rd_link x.2 = Some st
                      ∧ bs_title st = rd_title x.2
                      ∧ bs_collectionId st = collectionId_of x.1) →
  added (tally N l s) = added s ∧ updated (tally N l s) = updated s
  ∧ deleted (tally N l s) = deleted s.
Proof.
  induction l as [|x l IH] using rev_ind; intros HN; [done|].
  rewrite tally_snoc. unfold tally_item.
  destruct (HN x) as (st & -> & Ht & Hc); [apply elem_of_app; right; by left|].
  rewrite (bool_decide_eq_false_2 (bs_title st ≠ rd_title x.2))
    by (intros Hne; by apply Hne).
  rewrite (bool_decide_eq_false_2 (bs_collectionId st ≠ collectionId_of x.1))
    by (intros Hne; by apply Hne).
  simpl.
  apply IH. intros y Hy. apply HN, elem_of_app. by left.
Qed.

Lemma unsorted_rerun (N : gmap string BookmarkState) p us m s s' :
  N = (unsorted_items p us (m, s')).1 →
  added (unsorted_items N us (m, s)).2 = added s
  ∧ updated (unsorted_items N us (m, s)).2 = updated s
  ∧ deleted (unsorted_items N us (m, s)).2 = deleted s.
Proof.
  intros HN.
  cut (∀ pre post, us = pre ++ post →
         added (unsorted_items N pre (m, s)).2 = added s
         ∧ updated (unsorted_items N pre (m, s)).2 = updated s
         ∧ deleted (unsorted_items N pre (m, s)).2 = deleted s).
  { intros H. apply (H us []). by rewrite app_nil_r. }
  induction pre as [|rd pre IH] using rev_ind; intros post Hus; [done|].
  rewrite unsorted_items_snoc.
  destruct (IH (rd :: post)) as (Ha & Hu & Hd); [by rewrite Hus, <- app_assoc|].
  unfold unsorted_item. case_bool_decide as Hin; [done|]. simpl.
  assert (N !! rd_link rd = Some (bookmarkState_of UNSORTED_ID rd)) as ->.
  { rewrite HN, Hus, <- app_assoc. simpl.
    change (pre ++ rd :: post) with (pre ++ [rd] ++ post). rewrite app_assoc.
    unfold unsorted_items at 1. rewrite foldl_app.
    fold (unsorted_items p (pre ++ [rd]) (m, s')).
    fold (unsorted_items p post (unsorted_items p (pre ++ [rd]) (m, s'))).
    apply unsorted_items_keeps. rewrite unsorted_items_snoc.
    unfold unsorted_item. rewrite (unsorted_items_map p N pre m s' s).
    rewrite bool_decide_eq_false_2 by done. simpl. by rewrite lookup_insert_eq. }
  simpl. rewrite bool_decide_eq_false_2 by (intros Hne; by apply Hne). done.
Qed.

Lemma run_ready_after opts h h' :
  run_ready opts h → wf h' → keeps (tracked (previous_of h)) h h' → run_ready opts h'.
Proof.
  intros (Hwf & Hbase & Hrest) Hwf' Hk. split; [done|]. split; [|done].
  by eapply keeps_folder.
Qed.

(** X21: two runs in a row with the same listings, when the listings of
    the walk that share a link also share their title and their collection
    (as they do when no link is listed twice) and the run is ready to go
    through: both runs return, and the second one adds, updates and deletes
    nothing. *)
Theorem incrementalSync_rerun_stable opts h :
  run_ready opts h →
  (∀ x y, x ∈ items_of (raindropClient opts) (tree opts) →
          y ∈ items_of (raindropClient opts) (tree opts) →
          rd_link x.2 = rd_link y.2 →
          rd_title x.2 = rd_title y.2 ∧ collectionId_of x.1 = collectionId_of y.1) →
  ∃ h1 s1 h2 s2,
    incrementalSync opts h = (h1, Return s1)
    ∧ incrementalSync opts h1 = (h2, Return s2)
    ∧ added s2 = 0 ∧ updated s2 = 0 ∧ deleted s2 = 0.
Proof.
  intros Hready Hagree.
  destruct (run_spec opts h Hready)
    as (h1 & Hrun1 & Hwf1 & Hk1 & Hnb1 & _ & _ & _ & _ & Hsto1).
  pose proof (run_ready_after _ _ _ Hready Hwf1 Hk1) as Hready1.
  destruct (run_spec opts h1 Hready1)
    as (h2 & Hrun2 & Hwf2 & Hk2 & Hnb2 & Ha2 & Hu2 & _ & Hd2 & _).
  assert (previous_of h1 = newBookmarks h1) as Hprev1.
  { unfold previous_of. by rewrite Hsto1. }
  rewrite Hprev1 in *.
  set (N := newBookmarks h1) in *.
  set (items := items_of (raindropClient opts) (tree opts)) in *.
  assert (N = (unsorted_items (previous_of h) (unsorted_listing opts)
                 (record_items items ∅, tally (previous_of h) items (mkStats 0 0 0 0))).1)
    as HN by exact Hnb1.
  assert (∀ x, x ∈ items → ∃ st, N !! rd_link x.2 = Some st
                                 ∧ bs_title st = rd_title x.2
                                 ∧ bs_collectionId st = collectionId_of x.1) as Hitems.
  { intros x Hx. destruct (record_items_lookup_some items ∅ x Hx) as (y & Hy & Hlink & Hlook).
    destruct (Hagree y x Hy Hx Hlink) as [Ht Hc].
    exists (bookmarkState_of (collectionId_of y.1) y.2). split; [|done].
    rewrite HN. by apply unsorted_items_keeps. }
  destruct (tally_rerun N items (mkStats 0 0 0 0) Hitems) as (Hta & Htu & _).
  destruct (unsorted_rerun N (previous_of h) (unsorted_listing opts)
              (record_items items ∅) (tally N items (mkStats 0 0 0 0))
              (tally (previous_of h) items (mkStats 0 0 0 0)) HN) as (Hua & Huu & _).
  exists h1, (stats h1), h2, (stats h2).
  split; [done|]. split; [done|].
  split; [|split].
  - rewrite Ha2. unfold run_books. fold items. by rewrite Hua, Hta.
  - rewrite Hu2. unfold run_books. fold items. by rewrite Huu, Htu.
  - apply Hd2. intros u Hu. rewrite Hnb2, (run_books_map opts N (previous_of h)), <- Hnb1.
    exact Hu.
Qed.

(** * The claims on concrete runs *)

Section examples.
Import Fixtures.

(** C1 (the code departs from the claim): a bookmark kept outside the
    managed folder, whose URL matches a stale entry of the previous state,
    is removed by the deletion pass and counted as deleted. *)
Theorem deletion_reaches_outside_bookmark :
  nodes stale_heap !! "3" = Some (mkBookmark (Some "2") "A" (Some url_a))
  ∧ under (nodes stale_heap) (id (baseFolder stale_opts)) 4 "3" = false
  ∧ nodes (incrementalSync stale_opts stale_heap).1 !! "3" = None
  ∧ (incrementalSync stale_opts stale_heap).2 = Return (mkStats 0 0 1 0).
Proof. vm_compute. done. Qed.

(** C2 (the code departs from the claim): the previous state maps
    collection 7 to the folder ["2"], which is still in place; the run
    does not look it up, creates the folder ["3"] and records that one. *)
Theorem previous_folder_not_reused :
  (parse_keys {[ "7" := "2" ]} : gmap Z string) !! 7%Z = Some "2"
  ∧ storage reading_heap
    = Some (mkStored ∅ {[ "7" := "2" ]} (ISO 0))
  ∧ is_folder reading_heap "2" = true
  ∧ nodes reading_heap !! "3" = None
  ∧ nodes (incrementalSync reading_opts reading_heap).1 !! "3"
    = Some (mkBookmark (Some "1") "Reading" None)
  ∧ newCollectionFolders (incrementalSync reading_opts reading_heap).1 !! 7%Z
    = Some "3".
Proof. vm_compute. done. Qed.

(** C3 (the code departs from the claim): collections 1 and 2 both list
    [url_a].  The first run creates a bookmark in the folder of each, and
    the state, which is keyed by URL, keeps collection 2, the one walked
    last.  Every later run finds that the listing of collection 1 differs
    from the state: it reports one update and moves both bookmarks into the
    folder it has just made for collection 1, although nothing changed at
    the source or in the browser between the runs. *)
Theorem rerun_with_shared_url_updates :
  let run1 := incrementalSync twice_opts empty_heap in
  let run2 := incrementalSync twice_opts run1.1 in
  let run3 := incrementalSync twice_opts run2.1 in
  run1.2 = Return (mkStats 2 0 0 0)
  ∧ bm_parentId <$> nodes run1.1 !! "3" = Some (Some "2")
  ∧ bm_parentId <$> nodes run1.1 !! "5" = Some (Some "4")
  ∧ bs_collectionId <$> previous_of run1.1 !! url_a = Some 2%Z
  ∧ run2.2 = Return (mkStats 0 1 0 1)
  ∧ bm_parentId <$> nodes run2.1 !! "3" = Some (Some "6")
  ∧ bm_parentId <$> nodes run2.1 !! "5" = Some (Some "6")
  ∧ run3.2 = Return (mkStats 0 1 0 1)
  ∧ bm_parentId <$> nodes run3.1 !! "3" = Some (Some "8")
  ∧ bm_parentId <$> nodes run3.1 !! "5" = Some (Some "8").
Proof. vm_compute. done. Qed.

(** C5 fails as stated.  First scene: the item moved to the untitled root
    of the source tree; it is counted as updated and its bookmark is moved
    to the managed folder ["1"], while the folder recorded for its
    collection, -1, is the unsorted folder ["4"].  Second scene: the item
    is now listed by collections 1 and 2; it is counted twice and its
    bookmark ends in the folder of collection 2, not in the one recorded
    for collection 1. *)
Lemma moved_item_not_in_mapped_folder :
  ((incrementalSync moved_to_root_opts moved_heap).2 = Return (mkStats 0 1 0 0)
   ∧ bm_parentId <$> nodes (incrementalSync moved_to_root_opts moved_heap).1 !! "3"
     = Some (Some "1")
   ∧ newCollectionFolders (incrementalSync moved_to_root_opts moved_heap).1 !! (-1)%Z
     = Some "4")
  ∧ ((incrementalSync moved_twice_opts moved_heap).2 = Return (mkStats 0 2 0 0)
     ∧ bm_parentId <$> nodes (incrementalSync moved_twice_opts moved_heap).1 !! "3"
       = Some (Some "5")
     ∧ newCollectionFolders (incrementalSync moved_twice_opts moved_heap).1 !! 1%Z
       = Some "4"
     ∧ newCollectionFolders (incrementalSync moved_twice_opts moved_heap).1 !! 2%Z
       = Some "5").
Proof. vm_compute. done. Qed.

(** C6 (the code departs from the claim): a bookmark whose raindrop moved
    from collection 7 to the unsorted bucket, title unchanged.  The
    unsorted pass counts it as unchanged and leaves it in the folder
    ["2"]; the logic of ordinary collections, run on the same raindrop
    with the same folder, counts an update and moves it. *)
Theorem unsorted_pass_misses_move :
  (incrementalSync moved_to_unsorted_opts moved_heap).2 = Return (mkStats 0 0 0 1)
  ∧ bm_parentId <$> nodes (incrementalSync moved_to_unsorted_opts moved_heap).1 !! "3"
    = Some (Some "2")
  ∧ newCollectionFolders (incrementalSync moved_to_unsorted_opts moved_heap).1 !! (-1)%Z
    = Some "5"
  ∧ (let previousBookmarks := previous_of moved_heap in
     let r := rd 100 url_a "A" in
     stats (processUnsortedRaindrop base previousBookmarks r moved_heap).1
     = mkStats 0 0 0 1
     ∧ bm_parentId <$> nodes (processUnsortedRaindrop base previousBookmarks r
                                moved_heap).1 !! "3" = Some (Some "2")
     ∧ stats (processRaindrop base UNSORTED_ID previousBookmarks r moved_heap).1
       = mkStats 0 1 0 0
     ∧ bm_parentId <$> nodes (processRaindrop base UNSORTED_ID previousBookmarks r
                                moved_heap).1 !! "3" = Some (Some "1")).
Proof. vm_compute. done. Qed.

(** C10 fails as stated: nothing was persisted, two raindrops are fetched
    (one by the walk, one by the unsorted pass), they share their link, and
    one bookmark is added. *)
Lemma first_run_skips_shared_link :
  storage empty_heap = None
  ∧ length (items_of (raindropClient shared_link_opts) (tree shared_link_opts))
    + length (unsorted_listing shared_link_opts) = 2
  ∧ (incrementalSync shared_link_opts empty_heap).2 = Return (mkStats 1 0 0 0).
Proof. vm_compute. done. Qed.
End examples.

(** * The first run *)

Lemma tally_empty l s :
  tally ∅ l s = mkStats (added s + length l) (updated s) (deleted s) (unchanged s).
Proof.
  induction l as [|x l IH] using rev_ind.
  - destruct s. simpl. f_equal. lia.
  - rewrite tally_snoc, IH. unfold tally_item. rewrite lookup_empty.
    unfold incr_added. simpl. f_equal. rewrite length_app. simpl. lia.
Qed.

Lemma record_items_dom l m :
  dom (record_items l m) = list_to_set (links_of l) ∪ dom m.
Proof.
  induction l as [|x l IH] using rev_ind.
  - simpl. set_solver.
  - rewrite record_items_snoc, dom_insert_L, IH. unfold links_of.
    rewrite fmap_app, list_to_set_app_L. simpl. set_solver.
Qed.

Lemma unsorted_items_cons p x l ms :
  unsorted_items p (x :: l) ms = unsorted_items p l (unsorted_item p ms x).
Proof. done. Qed.

Lemma size_add_fresh (a : string) (X : gset string) :
  a ∉ X → size ({[a]} ∪ X) = S (size X).
Proof. intros Ha. rewrite size_union by set_solver. by rewrite size_singleton. Qed.

Lemma unsorted_empty us m s :
  added (unsorted_items ∅ us (m, s)).2
  = added s + size (list_to_set (rd_link <$> us) ∖ dom m : gset string)
  ∧ updated (unsorted_items ∅ us (m, s)).2 = updated s
  ∧ deleted (unsorted_items ∅ us (m, s)).2 = deleted s
  ∧ unchanged (unsorted_items ∅ us (m, s)).2 = unchanged s.
Proof.
  revert m s. induction us as [|x us IH]; intros m s.
  - simpl. rewrite difference_disjoint_L by set_solver. rewrite size_empty.
    split; [lia | done].
  - rewrite unsorted_items_cons, fmap_cons, list_to_set_cons. unfold unsorted_item.
    cbn [fst snd]. case_bool_decide as Hin.
    + destruct (IH m s) as (Ha & Hrest). split; [|done]. rewrite Ha. f_equal. f_equal.
      apply elem_of_dom in Hin. clear -Hin. set_solver.
    + rewrite lookup_empty.
      destruct (IH (<[rd_link x := bookmarkState_of UNSORTED_ID x]> m) (incr_added s))
        as (Ha & Hrest).
      split; [|done]. rewrite Ha. rewrite dom_insert_L.
      assert (rd_link x ∉ dom m) as Hnin by (by rewrite elem_of_dom).
      assert (({[rd_link x]} ∪ list_to_set (rd_link <$> us)) ∖ dom m
              = ({[rd_link x]} : gset string)
                ∪ (list_to_set (rd_link <$> us) ∖ ({[rd_link x]} ∪ dom m))) as ->
        by (clear -Hnin; apply set_eq; intros y;
            destruct (decide (y = rd_link x)) as [->|Hne]; set_solver).
      rewrite size_add_fresh by set_solver. simpl. lia.
Qed.

(** * Persistence *)

Section respects.
Context (R : Heap → Heap → Prop).
Hypothesis R_refl : ∀ h, R h h.
Hypothesis R_trans : ∀ h1 h2 h3, R h1 h2 → R h2 h3 → R h1 h3.

Lemma respects_ret {A} (a : A) : respects R (ret a).
Proof. intros h h' r [= <- <-]. apply R_refl. Qed.

Lemma respects_throw {A} : respects R (@throw A).
Proof. intros h h' r [= <- <-]. apply R_refl. Qed.

Lemma respects_bind {A B} (m : M A) (k : A → M B) :
  respects R m → (∀ a, respects R (k a)) → respects R (bind m k).
Proof.
  intros Hm Hk h h' r. unfold bind. destruct (m h) as [h1 [a|]] eqn:Hrun.
  - intros Hk'. eapply R_trans; [by eapply Hm | by eapply Hk].
  - intros [= <- <-]. by eapply Hm.
Qed.

Lemma respects_try_catch {A} (m handler : M A) :
  respects R m → respects R handler → respects R (try_catch m handler).
Proof.
  intros Hm Hh h h' r. unfold try_catch. destruct (m h) as [h1 [a|]] eqn:Hrun.
  - intros [= <- <-]. by eapply Hm.
  - intros Hh'. eapply R_trans; [by eapply Hm | by eapply Hh].
Qed.

Lemma respects_for_of {A} (body : A → M unit) (l : list A) :
  Forall (λ x, respects R (body x)) l → respects R (for_of body l).
Proof.
  induction 1 as [|x l Hx Hl IH]; simpl.
  - apply respects_ret.
  - apply respects_bind; [done | by intros []].
Qed.
End respects.

Lemma respects_safe_static {A} U (m : M A) : respects (safe U) m → respects static m.
Proof. intros Hm h h' r Hrun. by destruct (Hm h h' r Hrun). Qed.

Lemma walk_static c previousBookmarks t :
  ∀ parentFolder,
    respects static (processCollectionForIncremental c previousBookmarks parentFolder t).
Proof.
  induction t as [d cs IH] using TreeNode_induction. intros parentFolder. simpl.
  apply respects_bind; [apply static_trans | |].
  { intros h h' r Hrun.
    by destruct (resolveFolder_spec (λ _, True) _ _ _ _ _ Hrun) as ([? _] & _). }
  intros folder.
  apply respects_bind; [apply static_trans | |].
  { unfold raindrop_getAllRaindrops. destruct (getAllRaindrops c (collectionId_of d)).
    - apply respects_ret, static_refl.
    - apply respects_throw, static_refl. }
  intros raindrops.
  apply respects_bind; [apply static_trans | |].
  { apply respects_for_of; [apply static_refl | apply static_trans |].
    apply Forall_forall. intros rd _ h h' r Hrun.
    by destruct (processRaindrop_spec (λ _, True) _ _ d _ _ _ _ Hrun) as ([? _] & _). }
  intros [].
  apply respects_for_of; [apply static_refl | apply static_trans |].
  eapply Forall_impl; [exact IH|]. intros child Hchild. apply Hchild.
Qed.

Lemma syncUnsortedCollection_static baseFolder c previousBookmarks :
  respects static (syncUnsortedCollection baseFolder c previousBookmarks).
Proof.
  unfold syncUnsortedCollection.
  assert (respects static (chrome_bookmarks_create (id baseFolder) UNSORTED_TITLE None))
    as Hcreate.
  { intros h h' r Hrun. by destruct (create_safe (λ _, True) _ _ _ _ _ _ Hrun). }
  apply respects_bind; [apply static_trans | |].
  { by intros h h' r [= <- <-]. }
  intros existingFolderId.
  apply respects_bind; [apply static_trans | |].
  { destruct (truthy_opt existingFolderId).
    - apply respects_try_catch; [apply static_trans | | done].
      intros h h' r Hrun. by apply getFolderById_inv in Hrun as [-> _].
    - apply respects_bind; [apply static_trans | |].
      + intros h h' r Hrun. by apply getChildren_inv in Hrun as [-> _].
      + intros children. destruct (List.find _ _); [|done].
        apply respects_ret, static_refl. }
  intros unsortedFolder.
  apply respects_bind; [apply static_trans | |].
  { by intros h h' r [= <- <-]. }
  intros [].
  apply respects_try_catch; [apply static_trans | |].
  - apply respects_bind; [apply static_trans | |].
    + unfold raindrop_getAllRaindrops. destruct (getAllRaindrops c UNSORTED_ID).
      * apply respects_ret, static_refl.
      * apply respects_throw, static_refl.
    + intros raindrops.
      apply respects_for_of; [apply static_refl | apply static_trans |].
      apply Forall_forall. intros rd _ h h' r Hrun.
      by destruct (processUnsortedRaindrop_spec (λ _, True) _ _ _ _ _ _ Hrun) as ([? _] & _).
  - apply respects_ret, static_refl.
Qed.

Lemma deleteStale_static baseFolder u : respects static (deleteStale baseFolder u).
Proof.
  intros h h' r Hrun.
  by destruct (deleteStale_spec (λ _, True) _ _ _ _ _ Hrun I) as (_ & [? _] & _).
Qed.

(** * Saving and loading the state *)

Lemma nearest_Number_safe (x : Z) :
  (0 ≤ x ≤ MAX_SAFE_INTEGER)%Z → nearest_Number x = x.
Proof.
  intros Hx. unfold nearest_Number, MAX_SAFE_INTEGER in *.
  assert (Z.log2 x - 52 ≤ 0)%Z as He.
  { destruct (decide (x = 0)%Z) as [->|Hne]; [done|].
    assert (Z.log2 x < 53)%Z; [|lia]. apply Z.log2_lt_pow2; lia. }
  apply Z.leb_le in He. by rewrite He.
Qed.

Lemma Number_toString_safe (z : Z) : safe_integer z → Number_toString z = pretty z.
Proof. intros Hz. unfold Number_toString. by rewrite bool_decide_eq_true_2. Qed.

Lemma radix_digit_pretty (d : N) :
  (d < 10)%N → radix_digit 10 (pretty_N_char d) = Some d.
Proof.
  intros Hd.
  assert (d = 0 ∨ d = 1 ∨ d = 2 ∨ d = 3 ∨ d = 4 ∨ d = 5 ∨ d = 6 ∨ d = 7 ∨ d = 8 ∨ d = 9)%N
    as Hcases by lia.
  repeat (destruct Hcases as [->|Hcases]; [reflexivity|]). by subst.
Qed.

Lemma pretty_N_char_plain (d : N) :
  (d < 10)%N →
  is_white_space (pretty_N_char d) = false
  ∧ pretty_N_char d ≠ "-"%char ∧ pretty_N_char d ≠ "+"%char
  ∧ pretty_N_char d ≠ "x"%char ∧ pretty_N_char d ≠ "X"%char.
Proof.
  intros Hd.
  assert (d = 0 ∨ d = 1 ∨ d = 2 ∨ d = 3 ∨ d = 4 ∨ d = 5 ∨ d = 6 ∨ d = 7 ∨ d = 8 ∨ d = 9)%N
    as Hcases by lia.
  repeat (destruct Hcases as [->|Hcases]; [by vm_compute|]). subst. by vm_compute.
Qed.

(** Reading back the digits that [pretty] wrote. *)
Lemma parse_digits_pretty (x : N) :
  (0 < x)%N → ∀ s, parse_digits 10 (pretty_N_go x s) 0 = parse_digits 10 s x.
Proof.
  induction (N.lt_wf_0 x) as [x _ IH]. intros Hx s.
  rewrite pretty_N_go_step by done.
  assert (x `mod` 10 < 10)%N as Hmod by (apply N.mod_lt; lia).
  destruct (decide (x `div` 10 = 0)%N) as [Hdiv|Hdiv].
  - rewrite Hdiv, pretty_N_go_0. simpl. rewrite radix_digit_pretty by done.
    f_equal. pose proof (N.div_mod x 10 ltac:(lia)) as Hdm. lia.
  - rewrite IH; [|apply N.div_lt; lia | by apply N.neq_0_lt_0]. simpl.
    rewrite radix_digit_pretty by done. f_equal.
    pose proof (N.div_mod x 10 ltac:(lia)) as Hdm. lia.
Qed.

(** The numeral of a positive number starts with a digit, and what follows
    that digit does not start with the letter of a hexadecimal prefix. *)
Lemma pretty_N_go_head (x : N) :
  (0 < x)%N → ∀ s,
    (∀ b s', s = String b s' → b ≠ "x"%char ∧ b ≠ "X"%char) →
    ∃ d rest, (d < 10)%N ∧ pretty_N_go x s = String (pretty_N_char d) rest
              ∧ ∀ b s', rest = String b s' → b ≠ "x"%char ∧ b ≠ "X"%char.
Proof.
  induction (N.lt_wf_0 x) as [x _ IH]. intros Hx s Hs.
  rewrite pretty_N_go_step by done.
  assert (x `mod` 10 < 10)%N as Hmod by (apply N.mod_lt; lia).
  destruct (decide (x `div` 10 = 0)%N) as [Hdiv|Hdiv].
  - rewrite Hdiv, pretty_N_go_0. eauto.
  - apply IH; [apply N.div_lt; lia | by apply N.neq_0_lt_0 |].
    intros b s' [= <- <-]. by apply pretty_N_char_plain.
Qed.

Lemma parseInt_positive (p : positive) (sign : Z) :
  (Z.pos p ≤ MAX_SAFE_INTEGER)%Z →
  (λ n, sign * nearest_Number (Z.of_N n))%Z <$> parse_number 10 (pretty_N_go (Npos p) "")
  = Some (sign * Z.pos p)%Z
  ∧ strip_hex_prefix (pretty_N_go (Npos p) "") = (10%N, pretty_N_go (Npos p) "")
  ∧ strip_sign (pretty_N_go (Npos p) "") = (1%Z, pretty_N_go (Npos p) "")
  ∧ skip_white_space (pretty_N_go (Npos p) "") = pretty_N_go (Npos p) "".
Proof.
  intros Hsafe.
  destruct (pretty_N_go_head (Npos p) ltac:(lia) "") as (d & rest & Hd & Heq & Hrest);
    [done|].
  pose proof (parse_digits_pretty (Npos p) ltac:(lia) "") as Hparse.
  destruct (pretty_N_char_plain d Hd) as (Hws & Hminus & Hplus & _).
  rewrite Heq in *. repeat split.
  - unfold parse_number. rewrite radix_digit_pretty by done.
    rewrite Hparse. simpl. by rewrite nearest_Number_safe by lia.
  - unfold strip_hex_prefix. destruct rest as [|b s']; [by repeat case_match|].
    destruct (Hrest b s' eq_refl) as [Hx HX].
    repeat case_match; simplify_eq; done.
  - unfold strip_sign. repeat case_match; simplify_eq; done.
  - simpl. by rewrite Hws.
Qed.

(** A safe integer survives its trip through its numeral. *)
Lemma parseInt_Number_toString (z : Z) :
  safe_integer z → parseInt (Number_toString z) = Some z.
Proof.
  intros Hz. rewrite Number_toString_safe by done. unfold safe_integer in Hz.
  unfold pretty, pretty_Z. destruct z as [|p|p].
  - done.
  - unfold pretty, pretty_positive, pretty, pretty_N.
    rewrite decide_False by done.
    destruct (parseInt_positive p 1) as (Hnum & Hhex & Hsign & Hws); [lia|].
    unfold parseInt. rewrite Hws, Hsign, Hhex, Hnum. f_equal; lia.
  - unfold pretty, pretty_positive, pretty, pretty_N.
    rewrite decide_False by done.
    destruct (parseInt_positive p (-1)) as (Hnum & Hhex & _ & _); [lia|].
    unfold parseInt. simpl.
    change ("" +:+ pretty_N_go (N.pos p) "") with (pretty_N_go (N.pos p) "").
    rewrite Hhex, Hnum. f_equal; lia.
Qed.

Lemma Number_toString_inj_safe (z1 z2 : Z) :
  safe_integer z1 → safe_integer z2 → Number_toString z1 = Number_toString z2 → z1 = z2.
Proof.
  intros H1 H2 Heq. apply (f_equal parseInt) in Heq.
  rewrite !parseInt_Number_toString in Heq by done. by simplify_eq.
Qed.

(** The entries of the stored object, when the keys are safe integers. *)
Lemma kmap_Number_toString_entries {A} (m : gmap Z A) :
  map_Forall (λ k _, safe_integer k) m →
  map_to_list (kmap (M2 := gmap string) Number_toString m)
  ≡ₚ prod_map Number_toString Datatypes.id <$> map_to_list m.
Proof.
  intros Hsafe. unfold kmap. apply map_to_list_to_map.
  rewrite <- list_fmap_compose.
  rewrite (list_fmap_ext _ (Number_toString ∘ fst)) by (by intros ? []).
  rewrite list_fmap_compose. apply NoDup_fmap_2_strong; [|apply NoDup_fst_map_to_list].
  intros k1 k2 Hk1 Hk2. apply Number_toString_inj_safe.
  - apply list_elem_of_fmap in Hk1 as ([k v] & -> & Hin).
    apply elem_of_map_to_list in Hin. by apply (Hsafe _ _ Hin).
  - apply list_elem_of_fmap in Hk2 as ([k v] & -> & Hin).
    apply elem_of_map_to_list in Hin. by apply (Hsafe _ _ Hin).
Qed.

Lemma lookup_kmap_Number_toString {A} (m : gmap Z A) (k : Z) :
  map_Forall (λ k _, safe_integer k) m → safe_integer k →
  kmap (M2 := gmap string) Number_toString m !! Number_toString k = m !! k.
Proof.
  intros Hsafe Hk. apply option_eq. intros v.
  rewrite <- !elem_of_map_to_list, kmap_Number_toString_entries by done.
  rewrite list_elem_of_fmap. split.
  - intros ([k' v'] & [= Heq ->] & Hin). simpl in *.
    apply elem_of_map_to_list in Hin as Hlook.
    by rewrite (Number_toString_inj_safe k k' Hk (Hsafe _ _ Hlook) Heq).
  - intros Hin. by exists (k, v).
Qed.

Lemma parse_keys_kmap (m : gmap Z string) :
  map_Forall (λ k _, safe_integer k) m → parse_keys (kmap Number_toString m) = m.
Proof.
  intros Hsafe.
  assert (∀ z v, (z, v) ∈ omap (λ kv : string * string,
                               (λ k, (k, kv.2)) <$> parseInt kv.1)
                             (map_to_list (kmap (M2 := gmap string) Number_toString m))
                 ↔ m !! z = Some v) as Hmem.
  { intros z v. rewrite list_elem_of_omap. split.
    - intros ([s v'] & Hin & Hg).
      rewrite kmap_Number_toString_entries in Hin by done.
      apply list_elem_of_fmap in Hin as ([z' v''] & [= -> ->] & Hin).
      apply elem_of_map_to_list in Hin. simpl in Hg.
      rewrite parseInt_Number_toString in Hg by (by apply (Hsafe _ _ Hin)).
      simpl in Hg. by simplify_eq.
    - intros Hz. exists (Number_toString z, v). split.
      + rewrite kmap_Number_toString_entries by done.
        apply list_elem_of_fmap. exists (z, v). split; [done|].
        by apply elem_of_map_to_list.
      + simpl. by rewrite parseInt_Number_toString by (by apply (Hsafe _ _ Hz)). }
  apply map_eq. intros z. apply option_eq. intros v. unfold parse_keys.
  rewrite <- elem_of_list_to_map'; [apply Hmem|].
  intros v' Hv Hv'. apply Hmem in Hv, Hv'. congruence.
Qed.

(** C9 fails as stated, twice over.  A state whose [lastSync] is the invalid
    date cannot be saved: [toISOString] throws before anything is stored,
    and loading then finds nothing.  And a collection id of [10^21] is
    stored under the key ["1e+21"], which [parseInt] reads as [1]: the
    state that is loaded maps collection 1, not collection [10^21], to the
    folder. *)
Lemma save_then_load_loses_state :
  ((saveSyncState (mkSyncState ∅ ∅ InvalidDate) Fixtures.empty_heap).2 = Throw
   ∧ (loadSyncState (saveSyncState (mkSyncState ∅ ∅ InvalidDate) Fixtures.empty_heap).1).2
     = Return None)
  ∧ (let s := mkSyncState ∅ {[ (10 ^ 21)%Z := "2" ]} (TimeValue 0) in
     (saveSyncState s Fixtures.empty_heap).2 = Return tt
     ∧ storage (saveSyncState s Fixtures.empty_heap).1
       = Some (mkStored ∅ {[ "1e+21" := "2" ]} (ISO 0))
     ∧ (loadSyncState (saveSyncState s Fixtures.empty_heap).1).2
       = Return (Some (mkSyncState ∅ {[ 1%Z := "2" ]} (TimeValue 0)))
     ∧ mkSyncState ∅ {[ 1%Z := "2" ]} (TimeValue 0) ≠ s).
Proof.
  split; [done|]. simpl.
  split; [vm_compute; reflexivity|]. split; [vm_compute; reflexivity|].
  split; [vm_compute; reflexivity|].
  intros Heq. apply (f_equal (λ s, collectionFolders s !! 1%Z)) in Heq.
  vm_compute in Heq. discriminate Heq.
Qed.

(** C9, as amended: a state with a valid [lastSync] whose collection ids are
    safe integers is saved, and loading it back returns that very state: the
    same bookmarks, the same folder of every collection id (the ids survive
    their trip through strings), and the same time. *)
Theorem save_then_load (s : SyncState) (ms : Z) (h : Heap) :
  lastSync s = TimeValue ms →
  map_Forall (λ k _, safe_integer k) (collectionFolders s) →
  ∃ h', saveSyncState s h = (h', Return tt)
        ∧ loadSyncState h' = (h', Return (Some s))
        ∧ this_syncState h' = Some s.
Proof.
  intros Hdate Hsafe. unfold saveSyncState, bind. rewrite Hdate. simpl.
  eexists. split; [done|]. split; [|done].
  unfold loadSyncState, bind, chrome_storage_local_get. simpl.
  rewrite parse_keys_kmap by done. destruct s; simpl in *. by subst.
Qed.

(** * The URL normaliser *)

Lemma strip_trailing_slash_app (s : string) :
  strip_trailing_slash (s +:+ "/") = s.
Proof.
  induction s as [|a s IH]; [done|]. simpl.
  destruct (s +:+ "/") eqn:Heq; [by destruct s|]. by rewrite <- IH.
Qed.

(** C7: the normaliser is the composition the contract describes, it strips
    one slash and no more, and it maps the inputs of the test suite to the
    outputs the suite expects. *)
Theorem normalizeUrl_contract :
  (∀ s, normalizeUrl s
        = escape_char "/"%char (escape_char "\"%char (strip_trailing_slash (trim s))))
  ∧ (∀ s, strip_trailing_slash (s +:+ "/") = s)
  ∧ normalizeUrl "   http://example.com/path/   " = "http:\/\/example.com\/path"
  ∧ normalizeUrl "http://example.com/path/" = "http:\/\/example.com\/path"
  ∧ normalizeUrl "http://example.com\path\to\resource"
    = "http:\/\/example.com\\path\\to\\resource"
  ∧ normalizeUrl "http://example.com/path/to/resource"
    = "http:\/\/example.com\/path\/to\/resource"
  ∧ normalizeUrl "   http://example.com/path/to/resource/with\backslashes/   "
    = "http:\/\/example.com\/path\/to\/resource\/with\\backslashes"
  ∧ normalizeUrl "http://example.com/path//" = "http:\/\/example.com\/path\/".
Proof.
  split; [done|]. split; [apply strip_trailing_slash_app|]. vm_compute. done.
Qed.

(** * The update branch *)

Lemma updateResult_effect folder cid previous rd bm b h :
  nodes h !! id bm = Some b → bm = node_of (id bm) b →
  (bs_collectionId previous ≠ cid → is_folder h (id folder) = true) →
  ∃ h', updateResult folder cid previous rd bm h = (h', Return tt)
        ∧ locals_same h h' ∧ static h h' ∧ same_urls h h'
        ∧ (∀ i, i ≠ id bm → nodes h' !! i = nodes h !! i)
        ∧ nodes h' !! id bm
          = Some (if truthy_opt (bm_parentId b)
                  then retitled folder cid previous rd b else b).
Proof.
  intros Hb Hbm Hfolder. unfold updateResult, retitled.
  assert (parentId bm = bm_parentId b) as -> by (by rewrite Hbm).
  destruct (truthy_opt (bm_parentId b)).
  - unfold bind, chrome_bookmarks_update. rewrite Hb.
    pose proof (same_urls_insert (id bm) b
      (mkBookmark (bm_parentId b) (rd_title rd) (bm_url b)) h Hb eq_refl) as Hsu1.
    case_bool_decide as Hch.
    + unfold chrome_bookmarks_move. simpl. rewrite lookup_insert_eq.
      rewrite (same_urls_folder _ _ _ Hsu1 (Hfolder Hch)).
      eexists. split; [done|]. split; [done|]. split; [done|]. split.
      { eapply same_urls_trans; [exact Hsu1|].
        apply (same_urls_insert _ (mkBookmark (bm_parentId b) (rd_title rd) (bm_url b)));
          simpl; [by rewrite lookup_insert_eq | done]. }
      simpl. split; [|by rewrite lookup_insert_eq].
      intros i Hi. by rewrite !lookup_insert_ne.
    + eexists. split; [done|]. split; [done|]. split; [done|]. split; [done|].
      simpl. split; [|by rewrite lookup_insert_eq].
      intros i Hi. by rewrite lookup_insert_ne.
  - eexists. split; [done|]. split; [done|]. split; [done|].
    split; [apply same_urls_refl | done].
Qed.

Lemma update_loop_effect folder cid previous rd results :
  ∀ h,
    NoDup (id <$> results) →
    Forall (λ bm, ∃ b, nodes h !! id bm = Some b ∧ bm = node_of (id bm) b) results →
    (bs_collectionId previous ≠ cid → is_folder h (id folder) = true) →
    ∃ h', for_of (updateResult folder cid previous rd) results h = (h', Return tt)
          ∧ locals_same h h' ∧ static h h'
          ∧ (∀ i, i ∉ id <$> results → nodes h' !! i = nodes h !! i)
          ∧ (∀ bm b, bm ∈ results → nodes h !! id bm = Some b →
               nodes h' !! id bm
               = Some (if truthy_opt (bm_parentId b)
                       then retitled folder cid previous rd b else b)).
Proof.
  induction results as [|bm results IH]; intros h Hnd Hall Hfolder.
  - exists h. split; [done|]. split; [done|]. split; [done|]. split; [done|].
    intros bm b Hin. by apply elem_of_nil in Hin.
  - rewrite fmap_cons in Hnd. apply NoDup_cons in Hnd as [Hnin Hnd].
    apply Forall_cons in Hall as [(b & Hb & Hbm) Hall].
    destruct (updateResult_effect folder cid previous rd bm b h Hb Hbm Hfolder)
      as (h1 & Hstep & Hl1 & Hst1 & Hsu1 & Hother1 & Hself1).
    destruct (IH h1 Hnd) as (h2 & Hloop & Hl2 & Hst2 & Hother2 & Hin2).
    { eapply Forall_impl; [apply Forall_and; split; [exact Hall|]|].
      - apply Forall_forall. intros bm' Hbm'. exact Hbm'.
      - intros bm' [(b' & Hb' & Heq') Hbm']. exists b'. split; [|done].
        rewrite Hother1; [done|]. intros Heq. apply Hnin.
        apply list_elem_of_fmap. exists bm'. by rewrite Heq. }
    { intros Hch. eapply same_urls_folder; [exact Hsu1 | by apply Hfolder]. }
    exists h2. split.
    { simpl. unfold bind. by rewrite Hstep. }
    split.
    { destruct Hl1 as (?&?&?), Hl2 as (?&?&?). repeat split; congruence. }
    split; [by eapply static_trans|]. split.
    + intros i Hi. rewrite fmap_cons in Hi. apply not_elem_of_cons in Hi as [Hne Hi].
      rewrite Hother2 by done. by apply Hother1.
    + intros bm' b' Hin Hb'. apply elem_of_cons in Hin as [->|Hin].
      * assert (b' = b) as -> by congruence.
        rewrite Hother2 by done. by rewrite Hself1.
      * apply Hin2; [done|]. rewrite Hother1; [done|].
        intros Heq. apply Hnin. apply list_elem_of_fmap. exists bm'. by rewrite Heq.
Qed.


Lemma search_results_stored u h :
  Forall (λ bm, ∃ b, nodes h !! id bm = Some b ∧ bm = node_of (id bm) b)
         (search_nodes (λ b, bool_decide (bm_url b = Some u)) (nodes h)).
Proof.
  apply Forall_forall. intros bm (b & Hb & _ & Heq)%search_nodes_spec. eauto.
Qed.

Lemma processRaindrop_update_effect previousBookmarks folder cid rd previous h :
  previousBookmarks !! rd_link rd = Some previous →
  bs_title previous ≠ rd_title rd ∨ bs_collectionId previous ≠ cid →
  (bs_collectionId previous ≠ cid → is_folder h (id folder) = true) →
  ∃ h', processRaindrop folder cid previousBookmarks rd h = (h', Return tt)
        ∧ stats h' = incr_updated (stats h)
        ∧ ∀ i b, nodes h !! i = Some b → bm_url b = Some (rd_link rd) →
                 nodes h' !! i
                 = Some (if truthy_opt (bm_parentId b)
                         then retitled folder cid previous rd b else b).
Proof.
  intros Hprev Hdiff Hfolder.
  unfold processRaindrop, bind, newBookmarks_set, modify. simpl. rewrite Hprev.
  assert (bool_decide (bs_title previous ≠ rd_title rd)
          || bool_decide (bs_collectionId previous ≠ cid) = true) as ->.
  { apply orb_true_iff. destruct Hdiff; [left | right]; by apply bool_decide_eq_true. }
  unfold chrome_bookmarks_search.
  set (h1 := set_newBookmarks _ h).
  destruct (update_loop_effect folder cid previous rd
              (search_nodes (λ b, bool_decide (bm_url b = Some (rd_link rd))) (nodes h1)) h1)
    as (h2 & -> & (Hl1 & Hl2 & Hl3) & Hst & Hother & Hin);
    [apply search_nodes_NoDup | apply search_results_stored | done|].
  unfold stats_updated_incr, modify. eexists. split; [done|]. simpl.
  split; [by rewrite Hl3|].
  intros i b Hb Hu.
  assert (node_of i b ∈ search_nodes (λ b, bool_decide (bm_url b = Some (rd_link rd)))
                                     (nodes h1)) as Hmem.
  { apply search_nodes_spec. exists b. simpl. split; [done|]. split; [|done].
    by apply bool_decide_eq_true. }
  pose proof (Hin (node_of i b) b Hmem Hb) as Hres. by simpl in Hres.
Qed.



(** * One changed item through a whole run *)

Lemma resolveFolder_stable parentFolder d h h' f i :
  resolveFolder parentFolder d h = (h', Return f) →
  wf h → folders_ok h → truthy (title_of d) = true →
  newCollectionFolders h !! collectionId_of d = Some i →
  id f = i.
Proof.
  unfold resolveFolder. intros Hrun Hwf Hok Ht Hcf. rewrite Ht in Hrun.
  unfold bind at 1 in Hrun. unfold collectionFolders_get in Hrun.
  rewrite Hcf in Hrun. simpl in Hrun.
  assert (is_folder h i = true) as Hfi by by eapply Hok.
  apply is_folder_spec in Hfi as (b & Hb & _).
  assert (truthy i = true) as Hti.
  { unfold truthy. apply negb_true_iff, bool_decide_eq_false.
    eapply wf_id_nonempty; [done | by eexists]. }
  rewrite Hti in Hrun. unfold bind at 1, try_catch in Hrun.
  destruct (getFolderById i h) as [h1 r1] eqn:Hg.
  apply getFolderById_inv in Hg as [-> [(-> & Hn) | (b' & Hb' & ->)]]; [congruence|].
  unfold bind, collectionFolders_set, modify, ret in Hrun. by simplify_eq.
Qed.

Lemma settled_aside h0 d rd previous h1 h2 :
  keeps (λ v, v ≠ rd_link rd) h1 h2 →
  (∀ c i, newCollectionFolders h1 !! c = Some i → newCollectionFolders h2 !! c = Some i) →
  settled h0 d rd previous h1 → settled h0 d rd previous h2.
Proof.
  intros Hk Hmap (f & Hf & Hnodes). exists f. split; [by apply Hmap|].
  intros i b Hb Hu Hp. destruct (Hnodes i b Hb Hu Hp) as (b' & Hb' & Ht & Hu' & Hpar).
  exists b'. split; [|done]. apply Hk; [done|].
  intros v Hv Hne. apply Hne. congruence.
Qed.

Lemma untouched_aside h0 u h1 h2 :
  keeps (λ v, v ≠ u) h1 h2 → untouched h0 u h1 → untouched h0 u h2.
Proof.
  intros Hk Hun i b Hb Hu. apply Hk; [by apply Hun|].
  intros v Hv Hne. apply Hne. congruence.
Qed.

Lemma keeps_all_aside u h h' : keeps (λ _, False) h h' → keeps (λ v, v ≠ u) h h'.
Proof. apply keeps_mono. done. Qed.

(** The walk settles an item that is listed once, under a titled node, and
    differs from the state the previous run kept of it. *)
Lemma walk_settles c previousBookmarks baseFolder t d rd previous h0 h1 :
  wf h0 → folders_ok h0 → is_folder h0 (id baseFolder) = true →
  (∀ y, y ∈ items_of c t → rd_link y.2 = rd_link rd → y = (d, rd)) →
  (d, rd) ∈ items_of c t →
  truthy (title_of d) = true →
  previousBookmarks !! rd_link rd = Some previous →
  bs_title previous ≠ rd_title rd ∨ bs_collectionId previous ≠ collectionId_of d →
  processCollectionForIncremental c previousBookmarks baseFolder t h0 = (h1, Return tt) →
  settled h0 d rd previous h1.
Proof.
  intros Hwf0 Hok0 Hbase Huniq Hlisted Htitled Hprev Hdiff Hwalk.
  set (u := rd_link rd) in *.
  pose (Inv := λ (l : list (option Collection * Raindrop)) (h : Heap),
          wf h ∧ folders_ok h
          ∧ (u ∉ links_of l → untouched h0 u h)
          ∧ (u ∈ links_of l → settled h0 d rd previous h)).
  pose (F := λ (dq : option Collection) (fq : BookmarkTreeNode) (h : Heap),
          is_folder h (id fq) = true
          ∧ (truthy (title_of dq) = true →
             newCollectionFolders h !! collectionId_of dq = Some (id fq))).
  assert (triple (λ h, Inv [] h ∧ Forall (λ q, F q.1 q.2 h) [(None, baseFolder)])
            (processCollectionForIncremental c previousBookmarks baseFolder t)
            (λ _ h, Inv ([] ++ items_of c t) h
                    ∧ Forall (λ q, F q.1 q.2 h) [(None, baseFolder)])
            (λ _, True)) as Htriple.
  { apply (walk_rule Inv F (λ _, True)).
    - (* resolving a folder *)
      intros qs l dp p d' h [(Hwf & Hok & Hun & Hse) Hfr].
      destruct (resolveFolder p d' h) as [h2 [f|]] eqn:Hrun; [|done].
      destruct (resolveFolder_spec (λ _, False) _ _ _ _ _ Hrun)
        as (Hs & _ & _ & Hmap & Htot).
      apply Forall_cons in Hfr as Hfr'. destruct Hfr' as [[Hp _] _]. simpl in Hp.
      destruct (Htot Hwf Hp Hok) as (f' & [= <-] & Hf & Hok2).
      destruct Hs as [_ Hs]. destruct (Hs Hwf) as [Hwf2 Hk].
      assert (∀ c0 i0, newCollectionFolders h !! c0 = Some i0 →
                       newCollectionFolders h2 !! c0 = Some i0) as Hkeepmap.
      { intros c0 i0 Hc0. specialize (Hmap f eq_refl).
        destruct (truthy (title_of d')) eqn:Ht.
        - destruct Hmap as [-> _].
          destruct (decide (collectionId_of d' = c0)) as [<-|Hne].
          + rewrite lookup_insert_eq. f_equal.
            by eapply resolveFolder_stable.
          + by rewrite lookup_insert_ne.
        - destruct Hmap as [_ ->]. done. }
      split.
      + split; [done|]. split; [done|]. split.
        * intros Hnot. eapply untouched_aside; [by apply keeps_all_aside | by apply Hun].
        * intros Hin. eapply settled_aside; [by apply keeps_all_aside | done | by apply Hse].
      + apply Forall_cons. split.
        * simpl. split; [done|]. intros Ht. specialize (Hmap f eq_refl).
          rewrite Ht in Hmap. destruct Hmap as [-> _]. by rewrite lookup_insert_eq.
        * eapply Forall_impl; [exact Hfr|]. intros [dq fq] [Hfq Hmq]. simpl in *.
          split; [by eapply keeps_folder|]. intros Ht. by apply Hkeepmap, Hmq.
    - (* handling an item *)
      intros qs l dy fy rdy Hin h [(Hwf & Hok & Hun & Hse) Hfr].
      destruct (processRaindrop fy (collectionId_of dy) previousBookmarks rdy h)
        as [h2 [[]|]] eqn:Hrun; [|done].
      apply Forall_cons in Hfr as Hfr'. destruct Hfr' as [[Hfy Hmy] _]. simpl in Hfy, Hmy.
      destruct (decide (rd_link rdy = u)) as [Heq|Hne].
      + (* the item itself *)
        assert ((dy, rdy) = (d, rd)) as [= -> ->] by by apply Huniq.
        destruct (processRaindrop_spec (λ _, True) _ _ d _ _ _ _ Hrun)
          as (Hs & Hcf & _); [done|].
        destruct Hs as [_ Hs]. destruct (Hs Hwf) as [Hwf2 Hk].
        destruct (processRaindrop_update_effect previousBookmarks fy (collectionId_of d)
                    rd previous h Hprev Hdiff (λ _, Hfy)) as (h2' & Hrun' & _ & Heffect).
        assert (h2' = h2) as -> by congruence.
        split.
        * split; [done|]. split; [by eapply folders_ok_keeps|]. split.
          { intros Hnot. exfalso. apply Hnot. unfold links_of.
            rewrite fmap_app. apply elem_of_app. right. by left. }
          intros _. exists (id fy). split; [rewrite Hcf; by apply Hmy|].
          intros i b Hb Hu Hp.
          destruct (decide (u ∈ links_of l)) as [Hseen|Hnew].
          -- destruct (Hse Hseen) as (f0 & Hf0 & Hnodes).
             destruct (Hnodes i b Hb Hu Hp) as (b1 & Hb1 & Ht1 & Hu1 & Hp1).
             assert (f0 = id fy) as -> by (rewrite (Hmy Htitled) in Hf0; congruence).
             rewrite (Heffect i b1 Hb1) by congruence.
             destruct (truthy_opt (bm_parentId b1)).
             ++ eexists. split; [done|]. unfold retitled. simpl.
                split; [done|]. split; [done|]. intros Hch.
                by rewrite bool_decide_eq_true_2.
             ++ eexists. split; [done|]. done.
          -- rewrite (Heffect i b (Hun Hnew i b Hb Hu) Hu), Hp.
             eexists. split; [done|]. unfold retitled. simpl.
             split; [done|]. split; [done|]. intros Hch.
             by rewrite bool_decide_eq_true_2.
        * eapply Forall_impl; [exact Hfr|]. intros [dq fq] [Hfq Hmq]. simpl in *.
          split; [by eapply keeps_folder|]. by rewrite Hcf.
      + (* another item *)
        destruct (processRaindrop_spec (λ v, v ≠ u) _ _ dy _ _ _ _ Hrun)
          as (Hs & Hcf & _); [done|].
        destruct Hs as [_ Hs]. destruct (Hs Hwf) as [Hwf2 Hk].
        assert (u ∈ links_of (l ++ [(dy, rdy)]) ↔ u ∈ links_of l) as Hmem.
        { unfold links_of. rewrite fmap_app, elem_of_app. simpl.
          rewrite list_elem_of_singleton. split; [|by left].
          intros [?|?]; [done | congruence]. }
        split.
        * split; [done|]. split; [by eapply folders_ok_keeps|]. split.
          -- intros Hnot. eapply untouched_aside; [done|]. apply Hun. by rewrite <- Hmem.
          -- intros Hseen. eapply settled_aside; [done | by rewrite Hcf |].
             apply Hse. by rewrite <- Hmem.
        * eapply Forall_impl; [exact Hfr|]. intros [dq fq] [Hfq Hmq]. simpl in *.
          split; [by eapply keeps_folder|]. by rewrite Hcf.
    - done. }
  specialize (Htriple h0). rewrite Hwalk in Htriple.
  destruct Htriple as [(_ & _ & _ & Hse) _].
  - split; [|by apply Forall_singleton].
    split; [done|]. split; [done|]. split; [by intros _ i b Hb _|].
    intros Hin. by apply elem_of_nil in Hin.
  - apply Hse. simpl. unfold links_of. apply list_elem_of_fmap. by exists (d, rd).
Qed.

Lemma unsorted_loop_aside u unsortedFolder previousBookmarks us :
  ∀ h h' r,
    for_of (processUnsortedRaindrop unsortedFolder previousBookmarks) us h = (h', r) →
    wf h → is_Some (newBookmarks h !! u) →
    wf h' ∧ keeps (λ v, v ≠ u) h h'
    ∧ newCollectionFolders h' = newCollectionFolders h.
Proof.
  induction us as [|x us IH]; intros h h' r Hrun Hwf Hu.
  - unfold for_of, ret in Hrun. simplify_eq. split; [done|]. split; [apply keeps_refl | done].
  - simpl in Hrun. unfold bind in Hrun.
    destruct (processUnsortedRaindrop unsortedFolder previousBookmarks x h)
      as [h1 r1] eqn:Hstep.
    destruct (processUnsortedRaindrop_spec (λ v, v ≠ u) _ _ _ _ _ _ Hstep)
      as ([_ Hs] & Hcf & _ & _ & Hmono).
    { intros Hnone _ Heq. rewrite Heq in Hnone. rewrite Hnone in Hu. by destruct Hu. }
    destruct (Hs Hwf) as [Hwf1 Hk1].
    destruct r1 as [[]|]; [|by simplify_eq].
    destruct (IH h1 h' r Hrun Hwf1 (Hmono u Hu)) as (Hwf' & Hk' & Hcf').
    split; [done|]. split; [by eapply keeps_trans | congruence].
Qed.

Lemma unsorted_phase_aside u opts previousBookmarks h1 h2 :
  unsorted_phase opts previousBookmarks h1 = (h2, Return tt) →
  wf h1 → folders_ok h1 → is_folder h1 (id (baseFolder opts)) = true →
  is_Some (newBookmarks h1 !! u) →
  keeps (λ v, v ≠ u) h1 h2
  ∧ (∀ c i, newCollectionFolders h1 !! c = Some i → newCollectionFolders h2 !! c = Some i).
Proof.
  unfold unsorted_phase. intros Hrun Hwf Hok Hbase Hu.
  case_bool_decide; [|unfold ret in Hrun; simplify_eq; split; [apply keeps_refl | done]].
  unfold syncUnsortedCollection in Hrun.
  unfold bind at 1 in Hrun. unfold collectionFolders_get in Hrun.
  unfold bind at 1 in Hrun.
  destruct (unsorted_folder_total (λ _, False) (baseFolder opts) h1 Hwf Hok Hbase)
    as (h1' & f & Hpre & Hwf1 & [_ Hs1] & (Hnb1 & Hcf1 & Hst1) & Hf1 & Hstable).
  rewrite Hpre in Hrun.
  destruct (Hs1 Hwf) as [_ Hk1].
  unfold bind at 1 in Hrun. unfold collectionFolders_set, modify in Hrun.
  set (h1'' := set_newCollectionFolders _ h1') in Hrun.
  assert (∀ c i, newCollectionFolders h1 !! c = Some i →
                 newCollectionFolders h1'' !! c = Some i) as Hmap.
  { intros c0 i Hc0. simpl. rewrite Hcf1.
    destruct (decide (UNSORTED_ID = c0)) as [<-|Hne].
    - rewrite lookup_insert_eq. f_equal. by apply Hstable.
    - by rewrite lookup_insert_ne. }
  unfold try_catch, raindrop_getAllRaindrops in Hrun.
  destruct (getAllRaindrops (raindropClient opts) UNSORTED_ID) as [us|].
  - unfold bind, ret in Hrun.
    destruct (for_of _ us h1'') as [h3 r3] eqn:Hloop.
    destruct (unsorted_loop_aside u _ _ _ _ _ _ Hloop) as (_ & Hk3 & Hcf3).
    { done. }
    { simpl. by rewrite Hnb1. }
    assert (h3 = h2) as -> by (destruct r3 as [[]|]; by simplify_eq).
    split.
    + eapply keeps_trans; [by apply keeps_all_aside|].
      intros i b Hb Hnot. by apply Hk3.
    + intros c0 i Hc0. rewrite Hcf3. by apply Hmap.
  - unfold bind, throw, ret in Hrun. simplify_eq. split; [|done].
    eapply keeps_trans; [by apply keeps_all_aside|]. by intros i b Hb _.
Qed.

Lemma deletion_aside u baseFolder keys :
  ∀ h h' r,
    for_of (deleteStale baseFolder) keys h = (h', r) →
    wf h → is_Some (newBookmarks h !! u) →
    wf h' ∧ keeps (λ v, v ≠ u) h h'
    ∧ newCollectionFolders h' = newCollectionFolders h.
Proof.
  induction keys as [|k keys IH]; intros h h' r Hrun Hwf Hu.
  - unfold for_of, ret in Hrun. simplify_eq. split; [done|]. split; [apply keeps_refl | done].
  - simpl in Hrun. unfold bind in Hrun.
    destruct (deleteStale baseFolder k h) as [h1 r1] eqn:Hstep.
    assert (wf h1 ∧ keeps (λ v, v ≠ u) h h1
            ∧ newCollectionFolders h1 = newCollectionFolders h
            ∧ newBookmarks h1 = newBookmarks h ∧ r1 = Return tt)
      as (Hwf1 & Hk1 & Hcf1 & Hnb1 & ->).
    { destruct (decide (k = u)) as [->|Hne].
      - destruct (deleteStale_spec (λ _, True) _ _ _ _ _ Hstep I)
          as (-> & _ & _ & _ & _ & _ & _ & Hid).
        rewrite (Hid Hu). split; [done|]. split; [apply keeps_refl | done].
      - destruct (deleteStale_spec (λ v, v ≠ u) _ _ _ _ _ Hstep Hne)
          as (-> & [_ Hs] & Hnb & Hcf & _).
        destruct (Hs Hwf) as [? ?]. done. }
    destruct (IH h1 h' r Hrun Hwf1) as (Hwf' & Hk' & Hcf'); [by rewrite Hnb1|].
    split; [done|]. split; [by eapply keeps_trans | congruence].
Qed.

Lemma record_items_has l m x :
  x ∈ l → is_Some (record_items l m !! rd_link x.2).
Proof.
  induction l as [|y l IH] using rev_ind; intros Hx; [by apply elem_of_nil in Hx|].
  rewrite record_items_snoc. apply lookup_insert_is_Some.
  apply elem_of_app in Hx as [Hx|Hx%list_elem_of_singleton].
  - destruct (decide (rd_link y.2 = rd_link x.2)); [by left | right; auto].
  - subst. by left.
Qed.

(** C5, as amended: an item that the walk lists once, under a collection
    node with a title, and that differs in title or collection from the
    state the previous run kept of it.  A run that is ready returns; the
    item counts as one update; the run records a folder for the item's
    collection; and every bookmark that carried the item's URL and had a
    parent has, after the run, the item's title and, when the collection
    changed, that folder as its parent. *)
Theorem changed_item_is_retitled_and_moved opts h d rd previous l1 l2 :
  run_ready opts h →
  items_of (raindropClient opts) (tree opts) = l1 ++ (d, rd) :: l2 →
  rd_link rd ∉ links_of (l1 ++ l2) →
  truthy (title_of d) = true →
  previous_of h !! rd_link rd = Some previous →
  bs_title previous ≠ rd_title rd ∨ bs_collectionId previous ≠ collectionId_of d →
  ∃ h' s f,
    incrementalSync opts h = (h', Return s)
    ∧ (∀ st, tally_item (previous_of h) (d, rd) st = incr_updated st)
    ∧ updated s = updated (run_books opts (previous_of h)).2
    ∧ newCollectionFolders h' !! collectionId_of d = Some f
    ∧ ∀ i b, nodes h !! i = Some b → bm_url b = Some (rd_link rd) →
             truthy_opt (bm_parentId b) = true →
             ∃ b', nodes h' !! i = Some b'
                   ∧ bm_title b' = rd_title rd ∧ bm_url b' = bm_url b
                   ∧ (bs_collectionId previous ≠ collectionId_of d →
                      bm_parentId b' = Some f).
Proof.
  intros Hready Hitems Honce Htitled Hprev Hdiff.
  pose proof Hready as (Hwf & Hbase & _).
  destruct (run_phases opts h Hready)
    as (h1 & h2 & h3 & Hwalk & Hunsorted & Hdel & Hrun
        & (Hwf1 & Hok1 & Hbase1 & _ & Hnb1 & _)
        & (Hwf2 & _ & Hbooks)
        & (Hwf3 & _ & Hnb3 & _ & _ & Hu3 & _)).
  set (items := items_of (raindropClient opts) (tree opts)) in *.
  assert ((d, rd) ∈ items) as Hlisted.
  { rewrite Hitems. apply elem_of_app. right. by left. }
  assert (∀ y, y ∈ items → rd_link y.2 = rd_link rd → y = (d, rd)) as Huniq.
  { intros y Hy Hlink. rewrite Hitems in Hy.
    apply elem_of_app in Hy as [Hy|Hy]; [|apply elem_of_cons in Hy as [Hy|Hy]; [done|]];
      exfalso; apply Honce; unfold links_of; rewrite fmap_app, elem_of_app;
      [left | right]; apply list_elem_of_fmap; by exists y. }
  assert (settled (init_run h) d rd previous h1) as Hse1.
  { eapply walk_settles; [..|exact Hwalk]; done. }
  assert (is_Some (newBookmarks h1 !! rd_link rd)) as Hhas1.
  { rewrite Hnb1. by apply (record_items_has items ∅ (d, rd)). }
  destruct (unsorted_phase_aside (rd_link rd) _ _ _ _ Hunsorted Hwf1 Hok1 Hbase1 Hhas1)
    as (Hk2 & Hmap2).
  pose proof (settled_aside _ _ _ _ _ _ Hk2 Hmap2 Hse1) as Hse2.
  assert (is_Some (newBookmarks h2 !! rd_link rd)) as Hhas2.
  { apply (f_equal fst) in Hbooks. simpl in Hbooks. rewrite Hbooks. unfold run_books.
    destruct Hhas1 as [v Hv]. exists v. apply unsorted_items_keeps. simpl.
    fold items. by rewrite <- Hnb1. }
  destruct (deletion_aside (rd_link rd) _ _ _ _ _ Hdel Hwf2 Hhas2) as (_ & Hk3 & Hcf3).
  assert (settled (init_run h) d rd previous h3) as (f & Hf & Hnodes).
  { eapply settled_aside; [exact Hk3 | by intros c0 i; rewrite Hcf3 | exact Hse2]. }
  exists (finish_run h3), (stats h3), f. split; [exact Hrun|]. split.
  { intros st. unfold tally_item. simpl. rewrite Hprev.
    assert (bool_decide (bs_title previous ≠ rd_title rd)
            || bool_decide (bs_collectionId previous ≠ collectionId_of d) = true) as ->;
      [|done].
    apply orb_true_iff. destruct Hdiff; [left | right]; by apply bool_decide_eq_true. }
  split.
  { rewrite Hu3. apply (f_equal snd) in Hbooks. simpl in Hbooks. by rewrite Hbooks. }
  split; [exact Hf|]. exact Hnodes.
Qed.

(** * The theorems at work on concrete runs *)

Lemma wf_check_sound h : wf_check h = true → wf h.
Proof.
  unfold wf_check. intros Hc%bool_decide_eq_true. split.
  - intros i [b Hb]. destruct (Hc i b Hb) as [Hi _].
    apply list_elem_of_fmap in Hi as (k & -> & Hk). apply elem_of_seq in Hk.
    exists (N.of_nat k). split; [lia | done].
  - intros i b Hb. by destruct (Hc i b Hb).
Qed.

Lemma ready_by_computation opts h :
  wf_check h = true →
  is_folder h (id (baseFolder opts)) = true →
  fetches_ok (raindropClient opts) (tree opts) = true →
  bool_decide (Forall (λ x : option Collection * Raindrop, rd_link x.2 ≠ "")
                      (items_of (raindropClient opts) (tree opts))) = true →
  bool_decide (Forall (λ rd, rd_link rd ≠ "") (unsorted_listing opts)) = true →
  run_ready opts h.
Proof.
  intros Hwf Hbase Hfetch Hl1%bool_decide_eq_true Hl2%bool_decide_eq_true.
  split; [by apply wf_check_sound | done].
Defined.

Lemma save_then_load_witness :
  let s := mkSyncState ∅ {[ 7%Z := "2"; (-1)%Z := "4" ]} (TimeValue 5) in
  lastSync s = TimeValue 5
  ∧ map_Forall (λ k _, safe_integer k) (collectionFolders s)
  ∧ ∃ h', saveSyncState s Fixtures.empty_heap = (h', Return tt)
          ∧ loadSyncState h' = (h', Return (Some s))
          ∧ this_syncState h' = Some s.
Proof.
  intros s.
  assert (map_Forall (λ k _, safe_integer k) (collectionFolders s)) as Hsafe.
  { intros k v Hk. simpl in Hk. apply lookup_insert_Some in Hk as [[<- _]|[_ Hk]].
    - unfold safe_integer, MAX_SAFE_INTEGER. lia.
    - apply lookup_singleton_Some in Hk as [<- _].
      unfold safe_integer, MAX_SAFE_INTEGER. lia. }
  split; [reflexivity|]. split; [exact Hsafe|].
  exact (save_then_load s 5 Fixtures.empty_heap eq_refl Hsafe).
Defined.


Lemma changed_item_is_retitled_and_moved_witness :
  let d := Some (mkCollection 1 "A") in
  let r := Fixtures.rd 11 Fixtures.url_a "A" in
  let previous := mkBookmarkState Fixtures.url_a "A" 7 100 None None in
  run_ready Fixtures.moved_once_opts Fixtures.moved_heap
  ∧ items_of (raindropClient Fixtures.moved_once_opts) (tree Fixtures.moved_once_opts)
    = [] ++ [(d, r)]
  ∧ (rd_link r ∉ links_of ([] ++ []))
  ∧ truthy (title_of d) = true
  ∧ previous_of Fixtures.moved_heap !! rd_link r = Some previous
  ∧ (bs_title previous ≠ rd_title r ∨ bs_collectionId previous ≠ collectionId_of d)
  ∧ ∃ h' s f,
      incrementalSync Fixtures.moved_once_opts Fixtures.moved_heap = (h', Return s)
      ∧ (∀ st, tally_item (previous_of Fixtures.moved_heap) (d, r) st = incr_updated st)
      ∧ updated s = updated (run_books Fixtures.moved_once_opts
                                       (previous_of Fixtures.moved_heap)).2
      ∧ newCollectionFolders h' !! collectionId_of d = Some f
      ∧ ∀ i b, nodes Fixtures.moved_heap !! i = Some b → bm_url b = Some (rd_link r) →
               truthy_opt (bm_parentId b) = true →
               ∃ b', nodes h' !! i = Some b'
                     ∧ bm_title b' = rd_title r ∧ bm_url b' = bm_url b
                     ∧ (bs_collectionId previous ≠ collectionId_of d →
                        bm_parentId b' = Some f).
Proof.
  intros d r previous.
  assert (run_ready Fixtures.moved_once_opts Fixtures.moved_heap) as Hready
    by (apply ready_by_computation; vm_compute; reflexivity).
  assert (items_of (raindropClient Fixtures.moved_once_opts)
                   (tree Fixtures.moved_once_opts) = [] ++ [(d, r)]) as Hitems
    by (vm_compute; reflexivity).
  assert (rd_link r ∉ links_of ([] ++ [])) as Honce
    by (simpl; apply not_elem_of_nil).
  assert (truthy (title_of d) = true) as Htitled by (vm_compute; reflexivity).
  assert (previous_of Fixtures.moved_heap !! rd_link r = Some previous) as Hprev
    by (vm_compute; reflexivity).
  assert (bs_title previous ≠ rd_title r ∨ bs_collectionId previous ≠ collectionId_of d)
    as Hdiff by (right; vm_compute; discriminate).
  split; [exact Hready|]. split; [exact Hitems|]. split; [exact Honce|].
  split; [exact Htitled|]. split; [exact Hprev|]. split; [exact Hdiff|].
  exact (changed_item_is_retitled_and_moved Fixtures.moved_once_opts Fixtures.moved_heap
           d r previous [] [] Hready Hitems Honce Htitled Hprev Hdiff).
Defined.

(** * Runs, whatever their outcome *)

(** A run is its three phases and the save; it stops at the first phase
    that throws. *)
Lemma run_cases opts h :
  incrementalSync opts h
  = match processCollectionForIncremental (raindropClient opts) (previous_of h)
            (baseFolder opts) (tree opts) (init_run h) with
    | (h1, Throw) => (h1, Throw)
    | (h1, Return _) =>
        match unsorted_phase opts (previous_of h) h1 with
        | (h2, Throw) => (h2, Throw)
        | (h2, Return _) =>
            match for_of (deleteStale (baseFolder opts))
                         (map_to_list (previous_of h)).*1 h2 with
            | (h3, Throw) => (h3, Throw)
            | (h3, Return _) => (finish_run h3, Return (stats h3))
            end
        end
    end.
Proof.
  unfold incrementalSync.
  unfold bind at 1. unfold modify at 1.
  unfold bind at 1.
  destruct (loadSyncState_previous (set_stats (mkStats 0 0 0 0) h)) as (st & -> & Hprev).
  rewrite Hprev. change (previous_of (set_stats (mkStats 0 0 0 0) h)) with (previous_of h).
  unfold bind at 1. unfold modify at 1.
  unfold bind at 1. unfold modify at 1.
  unfold bind at 1. fold (init_run h).
  destruct (processCollectionForIncremental _ _ _ _ _) as [h1 [[]|]]; [|done].
  unfold bind at 1. fold (unsorted_phase opts (previous_of h)).
  destruct (unsorted_phase _ _ h1) as [h2 [[]|]]; [|done].
  unfold bind at 1.
  destruct (for_of _ _ h2) as [h3 [[]|]]; [|done].
  reflexivity.
Qed.

(** A relation that relates the heap to itself once the run has allocated
    its objects, that every phase respects, and that the save respects, is
    respected by the run. *)
Lemma run_respects (R : Heap → Heap → Prop) opts h :
  (∀ h1 h2 h3, R h1 h2 → R h2 h3 → R h1 h3) →
  R h (init_run h) →
  (∀ parentFolder t,
     respects R (processCollectionForIncremental (raindropClient opts) (previous_of h)
                   parentFolder t)) →
  respects R (unsorted_phase opts (previous_of h)) →
  respects R (for_of (deleteStale (baseFolder opts)) (map_to_list (previous_of h)).*1) →
  (∀ h3, R h3 (finish_run h3)) →
  ∀ h' r, incrementalSync opts h = (h', r) → R h h'.
Proof.
  intros Htrans Hinit Hwalk Hunsorted Hdel Hsave h' r Hrun.
  rewrite run_cases in Hrun.
  destruct (processCollectionForIncremental _ _ _ _ _) as [h1 r1] eqn:H1.
  apply Hwalk in H1. pose proof (Htrans _ _ _ Hinit H1) as Hh1.
  destruct r1 as [[]|]; [|by simplify_eq].
  destruct (unsorted_phase _ _ h1) as [h2 r2] eqn:H2.
  apply Hunsorted in H2. pose proof (Htrans _ _ _ Hh1 H2) as Hh2.
  destruct r2 as [[]|]; [|by simplify_eq].
  destruct (for_of _ _ h2) as [h3 r3] eqn:H3.
  apply Hdel in H3. pose proof (Htrans _ _ _ Hh2 H3) as Hh3.
  destruct r3 as [[]|]; [|by simplify_eq].
  simplify_eq. eapply Htrans; [exact Hh3 | apply Hsave].
Qed.

(** A run that returns has saved what it built. *)
Lemma run_returns_saved opts h h' s :
  incrementalSync opts h = (h', Return s) →
  s = stats h'
  ∧ storage h' = Some {| stored_bookmarks := newBookmarks h';
                         stored_collectionFolders :=
                           kmap Number_toString (newCollectionFolders h');
                         stored_lastSync := ISO (clock h') |}
  ∧ this_syncState h' = Some {| bookmarks := newBookmarks h';
                                collectionFolders := newCollectionFolders h';
                                lastSync := TimeValue (clock h') |}.
Proof.
  rewrite run_cases.
  destruct (processCollectionForIncremental _ _ _ _ _) as [h1 [[]|]]; [|done].
  destruct (unsorted_phase _ _ h1) as [h2 [[]|]]; [|done].
  destruct (for_of _ _ h2) as [h3 [[]|]]; [|done].
  by intros [= <- <-].
Qed.

Lemma loadSyncState_saved h nb cf ms :
  storage h = Some {| stored_bookmarks := nb;
                      stored_collectionFolders := kmap Number_toString cf;
                      stored_lastSync := ISO ms |} →
  loadSyncState h
  = (h, Return (Some {| bookmarks := nb;
                        collectionFolders := parse_keys (kmap Number_toString cf);
                        lastSync := TimeValue ms |})).
Proof.
  intros Hst. unfold loadSyncState, bind, chrome_storage_local_get, ret.
  by rewrite Hst.
Qed.

(** ** The three phases touch tracked URLs only *)

Lemma walk_safe c previousBookmarks t :
  ∀ parentFolder,
    respects (safe (tracked previousBookmarks))
             (processCollectionForIncremental c previousBookmarks parentFolder t).
Proof.
  set (U := tracked previousBookmarks).
  induction t as [d cs IH] using TreeNode_induction. intros parentFolder. simpl.
  apply respects_bind; [apply safe_trans | |].
  { intros h h' r Hrun. by destruct (resolveFolder_spec U _ _ _ _ _ Hrun) as (? & _). }
  intros folder.
  apply respects_bind; [apply safe_trans | |].
  { unfold raindrop_getAllRaindrops. destruct (getAllRaindrops c (collectionId_of d)).
    - apply respects_ret, safe_refl.
    - apply respects_throw, safe_refl. }
  intros raindrops.
  apply respects_bind; [apply safe_trans | |].
  { apply respects_for_of; [apply safe_refl | apply safe_trans |].
    apply Forall_forall. intros rd _ h h' r Hrun.
    by destruct (processRaindrop_spec U _ _ d _ _ _ _ Hrun) as (? & _). }
  intros [].
  apply respects_for_of; [apply safe_refl | apply safe_trans |].
  eapply Forall_impl; [exact IH|]. intros child Hchild. apply Hchild.
Qed.

Lemma syncUnsortedCollection_safe baseFolder c previousBookmarks :
  respects (safe (tracked previousBookmarks))
           (syncUnsortedCollection baseFolder c previousBookmarks).
Proof.
  set (U := tracked previousBookmarks).
  unfold syncUnsortedCollection.
  assert (respects (safe U) (chrome_bookmarks_create (id baseFolder) UNSORTED_TITLE None))
    as Hcreate.
  { intros h h' r Hrun. by eapply create_safe. }
  apply respects_bind; [apply safe_trans | |].
  { intros h h' r [= <- <-]. apply safe_refl. }
  intros existingFolderId.
  apply respects_bind; [apply safe_trans | |].
  { destruct (truthy_opt existingFolderId).
    - apply respects_try_catch; [apply safe_trans | | done].
      intros h h' r Hrun. apply getFolderById_inv in Hrun as [-> _]. apply safe_refl.
    - apply respects_bind; [apply safe_trans | |].
      + intros h h' r Hrun. apply getChildren_inv in Hrun as [-> _]. apply safe_refl.
      + intros children. destruct (List.find _ _); [|done].
        apply respects_ret, safe_refl. }
  intros unsortedFolder.
  apply respects_bind; [apply safe_trans | |].
  { intros h h' r [= <- <-]. by apply safe_locals. }
  intros [].
  apply respects_try_catch; [apply safe_trans | |].
  - apply respects_bind; [apply safe_trans | |].
    + unfold raindrop_getAllRaindrops. destruct (getAllRaindrops c UNSORTED_ID).
      * apply respects_ret, safe_refl.
      * apply respects_throw, safe_refl.
    + intros raindrops.
      apply respects_for_of; [apply safe_refl | apply safe_trans |].
      apply Forall_forall. intros rd _ h h' r Hrun.
      by destruct (processUnsortedRaindrop_spec U _ _ _ _ _ _ Hrun) as (? & _).
  - apply respects_ret, safe_refl.
Qed.

Lemma unsorted_phase_safe opts previousBookmarks :
  respects (safe (tracked previousBookmarks)) (unsorted_phase opts previousBookmarks).
Proof.
  unfold unsorted_phase. case_bool_decide.
  - apply syncUnsortedCollection_safe.
  - apply respects_ret, safe_refl.
Qed.

Lemma deletion_pass_safe baseFolder (previousBookmarks : gmap string BookmarkState) :
  respects (safe (tracked previousBookmarks))
           (for_of (deleteStale baseFolder) (map_to_list previousBookmarks).*1).
Proof.
  intros h h' r Hrun.
  destruct (deletion_pass_spec (tracked previousBookmarks) _ _ _ _ _ Hrun) as (_ & ? & _);
    [|done].
  apply Forall_forall. intros u Hu. apply list_elem_of_fmap in Hu as ([u' st'] & -> & Hin).
  apply elem_of_map_to_list in Hin. by eexists.
Qed.

(** Whatever its outcome, a run on a well-formed store leaves a well-formed
    store in which every node whose URL the previous state does not track
    is as it was. *)
Lemma run_keeps opts h h' r :
  wf h → incrementalSync opts h = (h', r) →
  wf h' ∧ keeps (tracked (previous_of h)) h h'.
Proof.
  intros Hwf Hrun. revert Hwf.
  set (U := tracked (previous_of h)).
  assert (∀ A (m : M A), respects (safe U) m →
                         respects (λ a b, wf a → wf b ∧ keeps U a b) m) as Hweak.
  { intros A m Hm a b r' Hab. by destruct (Hm a b r' Hab). }
  revert h' r Hrun.
  apply (run_respects (λ a b, wf a → wf b ∧ keeps U a b)).
  - intros h1 h2 h3 H12 H23 Hwf1. destruct (H12 Hwf1) as [Hwf2 Hk12].
    destruct (H23 Hwf2) as [Hwf3 Hk23]. split; [done|]. by eapply keeps_trans.
  - intros Hwf. split; [done|]. by intros i b Hb _.
  - intros parentFolder t. apply Hweak, walk_safe.
  - apply Hweak, unsorted_phase_safe.
  - apply Hweak, deletion_pass_safe.
  - intros h3 Hwf. split; [done|]. by intros i b Hb _.
Qed.

(** A run allocates its three objects before it reads them. *)
Lemma run_init opts h : incrementalSync opts (init_run h) = incrementalSync opts h.
Proof. by rewrite !run_cases. Qed.

(** ** Relations that every step of a run respects *)

Section steps.
Context (R : Heap → Heap → Prop).
Hypothesis R_refl : ∀ h, R h h.
Hypothesis R_trans : ∀ h1 h2 h3, R h1 h2 → R h2 h3 → R h1 h3.
Hypothesis R_create : ∀ parent t u, respects R (chrome_bookmarks_create parent t u).
Hypothesis R_update : ∀ i t, respects R (chrome_bookmarks_update i t).
Hypothesis R_move : ∀ i parent, respects R (chrome_bookmarks_move i parent).
Hypothesis R_remove : ∀ i, respects R (chrome_bookmarks_remove i).
Hypothesis R_record : ∀ cid rd,
  respects R (newBookmarks_set (rd_link rd) (bookmarkState_of cid rd)).
Hypothesis R_folder : ∀ k v, respects R (collectionFolders_set k v).
Hypothesis R_stats : ∀ f, respects R (modify (λ h, set_stats (f (stats h)) h)).

Local Ltac step := first
  [ apply respects_bind; [exact R_trans | | intros ?]
  | apply respects_try_catch; [exact R_trans | |]
  | apply respects_for_of; [exact R_refl | exact R_trans | apply Forall_forall; intros ? _]
  | apply respects_ret; exact R_refl
  | apply respects_throw; exact R_refl
  | apply R_create | apply R_update | apply R_move | apply R_remove
  | apply R_record | apply R_folder | apply R_stats ].

Lemma read_steps {A} (f : Heap → A) : respects R (λ h, (h, Return (f h))).
Proof. intros h h' r [= <- <-]. apply R_refl. Qed.

Lemma getFolderById_steps i : respects R (getFolderById i).
Proof. intros h h' r Hrun. apply getFolderById_inv in Hrun as [-> _]. apply R_refl. Qed.

Lemma getChildren_steps i : respects R (chrome_bookmarks_getChildren i).
Proof. intros h h' r Hrun. apply getChildren_inv in Hrun as [-> _]. apply R_refl. Qed.

Lemma fetch_steps c cid : respects R (raindrop_getAllRaindrops c cid).
Proof.
  unfold raindrop_getAllRaindrops. destruct (getAllRaindrops c cid); step.
Qed.

Lemma resolveFolder_steps parentFolder d : respects R (resolveFolder parentFolder d).
Proof.
  unfold resolveFolder. destruct (truthy (title_of d)); [|step].
  step; [apply (read_steps (λ h, newCollectionFolders h !! collectionId_of d))|].
  step.
  - destruct (truthy_opt _); [|step]. step; [apply getFolderById_steps | step].
  - step; step.
Qed.

Lemma processRaindrop_steps folder cid previousBookmarks rd :
  respects R (processRaindrop folder cid previousBookmarks rd).
Proof.
  unfold processRaindrop. step; [step|].
  destruct (previousBookmarks !! rd_link rd) as [previous|].
  - destruct (_ || _); [|apply R_stats].
    step; [apply (read_steps (λ h, search_nodes _ (nodes h)))|].
    step; [|apply R_stats]. step.
    unfold updateResult. destruct (truthy_opt _); [|step].
    step; [step|]. case_bool_decide; step.
  - step; [step | apply R_stats].
Qed.

Lemma walk_steps c previousBookmarks t :
  ∀ parentFolder,
    respects R (processCollectionForIncremental c previousBookmarks parentFolder t).
Proof.
  induction t as [d cs IH] using TreeNode_induction. intros parentFolder. simpl.
  step; [apply resolveFolder_steps|].
  step; [apply fetch_steps|].
  step; [step; apply processRaindrop_steps|].
  apply respects_for_of; [exact R_refl | exact R_trans |].
  eapply Forall_impl; [exact IH|]. intros child Hchild. apply Hchild.
Qed.

Lemma processUnsortedRaindrop_steps unsortedFolder previousBookmarks rd :
  respects R (processUnsortedRaindrop unsortedFolder previousBookmarks rd).
Proof.
  unfold processUnsortedRaindrop.
  step; [apply (read_steps (λ h, bool_decide (is_Some (newBookmarks h !! rd_link rd))))|].
  match goal with |- respects R (if ?b then _ else _) => destruct b end; [step|].
  step; [step|].
  destruct (previousBookmarks !! rd_link rd) as [previous|].
  - case_bool_decide; [|apply R_stats].
    step; [apply (read_steps (λ h, search_nodes _ (nodes h)))|].
    step; [|apply R_stats]. step. step.
  - step; [step | apply R_stats].
Qed.

Lemma syncUnsortedCollection_steps baseFolder c previousBookmarks :
  respects R (syncUnsortedCollection baseFolder c previousBookmarks).
Proof.
  unfold syncUnsortedCollection.
  step; [apply (read_steps (λ h, newCollectionFolders h !! UNSORTED_ID))|].
  step.
  - destruct (truthy_opt _).
    + step; [apply getFolderById_steps | step].
    + step; [apply getChildren_steps|]. destruct (List.find _ _); step.
  - step; [step|]. step; [|step].
    step; [apply fetch_steps|]. step. apply processUnsortedRaindrop_steps.
Qed.

Lemma deleteStale_steps baseFolder u : respects R (deleteStale baseFolder u).
Proof.
  unfold deleteStale.
  step; [apply (read_steps (λ h, bool_decide (is_Some (newBookmarks h !! u))))|].
  match goal with |- respects R (if ?b then _ else _) => destruct b end; [step|].
  step; [|step].
  step; [apply (read_steps (λ h, search_nodes _ (nodes h)))|].
  step. unfold deleteResult. destruct (_ && _); [|step].
  step; [step | apply R_stats].
Qed.

(** Such a relation holds between the heap on which the run has allocated
    its objects and the heap it leaves behind, up to the save. *)
Lemma run_steps opts h h' r :
  (∀ h3, R h3 (finish_run h3)) →
  incrementalSync opts h = (h', r) → R (init_run h) h'.
Proof.
  intros Hsave Hrun. rewrite <- run_init in Hrun. revert h' r Hrun.
  apply (run_respects R); [exact R_trans | apply R_refl | | | | exact Hsave].
  - intros parentFolder t. apply walk_steps.
  - unfold unsorted_phase. case_bool_decide; [apply syncUnsortedCollection_steps | step].
  - step. apply deleteStale_steps.
Qed.
End steps.

(** * When the state is written *)

Lemma phases_unwritten opts previousBookmarks :
  (∀ parentFolder t,
     respects unwritten
       (processCollectionForIncremental (raindropClient opts) previousBookmarks
          parentFolder t))
  ∧ respects unwritten (unsorted_phase opts previousBookmarks)
  ∧ respects unwritten
      (for_of (deleteStale (baseFolder opts)) (map_to_list previousBookmarks).*1).
Proof.
  assert (∀ h, unwritten h h) as Hrefl by done.
  assert (∀ a b c, unwritten a b → unwritten b c → unwritten a c) as Htrans
    by (unfold unwritten; congruence).
  assert (∀ parent t u, respects unwritten (chrome_bookmarks_create parent t u)) as Hc.
  { intros parent t u a b r Hab.
    apply create_inv in Hab as [(_ & -> & _)|(_ & _ & _ & ->)]; done. }
  assert (∀ i t, respects unwritten (chrome_bookmarks_update i t)) as Hu.
  { intros i t a b r Hab.
    apply update_inv in Hab as [(_ & -> & _)|(? & _ & _ & ->)]; done. }
  assert (∀ i p, respects unwritten (chrome_bookmarks_move i p)) as Hm.
  { intros i p a b r Hab.
    apply move_inv in Hab as [(_ & -> & _)|(? & _ & _ & _ & ->)]; done. }
  assert (∀ i, respects unwritten (chrome_bookmarks_remove i)) as Hr.
  { intros i a b r Hab.
    apply remove_inv in Hab as [(_ & ->)|(? & _ & _ & ->)]; done. }
  assert (∀ cid rd,
            respects unwritten (newBookmarks_set (rd_link rd) (bookmarkState_of cid rd)))
    as Hrec by (by intros cid rd a b r [= <- <-]).
  assert (∀ k v, respects unwritten (collectionFolders_set k v)) as Hf
    by (by intros k v a b r [= <- <-]).
  assert (∀ f, respects unwritten (modify (λ h, set_stats (f (stats h)) h))) as Hst
    by (by intros f a b r [= <- <-]).
  split; [|split].
  - intros parentFolder t. by apply walk_steps.
  - unfold unsorted_phase. case_bool_decide.
    + by apply syncUnsortedCollection_steps.
    + by apply respects_ret.
  - apply respects_for_of; [done | done |]. apply Forall_forall. intros u _.
    by apply deleteStale_steps.
Qed.

Lemma unsorted_phase_static opts previousBookmarks :
  respects static (unsorted_phase opts previousBookmarks).
Proof.
  unfold unsorted_phase. case_bool_decide.
  - apply syncUnsortedCollection_static.
  - apply respects_ret, static_refl.
Qed.

Lemma deletion_pass_static baseFolder (us : list string) :
  respects static (for_of (deleteStale baseFolder) us).
Proof.
  apply respects_for_of; [apply static_refl | apply static_trans |].
  apply Forall_forall. intros u _. apply deleteStale_static.
Qed.

(** The deletion pass catches what its calls throw. *)
Lemma deletion_pass_returns baseFolder (us : list string) h h' r :
  for_of (deleteStale baseFolder) us h = (h', r) → r = Return tt.
Proof.
  intros Hrun.
  destruct (deletion_pass_spec (λ _, True) _ _ _ _ _ Hrun) as [-> _]; [|done].
  by apply Forall_forall.
Qed.

(** C4: a run that returns has gone through the walk, the unsorted pass and
    the deletion pass, none of which writes to the storage, and has then
    written the state once: what was written are the maps that the three
    phases built, and the bookmark store at the moment of the write was the
    store that the deletion pass left, which is also the store the run
    leaves behind.  A run that throws has written nothing: the storage, the
    count of writes and the cached state are as it found them, and it is the
    walk or the unsorted pass that threw. *)
Theorem sync_state_written_once_at_the_end opts h :
  let walk := processCollectionForIncremental (raindropClient opts) (previous_of h)
                (baseFolder opts) (tree opts) in
  let sweep := for_of (deleteStale (baseFolder opts)) (map_to_list (previous_of h)).*1 in
  match incrementalSync opts h with
  | (h', Return s) =>
      storage_writes h' = S (storage_writes h)
      ∧ storage h' = Some {| stored_bookmarks := newBookmarks h';
                             stored_collectionFolders :=
                               kmap Number_toString (newCollectionFolders h');
                             stored_lastSync := ISO (clock h) |}
      ∧ s = stats h'
      ∧ ∃ h1 h2 h3,
          walk (init_run h) = (h1, Return tt)
          ∧ unsorted_phase opts (previous_of h) h1 = (h2, Return tt)
          ∧ sweep h2 = (h3, Return tt)
          ∧ (storage h3 = storage h ∧ storage_writes h3 = storage_writes h
             ∧ this_syncState h3 = this_syncState h
             ∧ nodes_at_write h3 = nodes_at_write h)
          ∧ (nodes h' = nodes h3 ∧ newBookmarks h' = newBookmarks h3
             ∧ newCollectionFolders h' = newCollectionFolders h3
             ∧ stats h' = stats h3)
          ∧ nodes_at_write h' = Some (nodes h3)
          ∧ this_syncState h' = Some {| bookmarks := newBookmarks h3;
                                        collectionFolders := newCollectionFolders h3;
                                        lastSync := TimeValue (clock h) |}
  | (h', Throw) =>
      storage_writes h' = storage_writes h ∧ storage h' = storage h
      ∧ this_syncState h' = this_syncState h
      ∧ nodes_at_write h' = nodes_at_write h
      ∧ (walk (init_run h) = (h', Throw)
         ∨ ∃ h1, walk (init_run h) = (h1, Return tt)
                 ∧ unsorted_phase opts (previous_of h) h1 = (h', Throw))
  end.
Proof.
  intros walk sweep. rewrite run_cases. fold walk. fold sweep.
  destruct (phases_unwritten opts (previous_of h)) as (Hw1 & Hw2 & Hw3).
  assert (static h (init_run h)) as Hs0 by done.
  destruct (walk (init_run h)) as [h1 r1] eqn:Hwalk.
  pose proof (static_trans _ _ _ Hs0 (walk_static _ _ _ _ _ _ _ Hwalk)) as Hs1.
  pose proof (Hw1 _ _ _ _ _ Hwalk) as Hg1.
  destruct r1 as [[]|].
  2:{ unfold static in Hs1. destruct Hs1 as (? & ? & _ & ?). split; [done|].
      split; [done|]. split; [done|]. split; [done|]. by left. }
  destruct (unsorted_phase opts (previous_of h) h1) as [h2 r2] eqn:Hunsorted.
  pose proof (unsorted_phase_static _ _ _ _ _ Hunsorted) as Hs2.
  pose proof (Hw2 _ _ _ Hunsorted) as Hg2.
  pose proof (static_trans _ _ _ Hs1 Hs2) as Hs12.
  destruct r2 as [[]|].
  2:{ unfold static in Hs12. destruct Hs12 as (? & ? & _ & ?). split; [done|].
      split; [done|]. split; [done|].
      split; [unfold unwritten in *; simpl in *; congruence|]. right. eauto. }
  destruct (sweep h2) as [h3 r3] eqn:Hdel.
  pose proof (deletion_pass_returns _ _ _ _ _ Hdel) as ->.
  pose proof (deletion_pass_static _ _ _ _ _ Hdel) as Hs3.
  pose proof (Hw3 _ _ _ Hdel) as Hg3.
  pose proof (static_trans _ _ _ Hs12 Hs3) as Hs123. unfold static in Hs123.
  destruct Hs123 as (Hst & Hwr & Hcl & Hts).
  simpl. rewrite Hwr, Hcl. split; [done|]. split; [done|]. split; [done|].
  exists h1, h2, h3. split; [done|]. split; [done|]. split; [done|].
  split; [|done]. split; [done|]. split; [done|]. split; [done|].
  unfold unwritten in *. simpl in *. congruence.
Qed.

(** The write comes after the removals: in the run that removes the
    bookmark ["3"], the store recorded at the write no longer holds it. *)
Lemma write_follows_the_removals :
  let h := Fixtures.stale_heap in
  let h' := (incrementalSync Fixtures.stale_opts h).1 in
  nodes_at_write h = None
  ∧ is_Some (nodes h !! "3")
  ∧ nodes_at_write h' = Some (nodes h')
  ∧ nodes h' !! "3" = None.
Proof. vm_compute. split; [done|]. split; [by eexists|]. done. Qed.

(** * The first run: one new bookmark for every item *)

Lemma bookmarks_of_insert_url (m : gmap string Bookmark) i b u :
  m !! i = None → bm_url b = Some u →
  bookmarks_of (<[i := b]> m) ≡ₚ (u, bm_title b) :: bookmarks_of m.
Proof.
  intros Hi Hu. unfold bookmarks_of. rewrite map_to_list_insert by done.
  simpl. by rewrite Hu.
Qed.

Lemma bookmarks_of_insert_folder (m : gmap string Bookmark) i b :
  m !! i = None → bm_url b = None →
  bookmarks_of (<[i := b]> m) ≡ₚ bookmarks_of m.
Proof.
  intros Hi Hu. unfold bookmarks_of. rewrite map_to_list_insert by done.
  simpl. by rewrite Hu.
Qed.

(** [a] and [b] hold the same bookmarks, and [b] is well formed if [a] is. *)
Lemma create_folder_same_bookmarks parent t h h' r :
  chrome_bookmarks_create parent t None h = (h', r) → wf h →
  wf h' ∧ bookmarks_in h' ≡ₚ bookmarks_in h.
Proof.
  intros Hrun Hwf.
  destruct (create_safe (λ _, False) _ _ _ _ _ _ Hrun) as [_ Hs].
  destruct (Hs Hwf) as [Hwf' _]. split; [done|].
  apply create_inv in Hrun as [(_ & -> & _)|(_ & _ & _ & ->)]; [done|].
  unfold bookmarks_in. simpl. apply bookmarks_of_insert_folder; [|done].
  by apply wf_fresh.
Qed.

Lemma resolveFolder_same_bookmarks parentFolder d h h' r :
  resolveFolder parentFolder d h = (h', r) → wf h →
  wf h' ∧ bookmarks_in h' ≡ₚ bookmarks_in h.
Proof.
  set (R := λ a b : Heap, wf a → wf b ∧ bookmarks_in b ≡ₚ bookmarks_in a).
  assert (∀ h, R h h) as Hrefl by (by intros a).
  assert (∀ a b c, R a b → R b c → R a c) as Htrans.
  { intros a b c Hab Hbc Ha. destruct (Hab Ha) as [Hb Hpb].
    destruct (Hbc Hb) as [Hc Hpc]. split; [done|]. by rewrite Hpc. }
  assert (respects R (chrome_bookmarks_create (id parentFolder) (title_of d) None)) as Hc.
  { intros a b r' Hab. unfold R. by eapply create_folder_same_bookmarks. }
  revert h h' r. change (respects R (resolveFolder parentFolder d)).
  unfold resolveFolder. destruct (truthy (title_of d)); [|by apply respects_ret].
  apply respects_bind; [done | |intros existingFolderId].
  { by apply (read_steps R Hrefl (λ h, newCollectionFolders h !! collectionId_of d)). }
  apply respects_bind; [done | |intros folder].
  { destruct (truthy_opt existingFolderId); [|done].
    apply respects_try_catch; [done | by apply getFolderById_steps | done]. }
  apply respects_bind; [done | |intros _; by apply respects_ret].
  by intros a b r' [= <- <-].
Qed.

(** With no previous state for its link, a raindrop of the walk gets a new
    bookmark. *)
Lemma processRaindrop_creates folder cid previousBookmarks rd h :
  previousBookmarks !! rd_link rd = None →
  wf h → is_folder h (id folder) = true → rd_link rd ≠ "" →
  ∃ h', processRaindrop folder cid previousBookmarks rd h = (h', Return tt)
        ∧ bookmarks_in h' ≡ₚ link_and_title rd :: bookmarks_in h.
Proof.
  intros Hprev Hwf Hf Hlink.
  unfold processRaindrop, bind, newBookmarks_set, modify. rewrite Hprev.
  set (h1 := set_newBookmarks _ h).
  destruct (create_returns (id folder) (rd_title rd) (Some (rd_link rd)) h1)
    as (h2 & f & Hc & _); [done | congruence|].
  rewrite Hc. unfold stats_added_incr, modify. eexists. split; [done|].
  apply create_inv in Hc as [(? & _)|(_ & _ & _ & ->)]; [done|].
  unfold bookmarks_in. simpl.
  apply (bookmarks_of_insert_url _ _ (mkBookmark _ _ _)); [|done].
  by apply (wf_fresh h).
Qed.

(** The walk of a first run adds one bookmark for each item it lists. *)
Lemma walk_creates c baseFolder t h0 h1 :
  wf h0 → folders_ok h0 → is_folder h0 (id baseFolder) = true →
  Forall (λ x, rd_link x.2 ≠ "") (items_of c t) →
  processCollectionForIncremental c ∅ baseFolder t h0 = (h1, Return tt) →
  bookmarks_in h1 ≡ₚ (link_and_title <$> (items_of c t).*2) ++ bookmarks_in h0.
Proof.
  intros Hwf0 Hok0 Hbase Hlinks Hwalk.
  pose (Inv := λ (l : list (option Collection * Raindrop)) (h : Heap),
          wf h ∧ folders_ok h
          ∧ bookmarks_in h ≡ₚ (link_and_title <$> l.*2) ++ bookmarks_in h0).
  pose (F := λ (d : option Collection) (f : BookmarkTreeNode) (h : Heap),
          is_folder h (id f) = true).
  assert (triple (λ h, Inv [] h ∧ Forall (λ q, F q.1 q.2 h) [(None, baseFolder)])
            (processCollectionForIncremental c ∅ baseFolder t)
            (λ _ h, Inv ([] ++ items_of c t) h
                    ∧ Forall (λ q, F q.1 q.2 h) [(None, baseFolder)])
            (λ _, True)) as Htriple.
  { apply (walk_rule Inv F (λ _, True)).
    - intros qs l dp p d h [(Hwf & Hok & Hbk) Hfr].
      destruct (resolveFolder p d h) as [h2 [f|]] eqn:Hrun; [|done].
      destruct (resolveFolder_spec (λ _, False) _ _ _ _ _ Hrun)
        as ([_ Hs] & _ & _ & _ & Htot).
      apply Forall_cons in Hfr as Hfr'. destruct Hfr' as [Hp _]. simpl in Hp.
      destruct (Htot Hwf Hp Hok) as (f' & [= <-] & Hf & Hok2).
      destruct (Hs Hwf) as [Hwf2 Hk].
      destruct (resolveFolder_same_bookmarks _ _ _ _ _ Hrun Hwf) as [_ Hsame].
      split.
      + split; [done|]. split; [done|]. by rewrite Hsame.
      + apply Forall_cons. split; [done|]. by eapply frames_keep.
    - intros qs l d f rd Hin h [(Hwf & Hok & Hbk) Hfr].
      apply Forall_cons in Hfr as Hfr'. destruct Hfr' as [Hf _]. simpl in Hf.
      rewrite Forall_forall in Hlinks.
      destruct (processRaindrop_creates f (collectionId_of d) ∅ rd h)
        as (h2 & Hrun & Hnew); [done | done | done | by apply (Hlinks (d, rd))|].
      rewrite Hrun.
      destruct (processRaindrop_spec (λ _, False) _ _ d _ _ _ _ Hrun)
        as ([_ Hs] & Hcf & _).
      { intros [? Hu]. by rewrite lookup_empty in Hu. }
      destruct (Hs Hwf) as [Hwf2 Hk].
      split.
      + split; [done|]. split; [by eapply folders_ok_keeps|].
        rewrite Hnew, Hbk, !fmap_app. simpl.
        rewrite <- app_assoc. simpl. by rewrite <- Permutation_middle.
      + by eapply frames_keep.
    - done. }
  specialize (Htriple h0). rewrite Hwalk in Htriple.
  destruct Htriple as [(_ & _ & Hbk) _]; [|done].
  split; [|by apply Forall_singleton]. done.
Qed.

(** With no previous state, a raindrop of the unsorted listing is skipped
    when its link is recorded, and gets a new bookmark when it is not. *)
Lemma processUnsortedRaindrop_creates unsortedFolder rd h :
  wf h → is_folder h (id unsortedFolder) = true → rd_link rd ≠ "" →
  ∃ h', processUnsortedRaindrop unsortedFolder ∅ rd h = (h', Return tt)
        ∧ if bool_decide (rd_link rd ∈ dom (newBookmarks h)) then h' = h
          else dom (newBookmarks h') = {[rd_link rd]} ∪ dom (newBookmarks h)
               ∧ bookmarks_in h' ≡ₚ link_and_title rd :: bookmarks_in h.
Proof.
  intros Hwf Hf Hlink. unfold processUnsortedRaindrop, bind, newBookmarks_has.
  rewrite (bool_decide_ext (is_Some (newBookmarks h !! rd_link rd))
                           (rd_link rd ∈ dom (newBookmarks h)))
    by (by rewrite elem_of_dom).
  case_bool_decide as Hseen; [by exists h|].
  unfold newBookmarks_set, modify. rewrite lookup_empty.
  set (h0 := set_newBookmarks _ h).
  destruct (create_returns (id unsortedFolder) (rd_title rd) (Some (rd_link rd)) h0)
    as (h2 & f & Hc & _); [done | congruence|].
  rewrite Hc. unfold stats_added_incr, modify. eexists. split; [done|].
  apply create_inv in Hc as [(? & _)|(_ & _ & _ & ->)]; [done|].
  split; [simpl; by rewrite dom_insert_L|].
  unfold bookmarks_in. simpl.
  apply (bookmarks_of_insert_url _ _ (mkBookmark _ _ _)); [|done].
  by apply (wf_fresh h).
Qed.

(** With no previous state, the loop over the unsorted raindrops adds one
    bookmark for each raindrop it does not skip. *)
Lemma unsorted_loop_creates unsortedFolder us :
  ∀ h, wf h → is_folder h (id unsortedFolder) = true →
       Forall (λ rd, rd_link rd ≠ "") us →
       ∃ h', for_of (processUnsortedRaindrop unsortedFolder ∅) us h = (h', Return tt)
             ∧ bookmarks_in h'
               ≡ₚ (link_and_title <$> first_listings (dom (newBookmarks h)) us)
                  ++ bookmarks_in h.
Proof.
  induction us as [|x us IH]; intros h Hwf Hf Hlinks.
  - exists h. done.
  - apply Forall_cons in Hlinks as [Hx Hlinks]. simpl.
    unfold bind at 1.
    destruct (processUnsortedRaindrop_creates unsortedFolder x h Hwf Hf Hx)
      as (h1 & Hstep & Heffect).
    rewrite Hstep.
    destruct (processUnsortedRaindrop_spec (λ _, False) _ _ _ _ _ _ Hstep)
      as ([_ Hs] & _).
    { intros _ [? Hu]. by rewrite lookup_empty in Hu. }
    destruct (Hs Hwf) as [Hwf1 Hk1].
    assert (is_folder h1 (id unsortedFolder) = true) as Hf1 by by eapply keeps_folder.
    destruct (IH h1 Hwf1 Hf1 Hlinks) as (h' & Hrun & Hbk).
    exists h'. split; [done|]. rewrite Hbk.
    destruct (bool_decide (rd_link x ∈ dom (newBookmarks h))).
    + by subst h1.
    + destruct Heffect as [-> ->]. simpl. by rewrite <- Permutation_middle.
Qed.

Lemma unsorted_folder_same_bookmarks baseFolder existingFolderId h h' r :
  (if truthy_opt existingFolderId then
     try_catch (getFolderById (default "" existingFolderId))
               (chrome_bookmarks_create (id baseFolder) UNSORTED_TITLE None)
   else
     let* children := chrome_bookmarks_getChildren (id baseFolder) in
     match List.find (λ c, bool_decide (title c = UNSORTED_TITLE)
                           && negb (truthy_opt (url c))) children with
     | Some existing => ret existing
     | None => chrome_bookmarks_create (id baseFolder) UNSORTED_TITLE None
     end) h = (h', r) →
  wf h → bookmarks_in h' ≡ₚ bookmarks_in h.
Proof.
  set (R := λ a b : Heap, wf a → bookmarks_in b ≡ₚ bookmarks_in a).
  assert (∀ h, R h h) as Hrefl by (by unfold R; intros a _).
  assert (respects R (chrome_bookmarks_create (id baseFolder) UNSORTED_TITLE None)) as Hc.
  { intros a b r' Hab Ha. by destruct (create_folder_same_bookmarks _ _ _ _ _ Hab Ha). }
  destruct (truthy_opt existingFolderId).
  - unfold try_catch. destruct (getFolderById _ h) as [h1 r1] eqn:Hg.
    apply getFolderById_inv in Hg as [-> _]. destruct r1; [by intros [= <- <-]|].
    apply Hc.
  - unfold bind. destruct (chrome_bookmarks_getChildren _ h) as [h1 r1] eqn:Hg.
    apply getChildren_inv in Hg as [-> _]. destruct r1 as [children|]; [|by intros [= <- <-]].
    destruct (List.find _ children); [by intros [= <- <-] | apply Hc].
Qed.

(** The unsorted pass of a first run adds one bookmark for each raindrop of
    its listing that it does not skip. *)
Lemma unsorted_phase_creates opts h1 h2 :
  wf h1 → folders_ok h1 → is_folder h1 (id (baseFolder opts)) = true →
  Forall (λ rd, rd_link rd ≠ "") (unsorted_listing opts) →
  unsorted_phase opts ∅ h1 = (h2, Return tt) →
  bookmarks_in h2
  ≡ₚ (link_and_title <$> first_listings (dom (newBookmarks h1)) (unsorted_listing opts))
     ++ bookmarks_in h1.
Proof.
  unfold unsorted_phase, unsorted_listing. intros Hwf Hok Hbase Hlinks Hrun.
  case_bool_decide; [|unfold ret in Hrun; by simplify_eq].
  unfold syncUnsortedCollection in Hrun.
  unfold bind at 1 in Hrun. unfold collectionFolders_get in Hrun.
  unfold bind at 1 in Hrun.
  destruct (unsorted_folder_total (λ _, False) (baseFolder opts) h1 Hwf Hok Hbase)
    as (h1' & f & Hpre & Hwf1 & _ & (Hnb1 & _) & Hf1 & _).
  pose proof (unsorted_folder_same_bookmarks _ _ _ _ _ Hpre Hwf) as Hsame.
  rewrite Hpre in Hrun.
  unfold bind at 1 in Hrun. unfold collectionFolders_set, modify in Hrun.
  set (h1'' := set_newCollectionFolders _ h1') in Hrun.
  unfold try_catch, raindrop_getAllRaindrops in Hrun.
  destruct (getAllRaindrops (raindropClient opts) UNSORTED_ID) as [us|]; simpl in *.
  - unfold bind, ret in Hrun.
    destruct (unsorted_loop_creates f us h1'') as (h3 & Hloop & Hbk); [done..|].
    rewrite Hloop in Hrun. simplify_eq. rewrite Hbk. simpl. rewrite Hnb1.
    change (bookmarks_in h1'') with (bookmarks_in h1'). by rewrite Hsame.
  - unfold bind, throw, ret in Hrun. simplify_eq. done.
Qed.

Lemma first_listings_length (seen : gset string) us :
  size (list_to_set (rd_link <$> us) ∖ seen : gset string)
  = length (first_listings seen us).
Proof.
  revert seen. induction us as [|x us IH]; intros seen.
  - simpl. by rewrite difference_disjoint_L, size_empty by set_solver.
  - rewrite fmap_cons, list_to_set_cons. simpl. case_bool_decide as Hin.
    + rewrite <- IH. f_equal. clear -Hin. set_solver.
    + simpl. rewrite <- IH.
      assert (({[rd_link x]} ∪ list_to_set (rd_link <$> us)) ∖ seen
              = ({[rd_link x]} : gset string)
                ∪ (list_to_set (rd_link <$> us) ∖ ({[rd_link x]} ∪ seen))) as ->
        by (clear -Hin; apply set_eq; intros y;
            destruct (decide (y = rd_link x)) as [->|Hne]; set_solver).
      by rewrite size_add_fresh by set_solver.
Qed.

(** C10, as amended: with nothing persisted, a run that is ready to go
    through returns; every raindrop the walk lists, and every unsorted
    raindrop whose link is met for the first time, takes the create branch:
    the bookmarks of the store after the run are those it held before and
    one new bookmark, with the raindrop's link and title, for each of these
    raindrops; [added] counts them; nothing is updated, deleted or left
    unchanged, and every node of the destination stays as it was. *)
Theorem first_run_adds_everything opts h :
  storage h = None →
  run_ready opts h →
  ∃ h' s,
    incrementalSync opts h = (h', Return s)
    ∧ added s = length (items_of (raindropClient opts) (tree opts))
                + size (new_unsorted_links opts)
    ∧ updated s = 0 ∧ deleted s = 0 ∧ unchanged s = 0
    ∧ (∀ i b, nodes h !! i = Some b → nodes h' !! i = Some b)
    ∧ bookmarks_in h' ≡ₚ (link_and_title <$> handled_raindrops opts) ++ bookmarks_in h
    ∧ added s = length (handled_raindrops opts).
Proof.
  intros Hsto Hready.
  destruct (run_spec opts h Hready)
    as (h' & Hrun & Hwf' & Hk & Hnb & Ha & Hu & Hn & Hd & _).
  assert (previous_of h = ∅) as Hprev by (unfold previous_of; by rewrite Hsto).
  assert (bookmarks_in h'
          ≡ₚ (link_and_title <$> handled_raindrops opts) ++ bookmarks_in h) as Hcreated.
  { pose proof Hready as (Hwf & Hbase & _ & Hlinks & Hulinks).
    destruct (run_phases opts h Hready)
      as (h1 & h2 & h3 & Hwalk & Hunsorted & Hdel & Hrun'
          & (Hwf1 & Hok1 & Hbase1 & _ & Hnb1 & _) & _).
    rewrite Hprev in Hwalk, Hunsorted, Hdel.
    rewrite map_to_list_empty in Hdel. unfold for_of, ret in Hdel.
    rewrite Hrun in Hrun'. injection Hrun' as -> _.
    injection Hdel as <-.
    change (bookmarks_in (finish_run h2)) with (bookmarks_in h2).
    rewrite (unsorted_phase_creates opts h1 h2) by done.
    assert (folders_ok (init_run h)) as Hok0 by (by intros cid i).
    rewrite (walk_creates _ _ _ (init_run h) h1 Hwf Hok0 Hbase Hlinks Hwalk).
    change (bookmarks_in (init_run h)) with (bookmarks_in h).
    unfold handled_raindrops. rewrite fmap_app, <- app_assoc.
    rewrite Hnb1, record_items_dom, dom_empty_L, union_empty_r_L.
    rewrite !app_assoc. f_equiv. apply Permutation_app_comm. }
  rewrite Hprev in *.
  exists h', (stats h'). split; [done|].
  unfold run_books in *.
  set (items := items_of (raindropClient opts) (tree opts)) in *.
  destruct (unsorted_empty (unsorted_listing opts) (record_items items ∅)
              (tally ∅ items (mkStats 0 0 0 0))) as (Ha' & Hu' & Hd' & Hn').
  rewrite tally_empty in *. simpl in *.
  assert (added (stats h') = length items + size (new_unsorted_links opts)) as Hadded.
  { rewrite Ha, Ha'. rewrite record_items_dom, dom_empty_L, union_empty_r_L. done. }
  split; [done|].
  split; [congruence|]. split.
  { apply Hd. intros u [? Hu0]. by rewrite lookup_empty in Hu0. }
  split; [congruence|].
  split.
  { intros i b Hb. apply Hk; [done|]. intros u _ [? Hu0]. by rewrite lookup_empty in Hu0. }
  split; [done|].
  rewrite Hadded. unfold handled_raindrops. fold items.
  rewrite length_app, length_fmap. f_equal.
  unfold new_unsorted_links. fold items. apply first_listings_length.
Qed.

(** * What a run leaves alone *)

(** X1: whatever its outcome, return or throw, a run on a well-formed store
    changes or removes no folder, and no bookmark whose URL is not a key of
    the bookmarks of the previously persisted state. *)
Theorem run_leaves_untracked_nodes_alone opts h h' r :
  wf h →
  incrementalSync opts h = (h', r) →
  (∀ i b, nodes h !! i = Some b →
          (∀ u, bm_url b = Some u → previous_of h !! u = None) →
          nodes h' !! i = Some b)
  ∧ (∀ i, is_folder h i = true → is_folder h' i = true ∧ nodes h' !! i = nodes h !! i).
Proof.
  intros Hwf Hrun. destruct (run_keeps opts h h' r Hwf Hrun) as [_ Hk]. split.
  - intros i b Hb Hu. apply Hk; [done|]. intros u Hbu [st Hst].
    specialize (Hu u Hbu). congruence.
  - intros i Hi. split; [by eapply keeps_folder|].
    apply is_folder_spec in Hi as (b & Hb & Hnone). rewrite Hb.
    apply Hk; [done|]. intros u Hbu. congruence.
Qed.

(** * The state a run saves *)


Lemma run_entries_sound opts h h' r :
  incrementalSync opts h = (h', r) → entries_sound (newBookmarks h').
Proof.
  intros Hrun.
  set (R := λ a b : Heap, entries_sound (newBookmarks a) → entries_sound (newBookmarks b)).
  assert (R (init_run h) h') as HR; [|by apply HR; intros u b].
  eapply (run_steps R); [| | | | | | | | | | exact Hrun]; unfold R.
  - done.
  - naive_solver.
  - intros parent t u a b r' Hab. apply create_locals in Hab as (-> & _). done.
  - intros i t a b r' Hab. by apply update_inv in Hab as [(_ & -> & _)|(? & _ & _ & ->)].
  - intros i p a b r' Hab. by apply move_inv in Hab as [(_ & -> & _)|(? & _ & _ & _ & ->)].
  - intros i a b r' Hab. by apply remove_inv in Hab as [(_ & ->)|(? & _ & _ & ->)].
  - intros cid rd a b r' [= <- <-] Ha u st. simpl.
    destruct (decide (u = rd_link rd)) as [->|Hne].
    + rewrite lookup_insert_eq. intros [= <-]. split; [done|]. simpl.
      unfold truthy. case_bool_decide; simpl; [done | congruence].
    + rewrite lookup_insert_ne by done. apply Ha.
  - by intros k v a b r' [= <- <-].
  - by intros f a b r' [= <- <-].
  - done.
Qed.

(** X2: the state that a returning run persists files every bookmark state
    under the state's own URL, and holds no empty cover: a raindrop without
    a cover is stored without one. *)
Theorem saved_entries_are_keyed_by_their_url opts h h' s :
  incrementalSync opts h = (h', Return s) →
  ∃ st, storage h' = Some st
        ∧ ∀ u b, stored_bookmarks st !! u = Some b →
                 bs_url b = u ∧ bs_cover b ≠ Some "".
Proof.
  intros Hrun. destruct (run_returns_saved _ _ _ _ Hrun) as (_ & Hst & _).
  eexists. split; [exact Hst|]. simpl. by eapply run_entries_sound.
Qed.

(** * Queries after a run *)

Lemma run_then_load opts h h' s :
  incrementalSync opts h = (h', Return s) →
  loadSyncState h'
  = (h', Return (Some {| bookmarks := newBookmarks h';
                         collectionFolders :=
                           parse_keys (kmap Number_toString (newCollectionFolders h'));
                         lastSync := TimeValue (clock h') |})).
Proof.
  intros Hrun. destruct (run_returns_saved _ _ _ _ Hrun) as (_ & Hst & _).
  by apply loadSyncState_saved.
Qed.

Lemma record_items_app l1 l2 m :
  record_items (l1 ++ l2) m = record_items l2 (record_items l1 m).
Proof. unfold record_items. apply foldl_app. Qed.

(** In the walk, the last listing of a URL is the one recorded. *)
Lemma record_items_last l1 x l2 m :
  rd_link x.2 ∉ links_of l2 →
  record_items (l1 ++ x :: l2) m !! rd_link x.2
  = Some (bookmarkState_of (collectionId_of x.1) x.2).
Proof.
  intros Hlast. rewrite record_items_app. simpl.
  change (foldl _ ?a l2) with (record_items l2 a).
  rewrite record_items_lookup_ne by done. by rewrite lookup_insert_eq.
Qed.

Lemma unsorted_items_lookup_ne p l ms u :
  u ∉ rd_link <$> l → (unsorted_items p l ms).1 !! u = ms.1 !! u.
Proof.
  induction l as [|x l IH] using rev_ind; intros Hu; [done|].
  rewrite unsorted_items_snoc. rewrite fmap_app in Hu.
  apply not_elem_of_app in Hu as [Hu1 Hu2].
  unfold unsorted_item. case_bool_decide; [by apply IH|]. simpl.
  rewrite lookup_insert_ne; [by apply IH|].
  intros Heq. apply Hu2. simpl. rewrite Heq. by left.
Qed.

(** In the unsorted pass, the first listing of a URL that the walk has not
    met is the one recorded. *)
Lemma unsorted_items_first p l1 rd l2 m s :
  m !! rd_link rd = None → rd_link rd ∉ rd_link <$> l1 →
  (unsorted_items p (l1 ++ rd :: l2) (m, s)).1 !! rd_link rd
  = Some (bookmarkState_of UNSORTED_ID rd).
Proof.
  intros Hm Hfirst. unfold unsorted_items. rewrite foldl_app. simpl.
  apply unsorted_items_keeps.
  fold (unsorted_items p l1 (m, s)).
  unfold unsorted_item. rewrite unsorted_items_lookup_ne by done. simpl. rewrite Hm.
  rewrite bool_decide_eq_false_2 by (by intros [? ?]). simpl.
  by rewrite lookup_insert_eq.
Qed.

(** X4: after a run that went through, [getRaindropIdForUrl] answers with
    the id of the raindrop that the run recorded for the URL: of the walk's
    listings of a URL the last one, of the unsorted listings of a URL that
    the walk did not list the first one; for a URL that was listed nowhere
    it answers [null], also when the previous state knew an id for it. *)
Theorem getRaindropIdForUrl_after_a_run opts h :
  run_ready opts h →
  ∃ h' s,
    incrementalSync opts h = (h', Return s)
    ∧ (∀ l1 d rd l2,
         items_of (raindropClient opts) (tree opts) = l1 ++ (d, rd) :: l2 →
         rd_link rd ∉ links_of l2 →
         getRaindropIdForUrl (rd_link rd) h' = (h', Return (Some (rd_id rd))))
    ∧ (∀ l1 rd l2,
         unsorted_listing opts = l1 ++ rd :: l2 →
         rd_link rd ∉ links_of (items_of (raindropClient opts) (tree opts)) →
         rd_link rd ∉ rd_link <$> l1 →
         getRaindropIdForUrl (rd_link rd) h' = (h', Return (Some (rd_id rd))))
    ∧ (∀ u, u ∉ links_of (items_of (raindropClient opts) (tree opts)) →
            u ∉ rd_link <$> unsorted_listing opts →
            getRaindropIdForUrl u h' = (h', Return None)).
Proof.
  intros Hready.
  destruct (run_spec opts h Hready) as (h' & Hrun & _ & _ & Hnb & _).
  exists h', (stats h'). split; [done|].
  assert (∀ u, getRaindropIdForUrl u h'
               = (h', Return (bs_raindropId <$> (run_books opts (previous_of h)).1 !! u)))
    as Hquery.
  { intros u. unfold getRaindropIdForUrl, bind.
    rewrite (run_then_load _ _ _ _ Hrun). simpl. by rewrite Hnb. }
  unfold run_books in Hquery. split; [|split].
  - intros l1 d rd l2 Hitems Hlast. rewrite Hquery, Hitems.
    erewrite unsorted_items_keeps;
      last (simpl; by rewrite (record_items_last l1 (d, rd) l2)).
    done.
  - intros l1 rd l2 Hus Hwalk Hfirst. rewrite Hquery, Hus.
    rewrite unsorted_items_first; [done | | done].
    by rewrite record_items_lookup_ne.
  - intros u Hwalk Hus. rewrite Hquery.
    rewrite unsorted_items_lookup_ne by done. simpl.
    by rewrite record_items_lookup_ne.
Qed.

(** X5: after a run that has returned, the two cover queries agree: the
    states that [getAllBookmarksWithCovers] lists, each once, are the
    recorded states for whose URL [getCoverForUrl] finds a cover. *)
Theorem covers_listed_are_the_covers_found
    (Map_entries : MapOrder) opts h h' s :
  (∀ m : gmap string BookmarkState, Map_entries _ _ _ _ m ≡ₚ map_to_list m) →
  incrementalSync opts h = (h', Return s) →
  ∃ l, getAllBookmarksWithCovers Map_entries h' = (h', Return l)
       ∧ NoDup l
       ∧ ∀ b, b ∈ l ↔ newBookmarks h' !! bs_url b = Some b
                      ∧ ∃ c, getCoverForUrl (bs_url b) h' = (h', Return (Some c)).
Proof.
  intros Hperm Hrun. unfold getAllBookmarksWithCovers, getCoverForUrl, bind.
  rewrite (run_then_load _ _ _ _ Hrun). simpl. unfold ret. eexists. split; [done|].
  pose proof (run_entries_sound _ _ _ _ Hrun) as Hsound.
  set (m := newBookmarks h') in *.
  assert (∀ b, b ∈ (Map_entries string _ _ BookmarkState m).*2 ↔ m !! bs_url b = Some b)
    as Hin.
  { intros b. rewrite (Hperm m). rewrite list_elem_of_fmap. split.
    - intros ([u b'] & -> & Hub). apply elem_of_map_to_list in Hub. simpl.
      by destruct (Hsound u b' Hub) as [-> _].
    - intros Hb. exists (bs_url b, b). split; [done|]. by apply elem_of_map_to_list. }
  split.
  - apply NoDup_filter. apply (NoDup_fmap_1 bs_url).
    rewrite (Hperm m). rewrite <- list_fmap_compose.
    rewrite (list_fmap_ext (bs_url ∘ snd) fst (map_to_list m)).
    + apply NoDup_fst_map_to_list.
    + intros i [u b] Hub%list_elem_of_lookup_2%elem_of_map_to_list. simpl.
      by destruct (Hsound u b Hub).
  - intros b. rewrite list_elem_of_filter, Hin. split.
    + intros [Hcover Hb]. split; [done|]. rewrite Hb. simpl.
      destruct (bs_cover b) as [c|]; [by exists c | done].
    + intros [Hb [c Hc]]. split; [|done]. rewrite Hb in Hc. simpl in Hc.
      assert (bs_cover b = Some c) as Hbc by congruence.
      destruct (Hsound _ _ Hb) as [_ Hne]. rewrite Hbc in *. simpl.
      unfold truthy. rewrite bool_decide_eq_false_2; [done | congruence].
Qed.

(** * What a run counts *)


Lemma handled_tally p l s : handled (tally p l s) = handled s + length l.
Proof.
  induction l as [|x l IH] using rev_ind; [unfold handled; simpl; lia|].
  rewrite tally_snoc, length_app. simpl.
  unfold tally_item. unfold handled in *.
  repeat case_match; simpl; lia.
Qed.

Lemma handled_unsorted p us m s :
  handled (unsorted_items p us (m, s)).2
  = handled s + size (list_to_set (rd_link <$> us) ∖ dom m : gset string).
Proof.
  revert m s. induction us as [|x us IH]; intros m s.
  - simpl. rewrite difference_disjoint_L by set_solver. rewrite size_empty. lia.
  - rewrite unsorted_items_cons, fmap_cons, list_to_set_cons. unfold unsorted_item.
    cbn [fst snd]. case_bool_decide as Hin.
    + rewrite IH. f_equal. f_equal.
      apply elem_of_dom in Hin. clear -Hin. set_solver.
    + rewrite IH. rewrite dom_insert_L.
      assert (rd_link x ∉ dom m) as Hnin by (by rewrite elem_of_dom).
      assert (({[rd_link x]} ∪ list_to_set (rd_link <$> us)) ∖ dom m
              = ({[rd_link x]} : gset string)
                ∪ (list_to_set (rd_link <$> us) ∖ ({[rd_link x]} ∪ dom m))) as ->
        by (clear -Hnin; apply set_eq; intros y;
            destruct (decide (y = rd_link x)) as [->|Hne]; set_solver).
      rewrite size_add_fresh by set_solver.
      unfold handled. repeat case_match; simpl; lia.
Qed.

Lemma unsorted_items_dom p us m s :
  dom (unsorted_items p us (m, s)).1 = list_to_set (rd_link <$> us) ∪ dom m.
Proof.
  revert m s. induction us as [|x us IH]; intros m s.
  - simpl. set_solver.
  - rewrite unsorted_items_cons, fmap_cons, list_to_set_cons. unfold unsorted_item.
    cbn [fst snd]. case_bool_decide as Hin.
    + rewrite IH. apply elem_of_dom in Hin. set_solver.
    + rewrite IH, dom_insert_L. set_solver.
Qed.

(** X6: a run that went through has counted every listing once, as added,
    updated or unchanged: every listing of the walk, also of a URL it lists
    again, and every URL of the unsorted listing that the walk did not
    list; the state it persists has one entry for each URL listed. *)
Theorem every_listing_is_counted_once opts h :
  run_ready opts h →
  ∃ h' s st,
    incrementalSync opts h = (h', Return s)
    ∧ added s + updated s + unchanged s
      = length (items_of (raindropClient opts) (tree opts))
        + size (new_unsorted_links opts)
    ∧ storage h' = Some st
    ∧ dom (stored_bookmarks st)
      = list_to_set (links_of (items_of (raindropClient opts) (tree opts)))
        ∪ list_to_set (rd_link <$> unsorted_listing opts).
Proof.
  intros Hready.
  destruct (run_spec opts h Hready)
    as (h' & Hrun & _ & _ & Hnb & Ha & Hu & Hn & _ & Hst).
  eexists h', (stats h'), _. split; [done|]. split; [|split; [exact Hst|]].
  - rewrite Ha, Hu, Hn. fold (handled (run_books opts (previous_of h)).2).
    unfold run_books. rewrite handled_unsorted, handled_tally.
    rewrite record_items_dom, dom_empty_L, union_empty_r_L. done.
  - simpl. rewrite Hnb. unfold run_books.
    rewrite unsorted_items_dom, record_items_dom. set_solver.
Qed.

(** The unsorted pass records and counts nothing when every URL it is
    given is recorded already. *)
Lemma unsorted_items_seen p us m s :
  list_to_set (rd_link <$> us) ⊆ dom m → unsorted_items p us (m, s) = (m, s).
Proof.
  induction us as [|x us IH]; intros Hsub; [done|].
  rewrite unsorted_items_cons. unfold unsorted_item. cbn [fst snd].
  rewrite fmap_cons, list_to_set_cons in Hsub.
  rewrite bool_decide_eq_true_2; [apply IH; set_solver|].
  apply elem_of_dom. set_solver.
Qed.

(** X7: when the root of the source tree carries no collection, the walk
    itself lists the unsorted collection (id -1) at the root; the unsorted
    pass then finds every URL recorded, so that the state and the counters
    of a run that went through are those of the walk alone. *)
Theorem untitled_root_takes_the_unsorted_listing opts h :
  run_ready opts h →
  data (tree opts) = None →
  ∃ h' s st,
    incrementalSync opts h = (h', Return s)
    ∧ storage h' = Some st
    ∧ stored_bookmarks st
      = record_items (items_of (raindropClient opts) (tree opts)) ∅
    ∧ added s = added (tally (previous_of h)
                             (items_of (raindropClient opts) (tree opts))
                             (mkStats 0 0 0 0))
    ∧ updated s = updated (tally (previous_of h)
                                 (items_of (raindropClient opts) (tree opts))
                                 (mkStats 0 0 0 0))
    ∧ unchanged s = unchanged (tally (previous_of h)
                                     (items_of (raindropClient opts) (tree opts))
                                     (mkStats 0 0 0 0))
    ∧ Forall (λ rd, (None, rd) ∈ items_of (raindropClient opts) (tree opts))
             (unsorted_listing opts).
Proof.
  intros Hready Hroot.
  destruct (run_spec opts h Hready)
    as (h' & Hrun & _ & _ & Hnb & Ha & Hu & Hn & _ & Hst).
  assert (Forall (λ rd, (None, rd) ∈ items_of (raindropClient opts) (tree opts))
                 (unsorted_listing opts)) as Hlisted.
  { apply Forall_forall. intros rd Hrd. unfold unsorted_listing in Hrd.
    destruct (tree opts) as [d cs]. simpl in Hroot. subst d.
    rewrite items_of_unfold. apply elem_of_app. left.
    apply list_elem_of_fmap. exists rd. split; [done|].
    case_bool_decide; [exact Hrd | by apply elem_of_nil in Hrd]. }
  assert (run_books opts (previous_of h)
          = (record_items (items_of (raindropClient opts) (tree opts)) ∅,
             tally (previous_of h) (items_of (raindropClient opts) (tree opts))
                   (mkStats 0 0 0 0))) as Hbooks.
  { unfold run_books. apply unsorted_items_seen.
    rewrite record_items_dom. intros u Hu'.
    apply elem_of_list_to_set, list_elem_of_fmap in Hu' as (rd & -> & Hrd).
    apply elem_of_union. left. apply elem_of_list_to_set.
    apply list_elem_of_fmap. exists (None, rd). split; [done|].
    by apply (proj1 (Forall_forall _ _) Hlisted). }
  rewrite Hbooks in *. simpl in *.
  eexists h', (stats h'), _. split; [done|]. split; [exact Hst|]. simpl.
  split; [done|]. split; [done|]. split; [done|]. split; done.
Qed.

(** * The deletion pass at work *)

Lemma for_of_app {A} (body : A → M unit) l1 l2 h :
  for_of body (l1 ++ l2) h
  = match for_of body l1 h with
    | (h1, Return _) => for_of body l2 h1
    | (h1, Throw) => (h1, Throw)
    end.
Proof.
  revert h. induction l1 as [|x l1 IH]; intros h; [done|].
  simpl. unfold bind. destruct (body x h) as [h1 [[]|]]; [apply IH | done].
Qed.

Lemma is_folder_insert_ne i b h j :
  i ≠ j → is_folder (set_nodes (insert i b) h) j = is_folder h j.
Proof. intros Hne. unfold is_folder. simpl. by rewrite lookup_insert_ne. Qed.

Lemma is_folder_insert_same_url i b b' h j :
  nodes h !! i = Some b → bm_url b' = bm_url b →
  is_folder (set_nodes (insert i b') h) j = is_folder h j.
Proof.
  intros Hb Hu. destruct (decide (i = j)) as [->|Hne]; [|by apply is_folder_insert_ne].
  unfold is_folder. simpl. by rewrite lookup_insert_eq, Hb, Hu.
Qed.


Lemma shaped_insert_same_url i b b' h :
  shaped h → nodes h !! i = Some b → bm_url b' = bm_url b →
  (∀ p, bm_parentId b' = Some p → is_folder h p = true) →
  shaped (set_nodes (insert i b') h).
Proof.
  intros [[Hids Hurls] Hpaf] Hb Hu Hp. split; [split|].
  - intros j [bj Hj]. simpl in Hj. apply Hids.
    destruct (decide (i = j)) as [->|Hne]; [by eexists|].
    rewrite lookup_insert_ne in Hj by done. by eexists.
  - intros j bj Hj. simpl in Hj.
    destruct (decide (i = j)) as [->|Hne].
    + rewrite lookup_insert_eq in Hj. simplify_eq. rewrite Hu. by eapply Hurls.
    + rewrite lookup_insert_ne in Hj by done. by eapply Hurls.
  - intros j bj p Hj Hpar. rewrite (is_folder_insert_same_url i b) by done.
    simpl in Hj. destruct (decide (i = j)) as [->|Hne].
    + rewrite lookup_insert_eq in Hj. simplify_eq. by apply Hp.
    + rewrite lookup_insert_ne in Hj by done. by eapply Hpaf.
Qed.

Lemma create_shaped parent t u h h' r :
  chrome_bookmarks_create parent t u h = (h', r) → shaped h → shaped h'.
Proof.
  intros Hrun [Hwf Hpaf].
  pose proof (create_safe (λ _, True) _ _ _ _ _ _ Hrun) as [_ Hsafe].
  destruct (Hsafe Hwf) as [Hwf' _]. split; [done|].
  apply create_inv in Hrun as [(_ & -> & _)|(Hparent & _ & _ & ->)]; [done|].
  pose proof (wf_fresh h Hwf) as Hfresh.
  assert (∀ p, is_folder h p = true →
               is_folder (set_nextId (nextId h + 1)
                            (set_nodes (insert (pretty (nextId h))
                                          (mkBookmark (Some parent) t u)) h)) p = true)
    as Hkeep.
  { intros p Hp. unfold is_folder in *. simpl.
    rewrite lookup_insert_ne; [done|]. intros <-. by rewrite Hfresh in Hp. }
  intros j bj p Hj Hpar. simpl in Hj. apply Hkeep.
  destruct (decide (pretty (nextId h) = j)) as [<-|Hne].
  - rewrite lookup_insert_eq in Hj. by simplify_eq/=.
  - rewrite lookup_insert_ne in Hj by done. by eapply Hpaf.
Qed.

Lemma update_shaped i t h h' r :
  chrome_bookmarks_update i t h = (h', r) → shaped h → shaped h'.
Proof.
  intros Hrun Hsh. apply update_inv in Hrun as [(_ & -> & _)|(b & Hb & _ & ->)]; [done|].
  eapply shaped_insert_same_url; [done..|]. simpl. intros p Hp.
  destruct Hsh as [_ Hpaf]. by eapply Hpaf.
Qed.

Lemma move_shaped i parent h h' r :
  chrome_bookmarks_move i parent h = (h', r) → shaped h → shaped h'.
Proof.
  intros Hrun Hsh.
  apply move_inv in Hrun as [(_ & -> & _)|(b & Hb & Hparent & _ & ->)]; [done|].
  eapply shaped_insert_same_url; [done..|]. simpl. by intros p [= <-].
Qed.

Lemma has_children_spec h i :
  has_children h i = false ↔ ∀ j b, nodes h !! j = Some b → bm_parentId b ≠ Some i.
Proof.
  unfold has_children.
  destruct (search_nodes _ _) as [|bm l] eqn:Hs; split; try done.
  - intros _ j b Hj Hpar.
    assert (node_of j b ∈ search_nodes (λ b, bool_decide (bm_parentId b = Some i)) (nodes h))
      as Hin.
    { apply search_nodes_spec. exists b. simpl. split; [done|]. split; [|done].
      by apply bool_decide_eq_true. }
    rewrite Hs in Hin. by apply elem_of_nil in Hin.
  - intros Hnone.
    assert (bm ∈ search_nodes (λ b, bool_decide (bm_parentId b = Some i)) (nodes h))
      as Hin by (rewrite Hs; by left).
    apply search_nodes_spec in Hin as (b & Hb & Hp%bool_decide_eq_true & _).
    by destruct (Hnone _ _ Hb).
Qed.

Lemma remove_shaped i h h' r :
  chrome_bookmarks_remove i h = (h', r) → shaped h → shaped h'.
Proof.
  intros Hrun [[Hids Hurls] Hpaf]. unfold chrome_bookmarks_remove in Hrun.
  destruct (nodes h !! i) as [b|] eqn:Hb; [|by simplify_eq].
  destruct (has_children h i) eqn:Hc; simplify_eq; [done|].
  pose proof (proj1 (has_children_spec h i) Hc) as Hleaf.
  split; [split|].
  - intros j [bj Hj]. simpl in Hj. apply lookup_delete_Some in Hj as [_ Hj].
    apply Hids. by eexists.
  - intros j bj Hj. simpl in Hj. apply lookup_delete_Some in Hj as [_ Hj].
    by eapply Hurls.
  - intros j bj p Hj Hpar. simpl in Hj. apply lookup_delete_Some in Hj as [_ Hj].
    pose proof (Hpaf _ _ _ Hj Hpar) as Hp. unfold is_folder in *. simpl.
    rewrite lookup_delete_ne; [done|]. intros <-. by destruct (Hleaf _ _ Hj).
Qed.

Lemma run_shaped opts h h' r :
  shaped h → incrementalSync opts h = (h', r) → shaped h'.
Proof.
  intros Hsh Hrun.
  set (R := λ a b : Heap, shaped a → shaped b).
  assert (R (init_run h) h') as HR; [|by apply HR].
  eapply (run_steps R); [| | | | | | | | | | exact Hrun]; unfold R.
  - done.
  - naive_solver.
  - intros parent t u a b r'. apply create_shaped.
  - intros i t a b r'. apply update_shaped.
  - intros i p a b r'. apply move_shaped.
  - intros i a b r'. apply remove_shaped.
  - by intros cid rd a b r' [= <- <-].
  - by intros k v a b r' [= <- <-].
  - by intros f a b r' [= <- <-].
  - done.
Qed.

Lemma only_removes_refl h : only_removes h h.
Proof. by intros j b. Qed.

Lemma only_removes_trans h1 h2 h3 :
  only_removes h1 h2 → only_removes h2 h3 → only_removes h1 h3.
Proof. intros H12 H23 j b Hj. by apply H12, H23. Qed.

Lemma deleteStale_only_removes baseFolder u :
  respects only_removes (deleteStale baseFolder u).
Proof.
  apply deleteStale_steps.
  - apply only_removes_refl.
  - apply only_removes_trans.
  - intros i a b r' Hab. apply remove_inv in Hab as [(_ & ->)|(? & _ & _ & ->)].
    + apply only_removes_refl.
    + intros j bj Hj. simpl in Hj. by apply lookup_delete_Some in Hj as [_ Hj].
  - intros f a b r' [= <- <-]. by intros j bj.
Qed.

Lemma deleteStale_shaped baseFolder u :
  respects (λ a b, shaped a → shaped b) (deleteStale baseFolder u).
Proof.
  apply deleteStale_steps.
  - done.
  - naive_solver.
  - intros i a b r'. apply remove_shaped.
  - by intros f a b r' [= <- <-].
Qed.

(** The results of the search for a stale URL are removed one after the
    other, each one that has a parent. *)
Lemma delete_loop_removes baseFolder u results :
  ∀ h, shaped h →
    NoDup (id <$> results) →
    Forall (λ bm, ∃ b, nodes h !! id bm = Some b ∧ bm = node_of (id bm) b
                       ∧ bm_url b = Some u) results →
    ∃ h', for_of (deleteResult baseFolder) results h = (h', Return tt)
          ∧ shaped h' ∧ only_removes h h'
          ∧ ∀ bm, bm ∈ results → is_Some (parentId bm) → nodes h' !! id bm = None.
Proof.
  induction results as [|bm results IH]; intros h Hsh Hnd Hres.
  - exists h. split; [done|]. split; [done|]. split; [apply only_removes_refl|].
    intros bm Hbm. by apply elem_of_nil in Hbm.
  - rewrite fmap_cons in Hnd. apply NoDup_cons in Hnd as [Hnotin Hnd].
    apply Forall_cons in Hres as [(b & Hb & Hbm & Hurl) Hres].
    assert (∃ h1, deleteResult baseFolder bm h = (h1, Return tt)
                  ∧ shaped h1 ∧ only_removes h h1
                  ∧ (is_Some (parentId bm) → nodes h1 !! id bm = None)
                  ∧ ∀ j, j ≠ id bm → nodes h1 !! j = nodes h !! j)
      as (h1 & Hstep & Hsh1 & Hrem1 & Hgone & Hother).
    { unfold deleteResult. rewrite Hbm. simpl.
      destruct (bm_parentId b) as [p|] eqn:Hp; simpl.
      - destruct Hsh as [Hwf Hpaf].
        pose proof (Hpaf _ _ _ Hb Hp) as Hfolder.
        assert (p ≠ "") as Hne.
        { apply (wf_id_nonempty h); [done|].
          apply is_folder_spec in Hfolder as (pb & Hpb & _). by eexists. }
        unfold truthy. rewrite bool_decide_eq_false_2 by done. simpl.
        unfold isInSyncFolder. simpl.
        assert (has_children h (id bm) = false) as Hleaf.
        { apply has_children_spec. intros j bj Hj Hpar.
          pose proof (Hpaf _ _ _ Hj Hpar) as Hf.
          apply is_folder_spec in Hf as (b' & Hb' & Hnone). congruence. }
        unfold bind, chrome_bookmarks_remove. rewrite Hb, Hleaf.
        unfold stats_deleted_incr, modify.
        eexists. split; [done|]. split.
        { assert (chrome_bookmarks_remove (id bm) h
                  = (set_nodes (delete (id bm)) h, Return tt)) as Hrm.
          { unfold chrome_bookmarks_remove. by rewrite Hb, Hleaf. }
          by apply (remove_shaped _ _ _ _ Hrm). }
        split.
        { intros j bj Hj. simpl in Hj. by apply lookup_delete_Some in Hj as [_ Hj]. }
        split.
        { intros _. simpl. apply lookup_delete_eq. }
        intros j Hj. simpl. by rewrite lookup_delete_ne.
      - exists h. split; [done|]. split; [done|]. split; [apply only_removes_refl|].
        split; [by intros [? ?] | done]. }
    destruct (IH h1 Hsh1 Hnd) as (h' & Hloop & Hsh' & Hrem' & Hgone').
    { apply Forall_forall. intros bm' Hin.
      destruct (proj1 (Forall_forall _ _) Hres bm' Hin) as (b' & Hb' & Hbm' & Hurl').
      exists b'. split; [|done]. rewrite Hother; [done|].
      intros Heq. apply Hnotin. rewrite <- Heq.
      apply list_elem_of_fmap. by exists bm'. }
    exists h'. split.
    { simpl. unfold bind. by rewrite Hstep. }
    split; [done|]. split; [by eapply only_removes_trans|].
    intros bm' Hbm' Hparent. apply elem_of_cons in Hbm' as [->|Hbm'].
    + destruct (nodes h' !! id bm) as [b'|] eqn:Hb'; [|done].
      apply Hrem' in Hb'. by rewrite Hgone in Hb'.
    + by apply Hgone'.
Qed.

(** One stale URL: after its turn, no bookmark with a parent carries it. *)
Lemma deleteStale_removes baseFolder u h :
  shaped h → newBookmarks h !! u = None →
  ∃ h', deleteStale baseFolder u h = (h', Return tt)
        ∧ shaped h' ∧ only_removes h h'
        ∧ ∀ i b, nodes h' !! i = Some b → bm_url b = Some u → bm_parentId b = None.
Proof.
  intros Hsh Hnew. unfold deleteStale, bind, newBookmarks_has.
  rewrite bool_decide_eq_false_2 by (rewrite Hnew; by intros [? ?]).
  unfold try_catch, bind, chrome_bookmarks_search.
  set (results := search_nodes (λ b, bool_decide (bm_url b = Some u)) (nodes h)).
  destruct (delete_loop_removes baseFolder u results h Hsh)
    as (h' & Hloop & Hsh' & Hrem & Hgone).
  { apply search_nodes_NoDup. }
  { apply Forall_forall. intros bm Hbm.
    apply search_nodes_spec in Hbm as (b & Hb & Hu%bool_decide_eq_true & Hbm).
    by exists b. }
  rewrite Hloop. exists h'. split; [done|]. split; [done|]. split; [done|].
  intros i b Hb Hu.
  destruct (bm_parentId b) as [p|] eqn:Hp; [|done].
  pose proof (Hrem _ _ Hb) as Hb0.
  assert (node_of i b ∈ results) as Hin.
  { apply search_nodes_spec. exists b. simpl. split; [done|]. split; [|done].
    by apply bool_decide_eq_true. }
  specialize (Hgone _ Hin). simpl in Hgone. rewrite Hp in Hgone.
  rewrite Hgone in Hb by by eexists. done.
Qed.

(** The whole pass: every key that the run has not recorded gets its turn,
    and nothing that follows brings a bookmark back. *)
Lemma deletion_pass_removes baseFolder keys u h h' r :
  shaped h → u ∈ keys → newBookmarks h !! u = None →
  for_of (deleteStale baseFolder) keys h = (h', r) →
  ∀ i b, nodes h' !! i = Some b → bm_url b = Some u → bm_parentId b = None.
Proof.
  intros Hsh Hin Hnew Hrun.
  apply list_elem_of_split in Hin as (k1 & k2 & ->).
  rewrite for_of_app in Hrun.
  destruct (for_of (deleteStale baseFolder) k1 h) as [h1 r1] eqn:Hk1.
  destruct (deletion_pass_spec (λ _, True) _ _ _ _ _ Hk1) as (-> & _ & Hnb1 & _).
  { by apply Forall_forall. }
  assert (shaped h1) as Hsh1.
  { revert Hk1 Hsh.
    apply (respects_for_of (λ a b, shaped a → shaped b)); [done | naive_solver |].
    apply Forall_forall. intros v _. apply deleteStale_shaped. }
  simpl in Hrun. unfold bind in Hrun.
  destruct (deleteStale_removes baseFolder u h1 Hsh1) as (h2 & Hu & _ & _ & Hgone).
  { by rewrite Hnb1. }
  rewrite Hu in Hrun.
  assert (only_removes h2 h') as Hrest.
  { revert Hrun.
    apply (respects_for_of only_removes);
      [apply only_removes_refl | apply only_removes_trans |].
    apply Forall_forall. intros v _. apply deleteStale_only_removes. }
  intros i b Hb Hurl. apply (Hgone i); [by apply Hrest | done].
Qed.

Lemma phases_shaped opts h h1 h2 r1 r2 :
  shaped h →
  processCollectionForIncremental (raindropClient opts) (previous_of h)
    (baseFolder opts) (tree opts) (init_run h) = (h1, r1) →
  unsorted_phase opts (previous_of h) h1 = (h2, r2) →
  shaped h2.
Proof.
  intros Hsh Hwalk Hunsorted.
  set (R := λ a b : Heap, shaped a → shaped b).
  assert (∀ h, R h h) as Hrefl by (by unfold R).
  assert (∀ a b c, R a b → R b c → R a c) as Htrans by (unfold R; naive_solver).
  assert (∀ parent t u, respects R (chrome_bookmarks_create parent t u)) as Hc
    by (intros parent t u a b r'; unfold R; apply create_shaped).
  assert (∀ k v, respects R (collectionFolders_set k v)) as Hf
    by (intros k v a b r' [= <- <-]; by unfold R).
  assert (∀ cid rd, respects R (newBookmarks_set (rd_link rd) (bookmarkState_of cid rd)))
    as Hrec by (intros cid rd a b r' [= <- <-]; by unfold R).
  assert (∀ f, respects R (modify (λ h, set_stats (f (stats h)) h))) as Hst
    by (intros f a b r' [= <- <-]; by unfold R).
  assert (∀ i t, respects R (chrome_bookmarks_update i t)) as Hu
    by (intros i t a b r'; unfold R; apply update_shaped).
  assert (∀ i p, respects R (chrome_bookmarks_move i p)) as Hm
    by (intros i p a b r'; unfold R; apply move_shaped).
  assert (shaped h1) as Hsh1.
  { by apply (walk_steps R Hrefl Htrans Hc Hu Hm Hrec Hf Hst _ _ _ _ _ _ _ Hwalk). }
  revert Hunsorted Hsh1. unfold unsorted_phase. case_bool_decide.
  - apply (syncUnsortedCollection_steps R Hrefl Htrans Hc Hu Hrec Hf Hst).
  - by intros [= <- <-].
Qed.

(** A ready run on a store in which parents are folders removes the
    bookmarks of every URL it no longer lists. *)
Lemma run_removes_stale opts h :
  run_ready opts h → parents_are_folders h →
  ∃ h', incrementalSync opts h = (h', Return (stats h'))
        ∧ newBookmarks h' = (run_books opts (previous_of h)).1
        ∧ storage h' = Some {| stored_bookmarks := newBookmarks h';
                               stored_collectionFolders :=
                                 kmap Number_toString (newCollectionFolders h');
                               stored_lastSync := ISO (clock h') |}
        ∧ ∀ u, is_Some (previous_of h !! u) → newBookmarks h' !! u = None →
               ∀ i b, nodes h' !! i = Some b → bm_url b = Some u → bm_parentId b = None.
Proof.
  intros Hready Hpaf. pose proof Hready as (Hwf & _).
  destruct (run_phases opts h Hready)
    as (h1 & h2 & h3 & Hwalk & Hunsorted & Hdel & Hrun & _ & (_ & _ & Hbooks)
        & (_ & _ & Hnb3 & _)).
  exists (finish_run h3). split; [exact Hrun|].
  apply (f_equal fst) in Hbooks. simpl in Hbooks.
  split; [simpl; congruence|]. split; [done|].
  intros u [st Hst] Hnew. simpl in Hnew |- *.
  eapply deletion_pass_removes; [| | |exact Hdel].
  - eapply phases_shaped; [|exact Hwalk|exact Hunsorted]. by split.
  - apply list_elem_of_fmap. exists (u, st). split; [done|]. by apply elem_of_map_to_list.
  - by rewrite <- Hnb3.
Qed.

(** X8: a run that went through, on a store in which every parent is a
    folder, has removed the bookmarks of every URL that the previous state
    tracked and the run's listings no longer hold: no bookmark that has a
    parent carries such a URL any more, wherever it was. *)
Theorem stale_bookmarks_are_removed opts h :
  run_ready opts h →
  parents_are_folders h →
  ∃ h' s,
    incrementalSync opts h = (h', Return s)
    ∧ ∀ u, is_Some (previous_of h !! u) →
           u ∉ links_of (items_of (raindropClient opts) (tree opts)) →
           u ∉ rd_link <$> unsorted_listing opts →
           ∀ i b, nodes h' !! i = Some b → bm_url b = Some u → bm_parentId b = None.
Proof.
  intros Hready Hpaf.
  destruct (run_removes_stale opts h Hready Hpaf) as (h' & Hrun & Hnb & _ & Hgone).
  exists h', (stats h'). split; [done|].
  intros u Htracked Hwalk Hus. apply Hgone; [done|].
  rewrite Hnb. unfold run_books.
  rewrite unsorted_items_lookup_ne by done. simpl.
  by rewrite record_items_lookup_ne.
Qed.

(** A loop throws when the body throws at one of its elements, whatever the
    heap. *)
Lemma for_of_throws {A} (body : A → M unit) (l : list A) x :
  x ∈ l → (∀ h, (body x h).2 = Throw) → ∀ h, (for_of body l h).2 = Throw.
Proof.
  intros Hx Hbody. induction l as [|y l IH]; intros h; [by apply elem_of_nil in Hx|].
  simpl. unfold bind. destruct (body y h) as [h1 [[]|]] eqn:Hy; [|done].
  apply elem_of_cons in Hx as [->|Hx]; [|by apply IH].
  specialize (Hbody h). by rewrite Hy in Hbody.
Qed.

Lemma forallb_false {A} (f : A → bool) (l : list A) :
  forallb f l = false ↔ ∃ x, x ∈ l ∧ f x = false.
Proof.
  induction l as [|y l IH]; simpl.
  - split; [done|]. by intros (x & Hx%elem_of_nil & _).
  - rewrite andb_false_iff, IH. split.
    + intros [Hy|(x & Hx & Hfx)]; [exists y | exists x]; split; try done;
        [by left | by right].
    + intros (x & [->|Hx]%elem_of_cons & Hfx); [by left | right; eauto].
Qed.

(** The walk throws when one of its listing requests is rejected. *)
Lemma walk_rejected c previousBookmarks t :
  fetches_ok c t = false →
  ∀ parentFolder h,
    (processCollectionForIncremental c previousBookmarks parentFolder t h).2 = Throw.
Proof.
  induction t as [d cs IH] using TreeNode_induction.
  intros Hfetch parentFolder h. simpl in *.
  unfold bind at 1. destruct (resolveFolder parentFolder d h) as [h1 [folder|]]; [|done].
  unfold bind at 1. unfold raindrop_getAllRaindrops.
  destruct (getAllRaindrops c (collectionId_of d)) as [raindrops|]; [|done].
  unfold ret at 1. unfold bind at 1.
  destruct (for_of _ raindrops h1) as [h2 [[]|]]; [|done].
  rewrite bool_decide_eq_true_2 in Hfetch by (by eexists). simpl in Hfetch.
  apply forallb_false in Hfetch as (child & Hchild & Hbad).
  apply (for_of_throws _ _ child Hchild).
  intros h'. rewrite Forall_forall in IH. by apply IH.
Qed.

Lemma rejected_listing_fails_fetches c t cid :
  getAllRaindrops c cid = None → cid ∈ collectionId_of <$> payloads t →
  fetches_ok c t = false.
Proof.
  intros Hrejected. induction t as [d cs IH] using TreeNode_induction.
  simpl. intros Hin. apply elem_of_cons in Hin as [->|Hin].
  - rewrite Hrejected. by rewrite bool_decide_eq_false_2 by (by intros [? ?]).
  - apply andb_false_iff. right. apply forallb_false.
    apply list_elem_of_fmap in Hin as (d' & -> & Hd').
    apply list_elem_of_In, in_flat_map in Hd' as (child & Hchild & Hd').
    apply list_elem_of_In in Hchild, Hd'.
    exists child. split; [done|].
    rewrite Forall_forall in IH. apply IH; [done|].
    apply list_elem_of_fmap. by exists d'.
Qed.

(** X9: the request for the listing of collection -1, when it is rejected.
    The rejection is caught in the unsorted pass only.  When a node of the
    tree has the collection id -1, as the root without a collection has,
    the walk makes the request itself, nothing catches the rejection, and
    the run throws and leaves the storage as it was.  When no node has, a
    run that is ready goes through: it persists what the walk recorded, and
    the deletion pass removes the bookmarks of every tracked URL that the
    walk did not list, those of the unsorted collection among them. *)
Theorem unsorted_listing_rejection_is_caught_in_its_pass_only opts h :
  getAllRaindrops (raindropClient opts) UNSORTED_ID = None →
  (UNSORTED_ID ∈ collectionId_of <$> payloads (tree opts) →
   ∃ h', incrementalSync opts h = (h', Throw)
         ∧ storage h' = storage h ∧ storage_writes h' = storage_writes h)
  ∧ (run_ready opts h →
     parents_are_folders h →
     includeUnsorted opts ≠ Some false →
     (UNSORTED_ID ∉ collectionId_of <$> payloads (tree opts))
     ∧ ∃ h' s st,
         incrementalSync opts h = (h', Return s)
         ∧ storage h' = Some st
         ∧ stored_bookmarks st
           = record_items (items_of (raindropClient opts) (tree opts)) ∅
         ∧ ∀ u, is_Some (previous_of h !! u) →
                u ∉ links_of (items_of (raindropClient opts) (tree opts)) →
                ∀ i b, nodes h' !! i = Some b → bm_url b = Some u →
                       bm_parentId b = None).
Proof.
  intros Hrejected. split.
  - intros Hin. rewrite run_cases.
    pose proof (walk_rejected (raindropClient opts) (previous_of h) (tree opts)
                  (rejected_listing_fails_fetches _ _ _ Hrejected Hin)
                  (baseFolder opts) (init_run h)) as Hthrow.
    destruct (processCollectionForIncremental _ _ _ _ _) as [h1 r1] eqn:Hwalk.
    simpl in Hthrow. subst r1.
    pose proof (walk_static _ _ _ _ _ _ _ Hwalk) as Hs. unfold static in Hs.
    destruct Hs as (? & ? & _). by exists h1.
  - intros Hready Hpaf Hon. split.
    { intros Hin. destruct Hready as (_ & _ & Hfetch & _).
      by rewrite (rejected_listing_fails_fetches _ _ _ Hrejected Hin) in Hfetch. }
    destruct (run_removes_stale opts h Hready Hpaf) as (h' & Hrun & Hnb & Hst & Hgone).
    assert (unsorted_listing opts = []) as Hnone.
    { unfold unsorted_listing. rewrite Hrejected. by case_bool_decide. }
    unfold run_books in Hnb. rewrite Hnone in Hnb. simpl in Hnb.
    eexists h', (stats h'), _. split; [done|]. split; [exact Hst|]. simpl.
    split; [done|].
    intros u Htracked Hwalk. apply Hgone; [done|].
    rewrite Hnb. by rewrite record_items_lookup_ne.
Qed.

(** * Clearing a folder *)

Lemma under_below m root fuel j : under m root fuel j = true → below m root j.
Proof.
  revert j. induction fuel as [|n IH]; intros j; simpl.
  - rewrite orb_false_r. intros ->%bool_decide_eq_true. constructor.
  - intros [->%bool_decide_eq_true|Hup]%orb_true_iff; [constructor|].
    destruct (m !! j) as [b|] eqn:Hb; [|done].
    destruct (bm_parentId b) as [p|] eqn:Hp; [|done].
    eapply below_child; [done..|]. by apply IH.
Qed.

Lemma below_weaken (m m' : gmap string Bookmark) root j :
  (∀ i b, m !! i = Some b → m' !! i = Some b) → below m root j → below m' root j.
Proof.
  intros Hsub. induction 1 as [|j b p Hb Hp _ IH]; [constructor|].
  eapply below_child; [by apply Hsub | done | done].
Qed.

Lemma below_up m c f j bc :
  m !! c = Some bc → bm_parentId bc = Some f → below m c j → below m f j.
Proof.
  intros Hc Hp. induction 1 as [|j b p Hb Hbp _ IH].
  - eapply below_child; [done..|]. constructor.
  - by eapply below_child.
Qed.

Lemma removeTree_spec i h h' r :
  chrome_bookmarks_removeTree i h = (h', r) →
  only_removes h h' ∧ static h h'
  ∧ nodes h' !! i = None
  ∧ (∀ j b, nodes h !! j = Some b → ¬ below (nodes h) i j → nodes h' !! j = Some b)
  ∧ (r = Throw ↔ nodes h !! i = None).
Proof.
  unfold chrome_bookmarks_removeTree. destruct (nodes h !! i) as [bi|] eqn:Hi.
  - intros [= <- <-]. simpl. split; [|split; [done|split; [|split]]].
    + intros j b Hj. simpl in Hj. by apply map_lookup_filter_Some in Hj as [Hj _].
    + apply map_lookup_filter_None. right. intros b _. simpl.
      destruct (size (nodes h)); simpl; by rewrite bool_decide_eq_true_2.
    + intros j b Hj Hnot. apply map_lookup_filter_Some. split; [done|]. simpl.
      destruct (under _ _ _ _) eqn:Hu; [|done]. by apply under_below in Hu.
    + done.
  - intros [= <- <-]. split; [apply only_removes_refl|]. split; [apply static_refl|].
    split; [done|]. split; done.
Qed.

(** The removals of a [Promise.all]: every id listed is gone afterwards,
    nothing else is touched than what is below one of them, and the whole is
    rejected when one of them was not there. *)
Lemma removeTree_all (cs : list BookmarkSubTree) :
  ∀ h h' r,
    Promise_all (λ child, chrome_bookmarks_removeTree (id (node child))) cs h = (h', r) →
    only_removes h h' ∧ static h h'
    ∧ (∀ c, c ∈ cs → nodes h' !! id (node c) = None)
    ∧ (∀ j b, nodes h !! j = Some b →
              (∀ c, c ∈ cs → ¬ below (nodes h) (id (node c)) j) →
              nodes h' !! j = Some b)
    ∧ ((∃ c, c ∈ cs ∧ nodes h !! id (node c) = None) → r = Throw)
    ∧ ((∀ c, c ∈ cs → is_Some (nodes h !! id (node c))) →
       (∀ c c', c ∈ cs → c' ∈ cs → id (node c) ≠ id (node c') →
                ¬ below (nodes h) (id (node c)) (id (node c'))) →
       NoDup (id ∘ node <$> cs) → r = Return tt).
Proof.
  induction cs as [|x cs IH]; intros h h' r.
  - intros [= <- <-]. split; [apply only_removes_refl|]. split; [apply static_refl|].
    split; [by intros c Hc%elem_of_nil|]. split; [done|].
    split; [by intros (c & Hc%elem_of_nil & _) | done].
  - simpl.
    destruct (chrome_bookmarks_removeTree (id (node x)) h) as [h1 r1] eqn:Hx.
    destruct (Promise_all _ cs h1) as [h2 r2] eqn:Hcs.
    intros [= <- <-].
    destruct (removeTree_spec _ _ _ _ Hx) as (Hrem1 & Hst1 & Hgone1 & Hframe1 & Hthrow1).
    destruct (IH _ _ _ Hcs) as (Hrem2 & Hst2 & Hgone2 & Hframe2 & Hthrow2 & Hret2).
    split; [by eapply only_removes_trans|]. split; [by eapply static_trans|].
    split; [|split; [|split]].
    + intros c [->|Hc]%elem_of_cons; [|by apply Hgone2].
      destruct (nodes h2 !! id (node x)) as [b|] eqn:Hb; [|done].
      apply Hrem2 in Hb. congruence.
    + intros j b Hj Hnot. apply Hframe2.
      * apply Hframe1; [done|]. apply Hnot. by left.
      * intros c Hc Hbelow. apply (Hnot c); [by right|].
        eapply below_weaken; [|exact Hbelow]. exact Hrem1.
    + intros (c & [->|Hc]%elem_of_cons & Habsent).
      * by rewrite (proj2 Hthrow1 Habsent).
      * rewrite Hthrow2; [by destruct r1|]. exists c. split; [done|].
        destruct (nodes h1 !! id (node c)) as [b|] eqn:Hb; [|done].
        apply Hrem1 in Hb. congruence.
    + intros Hall Hapart Hnd.
      apply NoDup_cons in Hnd as [Hnotin Hnd].
      destruct r1 as [[]|].
      * apply Hret2; [| |done].
        -- intros c Hc. destruct (Hall c) as [b Hb]; [by right|].
           exists b. apply Hframe1; [done|]. apply Hapart; [by left | by right |].
           intros Heq. apply Hnotin. rewrite Heq.
           apply list_elem_of_fmap. by exists c.
        -- intros c c' Hc Hc' Hne Hbelow. apply (Hapart c c'); [by right | by right | done |].
           eapply below_weaken; [|exact Hbelow]. exact Hrem1.
      * destruct (Hall x) as [b Hb]; [by left|].
        rewrite (proj1 Hthrow1 eq_refl) in Hb. done.
Qed.

(** X10: [clearAllBookmarksInFolder] works from the children that the node
    it is given lists, not from what the folder holds when it is called.
    Every child listed is gone afterwards, also when the call is rejected:
    a removal that is rejected, because its node is no longer there, does
    not keep the others from taking effect.  Nodes that are below none of
    the children listed stay as they were, those added to the folder in the
    meantime among them, and a node without [children] clears nothing. *)
Theorem clearAllBookmarksInFolder_works_from_the_snapshot folder h :
  ∃ h' r,
    clearAllBookmarksInFolder folder h = (h', r)
    ∧ (∀ c, c ∈ default [] (subtrees folder) → nodes h' !! id (node c) = None)
    ∧ (∀ j b, nodes h' !! j = Some b → nodes h !! j = Some b)
    ∧ (∀ j b, nodes h !! j = Some b →
              (∀ c, c ∈ default [] (subtrees folder) →
                    ¬ below (nodes h) (id (node c)) j) →
              nodes h' !! j = Some b)
    ∧ ((∃ c, c ∈ default [] (subtrees folder) ∧ nodes h !! id (node c) = None) →
       r = Throw)
    ∧ (subtrees folder = None → h' = h ∧ r = Return tt).
Proof.
  unfold clearAllBookmarksInFolder.
  destruct (Promise_all _ (default [] (subtrees folder)) h) as [h' r] eqn:Hrun.
  exists h', r. split; [done|].
  destruct (removeTree_all _ _ _ _ Hrun) as (Hrem & _ & Hgone & Hframe & Hthrow & _).
  split; [done|]. split; [done|]. split; [done|]. split; [done|].
  intros Hnone. rewrite Hnone in Hrun. simpl in Hrun. unfold ret in Hrun.
  by simplify_eq.
Qed.

(** X11: given a node whose [children] are the current children of the
    folder, in a store where the folder is not below one of its own
    children, [clearAllBookmarksInFolder] returns and leaves the folder in
    place and empty: nothing is below it any more, every node that was not
    below it is as it was, and nothing but the store of bookmarks has
    changed. *)
Theorem clearAllBookmarksInFolder_empties_the_folder folder h :
  NoDup (id ∘ node <$> default [] (subtrees folder)) →
  (∀ j, j ∈ (id ∘ node <$> default [] (subtrees folder))
        ↔ ∃ b, nodes h !! j = Some b ∧ bm_parentId b = Some (id (node folder))) →
  (∀ j b, nodes h !! j = Some b → bm_parentId b = Some (id (node folder)) →
          ¬ below (nodes h) j (id (node folder))) →
  ∃ h',
    clearAllBookmarksInFolder folder h = (h', Return tt)
    ∧ nodes h' !! id (node folder) = nodes h !! id (node folder)
    ∧ (∀ j, below (nodes h') (id (node folder)) j → j = id (node folder))
    ∧ (∀ j b, nodes h' !! j = Some b → nodes h !! j = Some b)
    ∧ (∀ j b, nodes h !! j = Some b → ¬ below (nodes h) (id (node folder)) j →
              nodes h' !! j = Some b)
    ∧ static h h'.
Proof.
  set (f := id (node folder)). set (cs := default [] (subtrees folder)).
  intros Hnd Hfresh Hacyclic. unfold clearAllBookmarksInFolder. fold cs.
  destruct (Promise_all _ cs h) as [h' r] eqn:Hrun.
  destruct (removeTree_all _ _ _ _ Hrun)
    as (Hrem & Hst & Hgone & Hframe & _ & Hret).
  assert (∀ c, c ∈ cs → ∃ b, nodes h !! id (node c) = Some b ∧ bm_parentId b = Some f)
    as Hchild.
  { intros c Hc. apply Hfresh. apply list_elem_of_fmap. by exists c. }
  assert (∀ c j, c ∈ cs → below (nodes h) (id (node c)) j → below (nodes h) f j)
    as Hunder.
  { intros c j Hc Hbelow. destruct (Hchild c Hc) as (b & Hb & Hp). by eapply below_up. }
  exists h'. rewrite Hret; [|by intros c (b & Hb & _)%Hchild | |done].
  2: { intros c c' Hc Hc' Hne Hbelow.
       destruct (Hchild c Hc) as (b & Hb & Hp). destruct (Hchild c' Hc') as (b' & Hb' & Hp').
       inversion Hbelow as [Heq|j bj p Hj Hpj Hup]; [congruence|]. subst j.
       assert (p = f) as -> by congruence.
       by apply (Hacyclic _ _ Hb Hp). }
  split; [done|].
  assert (∀ j b, nodes h' !! j = Some b → bm_parentId b ≠ Some f) as Hchildless.
  { intros j b Hj Hp. pose proof (Hrem _ _ Hj) as Hj0.
    assert (j ∈ (id ∘ node <$> cs)) as Hin by (apply Hfresh; by exists b).
    apply list_elem_of_fmap in Hin as (c & -> & Hc). simpl in Hj.
    by rewrite (Hgone c Hc) in Hj. }
  split; [|split; [|split; [done|split; [|done]]]].
  - destruct (nodes h !! f) as [bf|] eqn:Hf.
    + apply Hframe; [done|]. intros c Hc Hbelow.
      destruct (Hchild c Hc) as (b & Hb & Hp). by apply (Hacyclic _ _ Hb Hp).
    + destruct (nodes h' !! f) as [bf|] eqn:Hf'; [|done].
      apply Hrem in Hf'. congruence.
  - induction 1 as [|j b p Hj Hp _ IH]; [done|]. subst p. by destruct (Hchildless _ _ Hj).
  - intros j b Hj Hnot. apply Hframe; [done|]. intros c Hc Hbelow. apply Hnot. by eapply Hunder.
Qed.

(** * Browser change listeners *)

Section listeners_facts.
Context {Callback : Type}.
Implicit Types (b : Browser Callback) (e : BookmarkEvent).


Lemma run_listeners_spec e (ls : list (Listener Callback)) b :
  let b' := foldl (run_listener e) b ls in
  registered b' = registered b ∧ next_function b' = next_function b
  ∧ this_browserChangeListeners b' = this_browserChangeListeners b
  ∧ this_onBrowserChange b' = this_onBrowserChange b
  ∧ called b' = called b ++ match change_of e with
                            | Some change => (λ l, (captured l, change)) <$> ls
                            | None => []
                            end.
Proof.
  revert b. induction ls as [|l ls IH]; intros b; simpl.
  - destruct (change_of e); by rewrite app_nil_r.
  - destruct (IH (run_listener e b l)) as (-> & -> & -> & -> & ->).
    unfold run_listener. destruct (change_of e); simpl; [|done].
    by rewrite <- app_assoc.
Qed.

Lemma fire_spec b e :
  registered (fire b e) = registered b ∧ next_function (fire b e) = next_function b
  ∧ this_browserChangeListeners (fire b e) = this_browserChangeListeners b
  ∧ this_onBrowserChange (fire b e) = this_onBrowserChange b
  ∧ called (fire b e) = called b ++ calls_for b e.
Proof. apply run_listeners_spec. Qed.

Lemma calls_for_ext b b' e :
  (∀ k, registered b k = registered b' k) → calls_for b e = calls_for b' e.
Proof. intros Hreg. unfold calls_for. by rewrite Hreg. Qed.

Lemma fire_all_spec events b :
  (∀ k, registered (fire_all events b) k = registered b k)
  ∧ this_browserChangeListeners (fire_all events b) = this_browserChangeListeners b
  ∧ this_onBrowserChange (fire_all events b) = this_onBrowserChange b
  ∧ called (fire_all events b) = called b ++ flat_map (calls_for b) events.
Proof.
  revert b. induction events as [|e events IH]; intros b; simpl.
  - by rewrite app_nil_r.
  - destruct (IH (fire b e)) as (Hreg & -> & -> & ->).
    destruct (fire_spec b e) as (Hreg' & _ & -> & -> & ->).
    split; [intros k; by rewrite Hreg, Hreg'|]. split; [done|]. split; [done|].
    rewrite <- app_assoc. f_equal. f_equal.
    apply flat_map_ext. intros e'. apply calls_for_ext. intros k. by rewrite Hreg'.
Qed.

(** With one listener per event, all for the same callback, the callback
    is called once for every event that the listeners pass on. *)
Lemma calls_single b (callback : Callback) events :
  (∀ k, ∃ n, registered b k = [mkListener n callback]) →
  flat_map (calls_for b) events = (λ c, (callback, c)) <$> omap change_of events.
Proof.
  intros Hreg. induction events as [|e events IH]; [done|]. simpl. rewrite IH.
  unfold calls_for. destruct (Hreg (kind_of e)) as [n ->].
  by destruct (change_of e).
Qed.

Lemma calls_none b events :
  (∀ k, registered b k = []) → flat_map (calls_for b) events = [].
Proof.
  intros Hreg. induction events as [|e events IH]; [done|]. simpl. rewrite IH.
  unfold calls_for. rewrite Hreg. by destruct (change_of e).
Qed.

Lemma filter_keeps_older (ls : list (Listener Callback)) (n m : nat) :
  (∀ l', l' ∈ ls → (function_id l' < n)%nat) → (n ≤ m)%nat →
  filter (λ l', function_id l' ≠ m) ls = ls.
Proof.
  intros Hold Hnew. induction ls as [|x ls IH]; [done|].
  rewrite filter_cons_True.
  - f_equal. apply IH. intros l' Hl'. apply Hold. by right.
  - pose proof (Hold x ltac:(by left)). lia.
Qed.

(** X12: once [startBrowserChangeListener] has run on a browser without
    listeners, the callback is called once for each bookmark event fired,
    in order and with the event's payload, except for the creation of a
    node without a URL (a folder), which is not passed on. *)
Theorem started_listener_is_told_every_change (callback : Callback) b events :
  (∀ k, registered b k = []) →
  called (fire_all events (startBrowserChangeListener callback b))
  = called b ++ ((λ c, (callback, c)) <$> omap change_of events).
Proof.
  intros Hempty.
  destruct (fire_all_spec events (startBrowserChangeListener callback b))
    as (_ & _ & _ & ->).
  f_equal. apply calls_single.
  intros k. unfold startBrowserChangeListener. simpl.
  destruct k; simpl; rewrite Hempty; simpl; eauto.
Qed.

(** X13: [stopBrowserChangeListener] undoes the [startBrowserChangeListener]
    before it: the listeners registered for each event are those that were
    there before, the repository's two fields are cleared, and no event
    fired afterwards reaches the callback through this start. *)
Theorem stop_undoes_start (callback : Callback) b events :
  (∀ k l, l ∈ registered b k → (function_id l < next_function b)%nat) →
  (∀ k, registered (stopBrowserChangeListener (startBrowserChangeListener callback b)) k
        = registered b k)
  ∧ this_browserChangeListeners
      (stopBrowserChangeListener (startBrowserChangeListener callback b)) = []
  ∧ this_onBrowserChange
      (stopBrowserChangeListener (startBrowserChangeListener callback b)) = None
  ∧ called (fire_all events
              (stopBrowserChangeListener (startBrowserChangeListener callback b)))
    = called (fire_all events b).
Proof.
  intros Hold.
  assert (∀ k, registered (stopBrowserChangeListener (startBrowserChangeListener callback b)) k
               = registered b k) as Hreg.
  { intros k. unfold stopBrowserChangeListener, startBrowserChangeListener. simpl.
    destruct k; simpl;
      rewrite filter_app, filter_cons_False, filter_nil, app_nil_r by (simpl; lia);
      (apply (filter_keeps_older _ (next_function b)); [by apply Hold | lia]). }
  split; [done|]. split; [done|]. split; [done|].
  destruct (fire_all_spec events
              (stopBrowserChangeListener (startBrowserChangeListener callback b)))
    as (_ & _ & _ & ->).
  destruct (fire_all_spec events b) as (_ & _ & _ & ->).
  f_equal. apply flat_map_ext. intros e. by apply calls_for_ext.
Qed.

(** X14: a second [startBrowserChangeListener] without a stop in between
    overwrites the repository's list of cleanup functions, so that
    [stopBrowserChangeListener] removes the listeners of the second start
    only: the callback of the first start goes on being called for every
    change, and a further stop removes nothing. *)
Theorem second_start_strands_the_first (c1 c2 : Callback) b events :
  (∀ k, registered b k = []) →
  let b2 := stopBrowserChangeListener
              (startBrowserChangeListener c2 (startBrowserChangeListener c1 b)) in
  this_browserChangeListeners b2 = []
  ∧ this_onBrowserChange b2 = None
  ∧ called (fire_all events b2)
    = called b ++ ((λ c, (c1, c)) <$> omap change_of events)
  ∧ ∀ k, registered (stopBrowserChangeListener b2) k = registered b2 k.
Proof.
  intros Hempty b2.
  assert (∀ k, ∃ n, registered b2 k = [mkListener n c1]) as Hreg.
  { intros k. unfold b2, stopBrowserChangeListener, startBrowserChangeListener. simpl.
    destruct k; simpl; rewrite Hempty; simpl;
      rewrite filter_cons_True by (simpl; lia);
      rewrite filter_cons_False by (simpl; lia); rewrite filter_nil; eauto. }
  split; [done|]. split; [done|]. split; [|done].
  destruct (fire_all_spec events b2) as (_ & _ & _ & ->).
  f_equal. by apply calls_single.
Qed.
End listeners_facts.

(** * Creating the bookmarks of a tree *)

Lemma grows_refl h : grows h h.
Proof. by intros i b. Qed.

Lemma grows_trans h1 h2 h3 : grows h1 h2 → grows h2 h3 → grows h1 h3.
Proof. intros H12 H23 i b Hb. by apply H23, H12. Qed.

Lemma grows_folder h h' i : grows h h' → is_folder h i = true → is_folder h' i = true.
Proof.
  intros Hg Hi. apply is_folder_spec in Hi as (b & Hb & Hnone).
  apply is_folder_spec. exists b. split; [by apply Hg | done].
Qed.

Lemma adds_refl h : adds h h.
Proof. intros Hwf. split; [done|]. split; [apply grows_refl | apply static_refl]. Qed.

Lemma adds_trans h1 h2 h3 : adds h1 h2 → adds h2 h3 → adds h1 h3.
Proof.
  intros H12 H23 Hwf. destruct (H12 Hwf) as (Hwf2 & Hg12 & Hs12).
  destruct (H23 Hwf2) as (Hwf3 & Hg23 & Hs23).
  split; [done|]. split; [by eapply grows_trans | by eapply static_trans].
Qed.

Lemma create_adds parent t u : respects adds (chrome_bookmarks_create parent t u).
Proof.
  intros h h' r Hrun Hwf.
  destruct (create_safe (λ _, False) _ _ _ _ _ _ Hrun) as [Hst Hs].
  destruct (Hs Hwf) as [Hwf' Hk]. split; [done|]. split; [|done].
  intros i b Hb. apply Hk; [done|]. by intros u' _ [].
Qed.

Lemma create_ok parent t u h :
  wf h → is_folder h parent = true → u ≠ Some "" →
  ∃ h' f, chrome_bookmarks_create parent t u h = (h', Return f)
          ∧ wf h' ∧ grows h h' ∧ static h h'
          ∧ size (nodes h') = S (size (nodes h))
          ∧ nodes h' !! id f = Some (mkBookmark (Some parent) t u).
Proof.
  intros Hwf Hp Hu.
  destruct (chrome_bookmarks_create parent t u h) as [h' r] eqn:Hrun.
  destruct (create_adds _ _ _ _ _ _ Hrun Hwf) as (Hwf' & Hg & Hst).
  apply create_inv in Hrun as [(_ & _ & [Hf | Hbad])|(_ & _ & -> & ->)];
    [congruence | done |].
  eexists _, _. split; [done|]. split; [done|]. split; [done|]. split; [done|].
  simpl. split; [|by rewrite lookup_insert_eq].
  rewrite map_size_insert_None; [done|]. by apply wf_fresh.
Qed.

Lemma respects_Promise_all {A} (R : Heap → Heap → Prop) (call : A → M unit) l :
  (∀ h, R h h) → (∀ h1 h2 h3, R h1 h2 → R h2 h3 → R h1 h3) →
  (∀ x, respects R (call x)) → respects R (Promise_all call l).
Proof.
  intros Hrefl Htrans Hcall. induction l as [|x l IH]; intros h h' r; simpl.
  - intros [= <- <-]. apply Hrefl.
  - destruct (call x h) as [h1 r1] eqn:Hx. destruct (Promise_all call l h1) as [h2 r2] eqn:Hl.
    intros [= <- <-]. eapply Htrans; [by eapply Hcall | by eapply IH].
Qed.

Lemma respects_for_each {A B} (R : Heap → Heap → Prop) (f : A → M B) l :
  (∀ h, R h h) → (∀ h1 h2 h3, R h1 h2 → R h2 h3 → R h1 h3) →
  (∀ x, respects R (f x)) → respects R (for_each f l).
Proof.
  intros Hrefl Htrans Hf. induction l as [|x l IH]; simpl.
  - by apply respects_ret.
  - apply respects_bind; [done | apply Hf |]. intros y.
    apply respects_bind; [done | apply IH |]. intros ys. by apply respects_ret.
Qed.

Lemma createBookmark_adds parent (rd : Raindrop) :
  respects adds (let* _ := chrome_bookmarks_create parent (rd_title rd) (Some (rd_link rd)) in
                 ret tt).
Proof.
  apply respects_bind; [apply adds_trans | apply create_adds |].
  intros f. apply respects_ret, adds_refl.
Qed.

Lemma createBookmarks_adds c baseFolder t : respects adds (createBookmarks c baseFolder t).
Proof.
  unfold createBookmarks. apply respects_bind; [apply adds_trans | |].
  - unfold raindrop_getAllRaindrops. destruct (getAllRaindrops c _).
    + apply respects_ret, adds_refl.
    + apply respects_throw, adds_refl.
  - intros raindrops. apply respects_Promise_all; [apply adds_refl | apply adds_trans |].
    intros rd. apply createBookmark_adds.
Qed.

Lemma createFolder_adds baseFolder child : respects adds (createFolder baseFolder child).
Proof.
  intros h h' r. unfold createFolder.
  destruct (chrome_bookmarks_create _ _ _ h) as [h1 r1] eqn:Hc.
  pose proof (create_adds _ _ _ _ _ _ Hc) as Hadds.
  destruct r1; by intros [= <- <-].
Qed.

Lemma createFolders_adds baseFolder t : respects adds (createFolders baseFolder t).
Proof.
  unfold createFolders. apply respects_for_each; [apply adds_refl | apply adds_trans |].
  intros child. apply createFolder_adds.
Qed.

Lemma run_task_adds c t h h' started :
  run_task c t h = (h', started) → adds h h'.
Proof.
  destruct t as [[f|] t|f t]; simpl.
  - destruct (createBookmarks c f t h) as [h1 r1] eqn:Hb.
    pose proof (createBookmarks_adds _ _ _ _ _ _ Hb). destruct r1; by intros [= <- <-].
  - intros [= <- <-]. apply adds_refl.
  - destruct (createFolders f t h) as [h1 r1] eqn:Hf.
    pose proof (createFolders_adds _ _ _ _ _ Hf). destruct r1; by intros [= <- <-].
Qed.

Lemma turn_adds c k pending h h' pending' :
  turn c k pending h = (h', pending') → adds h h'.
Proof.
  unfold turn. destruct (pending !! _) as [t|]; [|intros [= <- <-]; apply adds_refl].
  destruct (run_task c t h) as [h1 started] eqn:Ht. intros [= <- <-].
  by eapply run_task_adds.
Qed.

Lemma turns_adds c schedule :
  ∀ pending h h' pending', turns c schedule pending h = (h', pending') → adds h h'.
Proof.
  induction schedule as [|k schedule IH]; intros pending h h' pending'; simpl.
  - intros [= <- <-]. apply adds_refl.
  - destruct (turn c k pending h) as [h1 p1] eqn:Hk. intros Hrest.
    eapply adds_trans; [by eapply turn_adds | by eapply IH].
Qed.

(** ** The parts of a call, when nothing is rejected *)

Lemma createBookmarks_all parent (rds : list Raindrop) :
  ∀ h, wf h → is_folder h parent = true → Forall (λ rd, rd_link rd ≠ "") rds →
    ∃ h', Promise_all (λ rd, let* _ := chrome_bookmarks_create parent (rd_title rd)
                                                               (Some (rd_link rd)) in
                             ret tt) rds h = (h', Return tt)
          ∧ wf h' ∧ grows h h' ∧ static h h'
          ∧ size (nodes h') = size (nodes h) + length rds
          ∧ Forall (λ rd, ∃ i, nodes h' !! i
                               = Some (mkBookmark (Some parent) (rd_title rd)
                                                  (Some (rd_link rd)))) rds.
Proof.
  induction rds as [|rd rds IH]; intros h Hwf Hp Hlinks.
  - exists h. split; [done|]. split; [done|]. split; [apply grows_refl|].
    split; [apply static_refl|]. split; [simpl; lia | done].
  - apply Forall_cons in Hlinks as [Hlink Hlinks].
    destruct (create_ok parent (rd_title rd) (Some (rd_link rd)) h Hwf Hp)
      as (h1 & f & Hc & Hwf1 & Hg1 & Hs1 & Hsize1 & Hnode1); [congruence|].
    destruct (IH h1 Hwf1 (grows_folder _ _ _ Hg1 Hp) Hlinks)
      as (h' & Hrest & Hwf' & Hg' & Hs' & Hsize' & Hnodes').
    exists h'. split.
    { simpl. unfold bind at 1. rewrite Hc. unfold ret at 1. by rewrite Hrest. }
    split; [done|]. split; [by eapply grows_trans|]. split; [by eapply static_trans|].
    split; [simpl; lia|].
    apply Forall_cons. split; [|done]. exists (id f). by apply Hg'.
Qed.

Lemma createBookmarks_ok c baseFolder d cs h :
  wf h → is_folder h (id baseFolder) = true → listings_ok c (mkTreeNode d cs) →
  ∃ h', createBookmarks c baseFolder (mkTreeNode d cs) h = (h', Return tt)
        ∧ wf h' ∧ grows h h' ∧ static h h'
        ∧ size (nodes h')
          = size (nodes h) + length (default [] (getAllRaindrops c (collectionId_of d)))
        ∧ Forall (λ rd, ∃ i, nodes h' !! i
                             = Some (mkBookmark (Some (id baseFolder)) (rd_title rd)
                                                (Some (rd_link rd))))
                 (default [] (getAllRaindrops c (collectionId_of d))).
Proof.
  intros Hwf Hp [Hfetch Hlinks]. unfold createBookmarks, bind, raindrop_getAllRaindrops.
  simpl in *. apply andb_true_iff in Hfetch as [Hroot _].
  apply bool_decide_eq_true in Hroot as [rds Hrds]. rewrite Hrds. simpl.
  apply createBookmarks_all; [done..|].
  rewrite Hrds in Hlinks. simpl in Hlinks.
  apply Forall_app in Hlinks as [Hlinks _].
  apply Forall_forall. intros rd Hrd.
  apply (proj1 (Forall_forall _ _) Hlinks (d, rd)).
  apply list_elem_of_fmap. by exists rd.
Qed.

Lemma createFolders_all baseFolder (cs : list TreeNode) :
  ∀ h, wf h → is_folder h (id baseFolder) = true →
    ∃ h' started, for_each (createFolder baseFolder) cs h = (h', Return started)
          ∧ wf h' ∧ grows h h' ∧ static h h'
          ∧ size (nodes h') = size (nodes h) + length cs
          ∧ Forall2 (λ child task,
                       ∃ f, task = Started (Some f) child
                            ∧ nodes h' !! id f
                              = Some (mkBookmark (Some (id baseFolder))
                                                 (folder_title (data child)) None))
                    cs started.
Proof.
  induction cs as [|child cs IH]; intros h Hwf Hp.
  - exists h, []. split; [done|]. split; [done|]. split; [apply grows_refl|].
    split; [apply static_refl|]. split; [simpl; lia | constructor].
  - destruct (create_ok (id baseFolder) (folder_title (data child)) None h Hwf Hp)
      as (h1 & f & Hc & Hwf1 & Hg1 & Hs1 & Hsize1 & Hnode1); [done|].
    destruct (IH h1 Hwf1 (grows_folder _ _ _ Hg1 Hp))
      as (h' & started & Hrest & Hwf' & Hg' & Hs' & Hsize' & Hnodes').
    exists h', (Started (Some f) child :: started). split.
    { simpl. unfold bind at 1. unfold createFolder at 1. rewrite Hc.
      unfold bind. rewrite Hrest. done. }
    split; [done|]. split; [by eapply grows_trans|]. split; [by eapply static_trans|].
    split; [simpl; lia|].
    constructor; [|done]. exists f. split; [done|]. by apply Hg'.
Qed.

Lemma tree_size_pos t : (1 ≤ tree_size t)%nat.
Proof. destruct t. simpl. lia. Qed.

Lemma listings_ok_children c d cs :
  listings_ok c (mkTreeNode d cs) → Forall (listings_ok c) cs.
Proof.
  intros [Hfetch Hlinks]. apply Forall_forall. intros child Hchild. split.
  - destruct (fetches_ok c child) eqn:Hf; [done|].
    by rewrite (fetches_ok_child c d cs child Hchild Hf) in Hfetch.
  - apply Forall_forall. intros x Hx.
    apply (proj1 (Forall_forall _ _) Hlinks x). by eapply items_of_child.
Qed.

Lemma placed_weaken c (m m' : gmap string Bookmark) t :
  (∀ i b, m !! i = Some b → m' !! i = Some b) →
  ∀ f, placed c m f t → placed c m' f t.
Proof.
  intros Hsub. induction t as [d cs IH] using TreeNode_induction. intros f. simpl.
  intros [Hrds Hcs]. split.
  - eapply Forall_impl; [exact Hrds|]. intros rd [i Hi]. exists i. by apply Hsub.
  - clear Hrds. induction cs as [|child cs IHcs]; [done|].
    apply Forall_cons in IH as [IHchild IH].
    destruct Hcs as [(i & Hi & Hplaced) Hcs]. split; [|by apply IHcs].
    exists i. split; [by apply Hsub | by apply IHchild].
Qed.

(** What the calls started for the children of a collection are to do. *)
Lemma started_sums c baseFolder cs started (m : gmap string Bookmark) :
  Forall2 (λ child task,
             ∃ f, task = Started (Some f) child
                  ∧ m !! id f = Some (mkBookmark (Some (id baseFolder))
                                                 (folder_title (data child)) None))
          cs started →
  sum_list (todo c <$> started) + length cs
  = length (flat_map (items_of c) cs) + sum_list (tree_size <$> cs)
  ∧ sum_list (work <$> started) = 2 * sum_list (tree_size <$> cs).
Proof.
  induction 1 as [|child task cs started (f & -> & Hf) _ [IH1 IH2]]; [done|].
  simpl. rewrite length_app. pose proof (tree_size_pos child).
  repeat match goal with
         | |- context [list_fmap ?A ?B ?g ?l] => change (list_fmap A B g l) with (g <$> l)
         end.
  lia.
Qed.

(** A pending call that can go on does go on: it adds the nodes of its
    part, hands on what is left to do, and takes one turn. *)
Lemma run_task_ready c t h :
  wf h → task_ready c h t →
  ∃ h' started,
    run_task c t h = (h', started)
    ∧ wf h' ∧ grows h h' ∧ static h h'
    ∧ Forall (task_ready c h') started
    ∧ size (nodes h') + sum_list (todo c <$> started) = size (nodes h) + todo c t
    ∧ S (sum_list (work <$> started)) = work t
    ∧ ∀ m', (∀ i b, nodes h' !! i = Some b → m' !! i = Some b) →
            Forall (task_placed c m') started → task_placed c m' t.
Proof.
  intros Hwf Hready. destruct t as [[f|] [d cs]|f [d cs]]; simpl in Hready; [|done|].
  - destruct Hready as [Hf Hok].
    destruct (createBookmarks_ok c f d cs h Hwf Hf Hok)
      as (h' & Hrun & Hwf' & Hg & Hs & Hsize & Hnodes).
    exists h', [Created f (mkTreeNode d cs)]. simpl. rewrite Hrun.
    split; [done|]. split; [done|]. split; [done|]. split; [done|]. split.
    { constructor; [|done]. simpl. split; [by eapply grows_folder|].
      by eapply listings_ok_children. }
    split.
    { rewrite Hsize, length_app, length_fmap. lia. }
    split; [lia|].
    intros m' Hsub Hplaced. apply Forall_cons in Hplaced as [Hplaced _]. simpl in Hplaced.
    split; [|done].
    eapply Forall_impl; [exact Hnodes|]. intros rd [i Hi]. exists i. by apply Hsub.
  - destruct Hready as [Hf Hok].
    destruct (createFolders_all f cs h Hwf Hf)
      as (h' & started & Hrun & Hwf' & Hg & Hs & Hsize & Hnodes).
    exists h', started. cbn [run_task]. unfold createFolders. cbn [children].
    rewrite Hrun.
    split; [done|]. split; [done|]. split; [done|]. split; [done|].
    destruct (started_sums c f cs started (nodes h') Hnodes) as [Htodo Hwork].
    split.
    { clear Htodo Hwork Hrun Hsize. induction Hnodes as [|child task cs started (fc & -> & Hfc) _ IH].
      - constructor.
      - apply Forall_cons in Hok as [Hchild Hok]. constructor; [|by apply IH].
        simpl. split; [|done]. apply is_folder_spec. by eexists. }
    cbn [todo work children tree_size].
    split; [lia|]. split; [lia|].
    intros m' Hsub Hplaced. clear Htodo Hwork Hrun Hsize Hok.
    induction Hnodes as [|child task cs started (fc & -> & Hfc) _ IH]; [done|].
    apply Forall_cons in Hplaced as [Hchild Hplaced]. simpl in Hchild.
    split; [|by apply IH]. exists (id fc). split; [by apply Hsub | done].
Qed.

Lemma sum_fmap_app {A} (f : A → nat) l1 l2 :
  sum_list (f <$> (l1 ++ l2)) = sum_list (f <$> l1) + sum_list (f <$> l2).
Proof. by rewrite fmap_app, sum_list_with_app. Qed.

Lemma sum_fmap_cons {A} (f : A → nat) x l :
  sum_list (f <$> (x :: l)) = f x + sum_list (f <$> l).
Proof. done. Qed.

Lemma task_ready_grows c h h' t : grows h h' → task_ready c h t → task_ready c h' t.
Proof.
  intros Hg. destruct t as [[f|] t|f t]; simpl; [|done|];
    intros [Hf Hok]; (split; [by eapply grows_folder | done]).
Qed.

(** One turn, when every pending call can go on. *)
Lemma turn_ready c k pending h :
  wf h → Forall (task_ready c h) pending → pending ≠ [] →
  ∃ h' pending',
    turn c k pending h = (h', pending')
    ∧ wf h' ∧ grows h h' ∧ static h h'
    ∧ Forall (task_ready c h') pending'
    ∧ size (nodes h') + sum_list (todo c <$> pending')
      = size (nodes h) + sum_list (todo c <$> pending)
    ∧ S (sum_list (work <$> pending')) = sum_list (work <$> pending)
    ∧ ∀ m', (∀ i b, nodes h' !! i = Some b → m' !! i = Some b) →
            Forall (task_placed c m') pending' → Forall (task_placed c m') pending.
Proof.
  intros Hwf Hready Hne. unfold turn.
  set (n := k mod length pending).
  assert (n < length pending)%nat as Hn.
  { apply Nat.mod_upper_bound. by destruct pending. }
  destruct (lookup_lt_is_Some_2 pending n Hn) as [t Ht]. rewrite Ht.
  pose proof (take_drop_middle pending n t Ht) as Hsplit.
  set (pre := take n pending) in *. set (post := drop (S n) pending) in *.
  rewrite <- Hsplit in Hready.
  apply Forall_app in Hready as [Hpre Hready].
  apply Forall_cons in Hready as [Htask Hpost].
  destruct (run_task_ready c t h Hwf Htask)
    as (h' & started & Hrun & Hwf' & Hg & Hs & Hstarted & Htodo & Hwork & Hplaced).
  rewrite Hrun. exists h', (pre ++ post ++ started).
  split; [done|]. split; [done|]. split; [done|]. split; [done|]. split.
  { apply Forall_app. split; [|apply Forall_app; split; [|done]].
    - eapply Forall_impl; [exact Hpre|]. intros t'. by apply task_ready_grows.
    - eapply Forall_impl; [exact Hpost|]. intros t'. by apply task_ready_grows. }
  clear Hn Ht. clearbody pre post. clear n. subst pending.
  rewrite !sum_fmap_app, !sum_fmap_cons.
  split; [lia|]. split; [lia|].
  intros m' Hsub Hall.
  apply Forall_app in Hall as [Hpre' Hall]. apply Forall_app in Hall as [Hpost' Hstarted'].
  apply Forall_app. split; [done|]. apply Forall_cons. split; [|done].
  by apply Hplaced.
Qed.

(** A schedule of turns, when every pending call can go on: the pending
    calls take the turns they need, one at a time, whichever goes first. *)
Lemma turns_ready c schedule :
  ∀ pending h,
    wf h → Forall (task_ready c h) pending →
    ∃ h' pending',
      turns c schedule pending h = (h', pending')
      ∧ wf h' ∧ grows h h' ∧ static h h'
      ∧ size (nodes h') + sum_list (todo c <$> pending')
        = size (nodes h) + sum_list (todo c <$> pending)
      ∧ (pending' = []
         ∨ (sum_list (work <$> pending') + length schedule
            = sum_list (work <$> pending))%nat)
      ∧ ∀ m', (∀ i b, nodes h' !! i = Some b → m' !! i = Some b) →
              Forall (task_placed c m') pending' → Forall (task_placed c m') pending.
Proof.
  induction schedule as [|k schedule IH]; intros pending h Hwf Hready.
  - exists h, pending. split; [done|]. split; [done|]. split; [apply grows_refl|].
    split; [apply static_refl|]. split; [done|]. split; [right; simpl; lia|].
    intros m' Hsub Hall. done.
  - destruct pending as [|t0 pending0] eqn:Hp.
    + exists h, []. split.
      { simpl. unfold turn. simpl.
        destruct (IH [] h Hwf Hready) as (h' & p' & Hrun & _).
        clear Hrun. clear IH. induction schedule as [|k' schedule IH']; [done|].
        simpl. unfold turn. simpl. exact IH'. }
      split; [done|]. split; [apply grows_refl|]. split; [apply static_refl|].
      split; [done|]. split; [by left|]. done.
    + rewrite <- Hp in *.
      destruct (turn_ready c k pending h Hwf Hready)
        as (h1 & p1 & Hturn & Hwf1 & Hg1 & Hs1 & Hready1 & Htodo1 & Hwork1 & Hplaced1).
      { by rewrite Hp. }
      destruct (IH p1 h1 Hwf1 Hready1)
        as (h' & p' & Hrest & Hwf' & Hg' & Hs' & Htodo' & Hwork' & Hplaced').
      exists h', p'. split; [simpl; by rewrite Hturn|].
      split; [done|]. split; [by eapply grows_trans|]. split; [by eapply static_trans|].
      split; [lia|]. split.
      { destruct Hwork' as [->|Hwork']; [by left|]. right. simpl. lia. }
      intros m' Hsub Hall. apply Hplaced1.
      * intros i b Hb. by apply Hsub, Hg'.
      * by apply Hplaced'.
Qed.

Lemma work_pos t : (1 ≤ work t)%nat.
Proof. destruct t as [f t|f t]; simpl; pose proof (tree_size_pos t); lia. Qed.

Lemma no_work_left pending : sum_list (work <$> pending) = 0 → pending = [].
Proof.
  destruct pending as [|t pending]; [done|]. rewrite sum_fmap_cons.
  pose proof (work_pos t). lia.
Qed.

Lemma createBookmarksRecursively_adds opts :
  respects adds (createBookmarksRecursively opts).
Proof.
  unfold createBookmarksRecursively.
  apply respects_bind; [apply adds_trans | apply createBookmarks_adds |].
  intros []. apply createFolders_adds.
Qed.

(** The call as awaited, when nothing is rejected: its two parts. *)
Lemma createBookmarksRecursively_ready opts h :
  wf h → is_folder h (id (baseFolder opts)) = true →
  listings_ok (raindropClient opts) (tree opts) →
  ∃ h1 started,
    createBookmarksRecursively opts h = (h1, Return started)
    ∧ wf h1 ∧ grows h h1 ∧ static h h1
    ∧ Forall (task_ready (raindropClient opts) h1) started
    ∧ size (nodes h1)
      = size (nodes h)
        + length (default [] (getAllRaindrops (raindropClient opts)
                                              (collectionId_of (data (tree opts)))))
        + length (children (tree opts))
    ∧ size (nodes h1) + sum_list (todo (raindropClient opts) <$> started)
      = size (nodes h) + length (items_of (raindropClient opts) (tree opts))
        + (tree_size (tree opts) - 1)
    ∧ (sum_list (work <$> started) + 2 = 2 * tree_size (tree opts))%nat
    ∧ ∀ m', (∀ i b, nodes h1 !! i = Some b → m' !! i = Some b) →
            Forall (task_placed (raindropClient opts) m') started →
            placed (raindropClient opts) m' (id (baseFolder opts)) (tree opts).
Proof.
  intros Hwf Hbase Hok. set (c := raindropClient opts).
  destruct (tree opts) as [d cs] eqn:Htree.
  destruct (createBookmarks_ok c (baseFolder opts) d cs h Hwf Hbase Hok)
    as (h0 & Hfirst & Hwf0 & Hg0 & Hs0 & Hsize0 & Hnodes0).
  destruct (run_task_ready c (Created (baseFolder opts) (mkTreeNode d cs)) h0 Hwf0)
    as (h1 & started & Hrun & Hwf1 & Hg1 & Hs1 & Hready1 & Htodo1 & Hwork1 & Hplaced1).
  { split; [by eapply grows_folder | by eapply listings_ok_children]. }
  cbn [run_task] in Hrun.
  destruct (createFolders (baseFolder opts) (mkTreeNode d cs) h0) as [h1' r1] eqn:Hsecond.
  destruct (createFolders_all (baseFolder opts) cs h0 Hwf0 (grows_folder _ _ _ Hg0 Hbase))
    as (h1'' & started' & Hall & _ & _ & _ & Hsize1 & _).
  unfold createFolders in Hsecond. cbn [children] in Hsecond.
  rewrite Hall in Hsecond. simplify_eq.
  exists h1, started. split.
  { unfold createBookmarksRecursively. rewrite Htree. unfold bind at 1.
    fold c. rewrite Hfirst. unfold createFolders. cbn [children]. exact Hall. }
  split; [done|]. split; [by eapply grows_trans|]. split; [by eapply static_trans|].
  split; [done|].
  cbn [todo work children tree_size data] in *.
  rewrite items_of_unfold, length_app, length_fmap.
  split; [lia|]. split; [lia|]. split; [lia|].
  intros m' Hsub Hall'. split.
  - eapply Forall_impl; [exact Hnodes0|]. intros rd [i Hi]. exists i. by apply Hsub, Hg1.
  - by apply (Hplaced1 m').
Qed.

(** X15: [createBookmarksRecursively] returns when the bookmarks of the
    root collection and the folders of its children are created; the calls
    for the children go on after it has returned.  Whatever the order in
    which those calls get their turns, once each has had the turns it needs
    no call is pending, the tree is in place under the base folder (a
    bookmark for every raindrop in the folder of its collection, a folder
    for every collection in the folder of its parent), the store holds one
    new node for each raindrop listed and each collection below the root,
    and nothing that was there has changed. *)
Theorem createBookmarksRecursively_builds_the_tree opts h schedule :
  wf h →
  is_folder h (id (baseFolder opts)) = true →
  listings_ok (raindropClient opts) (tree opts) →
  (2 * tree_size (tree opts) ≤ length schedule)%nat →
  ∃ h1 started h2,
    createBookmarksRecursively opts h = (h1, Return started)
    ∧ size (nodes h1)
      = size (nodes h)
        + length (default [] (getAllRaindrops (raindropClient opts)
                                              (collectionId_of (data (tree opts)))))
        + length (children (tree opts))
    ∧ turns (raindropClient opts) schedule started h1 = (h2, [])
    ∧ placed (raindropClient opts) (nodes h2) (id (baseFolder opts)) (tree opts)
    ∧ size (nodes h2)
      = size (nodes h) + length (items_of (raindropClient opts) (tree opts))
        + (tree_size (tree opts) - 1)
    ∧ (∀ i b, nodes h !! i = Some b → nodes h2 !! i = Some b)
    ∧ static h h2.
Proof.
  intros Hwf Hbase Hok Hlong.
  destruct (createBookmarksRecursively_ready opts h Hwf Hbase Hok)
    as (h1 & started & Hrun & Hwf1 & Hg1 & Hs1 & Hready1 & Hsize1 & Htodo1 & Hwork1
        & Hplaced1).
  destruct (turns_ready (raindropClient opts) schedule started h1 Hwf1 Hready1)
    as (h2 & pending & Hturns & Hwf2 & Hg2 & Hs2 & Htodo2 & Hwork2 & Hplaced2).
  assert (pending = []) as ->.
  { destruct Hwork2 as [->|Hwork2]; [done|]. apply no_work_left. lia. }
  exists h1, started, h2. split; [done|]. split; [done|]. split; [done|]. split.
  { apply Hplaced1; [exact Hg2|]. by apply Hplaced2. }
  split; [simpl in Htodo2; lia|]. split; [by eapply grows_trans | by eapply static_trans].
Qed.

(** X16: whatever is rejected on the way, and whatever the order of the
    turns, [createBookmarksRecursively] and the calls it starts only add to
    a well-formed store: no node that was there is changed or removed, and
    the persisted sync state is neither read nor written. *)
Theorem createBookmarksRecursively_only_adds opts h schedule h1 r h2 pending :
  wf h →
  createBookmarksRecursively opts h = (h1, r) →
  turns (raindropClient opts) schedule
        (match r with Return started => started | Throw => [] end) h1 = (h2, pending) →
  (∀ i b, nodes h !! i = Some b → nodes h2 !! i = Some b)
  ∧ storage h2 = storage h ∧ storage_writes h2 = storage_writes h
  ∧ this_syncState h2 = this_syncState h.
Proof.
  intros Hwf Hrun Hturns.
  destruct (createBookmarksRecursively_adds _ _ _ _ Hrun Hwf) as (Hwf1 & Hg1 & Hs1).
  destruct (turns_adds _ _ _ _ _ _ Hturns Hwf1) as (_ & Hg2 & Hs2).
  split; [by eapply grows_trans|].
  destruct (static_trans _ _ _ Hs1 Hs2) as (? & ? & _ & ?). done.
Qed.

(** The creations of a [Promise.all], some of which may be rejected for an
    empty link: the others take effect all the same. *)
Lemma createBookmarks_some parent (rds : list Raindrop) :
  ∀ h, wf h → is_folder h parent = true →
    ∃ h' r, Promise_all (λ rd, let* _ := chrome_bookmarks_create parent (rd_title rd)
                                                                 (Some (rd_link rd)) in
                               ret tt) rds h = (h', r)
            ∧ wf h' ∧ grows h h'
            ∧ size (nodes h')
              = size (nodes h) + length (filter (λ rd, rd_link rd ≠ "") rds)
            ∧ Forall (λ rd, rd_link rd ≠ "" →
                            ∃ i, nodes h' !! i
                                 = Some (mkBookmark (Some parent) (rd_title rd)
                                                    (Some (rd_link rd)))) rds
            ∧ (r = Throw ↔ Exists (λ rd, rd_link rd = "") rds).
Proof.
  induction rds as [|rd rds IH]; intros h Hwf Hp.
  - exists h, (Return tt). split; [done|]. split; [done|]. split; [apply grows_refl|].
    split; [simpl; lia|]. split; [done|]. split; [done|]. by intros ?%Exists_nil.
  - destruct (decide (rd_link rd = "")) as [Hempty|Hlink].
    + destruct (IH h Hwf Hp) as (h' & r & Hrest & Hwf' & Hg' & Hsize' & Hnodes' & Hthrow').
      exists h', Throw. split.
      { simpl. unfold bind at 1. unfold chrome_bookmarks_create at 1.
        rewrite Hp, Hempty. simpl. by rewrite Hrest. }
      split; [done|]. split; [done|]. split.
      { rewrite filter_cons_False by (by intros ?). done. }
      split; [apply Forall_cons; split; [done | done]|].
      split; [intros _; by left | done].
    + destruct (create_ok parent (rd_title rd) (Some (rd_link rd)) h Hwf Hp)
        as (h1 & f & Hc & Hwf1 & Hg1 & _ & Hsize1 & Hnode1); [congruence|].
      destruct (IH h1 Hwf1 (grows_folder _ _ _ Hg1 Hp))
        as (h' & r & Hrest & Hwf' & Hg' & Hsize' & Hnodes' & Hthrow').
      exists h', r. split.
      { simpl. unfold bind at 1. rewrite Hc. unfold ret at 1. by rewrite Hrest. }
      split; [done|]. split; [by eapply grows_trans|]. split.
      { rewrite filter_cons_True by done. simpl. lia. }
      split.
      { apply Forall_cons. split; [|done]. intros _. exists (id f). by apply Hg'. }
      rewrite Hthrow'. rewrite Exists_cons. naive_solver.
Qed.

(** X17: what a rejection makes of the call.  When the listing of the root
    collection is rejected the call is rejected and nothing is created.
    When the creation of a bookmark is rejected, here for an empty link, the
    call is rejected as well, but the bookmarks of the other raindrops of
    the listing are created all the same, and no folder is: the children
    are not visited. *)
Theorem createBookmarksRecursively_rejections opts h :
  wf h →
  is_folder h (id (baseFolder opts)) = true →
  (getAllRaindrops (raindropClient opts) (collectionId_of (data (tree opts))) = None →
   createBookmarksRecursively opts h = (h, Throw))
  ∧ (∀ rds,
       getAllRaindrops (raindropClient opts) (collectionId_of (data (tree opts)))
       = Some rds →
       Exists (λ rd, rd_link rd = "") rds →
       ∃ h', createBookmarksRecursively opts h = (h', Throw)
             ∧ size (nodes h')
               = size (nodes h) + length (filter (λ rd, rd_link rd ≠ "") rds)
             ∧ Forall (λ rd, rd_link rd ≠ "" →
                             ∃ i, nodes h' !! i
                                  = Some (mkBookmark (Some (id (baseFolder opts)))
                                                     (rd_title rd) (Some (rd_link rd))))
                      rds
             ∧ ∀ i b, nodes h !! i = Some b → nodes h' !! i = Some b).
Proof.
  intros Hwf Hbase. unfold createBookmarksRecursively, createBookmarks,
    raindrop_getAllRaindrops. split.
  - intros ->. done.
  - intros rds -> Hbad. unfold bind at 1. unfold bind at 1. unfold ret at 1.
    destruct (createBookmarks_some (id (baseFolder opts)) rds h Hwf Hbase)
      as (h' & r & Hrun & _ & Hg & Hsize & Hnodes & Hthrow).
    rewrite Hrun. rewrite (proj2 Hthrow Hbad). by exists h'.
Qed.

(** * The folders of a run *)

(** The walk respects a relation that resolving a folder and handling an
    item respect. *)
Lemma walk_respects (R : Heap → Heap → Prop) c previousBookmarks t :
  (∀ h, R h h) → (∀ h1 h2 h3, R h1 h2 → R h2 h3 → R h1 h3) →
  (∀ parentFolder d, respects R (resolveFolder parentFolder d)) →
  (∀ folder d rd,
     respects R (processRaindrop folder (collectionId_of d) previousBookmarks rd)) →
  ∀ parentFolder,
    respects R (processCollectionForIncremental c previousBookmarks parentFolder t).
Proof.
  intros Hrefl Htrans Hresolve Hitem.
  induction t as [d cs IH] using TreeNode_induction. intros parentFolder. simpl.
  apply respects_bind; [done | apply Hresolve |]. intros folder.
  apply respects_bind; [done | |].
  { unfold raindrop_getAllRaindrops. destruct (getAllRaindrops c (collectionId_of d)).
    - by apply respects_ret.
    - by apply respects_throw. }
  intros raindrops.
  apply respects_bind; [done | |].
  { apply respects_for_of; [done | done |]. apply Forall_forall. intros rd _. apply Hitem. }
  intros [].
  apply respects_for_of; [done | done |].
  eapply Forall_impl; [exact IH|]. intros child Hchild. apply Hchild.
Qed.

Lemma create_issued h0 parent t u h h' r :
  chrome_bookmarks_create parent t u h = (h', r) → issued_since h0 h →
  issued_since h0 h'
  ∧ ∀ f, r = Return f → ∃ k, (nextId h0 ≤ k < nextId h')%N ∧ id f = pretty k.
Proof.
  intros Hrun (Hwf & Hle & Hmap).
  destruct (create_safe (λ _, False) _ _ _ _ _ _ Hrun) as [_ Hs].
  destruct (Hs Hwf) as [Hwf' _].
  apply create_inv in Hrun as [(-> & -> & _)|(_ & _ & -> & ->)].
  - split; [done | done].
  - split.
    + split; [done|]. simpl. split; [lia|]. intros cid f Hf.
      destruct (Hmap cid f Hf) as (k & Hk & ->). exists k. split; [lia | done].
    + intros f [= <-]. simpl. exists (nextId h). split; [lia | done].
Qed.

Lemma record_issued h0 cid (f : BookmarkTreeNode) h :
  issued_since h0 h →
  (∃ k, (nextId h0 ≤ k < nextId h)%N ∧ id f = pretty k) →
  issued_since h0 (set_newCollectionFolders (<[cid := id f]> (newCollectionFolders h)) h).
Proof.
  intros (Hwf & Hle & Hmap) Hf. split; [done|]. split; [done|]. simpl.
  intros cid' f' Hlook. destruct (decide (cid = cid')) as [->|Hne].
  - rewrite lookup_insert_eq in Hlook. by simplify_eq.
  - rewrite lookup_insert_ne in Hlook by done. by eapply Hmap.
Qed.

(** Resolving a folder records a folder that the run has created. *)
Lemma resolveFolder_issued h0 parentFolder d :
  respects (λ a b, issued_since h0 a → issued_since h0 b) (resolveFolder parentFolder d).
Proof.
  intros h h' r Hrun Hq. unfold resolveFolder in Hrun.
  destruct (truthy (title_of d)); [|unfold ret in Hrun; by simplify_eq].
  unfold bind at 1 in Hrun. unfold collectionFolders_get in Hrun.
  unfold bind at 1 in Hrun.
  assert (∀ ha ra, chrome_bookmarks_create (id parentFolder) (title_of d) None h = (ha, ra) →
                   match ra with
                   | Return folder =>
                       (let* _ := collectionFolders_set (collectionId_of d) (id folder) in
                        ret folder) ha
                   | Throw => (ha, Throw)
                   end = (h', r) →
                   issued_since h0 h') as Hcreate.
  { intros ha ra Hc Hrest. destruct (create_issued h0 _ _ _ _ _ _ Hc Hq) as [Hqa Hnew].
    destruct ra as [folder|]; [|by simplify_eq].
    unfold bind, collectionFolders_set, modify, ret in Hrest. simplify_eq.
    apply record_issued; [done|]. by apply Hnew. }
  destruct (newCollectionFolders h !! collectionId_of d) as [e|] eqn:He; simpl in Hrun.
  - destruct (truthy e).
    + unfold try_catch in Hrun.
      destruct (getFolderById e h) as [hg rg] eqn:Hg.
      apply getFolderById_inv in Hg as [-> [(-> & _)|(b & Hb & ->)]].
      * destruct (chrome_bookmarks_create _ _ _ h) as [ha ra] eqn:Hc.
        by eapply Hcreate.
      * unfold bind, collectionFolders_set, modify, ret in Hrun. simplify_eq.
        apply record_issued; [done|]. simpl.
        destruct Hq as (_ & _ & Hmap). by apply (Hmap _ _ He).
    + destruct (chrome_bookmarks_create _ _ _ h) as [ha ra] eqn:Hc. by eapply Hcreate.
  - destruct (chrome_bookmarks_create _ _ _ h) as [ha ra] eqn:Hc. by eapply Hcreate.
Qed.

Lemma nextId_grows_refl h : (nextId h ≤ nextId h)%N.
Proof. lia. Qed.

Lemma processRaindrop_issued h0 folder d previousBookmarks rd :
  respects (λ a b, issued_since h0 a → issued_since h0 b)
           (processRaindrop folder (collectionId_of d) previousBookmarks rd).
Proof.
  intros h h' r Hrun (Hwf & Hle & Hmap).
  destruct (processRaindrop_spec (λ _, True) _ _ d _ _ _ _ Hrun) as ([_ Hs] & Hcf & _);
    [done|].
  destruct (Hs Hwf) as [Hwf' _].
  assert (nextId h ≤ nextId h')%N as Hmono.
  { revert Hrun. apply (processRaindrop_steps (λ a b, (nextId a ≤ nextId b)%N)).
    - intros a. lia.
    - intros a b c' ? ?. lia.
    - intros parent t u a b r' Hab.
      apply create_inv in Hab as [(_ & -> & _)|(_ & _ & _ & ->)]; simpl; lia.
    - intros i t a b r' Hab.
      apply update_inv in Hab as [(_ & -> & _)|(? & _ & _ & ->)]; simpl; lia.
    - intros i p a b r' Hab.
      apply move_inv in Hab as [(_ & -> & _)|(? & _ & _ & _ & ->)]; simpl; lia.
    - intros cid rd' a b r' [= <- <-]. simpl. lia.
    - intros f a b r' [= <- <-]. simpl. lia. }
  split; [done|]. split; [lia|]. rewrite Hcf. intros cid f Hf.
  destruct (Hmap cid f Hf) as (k & Hk & ->). exists k. split; [lia | done].
Qed.

Lemma walk_issued h0 c previousBookmarks t parentFolder :
  respects (λ a b, issued_since h0 a → issued_since h0 b)
           (processCollectionForIncremental c previousBookmarks parentFolder t).
Proof.
  revert parentFolder. apply walk_respects.
  - done.
  - naive_solver.
  - intros parentFolder d. apply resolveFolder_issued.
  - intros folder d rd. apply processRaindrop_issued.
Qed.

Lemma stays_recorded_walk c previousBookmarks t parentFolder :
  respects stays_recorded (processCollectionForIncremental c previousBookmarks parentFolder t).
Proof.
  apply walk_steps.
  - by intros a cid.
  - intros h1 h2 h3 H12 H23 cid Hc. by apply H23, H12.
  - intros parent t' u a b r Hab cid.
    apply create_inv in Hab as [(_ & -> & _)|(_ & _ & _ & ->)]; done.
  - intros i t' a b r Hab cid.
    apply update_inv in Hab as [(_ & -> & _)|(? & _ & _ & ->)]; done.
  - intros i p a b r Hab cid.
    apply move_inv in Hab as [(_ & -> & _)|(? & _ & _ & _ & ->)]; done.
  - by intros cid rd a b r [= <- <-] cid'.
  - intros k v a b r [= <- <-] cid. simpl.
    destruct (decide (k = cid)) as [->|Hne].
    + rewrite lookup_insert_eq. by eexists.
    + by rewrite lookup_insert_ne.
  - by intros f a b r [= <- <-] cid.
Qed.

Lemma stays_recorded_items folder cid previousBookmarks l :
  respects stays_recorded (for_of (processRaindrop folder cid previousBookmarks) l).
Proof.
  apply respects_for_of.
  - by intros a cid'.
  - intros h1 h2 h3 H12 H23 cid' Hc. by apply H23, H12.
  - apply Forall_forall. intros rd _ h h' r Hrun cid' Hc.
    destruct (processRaindrop_spec (λ _, True) previousBookmarks folder
                (Some {| coll_id := cid; coll_title := "" |}) rd h h' r Hrun)
      as (_ & Hcf & _); [done|].
    by rewrite Hcf.
Qed.

Lemma stays_recorded_walk_children c previousBookmarks folder l :
  respects stays_recorded
           (for_of (processCollectionForIncremental c previousBookmarks folder) l).
Proof.
  apply respects_for_of.
  - by intros a cid'.
  - intros h1 h2 h3 H12 H23 cid' Hc. by apply H23, H12.
  - apply Forall_forall. intros t _. apply stays_recorded_walk.
Qed.

(** A walk that returns has recorded a folder for every titled collection
    of its tree. *)
Lemma walk_records c previousBookmarks t :
  ∀ parentFolder h h',
    processCollectionForIncremental c previousBookmarks parentFolder t h = (h', Return tt) →
    ∀ d, d ∈ payloads t → truthy (title_of d) = true →
         is_Some (newCollectionFolders h' !! collectionId_of d).
Proof.
  induction t as [d cs IH] using TreeNode_induction.
  intros parentFolder h h' Hrun d' Hd' Htitle. simpl in Hrun.
  unfold bind at 1 in Hrun.
  destruct (resolveFolder parentFolder d h) as [ha [folder|]] eqn:Hresolve; [|done].
  unfold bind at 1 in Hrun. unfold raindrop_getAllRaindrops in Hrun.
  destruct (getAllRaindrops c (collectionId_of d)) as [raindrops|]; [|done].
  unfold ret at 1 in Hrun. unfold bind at 1 in Hrun.
  destruct (for_of (processRaindrop _ _ _) raindrops ha) as [hb [[]|]] eqn:Hitems; [|done].
  simpl in Hd'. apply elem_of_cons in Hd' as [->|Hd'].
  - destruct (resolveFolder_spec (λ _, True) _ _ _ _ _ Hresolve) as (_ & _ & _ & Hf & _).
    specialize (Hf folder eq_refl). rewrite Htitle in Hf. destruct Hf as [Hcf _].
    eapply stays_recorded_walk_children; [exact Hrun|].
    eapply stays_recorded_items; [exact Hitems|].
    rewrite Hcf, lookup_insert_eq. by eexists.
  - apply list_elem_of_In, in_flat_map in Hd' as (child & Hchild & Hd').
    apply list_elem_of_In in Hchild, Hd'.
    apply list_elem_of_split in Hchild as (l1 & l2 & ->).
    rewrite for_of_app in Hrun.
    destruct (for_of _ l1 hb) as [hc [[]|]]; [|done].
    simpl in Hrun. unfold bind at 1 in Hrun.
    destruct (processCollectionForIncremental c previousBookmarks folder child hc)
      as [hd [[]|]] eqn:Hchild; [|done].
    apply Forall_app in IH as [_ [IH _]%Forall_cons].
    eapply stays_recorded_walk_children; [exact Hrun|].
    by eapply IH.
Qed.

(** The unsorted pass records a folder for the unsorted collection only. *)
Lemma unsorted_phase_same_titled opts previousBookmarks :
  respects same_titled_folders (unsorted_phase opts previousBookmarks).
Proof.
  set (R := same_titled_folders).
  assert (∀ h, R h h) as Hrefl by (by intros h cid).
  assert (∀ a b c, R a b → R b c → R a c) as Htrans.
  { intros a b c Hab Hbc cid Hcid. rewrite (Hbc cid Hcid). by apply Hab. }
  assert (∀ parent t u, respects R (chrome_bookmarks_create parent t u)) as Hc.
  { intros parent t u a b r Hab cid _.
    apply create_inv in Hab as [(_ & -> & _)|(_ & _ & _ & ->)]; done. }
  assert (∀ i t, respects R (chrome_bookmarks_update i t)) as Hu.
  { intros i t a b r Hab cid _.
    apply update_inv in Hab as [(_ & -> & _)|(? & _ & _ & ->)]; done. }
  assert (∀ cid rd, respects R (newBookmarks_set (rd_link rd) (bookmarkState_of cid rd)))
    as Hrec by (by intros cid rd a b r [= <- <-] cid' _).
  assert (∀ f, respects R (modify (λ h, set_stats (f (stats h)) h))) as Hst
    by (by intros f a b r [= <- <-] cid' _).
  unfold unsorted_phase. case_bool_decide; [|by apply respects_ret].
  unfold syncUnsortedCollection.
  apply respects_bind; [done | |intros existingFolderId].
  { by apply (read_steps R Hrefl (λ h, newCollectionFolders h !! UNSORTED_ID)). }
  apply respects_bind; [done | |intros unsortedFolder].
  { destruct (truthy_opt existingFolderId).
    - apply respects_try_catch; [done | by apply getFolderById_steps | apply Hc].
    - apply respects_bind; [done | by apply getChildren_steps | intros children].
      destruct (List.find _ children); [by apply respects_ret | apply Hc]. }
  apply respects_bind; [done | |intros _].
  { intros a b r [= <- <-] cid Hcid. simpl. by rewrite lookup_insert_ne. }
  apply respects_try_catch; [done | |by apply respects_ret].
  apply respects_bind; [done | by apply fetch_steps | intros raindrops].
  apply respects_for_of; [done | done |]. apply Forall_forall. intros rd _.
  by apply processUnsortedRaindrop_steps.
Qed.

(** X18: a run that goes through records, in the state it leaves, a folder
    for every titled collection of its tree other than the unsorted one, and
    that folder is one the run itself created: it was not in the store
    before the run, whatever the previous state had recorded for the
    collection. *)
Theorem every_run_makes_new_collection_folders opts h :
  run_ready opts h →
  ∃ h' s st,
    incrementalSync opts h = (h', Return s)
    ∧ this_syncState h' = Some st
    ∧ ∀ d, d ∈ payloads (tree opts) →
           truthy (title_of d) = true →
           collectionId_of d ≠ UNSORTED_ID →
           ∃ f, collectionFolders st !! collectionId_of d = Some f
                ∧ nodes h !! f = None
                ∧ is_folder h' f = true.
Proof.
  intros Hready. pose proof Hready as (Hwf & _).
  destruct (run_phases opts h Hready)
    as (h1 & h2 & h3 & Hwalk & Hunsorted & Hdel & Hrun
        & (Hwf1 & Hok1 & _) & (Hwf2 & Hs2 & _) & (_ & Hs3 & _ & Hcf3 & _)).
  destruct (run_returns_saved _ _ _ _ Hrun) as (_ & _ & Hstate).
  eexists _, _, _. split; [exact Hrun|]. split; [exact Hstate|].
  intros d Hd Htitle Hcid. simpl.
  destruct (walk_records _ _ _ _ _ _ Hwalk d Hd Htitle) as [f Hf].
  assert (issued_since (init_run h) h1) as (_ & _ & Hissued).
  { eapply walk_issued; [exact Hwalk|]. split; [done|]. split; [simpl; lia|].
    intros cid f'. simpl. by rewrite lookup_empty. }
  destruct (Hissued _ _ Hf) as (k & [Hk _] & ->). simpl in Hk.
  exists (pretty k). split.
  { rewrite Hcf3, (unsorted_phase_same_titled _ _ _ _ _ Hunsorted) by done. exact Hf. }
  split.
  - destruct Hwf as [Hids _]. destruct (nodes h !! pretty k) eqn:Hl; [|done].
    destruct (Hids (pretty k)) as (k' & Hk' & Heq); [by eexists|].
    apply (inj pretty) in Heq. lia.
  - destruct Hs2 as [_ Hs2]. destruct (Hs2 Hwf1) as [_ Hk2].
    destruct Hs3 as [_ Hs3]. destruct (Hs3 Hwf2) as [_ Hk3].
    change (is_folder h3 (pretty k) = true).
    eapply keeps_folder; [exact Hk3|]. eapply keeps_folder; [exact Hk2|].
    by eapply Hok1.
Qed.

(** * Items that did not change *)

(** An item that has the title and the collection of its previous state
    only bumps a counter. *)
Lemma processRaindrop_unchanged folder cid previousBookmarks rd previous h :
  previousBookmarks !! rd_link rd = Some previous →
  bs_title previous = rd_title rd → bs_collectionId previous = cid →
  ∃ h', processRaindrop folder cid previousBookmarks rd h = (h', Return tt)
        ∧ nodes h' = nodes h ∧ nextId h' = nextId h.
Proof.
  intros Hprev Ht Hc. unfold processRaindrop, bind, newBookmarks_set, modify. simpl.
  rewrite Hprev.
  rewrite (bool_decide_eq_false_2 (bs_title previous ≠ rd_title rd)) by (by intros ?).
  rewrite (bool_decide_eq_false_2 (bs_collectionId previous ≠ cid)) by (by intros ?).
  simpl. eexists. split; [done|]. done.
Qed.

(** The walk leaves the bookmarks of a URL as they are when every listing
    of the URL agrees with its previous state. *)
Lemma walk_leaves_unchanged c previousBookmarks baseFolder t u previous h0 h1 :
  wf h0 →
  previousBookmarks !! u = Some previous →
  (∀ d rd, (d, rd) ∈ items_of c t → rd_link rd = u →
           rd_title rd = bs_title previous ∧ collectionId_of d = bs_collectionId previous) →
  processCollectionForIncremental c previousBookmarks baseFolder t h0 = (h1, Return tt) →
  untouched h0 u h1.
Proof.
  intros Hwf0 Hprev Hsame Hwalk.
  pose (Inv := λ (l : list (option Collection * Raindrop)) (h : Heap),
          wf h ∧ untouched h0 u h).
  pose (F := λ (dq : option Collection) (fq : BookmarkTreeNode) (h : Heap), True).
  assert (triple (λ h, Inv [] h ∧ Forall (λ q, F q.1 q.2 h) [(None, baseFolder)])
            (processCollectionForIncremental c previousBookmarks baseFolder t)
            (λ _ h, Inv ([] ++ items_of c t) h
                    ∧ Forall (λ q, F q.1 q.2 h) [(None, baseFolder)])
            (λ _, True)) as Htriple.
  { apply (walk_rule Inv F (λ _, True)).
    - intros qs l dp p d' h [(Hwf & Hun) _].
      destruct (resolveFolder p d' h) as [h2 [f|]] eqn:Hrun; [|done].
      destruct (resolveFolder_spec (λ _, False) _ _ _ _ _ Hrun) as ([_ Hs] & _).
      destruct (Hs Hwf) as [Hwf2 Hk].
      split; [|by apply Forall_forall].
      split; [done|]. eapply untouched_aside; [by apply keeps_all_aside | done].
    - intros qs l dy fy rdy Hin h [(Hwf & Hun) _].
      destruct (processRaindrop fy (collectionId_of dy) previousBookmarks rdy h)
        as [h2 [[]|]] eqn:Hrun; [|done].
      split; [|by apply Forall_forall].
      destruct (decide (rd_link rdy = u)) as [Heq|Hne].
      + destruct (Hsame dy rdy Hin Heq) as [Ht Hc].
        destruct (processRaindrop_unchanged fy (collectionId_of dy) previousBookmarks
                    rdy previous h) as (h2' & Hrun' & Hnodes & Hnext);
          [by rewrite Heq | done | done |].
        assert (h2' = h2) as -> by congruence.
        split.
        * destruct Hwf as [Hids Hurls]. split.
          -- intros i. rewrite Hnodes, Hnext. apply Hids.
          -- intros i b. rewrite Hnodes. apply Hurls.
        * intros i b Hb Hu. rewrite Hnodes. by apply Hun.
      + destruct (processRaindrop_spec (λ v, v ≠ u) _ _ dy _ _ _ _ Hrun)
          as ([_ Hs] & _); [done|].
        destruct (Hs Hwf) as [Hwf2 Hk].
        split; [done|]. by eapply untouched_aside.
    - done. }
  specialize (Htriple h0). rewrite Hwalk in Htriple.
  destruct Htriple as [[_ Hun] _]; [|done].
  split; [|by apply Forall_singleton]. split; [done|]. by intros i b Hb _.
Qed.

(** X19: a run that goes through does not touch the bookmarks of a URL
    that the tree lists, when every listing of the URL in the tree has the
    title and the collection that the previous state holds for it: each
    bookmark that carried the URL before the run is in the store after it,
    with the title and the parent it had. *)
Theorem unchanged_item_is_left_alone opts h u previous :
  run_ready opts h →
  previous_of h !! u = Some previous →
  u ∈ links_of (items_of (raindropClient opts) (tree opts)) →
  (∀ d rd, (d, rd) ∈ items_of (raindropClient opts) (tree opts) → rd_link rd = u →
           rd_title rd = bs_title previous
           ∧ collectionId_of d = bs_collectionId previous) →
  ∃ h' s,
    incrementalSync opts h = (h', Return s)
    ∧ ∀ i b, nodes h !! i = Some b → bm_url b = Some u → nodes h' !! i = Some b.
Proof.
  intros Hready Hprev Hlisted Hsame.
  pose proof Hready as (Hwf & Hbase & _).
  destruct (run_phases opts h Hready)
    as (h1 & h2 & h3 & Hwalk & Hunsorted & Hdel & Hrun
        & (Hwf1 & Hok1 & Hbase1 & _ & Hnb1 & _)
        & (Hwf2 & _ & Hbooks) & _).
  set (items := items_of (raindropClient opts) (tree opts)) in *.
  assert (untouched (init_run h) u h1) as Hun1.
  { eapply walk_leaves_unchanged; [| exact Hprev | exact Hsame | exact Hwalk]. done. }
  assert (is_Some (newBookmarks h1 !! u)) as Hhas1.
  { unfold links_of in Hlisted. apply list_elem_of_fmap in Hlisted as (x & -> & Hx).
    rewrite Hnb1. by apply (record_items_has items ∅ x). }
  destruct (unsorted_phase_aside u _ _ _ _ Hunsorted Hwf1 Hok1 Hbase1 Hhas1) as (Hk2 & _).
  assert (is_Some (newBookmarks h2 !! u)) as Hhas2.
  { apply (f_equal fst) in Hbooks. simpl in Hbooks. rewrite Hbooks. unfold run_books.
    destruct Hhas1 as [v Hv]. exists v. apply unsorted_items_keeps. simpl.
    fold items. by rewrite <- Hnb1. }
  destruct (deletion_aside u _ _ _ _ _ Hdel Hwf2 Hhas2) as (_ & Hk3 & _).
  exists (finish_run h3), (stats h3). split; [exact Hrun|].
  change (untouched (init_run h) u h3).
  eapply untouched_aside; [exact Hk3|]. eapply untouched_aside; [exact Hk2|]. exact Hun1.
Qed.

(** * The folder of the unsorted collection *)

(** The loop over the unsorted raindrops leaves the recorded folders as
    they are. *)
Lemma unsorted_listing_same_folders c unsortedFolder previousBookmarks :
  respects (λ a b, newCollectionFolders b = newCollectionFolders a)
    (try_catch
       (let* raindrops := raindrop_getAllRaindrops c UNSORTED_ID in
        for_of (processUnsortedRaindrop unsortedFolder previousBookmarks) raindrops)
       (ret tt)).
Proof.
  set (R := λ a b : Heap, newCollectionFolders b = newCollectionFolders a).
  assert (∀ h, R h h) as Hrefl by done.
  assert (∀ a b c, R a b → R b c → R a c) as Htrans by (unfold R; congruence).
  apply respects_try_catch; [done | |by apply respects_ret].
  apply respects_bind; [done | by apply fetch_steps | intros raindrops].
  apply respects_for_of; [done | done |]. apply Forall_forall. intros rd _.
  apply processUnsortedRaindrop_steps; [done | done | | | |].
  - intros parent t u a b r Hab.
    apply create_inv in Hab as [(_ & -> & _)|(_ & _ & _ & ->)]; done.
  - intros i t a b r Hab.
    apply update_inv in Hab as [(_ & -> & _)|(? & _ & _ & ->)]; done.
  - by intros cid rd' a b r [= <- <-].
  - by intros f a b r [= <- <-].
Qed.

(** X20: when the run has recorded no folder for the unsorted collection
    and the managed folder has a child folder with the unsorted title,
    [syncUnsortedCollection] returns and records such a child, one that was
    in the store already, as the folder of the unsorted collection; it does
    so whatever the listing request and the handling of its items do. *)
Theorem unsorted_folder_is_found_by_title baseFolder c previousBookmarks h i b :
  wf h →
  is_folder h (id baseFolder) = true →
  newCollectionFolders h !! UNSORTED_ID = None →
  nodes h !! i = Some b →
  bm_parentId b = Some (id baseFolder) →
  bm_title b = UNSORTED_TITLE →
  bm_url b = None →
  ∃ h' f bf,
    syncUnsortedCollection baseFolder c previousBookmarks h = (h', Return tt)
    ∧ newCollectionFolders h' !! UNSORTED_ID = Some f
    ∧ nodes h !! f = Some bf
    ∧ bm_parentId bf = Some (id baseFolder)
    ∧ bm_title bf = UNSORTED_TITLE
    ∧ bm_url bf = None.
Proof.
  intros Hwf Hbase Hnone Hb Hparent Htitle Hurl.
  unfold syncUnsortedCollection.
  unfold bind at 1. unfold collectionFolders_get. rewrite Hnone. simpl truthy_opt.
  cbv iota. unfold bind at 1. unfold bind at 1.
  unfold chrome_bookmarks_getChildren. rewrite Hbase.
  set (children := search_nodes _ _).
  destruct (List.find _ children) as [existing|] eqn:Hfind.
  - apply find_some in Hfind as [Hin Hp].
    apply list_elem_of_In, search_nodes_spec in Hin as (bf & Hbf & Hpar & Heq).
    apply bool_decide_eq_true in Hpar.
    apply andb_true_iff in Hp as [Ht Hu]. apply bool_decide_eq_true in Ht.
    apply negb_true_iff in Hu. rewrite Heq in Ht, Hu. simpl in Ht, Hu.
    unfold ret at 1. unfold bind at 1. unfold collectionFolders_set, modify.
    set (h1 := set_newCollectionFolders _ h).
    destruct (try_catch _ _ h1) as [h' r] eqn:Hloop.
    pose proof (unsorted_listing_same_folders _ _ _ _ _ _ Hloop) as Hcf.
    assert (r = Return tt) as ->.
    { unfold try_catch in Hloop.
      destruct (bind _ _ h1) as [h2 [[]|]]; [by simplify_eq|].
      unfold ret in Hloop. by simplify_eq. }
    exists h', (id existing), bf. split; [done|].
    split; [rewrite Hcf; simpl; by rewrite lookup_insert_eq|].
    split; [done|]. split; [done|]. split; [done|].
    destruct (bm_url bf) as [u|] eqn:Hbu; [|done]. simpl in Hu.
    unfold truthy in Hu. apply negb_false_iff, bool_decide_eq_true in Hu. subst u.
    destruct Hwf as [_ Hurls]. by destruct (Hurls _ _ Hbf).
  - exfalso. pose proof (find_none _ _ Hfind (node_of i b)) as Hf. simpl in Hf.
    rewrite Hurl, Htitle in Hf. simpl in Hf.
    assert (true = false → False) as Hne by done. apply Hne, Hf.
    apply list_elem_of_In, search_nodes_spec. exists b. simpl.
    split; [done|]. split; [by apply bool_decide_eq_true | done].
Qed.

(** * The collections a run records a folder for *)

(** The walk respects a relation that the steps taken at the nodes of its
    tree respect. *)
Lemma walk_respects_payloads (R : Heap → Heap → Prop) c previousBookmarks t :
  (∀ h, R h h) → (∀ h1 h2 h3, R h1 h2 → R h2 h3 → R h1 h3) →
  (∀ parentFolder d, d ∈ payloads t → respects R (resolveFolder parentFolder d)) →
  (∀ folder d rd, d ∈ payloads t →
     respects R (processRaindrop folder (collectionId_of d) previousBookmarks rd)) →
  ∀ parentFolder,
    respects R (processCollectionForIncremental c previousBookmarks parentFolder t).
Proof.
  intros Hrefl Htrans.
  induction t as [d cs IH] using TreeNode_induction.
  intros Hresolve Hitem parentFolder. simpl.
  apply respects_bind; [done | apply Hresolve; simpl; by left |]. intros folder.
  apply respects_bind; [done | by apply fetch_steps |]. intros raindrops.
  apply respects_bind; [done | |].
  { apply respects_for_of; [done | done |]. apply Forall_forall. intros rd _.
    apply Hitem. simpl. by left. }
  intros [].
  apply respects_for_of; [done | done |].
  apply Forall_forall. intros child Hchild.
  rewrite Forall_forall in IH. apply (IH child Hchild).
  - intros p d' Hd'. apply Hresolve. simpl. right.
    apply list_elem_of_In, in_flat_map. exists child. split; by apply list_elem_of_In.
  - intros f d' rd Hd'. apply Hitem. simpl. right.
    apply list_elem_of_In, in_flat_map. exists child. split; by apply list_elem_of_In.
Qed.

(** Resolving the folder of a node records a folder for the node's
    collection, or nothing. *)
Lemma resolveFolder_records parentFolder d h h' r :
  resolveFolder parentFolder d h = (h', r) →
  newCollectionFolders h' = newCollectionFolders h
  ∨ ∃ f, newCollectionFolders h' = <[collectionId_of d := f]> (newCollectionFolders h).
Proof.
  set (R := λ a b : Heap, newCollectionFolders b = newCollectionFolders a).
  assert (∀ h, R h h) as Hrefl by done.
  assert (∀ a b c, R a b → R b c → R a c) as Htrans by (unfold R; congruence).
  assert (respects R (chrome_bookmarks_create (id parentFolder) (title_of d) None)) as Hc.
  { intros a b r' Hab.
    apply create_inv in Hab as [(_ & -> & _)|(_ & _ & _ & ->)]; done. }
  unfold resolveFolder. destruct (truthy (title_of d)); [|intros [= <- <-]; by left].
  unfold bind at 1. unfold collectionFolders_get. unfold bind at 1.
  set (m := if truthy_opt _ then _ else _).
  assert (respects R m) as Hm.
  { unfold m. destruct (truthy_opt _); [|done].
    apply respects_try_catch; [done | by apply getFolderById_steps | done]. }
  destruct (m h) as [h1 [folder|]] eqn:Hrun.
  - unfold bind, collectionFolders_set, modify, ret. intros [= <- <-]. right.
    exists (id folder). simpl. by rewrite (Hm _ _ _ Hrun).
  - intros [= <- <-]. left. by apply (Hm _ _ _ Hrun).
Qed.

(** A run that returns has recorded folders for collections of its tree and
    for the unsorted collection only. *)
Lemma run_records_within opts h h' s :
  incrementalSync opts h = (h', Return s) →
  ∀ k, is_Some (newCollectionFolders h' !! k) →
       k = UNSORTED_ID ∨ k ∈ collectionId_of <$> payloads (tree opts).
Proof.
  rewrite run_cases.
  destruct (processCollectionForIncremental _ _ _ _ _) as [h1 [[]|]] eqn:Hwalk; [|done].
  destruct (unsorted_phase _ _ h1) as [h2 [[]|]] eqn:Hunsorted; [|done].
  destruct (for_of _ _ h2) as [h3 [[]|]] eqn:Hdel; [|done].
  intros [= <- <-] k Hk. simpl in Hk.
  destruct (deletion_pass_spec (λ _, True) _ _ _ _ _ Hdel) as (_ & _ & _ & Hcf3 & _);
    [by apply Forall_forall|].
  rewrite Hcf3 in Hk.
  destruct (decide (k = UNSORTED_ID)) as [->|Hne]; [by left | right].
  rewrite (unsorted_phase_same_titled _ _ _ _ _ Hunsorted) in Hk by done.
  set (ids := collectionId_of <$> payloads (tree opts)).
  assert (records_within ids (init_run h) h1) as Hwithin.
  { revert Hwalk. apply walk_respects_payloads.
    - intros a k' Hk'. by left.
    - intros a b c Hab Hbc k' Hk'. destruct (Hbc k' Hk') as [Hb|?]; [|by right].
      by apply Hab.
    - intros p d Hd a b r Hab k' Hk'.
      destruct (resolveFolder_records _ _ _ _ _ Hab) as [Heq|[f Heq]];
        rewrite Heq in Hk'; [by left|].
      destruct (decide (collectionId_of d = k')) as [<-|Hne'].
      + right. apply list_elem_of_fmap. by exists d.
      + rewrite lookup_insert_ne in Hk' by done. by left.
    - intros f d rd Hd a b r Hab k' Hk'.
      destruct (processRaindrop_spec (λ _, True) _ _ d _ _ _ _ Hab) as (_ & Hcf & _);
        [done|].
      rewrite Hcf in Hk'. by left. }
  destruct (Hwithin k Hk) as [Hinit|?]; [|done].
  simpl in Hinit. rewrite lookup_empty in Hinit. by destruct Hinit.
Qed.

Lemma run_records_safe opts h h' s :
  Forall (λ d, safe_integer (collectionId_of d)) (payloads (tree opts)) →
  incrementalSync opts h = (h', Return s) →
  map_Forall (λ k _, safe_integer k) (newCollectionFolders h').
Proof.
  intros Hsafe Hrun k v Hk.
  destruct (run_records_within _ _ _ _ Hrun k) as [->|Hin]; [by eexists | |].
  - unfold safe_integer, MAX_SAFE_INTEGER, UNSORTED_ID. lia.
  - apply list_elem_of_fmap in Hin as (d & -> & Hd).
    rewrite Forall_forall in Hsafe. by apply Hsafe.
Qed.

(** X3: after a run that has returned, on a tree whose collection ids are
    safe integers, [getCollectionIdForFolder] answers from the folders the
    run recorded, through the string keys of the stored object and back: a
    collection it names is recorded with the folder, it answers [null] only
    when no collection is, and a folder recorded for one collection only
    leads back to that collection. *)
Theorem folder_leads_back_to_its_collection
    (Map_entries : MapOrder) opts h h' s f :
  (∀ m : gmap Z string, Map_entries _ _ _ _ m ≡ₚ map_to_list m) →
  Forall (λ d, safe_integer (collectionId_of d)) (payloads (tree opts)) →
  incrementalSync opts h = (h', Return s) →
  ∃ r, getCollectionIdForFolder Map_entries f h' = (h', Return r)
       ∧ match r with
         | Some c => newCollectionFolders h' !! c = Some f
         | None => ∀ c, newCollectionFolders h' !! c ≠ Some f
         end
       ∧ ∀ c, newCollectionFolders h' !! c = Some f →
              (∀ c', newCollectionFolders h' !! c' = Some f → c' = c) →
              r = Some c.
Proof.
  intros Hperm Hsafe Hrun. unfold getCollectionIdForFolder, bind.
  rewrite (run_then_load _ _ _ _ Hrun). simpl.
  rewrite parse_keys_kmap by by eapply run_records_safe.
  unfold ret. eexists. split; [done|].
  set (m := newCollectionFolders h').
  assert (∀ kv, kv ∈ Map_entries Z _ _ string m ↔ m !! kv.1 = Some kv.2) as Hin.
  { intros [k v]. rewrite (Hperm m). apply elem_of_map_to_list. }
  destruct (List.find _ _) as [[k v]|] eqn:Hfind; simpl.
  - apply find_some in Hfind as [Hkv Hv]. apply list_elem_of_In, Hin in Hkv.
    apply bool_decide_eq_true in Hv. simpl in *. subst v.
    split; [done|]. intros c Hc Huniq. f_equal. by apply Huniq.
  - assert (∀ c, m !! c ≠ Some f) as Hnone.
    { intros c Hc.
      pose proof (find_none _ _ Hfind (c, f)) as Hno. simpl in Hno.
      rewrite bool_decide_eq_false in Hno. apply Hno; [|done].
      apply list_elem_of_In, Hin. done. }
    split; [done|]. intros c Hc _. by destruct (Hnone c).
Qed.

(** * Concrete heaps *)

Lemma parents_check_sound h : parents_check h = true → parents_are_folders h.
Proof.
  unfold parents_check. intros Hc%bool_decide_eq_true j b p Hb Hp.
  specialize (Hc j b Hb). simpl in Hc. by rewrite Hp in Hc.
Qed.

Lemma listings_check_sound c t : listings_check c t = true → listings_ok c t.
Proof.
  unfold listings_check. intros [Hf Hl%bool_decide_eq_true]%andb_true_iff. by split.
Qed.

(** A bounded search for [root] among the ancestors of [j] finds it, when
    the chain of parents of [j] ends within the bound. *)
Lemma below_bounded m root n :
  ∀ j, below m root j → ancestor m (S n) j = None → under m root n j = true.
Proof.
  induction n as [|n IH]; intros j Hbelow Hend.
  - simpl. destruct Hbelow as [|j b p Hb Hp _]; [by rewrite bool_decide_eq_true_2|].
    simpl in Hend. by rewrite Hb, Hp in Hend.
  - destruct Hbelow as [|j b p Hb Hp Hup].
    + simpl. by rewrite bool_decide_eq_true_2.
    + cbn [under]. change (ancestor m (S (S n)) j) with
        (match m !! j with
         | Some b => match bm_parentId b with
                     | Some p => ancestor m (S n) p
                     | None => None
                     end
         | None => None
         end) in Hend.
      rewrite Hb, Hp in Hend |- *. rewrite (IH p Hup Hend). apply orb_true_r.
Qed.

Lemma snapshot_check_sound folder h n :
  snapshot_check folder h n = true →
  NoDup (id ∘ node <$> default [] (subtrees folder))
  ∧ (∀ j, j ∈ (id ∘ node <$> default [] (subtrees folder))
          ↔ ∃ b, nodes h !! j = Some b ∧ bm_parentId b = Some (id (node folder)))
  ∧ (∀ j b, nodes h !! j = Some b → bm_parentId b = Some (id (node folder)) →
            ¬ below (nodes h) j (id (node folder))).
Proof.
  unfold snapshot_check.
  intros [[[Hnd%bool_decide_eq_true Hset%bool_decide_eq_true]%andb_true_iff
            Hend%bool_decide_eq_true]%andb_true_iff Hnot]%andb_true_iff.
  assert (∀ j, j ∈ (id ∘ node <$> default [] (subtrees folder))
               ↔ ∃ b, nodes h !! j = Some b ∧ bm_parentId b = Some (id (node folder)))
    as Hchildren.
  { intros j. rewrite <- (elem_of_list_to_set (C := gset string)), Hset, elem_of_dom.
    split.
    - intros [b Hb]. apply map_lookup_filter_Some in Hb as [Hb Hp]. by exists b.
    - intros (b & Hb & Hp). exists b. by apply map_lookup_filter_Some. }
  split; [done|]. split; [done|].
  intros j b Hb Hp Hbelow.
  assert (j ∈ (id ∘ node <$> default [] (subtrees folder))) as Hin
    by (apply Hchildren; by exists b).
  apply list_elem_of_In in Hin.
  pose proof (proj1 (forallb_forall _ _) Hnot j Hin) as Hj.
  apply negb_true_iff in Hj.
  by rewrite (below_bounded _ _ _ _ Hbelow Hend) in Hj.
Qed.

(** * The further theorems at work on concrete inputs *)

Lemma run_leaves_untracked_nodes_alone_witness :
  wf Fixtures.stale_heap
  ∧ incrementalSync Fixtures.stale_opts Fixtures.stale_heap
    = ((incrementalSync Fixtures.stale_opts Fixtures.stale_heap).1,
       Return (mkStats 0 0 1 0))
  ∧ (∀ i b, nodes Fixtures.stale_heap !! i = Some b →
            (∀ u, bm_url b = Some u → previous_of Fixtures.stale_heap !! u = None) →
            nodes (incrementalSync Fixtures.stale_opts Fixtures.stale_heap).1 !! i
            = Some b)
  ∧ (∀ i, is_folder Fixtures.stale_heap i = true →
          is_folder (incrementalSync Fixtures.stale_opts Fixtures.stale_heap).1 i = true
          ∧ nodes (incrementalSync Fixtures.stale_opts Fixtures.stale_heap).1 !! i
            = nodes Fixtures.stale_heap !! i).
Proof.
  assert (wf Fixtures.stale_heap) as Hwf by (apply wf_check_sound; vm_compute; reflexivity).
  assert (incrementalSync Fixtures.stale_opts Fixtures.stale_heap
          = ((incrementalSync Fixtures.stale_opts Fixtures.stale_heap).1,
             Return (mkStats 0 0 1 0))) as Hrun by (vm_compute; reflexivity).
  split; [exact Hwf|]. split; [exact Hrun|].
  exact (run_leaves_untracked_nodes_alone _ _ _ _ Hwf Hrun).
Defined.

Lemma saved_entries_are_keyed_by_their_url_witness :
  incrementalSync Scenes.reading_list_opts Fixtures.empty_heap
  = ((incrementalSync Scenes.reading_list_opts Fixtures.empty_heap).1,
     Return (mkStats 2 0 0 0))
  ∧ ∃ st, storage (incrementalSync Scenes.reading_list_opts Fixtures.empty_heap).1
          = Some st
          ∧ ∀ u b, stored_bookmarks st !! u = Some b →
                   bs_url b = u ∧ bs_cover b ≠ Some "".
Proof.
  assert (incrementalSync Scenes.reading_list_opts Fixtures.empty_heap
          = ((incrementalSync Scenes.reading_list_opts Fixtures.empty_heap).1,
             Return (mkStats 2 0 0 0))) as Hrun by (vm_compute; reflexivity).
  split; [exact Hrun|].
  exact (saved_entries_are_keyed_by_their_url _ _ _ _ Hrun).
Defined.

Lemma folder_leads_back_to_its_collection_witness :
  (∀ m : gmap Z string, in_stored_order _ _ _ _ m ≡ₚ map_to_list m)
  ∧ Forall (λ d, safe_integer (collectionId_of d))
           (payloads (tree Scenes.reading_list_opts))
  ∧ incrementalSync Scenes.reading_list_opts Fixtures.empty_heap
    = ((incrementalSync Scenes.reading_list_opts Fixtures.empty_heap).1,
       Return (mkStats 2 0 0 0))
  ∧ ∃ r, getCollectionIdForFolder in_stored_order "2"
           (incrementalSync Scenes.reading_list_opts Fixtures.empty_heap).1
         = ((incrementalSync Scenes.reading_list_opts Fixtures.empty_heap).1, Return r)
         ∧ match r with
           | Some c => newCollectionFolders
                         (incrementalSync Scenes.reading_list_opts Fixtures.empty_heap).1
                       !! c = Some "2"
           | None => ∀ c, newCollectionFolders
                            (incrementalSync Scenes.reading_list_opts
                               Fixtures.empty_heap).1
                          !! c ≠ Some "2"
           end
         ∧ ∀ c, newCollectionFolders
                  (incrementalSync Scenes.reading_list_opts Fixtures.empty_heap).1
                !! c = Some "2" →
                (∀ c', newCollectionFolders
                         (incrementalSync Scenes.reading_list_opts Fixtures.empty_heap).1
                       !! c' = Some "2" → c' = c) →
                r = Some c.
Proof.
  assert (∀ m : gmap Z string, in_stored_order _ _ _ _ m ≡ₚ map_to_list m) as Hperm
    by (intros m; reflexivity).
  assert (incrementalSync Scenes.reading_list_opts Fixtures.empty_heap
          = ((incrementalSync Scenes.reading_list_opts Fixtures.empty_heap).1,
             Return (mkStats 2 0 0 0))) as Hrun by (vm_compute; reflexivity).
  assert (Forall (λ d, safe_integer (collectionId_of d))
                 (payloads (tree Scenes.reading_list_opts))) as Hsafe.
  { simpl. repeat (apply Forall_cons; split); [| |apply Forall_nil];
      unfold safe_integer, MAX_SAFE_INTEGER; simpl; lia. }
  split; [exact Hperm|]. split; [exact Hsafe|]. split; [exact Hrun|].
  exact (folder_leads_back_to_its_collection in_stored_order _ _ _ _ "2"
           Hperm Hsafe Hrun).
Defined.

Lemma getRaindropIdForUrl_after_a_run_witness :
  run_ready Fixtures.shared_link_opts Fixtures.empty_heap
  ∧ ∃ h' s,
      incrementalSync Fixtures.shared_link_opts Fixtures.empty_heap = (h', Return s)
      ∧ (∀ l1 d rd l2,
           items_of (raindropClient Fixtures.shared_link_opts)
                    (tree Fixtures.shared_link_opts) = l1 ++ (d, rd) :: l2 →
           rd_link rd ∉ links_of l2 →
           getRaindropIdForUrl (rd_link rd) h' = (h', Return (Some (rd_id rd))))
      ∧ (∀ l1 rd l2,
           unsorted_listing Fixtures.shared_link_opts = l1 ++ rd :: l2 →
           rd_link rd ∉ links_of (items_of (raindropClient Fixtures.shared_link_opts)
                                           (tree Fixtures.shared_link_opts)) →
           rd_link rd ∉ rd_link <$> l1 →
           getRaindropIdForUrl (rd_link rd) h' = (h', Return (Some (rd_id rd))))
      ∧ (∀ u, u ∉ links_of (items_of (raindropClient Fixtures.shared_link_opts)
                                     (tree Fixtures.shared_link_opts)) →
              u ∉ rd_link <$> unsorted_listing Fixtures.shared_link_opts →
              getRaindropIdForUrl u h' = (h', Return None)).
Proof.
  assert (run_ready Fixtures.shared_link_opts Fixtures.empty_heap) as Hready
    by (apply ready_by_computation; vm_compute; reflexivity).
  split; [exact Hready|].
  exact (getRaindropIdForUrl_after_a_run _ _ Hready).
Defined.

Lemma covers_listed_are_the_covers_found_witness :
  (∀ m : gmap string BookmarkState, in_stored_order _ _ _ _ m ≡ₚ map_to_list m)
  ∧ incrementalSync Scenes.reading_list_opts Fixtures.empty_heap
    = ((incrementalSync Scenes.reading_list_opts Fixtures.empty_heap).1,
       Return (mkStats 2 0 0 0))
  ∧ ∃ l, getAllBookmarksWithCovers in_stored_order
           (incrementalSync Scenes.reading_list_opts Fixtures.empty_heap).1
         = ((incrementalSync Scenes.reading_list_opts Fixtures.empty_heap).1, Return l)
         ∧ NoDup l
         ∧ ∀ b, b ∈ l
                ↔ newBookmarks (incrementalSync Scenes.reading_list_opts
                                  Fixtures.empty_heap).1 !! bs_url b = Some b
                  ∧ ∃ c, getCoverForUrl (bs_url b)
                           (incrementalSync Scenes.reading_list_opts
                              Fixtures.empty_heap).1
                         = ((incrementalSync Scenes.reading_list_opts
                               Fixtures.empty_heap).1, Return (Some c)).
Proof.
  assert (∀ m : gmap string BookmarkState, in_stored_order _ _ _ _ m ≡ₚ map_to_list m)
    as Hperm by (intros m; reflexivity).
  assert (incrementalSync Scenes.reading_list_opts Fixtures.empty_heap
          = ((incrementalSync Scenes.reading_list_opts Fixtures.empty_heap).1,
             Return (mkStats 2 0 0 0))) as Hrun by (vm_compute; reflexivity).
  split; [exact Hperm|]. split; [exact Hrun|].
  exact (covers_listed_are_the_covers_found in_stored_order _ _ _ _ Hperm Hrun).
Defined.

Lemma every_listing_is_counted_once_witness :
  run_ready Fixtures.twice_opts Fixtures.empty_heap
  ∧ ∃ h' s st,
      incrementalSync Fixtures.twice_opts Fixtures.empty_heap = (h', Return s)
      ∧ added s + updated s + unchanged s
        = length (items_of (raindropClient Fixtures.twice_opts)
                           (tree Fixtures.twice_opts))
          + size (new_unsorted_links Fixtures.twice_opts)
      ∧ storage h' = Some st
      ∧ dom (stored_bookmarks st)
        = list_to_set (links_of (items_of (raindropClient Fixtures.twice_opts)
                                          (tree Fixtures.twice_opts)))
          ∪ list_to_set (rd_link <$> unsorted_listing Fixtures.twice_opts).
Proof.
  assert (run_ready Fixtures.twice_opts Fixtures.empty_heap) as Hready
    by (apply ready_by_computation; vm_compute; reflexivity).
  split; [exact Hready|].
  exact (every_listing_is_counted_once _ _ Hready).
Defined.

Lemma untitled_root_takes_the_unsorted_listing_witness :
  run_ready Fixtures.moved_to_root_opts Fixtures.moved_heap
  ∧ data (tree Fixtures.moved_to_root_opts) = None
  ∧ ∃ h' s st,
      incrementalSync Fixtures.moved_to_root_opts Fixtures.moved_heap = (h', Return s)
      ∧ storage h' = Some st
      ∧ stored_bookmarks st
        = record_items (items_of (raindropClient Fixtures.moved_to_root_opts)
                                 (tree Fixtures.moved_to_root_opts)) ∅
      ∧ added s = added (tally (previous_of Fixtures.moved_heap)
                               (items_of (raindropClient Fixtures.moved_to_root_opts)
                                         (tree Fixtures.moved_to_root_opts))
                               (mkStats 0 0 0 0))
      ∧ updated s = updated (tally (previous_of Fixtures.moved_heap)
                                   (items_of (raindropClient Fixtures.moved_to_root_opts)
                                             (tree Fixtures.moved_to_root_opts))
                                   (mkStats 0 0 0 0))
      ∧ unchanged s = unchanged (tally (previous_of Fixtures.moved_heap)
                                       (items_of (raindropClient Fixtures.moved_to_root_opts)
                                                 (tree Fixtures.moved_to_root_opts))
                                       (mkStats 0 0 0 0))
      ∧ Forall (λ rd, (None, rd) ∈ items_of (raindropClient Fixtures.moved_to_root_opts)
                                            (tree Fixtures.moved_to_root_opts))
               (unsorted_listing Fixtures.moved_to_root_opts).
Proof.
  assert (run_ready Fixtures.moved_to_root_opts Fixtures.moved_heap) as Hready
    by (apply ready_by_computation; vm_compute; reflexivity).
  split; [exact Hready|]. split; [reflexivity|].
  exact (untitled_root_takes_the_unsorted_listing _ _ Hready eq_refl).
Defined.

Lemma stale_bookmarks_are_removed_witness :
  run_ready Fixtures.stale_opts Fixtures.stale_heap
  ∧ parents_are_folders Fixtures.stale_heap
  ∧ ∃ h' s,
      incrementalSync Fixtures.stale_opts Fixtures.stale_heap = (h', Return s)
      ∧ ∀ u, is_Some (previous_of Fixtures.stale_heap !! u) →
             u ∉ links_of (items_of (raindropClient Fixtures.stale_opts)
                                    (tree Fixtures.stale_opts)) →
             u ∉ rd_link <$> unsorted_listing Fixtures.stale_opts →
             ∀ i b, nodes h' !! i = Some b → bm_url b = Some u → bm_parentId b = None.
Proof.
  assert (run_ready Fixtures.stale_opts Fixtures.stale_heap) as Hready
    by (apply ready_by_computation; vm_compute; reflexivity).
  assert (parents_are_folders Fixtures.stale_heap) as Hpaf
    by (apply parents_check_sound; vm_compute; reflexivity).
  split; [exact Hready|]. split; [exact Hpaf|].
  exact (stale_bookmarks_are_removed _ _ Hready Hpaf).
Defined.

Lemma unsorted_listing_rejection_is_caught_in_its_pass_only_witness :
  (let opts := mkOpts Fixtures.base (mkTreeNode None []) Scenes.no_unsorted_client None in
   getAllRaindrops (raindropClient opts) UNSORTED_ID = None
   ∧ UNSORTED_ID ∈ collectionId_of <$> payloads (tree opts)
   ∧ ∃ h', incrementalSync opts Fixtures.moved_heap = (h', Throw)
           ∧ storage h' = storage Fixtures.moved_heap
           ∧ storage_writes h' = storage_writes Fixtures.moved_heap)
  ∧ getAllRaindrops (raindropClient Scenes.no_unsorted_opts) UNSORTED_ID = None
  ∧ run_ready Scenes.no_unsorted_opts Fixtures.moved_heap
  ∧ parents_are_folders Fixtures.moved_heap
  ∧ includeUnsorted Scenes.no_unsorted_opts ≠ Some false
  ∧ (UNSORTED_ID ∉ collectionId_of <$> payloads (tree Scenes.no_unsorted_opts))
  ∧ ∃ h' s st,
      incrementalSync Scenes.no_unsorted_opts Fixtures.moved_heap = (h', Return s)
      ∧ storage h' = Some st
      ∧ stored_bookmarks st
        = record_items (items_of (raindropClient Scenes.no_unsorted_opts)
                                 (tree Scenes.no_unsorted_opts)) ∅
      ∧ ∀ u, is_Some (previous_of Fixtures.moved_heap !! u) →
             u ∉ links_of (items_of (raindropClient Scenes.no_unsorted_opts)
                                    (tree Scenes.no_unsorted_opts)) →
             ∀ i b, nodes h' !! i = Some b → bm_url b = Some u → bm_parentId b = None.
Proof.
  assert (run_ready Scenes.no_unsorted_opts Fixtures.moved_heap) as Hready
    by (apply ready_by_computation; vm_compute; reflexivity).
  assert (parents_are_folders Fixtures.moved_heap) as Hpaf
    by (apply parents_check_sound; vm_compute; reflexivity).
  assert (includeUnsorted Scenes.no_unsorted_opts ≠ Some false) as Hon
    by (simpl; discriminate).
  split.
  { intros opts.
    assert (UNSORTED_ID ∈ collectionId_of <$> payloads (tree opts)) as Hin
      by (simpl; apply list_elem_of_here).
    split; [reflexivity|]. split; [exact Hin|].
    exact (proj1 (unsorted_listing_rejection_is_caught_in_its_pass_only opts Fixtures.moved_heap
                    eq_refl) Hin). }
  split; [reflexivity|]. split; [exact Hready|]. split; [exact Hpaf|].
  split; [exact Hon|].
  exact (proj2 (unsorted_listing_rejection_is_caught_in_its_pass_only Scenes.no_unsorted_opts
                  Fixtures.moved_heap eq_refl) Hready Hpaf Hon).
Defined.

Lemma clearAllBookmarksInFolder_empties_the_folder_witness :
  NoDup (id ∘ node <$> default [] (subtrees Scenes.managed_subtree))
  ∧ (∀ j, j ∈ (id ∘ node <$> default [] (subtrees Scenes.managed_subtree))
          ↔ ∃ b, nodes Fixtures.moved_heap !! j = Some b
                 ∧ bm_parentId b = Some (id (node Scenes.managed_subtree)))
  ∧ (∀ j b, nodes Fixtures.moved_heap !! j = Some b →
            bm_parentId b = Some (id (node Scenes.managed_subtree)) →
            ¬ below (nodes Fixtures.moved_heap) j (id (node Scenes.managed_subtree)))
  ∧ ∃ h',
      clearAllBookmarksInFolder Scenes.managed_subtree Fixtures.moved_heap
      = (h', Return tt)
      ∧ nodes h' !! id (node Scenes.managed_subtree)
        = nodes Fixtures.moved_heap !! id (node Scenes.managed_subtree)
      ∧ (∀ j, below (nodes h') (id (node Scenes.managed_subtree)) j →
              j = id (node Scenes.managed_subtree))
      ∧ (∀ j b, nodes h' !! j = Some b → nodes Fixtures.moved_heap !! j = Some b)
      ∧ (∀ j b, nodes Fixtures.moved_heap !! j = Some b →
                ¬ below (nodes Fixtures.moved_heap) (id (node Scenes.managed_subtree)) j →
                nodes h' !! j = Some b)
      ∧ static Fixtures.moved_heap h'.
Proof.
  destruct (snapshot_check_sound Scenes.managed_subtree Fixtures.moved_heap 4)
    as (Hnd & Hchildren & Hapart); [vm_compute; reflexivity|].
  split; [exact Hnd|]. split; [exact Hchildren|]. split; [exact Hapart|].
  exact (clearAllBookmarksInFolder_empties_the_folder _ _ Hnd Hchildren Hapart).
Defined.

Lemma started_listener_is_told_every_change_witness :
  (∀ k, registered Scenes.quiet_browser k = [])
  ∧ called (fire_all Scenes.some_events
              (startBrowserChangeListener "ui" Scenes.quiet_browser))
    = called Scenes.quiet_browser
      ++ ((λ c, ("ui", c)) <$> omap change_of Scenes.some_events).
Proof.
  assert (∀ k, registered Scenes.quiet_browser k = []) as Hquiet
    by (intros k; reflexivity).
  split; [exact Hquiet|].
  exact (started_listener_is_told_every_change "ui" _ Scenes.some_events Hquiet).
Defined.

Lemma stop_undoes_start_witness :
  (∀ k l, l ∈ registered Scenes.quiet_browser k →
          (function_id l < next_function Scenes.quiet_browser)%nat)
  ∧ (∀ k, registered (stopBrowserChangeListener
                        (startBrowserChangeListener "ui" Scenes.quiet_browser)) k
          = registered Scenes.quiet_browser k)
  ∧ this_browserChangeListeners
      (stopBrowserChangeListener (startBrowserChangeListener "ui" Scenes.quiet_browser))
    = []
  ∧ this_onBrowserChange
      (stopBrowserChangeListener (startBrowserChangeListener "ui" Scenes.quiet_browser))
    = None
  ∧ called (fire_all Scenes.some_events
              (stopBrowserChangeListener
                 (startBrowserChangeListener "ui" Scenes.quiet_browser)))
    = called (fire_all Scenes.some_events Scenes.quiet_browser).
Proof.
  assert (∀ k l, l ∈ registered Scenes.quiet_browser k →
                 (function_id l < next_function Scenes.quiet_browser)%nat) as Hold
    by (intros k l Hl; simpl in Hl; by apply elem_of_nil in Hl).
  split; [exact Hold|].
  exact (stop_undoes_start "ui" _ Scenes.some_events Hold).
Defined.

Lemma second_start_strands_the_first_witness :
  (∀ k, registered Scenes.quiet_browser k = [])
  ∧ let b2 := stopBrowserChangeListener
                (startBrowserChangeListener "second"
                   (startBrowserChangeListener "first" Scenes.quiet_browser)) in
    this_browserChangeListeners b2 = []
    ∧ this_onBrowserChange b2 = None
    ∧ called (fire_all Scenes.some_events b2)
      = called Scenes.quiet_browser
        ++ ((λ c, ("first", c)) <$> omap change_of Scenes.some_events)
    ∧ ∀ k, registered (stopBrowserChangeListener b2) k = registered b2 k.
Proof.
  assert (∀ k, registered Scenes.quiet_browser k = []) as Hquiet
    by (intros k; reflexivity).
  split; [exact Hquiet|].
  exact (second_start_strands_the_first "first" "second" _ Scenes.some_events Hquiet).
Defined.

Lemma createBookmarksRecursively_builds_the_tree_witness :
  wf Fixtures.empty_heap
  ∧ is_folder Fixtures.empty_heap (id (baseFolder Fixtures.twice_opts)) = true
  ∧ listings_ok (raindropClient Fixtures.twice_opts) (tree Fixtures.twice_opts)
  ∧ (2 * tree_size (tree Fixtures.twice_opts) ≤ length [1; 0; 1; 0; 0; 0])%nat
  ∧ ∃ h1 started h2,
      createBookmarksRecursively Fixtures.twice_opts Fixtures.empty_heap
      = (h1, Return started)
      ∧ size (nodes h1)
        = size (nodes Fixtures.empty_heap)
          + length (default [] (getAllRaindrops (raindropClient Fixtures.twice_opts)
                                  (collectionId_of (data (tree Fixtures.twice_opts)))))
          + length (children (tree Fixtures.twice_opts))
      ∧ turns (raindropClient Fixtures.twice_opts) [1; 0; 1; 0; 0; 0] started h1
        = (h2, [])
      ∧ placed (raindropClient Fixtures.twice_opts) (nodes h2)
               (id (baseFolder Fixtures.twice_opts)) (tree Fixtures.twice_opts)
      ∧ size (nodes h2)
        = size (nodes Fixtures.empty_heap)
          + length (items_of (raindropClient Fixtures.twice_opts)
                             (tree Fixtures.twice_opts))
          + (tree_size (tree Fixtures.twice_opts) - 1)
      ∧ (∀ i b, nodes Fixtures.empty_heap !! i = Some b → nodes h2 !! i = Some b)
      ∧ static Fixtures.empty_heap h2.
Proof.
  assert (wf Fixtures.empty_heap) as Hwf by (apply wf_check_sound; vm_compute; reflexivity).
  assert (is_folder Fixtures.empty_heap (id (baseFolder Fixtures.twice_opts)) = true)
    as Hbase by (vm_compute; reflexivity).
  assert (listings_ok (raindropClient Fixtures.twice_opts) (tree Fixtures.twice_opts))
    as Hok by (apply listings_check_sound; vm_compute; reflexivity).
  assert (2 * tree_size (tree Fixtures.twice_opts) ≤ length [1; 0; 1; 0; 0; 0])%nat
    as Hlong by (simpl; lia).
  split; [exact Hwf|]. split; [exact Hbase|]. split; [exact Hok|]. split; [exact Hlong|].
  exact (createBookmarksRecursively_builds_the_tree _ _ _ Hwf Hbase Hok Hlong).
Defined.

Lemma createBookmarksRecursively_only_adds_witness :
  wf Fixtures.moved_heap
  ∧ createBookmarksRecursively Scenes.broken_list_opts Fixtures.moved_heap
    = ((createBookmarksRecursively Scenes.broken_list_opts Fixtures.moved_heap).1, Throw)
  ∧ turns (raindropClient Scenes.broken_list_opts) [0; 0] []
          (createBookmarksRecursively Scenes.broken_list_opts Fixtures.moved_heap).1
    = ((createBookmarksRecursively Scenes.broken_list_opts Fixtures.moved_heap).1, [])
  ∧ (∀ i b, nodes Fixtures.moved_heap !! i = Some b →
            nodes (createBookmarksRecursively Scenes.broken_list_opts
                     Fixtures.moved_heap).1 !! i = Some b)
  ∧ storage (createBookmarksRecursively Scenes.broken_list_opts Fixtures.moved_heap).1
    = storage Fixtures.moved_heap
  ∧ storage_writes (createBookmarksRecursively Scenes.broken_list_opts
                      Fixtures.moved_heap).1
    = storage_writes Fixtures.moved_heap
  ∧ this_syncState (createBookmarksRecursively Scenes.broken_list_opts
                      Fixtures.moved_heap).1
    = this_syncState Fixtures.moved_heap.
Proof.
  assert (wf Fixtures.moved_heap) as Hwf by (apply wf_check_sound; vm_compute; reflexivity).
  assert (createBookmarksRecursively Scenes.broken_list_opts Fixtures.moved_heap
          = ((createBookmarksRecursively Scenes.broken_list_opts Fixtures.moved_heap).1,
             Throw)) as Hrun by (vm_compute; reflexivity).
  assert (turns (raindropClient Scenes.broken_list_opts) [0; 0] []
                (createBookmarksRecursively Scenes.broken_list_opts Fixtures.moved_heap).1
          = ((createBookmarksRecursively Scenes.broken_list_opts Fixtures.moved_heap).1,
             [])) as Hturns by reflexivity.
  split; [exact Hwf|]. split; [exact Hrun|]. split; [exact Hturns|].
  exact (createBookmarksRecursively_only_adds Scenes.broken_list_opts _ [0; 0] _ Throw _ []
           Hwf Hrun Hturns).
Defined.

Lemma createBookmarksRecursively_rejections_witness :
  wf Fixtures.moved_heap
  ∧ is_folder Fixtures.moved_heap (id (baseFolder Scenes.broken_list_opts)) = true
  ∧ ∃ h', createBookmarksRecursively Scenes.broken_list_opts Fixtures.moved_heap
          = (h', Throw)
          ∧ size (nodes h') = size (nodes Fixtures.moved_heap) + 2
          ∧ ∀ i b, nodes Fixtures.moved_heap !! i = Some b → nodes h' !! i = Some b.
Proof.
  assert (wf Fixtures.moved_heap) as Hwf by (apply wf_check_sound; vm_compute; reflexivity).
  assert (is_folder Fixtures.moved_heap (id (baseFolder Scenes.broken_list_opts)) = true)
    as Hbase by (vm_compute; reflexivity).
  split; [exact Hwf|]. split; [exact Hbase|].
  destruct (createBookmarksRecursively_rejections Scenes.broken_list_opts
              Fixtures.moved_heap Hwf Hbase) as [_ Hbroken].
  destruct (Hbroken [Fixtures.rd 11 Fixtures.url_a "A"; Fixtures.rd 12 "" "Nothing";
                     Scenes.rd_b])
    as (h' & Hrun & Hsize & _ & Hkept).
  - reflexivity.
  - apply Exists_cons. right. apply Exists_cons. by left.
  - exists h'. split; [exact Hrun|]. split; [exact Hsize | exact Hkept].
Defined.

Lemma every_run_makes_new_collection_folders_witness :
  run_ready Fixtures.reading_opts Fixtures.reading_heap
  ∧ ∃ h' s st,
      incrementalSync Fixtures.reading_opts Fixtures.reading_heap = (h', Return s)
      ∧ this_syncState h' = Some st
      ∧ ∀ d, d ∈ payloads (tree Fixtures.reading_opts) →
             truthy (title_of d) = true →
             collectionId_of d ≠ UNSORTED_ID →
             ∃ f, collectionFolders st !! collectionId_of d = Some f
                  ∧ nodes Fixtures.reading_heap !! f = None
                  ∧ is_folder h' f = true.
Proof.
  assert (run_ready Fixtures.reading_opts Fixtures.reading_heap) as Hready
    by (apply ready_by_computation; vm_compute; reflexivity).
  split; [exact Hready|].
  exact (every_run_makes_new_collection_folders _ _ Hready).
Defined.

Lemma unchanged_item_is_left_alone_witness :
  let previous := mkBookmarkState Fixtures.url_a "A" 7 100 None None in
  let items := items_of (raindropClient Scenes.reading_list_opts)
                        (tree Scenes.reading_list_opts) in
  run_ready Scenes.reading_list_opts Fixtures.moved_heap
  ∧ previous_of Fixtures.moved_heap !! Fixtures.url_a = Some previous
  ∧ Fixtures.url_a ∈ links_of items
  ∧ (∀ d rd, (d, rd) ∈ items → rd_link rd = Fixtures.url_a →
             rd_title rd = bs_title previous
             ∧ collectionId_of d = bs_collectionId previous)
  ∧ ∃ h' s,
      incrementalSync Scenes.reading_list_opts Fixtures.moved_heap = (h', Return s)
      ∧ ∀ i b, nodes Fixtures.moved_heap !! i = Some b →
               bm_url b = Some Fixtures.url_a → nodes h' !! i = Some b.
Proof.
  intros previous items.
  assert (run_ready Scenes.reading_list_opts Fixtures.moved_heap) as Hready
    by (apply ready_by_computation; vm_compute; reflexivity).
  assert (previous_of Fixtures.moved_heap !! Fixtures.url_a = Some previous) as Hprev
    by (vm_compute; reflexivity).
  assert (items = [(Some (mkCollection 7 "Reading"), Fixtures.rd 11 Fixtures.url_a "A");
                   (Some (mkCollection 7 "Reading"), Scenes.rd_b)]) as Hitems
    by (vm_compute; reflexivity).
  assert (Fixtures.url_a ∈ links_of items) as Hlisted
    by (rewrite Hitems; simpl; apply list_elem_of_here).
  assert (∀ d rd, (d, rd) ∈ items → rd_link rd = Fixtures.url_a →
                  rd_title rd = bs_title previous
                  ∧ collectionId_of d = bs_collectionId previous) as Hsame.
  { rewrite Hitems. intros d rd0 Hin Heq.
    apply elem_of_cons in Hin as [Hin|Hin]; [by injection Hin as -> ->|].
    apply elem_of_cons in Hin as [Hin|Hin]; [|by apply elem_of_nil in Hin].
    injection Hin as -> ->. discriminate Heq. }
  split; [exact Hready|]. split; [exact Hprev|]. split; [exact Hlisted|].
  split; [exact Hsame|].
  exact (unchanged_item_is_left_alone Scenes.reading_list_opts Fixtures.moved_heap
           Fixtures.url_a previous Hready Hprev Hlisted Hsame).
Defined.

Lemma unsorted_folder_is_found_by_title_witness :
  let h := Scenes.unsorted_heap in
  let b := mkBookmark (Some "1") UNSORTED_TITLE None in
  let c := raindropClient Fixtures.moved_to_root_opts in
  wf h
  ∧ is_folder h (id Fixtures.base) = true
  ∧ newCollectionFolders h !! UNSORTED_ID = None
  ∧ nodes h !! "2" = Some b
  ∧ bm_parentId b = Some (id Fixtures.base)
  ∧ bm_title b = UNSORTED_TITLE
  ∧ bm_url b = None
  ∧ ∃ h' f bf,
      syncUnsortedCollection Fixtures.base c ∅ h = (h', Return tt)
      ∧ newCollectionFolders h' !! UNSORTED_ID = Some f
      ∧ nodes h !! f = Some bf
      ∧ bm_parentId bf = Some (id Fixtures.base)
      ∧ bm_title bf = UNSORTED_TITLE
      ∧ bm_url bf = None.
Proof.
  intros h b c.
  assert (wf h) as Hwf by (apply wf_check_sound; vm_compute; reflexivity).
  assert (is_folder h (id Fixtures.base) = true) as Hbase by (vm_compute; reflexivity).
  assert (newCollectionFolders h !! UNSORTED_ID = None) as Hnone
    by (vm_compute; reflexivity).
  assert (nodes h !! "2" = Some b) as Hb by (vm_compute; reflexivity).
  split; [exact Hwf|]. split; [exact Hbase|]. split; [exact Hnone|].
  split; [exact Hb|]. split; [reflexivity|]. split; [reflexivity|].
  split; [reflexivity|].
  exact (unsorted_folder_is_found_by_title Fixtures.base c ∅ h "2" b
           Hwf Hbase Hnone Hb eq_refl eq_refl eq_refl).
Defined.

Lemma first_run_adds_everything_witness :
  storage Fixtures.empty_heap = None
  ∧ run_ready Fixtures.shared_link_opts Fixtures.empty_heap
  ∧ ∃ h' s,
      incrementalSync Fixtures.shared_link_opts Fixtures.empty_heap = (h', Return s)
      ∧ added s = length (items_of (raindropClient Fixtures.shared_link_opts)
                                   (tree Fixtures.shared_link_opts))
                  + size (new_unsorted_links Fixtures.shared_link_opts)
      ∧ updated s = 0 ∧ deleted s = 0 ∧ unchanged s = 0
      ∧ (∀ i b, nodes Fixtures.empty_heap !! i = Some b → nodes h' !! i = Some b)
      ∧ bookmarks_in h'
        ≡ₚ (link_and_title <$> handled_raindrops Fixtures.shared_link_opts)
           ++ bookmarks_in Fixtures.empty_heap
      ∧ added s = length (handled_raindrops Fixtures.shared_link_opts).
Proof.
  assert (run_ready Fixtures.shared_link_opts Fixtures.empty_heap) as Hready
    by (apply ready_by_computation; vm_compute; reflexivity).
  split; [reflexivity|]. split; [exact Hready|].
  exact (first_run_adds_everything Fixtures.shared_link_opts Fixtures.empty_heap
           eq_refl Hready).
Defined.

Lemma incrementalSync_rerun_stable_witness :
  let items := items_of (raindropClient Scenes.listed_twice_opts)
                        (tree Scenes.listed_twice_opts) in
  run_ready Scenes.listed_twice_opts Fixtures.empty_heap
  ∧ (∀ x y, x ∈ items → y ∈ items → rd_link x.2 = rd_link y.2 →
            rd_title x.2 = rd_title y.2 ∧ collectionId_of x.1 = collectionId_of y.1)
  ∧ ∃ h1 s1 h2 s2,
      incrementalSync Scenes.listed_twice_opts Fixtures.empty_heap = (h1, Return s1)
      ∧ incrementalSync Scenes.listed_twice_opts h1 = (h2, Return s2)
      ∧ added s2 = 0 ∧ updated s2 = 0 ∧ deleted s2 = 0.
Proof.
  intros items.
  assert (run_ready Scenes.listed_twice_opts Fixtures.empty_heap) as Hready
    by (apply ready_by_computation; vm_compute; reflexivity).
  assert (items = [(Some (mkCollection 1 "A"), Fixtures.rd 11 Fixtures.url_a "A");
                   (Some (mkCollection 1 "A"), Fixtures.rd 12 Fixtures.url_a "A")])
    as Hitems by (vm_compute; reflexivity).
  assert (∀ x y, x ∈ items → y ∈ items → rd_link x.2 = rd_link y.2 →
                 rd_title x.2 = rd_title y.2
                 ∧ collectionId_of x.1 = collectionId_of y.1) as Hagree.
  { rewrite Hitems. intros x y Hx Hy _.
    apply elem_of_cons in Hx as [->|Hx]; [|apply list_elem_of_singleton in Hx as ->];
      (apply elem_of_cons in Hy as [->|Hy]; [|apply list_elem_of_singleton in Hy as ->]);
      split; reflexivity. }
  split; [exact Hready|]. split; [exact Hagree|].
  exact (incrementalSync_rerun_stable Scenes.listed_twice_opts Fixtures.empty_heap
           Hready Hagree).
Defined.
